(** * ts-audio: container pipeline, shallow embedding

    The TypeScript sources are embedded function by function.  JavaScript
    numbers that only ever hold integers are modelled in [Z]; the 32-bit
    coercions of the bitwise operators are written out.  Numbers that take
    part in a division are IEEE-754 binary64 values ([float]).  A
    [Uint8Array] is a [list byte].  A function that can throw returns an
    [outcome]; methods of a class thread the object through a state and
    exception monad. *)

From Stdlib Require Import ZArith List Lia Bool Strings.String Strings.Byte.
From Stdlib Require Import QArith Qround.
From Stdlib Require Import Floats.PrimFloat Floats.FloatOps Floats.SpecFloat.
Import ListNotations.
Close Scope Q_scope.
Open Scope string_scope.
Open Scope list_scope.
Open Scope Z_scope.

(** ** JavaScript integers and bitwise operators *)

Module JS.

(** ToInt32 and ToUint32 of an integer-valued number. *)
Definition toInt32 (z : Z) : Z := (z + 2 ^ 31) mod 2 ^ 32 - 2 ^ 31.
Definition toUint32 (z : Z) : Z := z mod 2 ^ 32.

(** [a & b], [a | b], [a ^ b], [~a]. *)
Definition and (a b : Z) : Z := Z.land (toInt32 a) (toInt32 b).
Definition or (a b : Z) : Z := Z.lor (toInt32 a) (toInt32 b).
Definition xor (a b : Z) : Z := Z.lxor (toInt32 a) (toInt32 b).
Definition not (a : Z) : Z := Z.lnot (toInt32 a).

(** [a << n], [a >> n], [a >>> n]: the shift count is taken modulo 32. *)
Definition shl (a n : Z) : Z := toInt32 (Z.shiftl (toInt32 a) (toUint32 n mod 32)).
Definition sar (a n : Z) : Z := Z.shiftr (toInt32 a) (toUint32 n mod 32).
Definition shr (a n : Z) : Z := Z.shiftr (toUint32 a) (toUint32 n mod 32).

(** Element of a [Uint8Array] as a number. *)
Definition u8 (b : byte) : Z := Z.of_N (Byte.to_N b).

(** Storing a number into a [Uint8Array] keeps its low eight bits. *)
Definition to_u8 (z : Z) : byte :=
  match Byte.of_N (Z.to_N (z mod 256)) with
  | Some b => b
  | None => x00
  end.

Definition len {A} (l : list A) : Z := Z.of_nat (List.length l).

(** [a[i]]: [None] is [undefined] (index out of range). *)
Definition elem (a : list byte) (i : Z) : option Z :=
  if i <? 0 then None else option_map u8 (nth_error a (Z.to_nat i)).

(** Coercion of an array element to a number by an arithmetic or bitwise
    operator: [undefined] becomes 0 under ToInt32. *)
Definition int (x : option Z) : Z :=
  match x with Some v => v | None => 0 end.

(** [x === c] for a numeric constant [c]. *)
Definition seq (x : option Z) (c : Z) : bool :=
  match x with Some v => v =? c | None => false end.

(** A string value is the sequence of its UTF-16 code units, numbers from
    0 to 0xFFFF: [s.length] is the length of the list, [s.charCodeAt(i)]
    its element [i].  [lit] is a string written out in the source with
    characters up to U+00FF. *)
Definition str : Type := list Z.
Definition lit (s : string) : str := map u8 (list_byte_of_string s).

(** [a.subarray(b, e)] / [a.slice(b, e)] on a typed array: negative indices
    count from the end, both ends are clamped to the array. *)
Definition rel_index (n i : Z) : Z :=
  if i <? 0 then Z.max (n + i) 0 else Z.min i n.

Definition subarray {A} (a : list A) (b e : Z) : list A :=
  let n := len a in
  let rb := rel_index n b in
  let re := rel_index n e in
  firstn (Z.to_nat (Z.max (re - rb) 0)) (skipn (Z.to_nat rb) a).

(** Numbers as binary64 values. *)
Definition num (z : Z) : float :=
  SF2Prim (binary_normalize prec emax z 0 false).

(** [Math.floor] of a finite number, as an integer. *)
Definition floorZ (f : float) : option Z :=
  match Prim2SF f with
  | S754_zero _ => Some 0
  | S754_finite s m e =>
      let v := if s then Z.neg m else Z.pos m in
      Some (if 0 <=? e then v * 2 ^ e else v / 2 ^ (- e))
  | _ => None
  end.

(** [Math.floor]: zeros, infinities and NaN are returned unchanged. *)
Definition floor (f : float) : float :=
  match Prim2SF f with
  | S754_finite _ _ _ =>
      match floorZ f with
      | Some z => num z
      | None => f
      end
  | _ => f
  end.

(** The integer part of a number that is not an integer, the first step
    of ToInt32 and ToUint32. *)
Definition trunc (q : Q) : Z := if Qle_bool 0 q then Qfloor q else Qceiling q.

End JS.

(** ** Exceptions *)

Inductive outcome (A : Type) : Type :=
| Ok (a : A)
| Throw (msg : string).
Arguments Ok {A} a.
Arguments Throw {A} msg.

(** State and exception monad of a method over an object of type [S]: a
    [throw] leaves the object as the statements before it made it. *)
Definition M (S A : Type) : Type := S -> outcome A * S.

Definition ret {S A} (a : A) : M S A := fun s => (Ok a, s).
Definition throw {S A} (msg : string) : M S A := fun s => (Throw msg, s).
Definition bind {S A B} (m : M S A) (k : A -> M S B) : M S B :=
  fun s => match m s with
           | (Ok a, s') => k a s'
           | (Throw e, s') => (Throw e, s')
           end.
Definition this {S} : M S S := fun s => (Ok s, s).
Definition field {S A} (f : S -> A) : M S A := fun s => (Ok (f s), s).
Definition modify {S} (f : S -> S) : M S unit := fun s => (Ok tt, f s).

(** [try { m } finally { f }] *)
Definition finally {S A} (m : M S A) (f : S -> S) : M S A :=
  fun s => let (r, s') := m s in (r, f s').

(** Run a method of a member object stored in a field. *)
Definition zoom {S T A} (proj : S -> T) (upd : T -> S -> S) (m : M T A) : M S A :=
  fun s => let (r, t') := m (proj s) in (r, upd t' s).

Declare Scope monad_scope.
Delimit Scope monad_scope with monad.
Notation "x <- c ;; k" := (bind c (fun x => k))
  (at level 61, c at next level, right associativity) : monad_scope.
Notation "c ;;; k" := (bind c (fun _ => k))
  (at level 61, right associativity) : monad_scope.
Open Scope monad_scope.

(** ** bitstream.ts: BitReader *)

Module BitReader.

Record t : Type := mk {
  data : list byte;
  bytePos : Z;
  bitPos : Z;
}.

(** [new BitReader(data)] *)
Definition new (d : list byte) : t := mk d 0 0.

Definition position (r : t) : Z := bytePos r * 8 + bitPos r.

Definition readBit : M t Z := fun r =>
  if bytePos r >=? JS.len (data r) then (Throw "End of buffer", r)
  else
    let bit := JS.and (JS.sar (JS.int (JS.elem (data r) (bytePos r))) (7 - bitPos r)) 1 in
    let bitPos1 := bitPos r + 1 in
    if bitPos1 =? 8
    then (Ok bit, mk (data r) (bytePos r + 1) 0)
    else (Ok bit, mk (data r) (bytePos r) bitPos1).

(** The loop [for (i = 0; i < count; i++) result = (result << 1) | readBit()]. *)
Fixpoint readBits_loop (n : nat) (result : Z) : M t Z :=
  match n with
  | O => ret result
  | S n' =>
      bit <- readBit ;;
      readBits_loop n' (JS.or (JS.shl result 1) bit)
  end.

Definition readBits (count : Z) : M t Z :=
  if count >? 32 then throw "Cannot read more than 32 bits at once"
  else readBits_loop (Z.to_nat count) 0.

(** [while (readBit() === 0) { n++; if (n > 32) throw }], shared by
    [readUExpGolomb] and [readUnary].  The counter grows with every turn and
    the loop throws once it passes 32, so 33 turns are all that can happen;
    [fuel] only makes the recursion structural. *)
Fixpoint zeros_loop (msg : string) (fuel : nat) (n : Z) : M t Z :=
  bit <- readBit ;;
  if bit =? 0 then
    let n := n + 1 in
    if n >? 32 then throw msg
    else match fuel with
         | S fuel' => zeros_loop msg fuel' n
         | O => throw "fuel"
         end
  else ret n.

Definition readUExpGolomb : M t Z :=
  leadingZeros <- zeros_loop "Invalid Exp-Golomb code" 33 0 ;;
  if leadingZeros =? 0 then ret 0
  else
    suffix <- readBits leadingZeros ;;
    ret (JS.shl 1 leadingZeros - 1 + suffix).

Definition readUnary : M t Z :=
  zeros_loop "Invalid unary code" 33 0.

Definition readRice (param : Z) : M t Z :=
  quotient <- readUnary ;;
  remainder <- readBits param ;;
  let value := JS.or (JS.shl quotient param) remainder in
  (* zig-zag decoding *)
  ret (JS.xor (JS.sar value 1) (- JS.and value 1)).

(** *** The other methods of [BitReader] *)

Definition bytesRemaining (r : t) : Z :=
  JS.len (data r) - bytePos r - (if bitPos r >? 0 then 1 else 0).

Definition bitsRemaining (r : t) : Z :=
  (JS.len (data r) - bytePos r) * 8 - bitPos r.

(** [readBitsBigInt]: the accumulator is a [bigint], nothing wraps and there
    is no limit on [count]. *)
Fixpoint readBitsBigInt_loop (n : nat) (result : Z) : M t Z :=
  match n with
  | O => ret result
  | S n' =>
      bit <- readBit ;;
      readBitsBigInt_loop n' (Z.lor (Z.shiftl result 1) bit)
  end.

Definition readBitsBigInt (count : Z) : M t Z :=
  readBitsBigInt_loop (Z.to_nat count) 0.

Definition readByte : M t Z := readBits 8.

(** [for (i = 0; i < count; i++) result[i] = readByte()] on a
    [new Uint8Array(count)]. *)
Fixpoint readBytes_loop (n : nat) (result : list byte) : M t (list byte) :=
  match n with
  | O => ret result
  | S n' =>
      b <- readByte ;;
      readBytes_loop n' (result ++ [JS.to_u8 b])
  end.

Definition readBytes (count : Z) : M t (list byte) :=
  if count <? 0 then throw "RangeError"
  else readBytes_loop (Z.to_nat count) [].

Definition readU16BE : M t Z := readBits 16.

Definition readU32BE : M t Z :=
  v <- readBits 32 ;;
  ret (JS.shr v 0).

(** [Math.floor(totalBits / 8)] and [totalBits % 8]: the remainder has the
    sign of [totalBits]. *)
Definition skipBits (count : Z) : M t unit :=
  modify (fun r =>
    let totalBits := bytePos r * 8 + bitPos r + count in
    mk (data r) (totalBits / 8) (Z.rem totalBits 8)).

Definition alignToByte : M t unit :=
  modify (fun r => if bitPos r =? 0 then r else mk (data r) (bytePos r + 1) 0).

Definition seek (bitPosition : Z) : M t unit :=
  modify (fun r => mk (data r) (bitPosition / 8) (Z.rem bitPosition 8)).

(** The position is put back only when [readBits] returns. *)
Definition peek (count : Z) : M t Z :=
  saved <- this ;;
  result <- readBits count ;;
  modify (fun r => mk (data r) (bytePos saved) (bitPos saved)) ;;;
  ret result.

Definition peekBit : M t Z := fun r =>
  if bytePos r >=? JS.len (data r) then (Throw "End of buffer", r)
  else (Ok (JS.and (JS.sar (JS.int (JS.elem (data r) (bytePos r))) (7 - bitPos r)) 1), r).

(** [Math.ceil(code / 2)] of an integer. *)
Definition ceil_half (code : Z) : Z := - ((- code) / 2).

Definition readSExpGolomb : M t Z :=
  code <- readUExpGolomb ;;
  if code =? 0 then ret 0
  else
    let sign := if JS.and code 1 =? 1 then 1 else -1 in
    ret (sign * ceil_half code).

End BitReader.

(** ** bitstream.ts: BitWriter *)

Module BitWriter.

Record t : Type := mk {
  buffers : list (list byte);
  currentByte : Z;
  bitPos : Z;
  totalBits : Z;
}.

(** [new BitWriter()] *)
Definition new : t := mk [] 0 0 0.

Definition writeBit (bit : Z) : M t unit := fun w =>
  let currentByte1 := JS.or (JS.shl (currentByte w) 1) (JS.and bit 1) in
  let bitPos1 := bitPos w + 1 in
  let totalBits1 := totalBits w + 1 in
  if bitPos1 =? 8
  then (Ok tt, mk (buffers w ++ [[JS.to_u8 currentByte1]]) 0 0 totalBits1)
  else (Ok tt, mk (buffers w) currentByte1 bitPos1 totalBits1).

(** [for (i = count - 1; i >= 0; i--) writeBit((value >> i) & 1)]; [n] is
    the number of turns left, the index of the turn is [n - 1]. *)
Fixpoint writeBits_loop (value : Z) (n : nat) : M t unit :=
  match n with
  | O => ret tt
  | S n' =>
      writeBit (JS.and (JS.sar value (Z.of_nat n')) 1) ;;;
      writeBits_loop value n'
  end.

Definition writeBits (value count : Z) : M t unit :=
  if count >? 32 then throw "Cannot write more than 32 bits at once"
  else writeBits_loop value (Z.to_nat count).

(** [for (i = 0; i < n; i++) writeBit(bit)] *)
Fixpoint repeatBit (bit : Z) (n : nat) : M t unit :=
  match n with
  | O => ret tt
  | S n' => writeBit bit ;;; repeatBit bit n'
  end.

(** [Math.floor(Math.log2(code))]: for a positive integer below 2^53 the
    index of its top bit ([Math.log2] is exact at the powers of two); the
    logarithm of a number that is not positive is NaN or -Infinity, [None]
    here. *)
Definition floor_log2 (code : Z) : option Z :=
  if code <=? 0 then None else Some (Z.log2 code).

Definition writeUExpGolomb (value : Z) : M t unit :=
  if value =? 0 then writeBit 1
  else
    let code := value + 1 in
    match floor_log2 code with
    | Some l =>
        let bits := l + 1 in
        let leadingZeros := bits - 1 in
        repeatBit 0 (Z.to_nat leadingZeros) ;;;
        writeBits code bits
    | None =>
        (* [bits] is NaN or -Infinity: no loop is entered *)
        ret tt
    end.

Definition writeUnary (value : Z) : M t unit :=
  repeatBit 0 (Z.to_nat value) ;;;
  writeBit 1.

Definition writeRice (value param : Z) : M t unit :=
  (* zig-zag encoding *)
  let unsigned := if value >=? 0 then value * 2 else - value * 2 - 1 in
  let quotient := JS.sar unsigned param in
  let remainder := JS.and unsigned (JS.shl 1 param - 1) in
  writeUnary quotient ;;;
  writeBits remainder param.

Definition last_elem (l : list byte) : option Z :=
  JS.elem l (JS.len l - 1).

Definition getBuffer : M t (list byte) := fun w =>
  let flushBits := if bitPos w >? 0 then 8 - bitPos w else 0 in
  let savedBitPos := bitPos w in
  let (_, w1) := (if flushBits >? 0 then repeatBit 0 (Z.to_nat flushBits) else ret tt) w in
  let result := List.concat (buffers w1) in
  if flushBits >? 0
  then (Ok result,
        mk (removelast (buffers w1))
           (JS.sar (JS.int (last_elem result)) flushBits)
           savedBitPos
           (totalBits w1))
  else (Ok result, w1).

(** *** The other methods of [BitWriter] *)

(** [writeBitsBigInt]: bit [i] of a [bigint], no limit on [count]. *)
Fixpoint writeBitsBigInt_loop (value : Z) (n : nat) : M t unit :=
  match n with
  | O => ret tt
  | S n' =>
      writeBit (Z.land (Z.shiftr value (Z.of_nat n')) 1) ;;;
      writeBitsBigInt_loop value n'
  end.

Definition writeBitsBigInt (value count : Z) : M t unit :=
  writeBitsBigInt_loop value (Z.to_nat count).

Definition writeByte (value : Z) : M t unit := writeBits value 8.

(** [for (const byte of data) writeByte(byte)] *)
Fixpoint writeBytes (data : list byte) : M t unit :=
  match data with
  | [] => ret tt
  | b :: rest => writeByte (JS.u8 b) ;;; writeBytes rest
  end.

Definition writeU16BE (value : Z) : M t unit := writeBits value 16.

Definition writeU32BE (value : Z) : M t unit := writeBits (JS.shr value 0) 32.

(** [while (this.bitPos !== 0) writeBit(padBit)]: [bitPos] is kept in 0..7
    by [writeBit], so the loop is left after at most seven turns; [fuel]
    only makes the recursion structural. *)
Fixpoint align_loop (fuel : nat) (padBit : Z) : M t unit :=
  w <- this ;;
  if bitPos w =? 0 then ret tt
  else match fuel with
       | S fuel' => writeBit padBit ;;; align_loop fuel' padBit
       | O => throw "fuel"
       end.

Definition alignToByte (padBit : Z) : M t unit := align_loop 8 padBit.

Definition writeSExpGolomb (value : Z) : M t unit :=
  if value =? 0 then writeUExpGolomb 0
  else if value >? 0 then writeUExpGolomb (value * 2 - 1)
  else writeUExpGolomb (- value * 2).

(** [Math.ceil(this.totalBits / 8)] *)
Definition length (w : t) : Z := - ((- totalBits w) / 8).

Definition reset : M t unit := modify (fun _ => new).

End BitWriter.

(** ** bitstream.ts: CRC-32 *)

Module Crc.

(** The inner loop: eight shift steps of the reflected CRC. *)
Fixpoint crc32_bits (poly : Z) (n : nat) (crc : Z) : Z :=
  match n with
  | O => crc
  | S n' =>
      crc32_bits poly n'
        (if JS.and crc 1 =? 0 then JS.shr crc 1 else JS.xor (JS.shr crc 1) poly)
  end.

Definition crc32_with (data : list byte) (poly init : Z) : Z :=
  let crc := fold_left (fun crc b => crc32_bits poly 8 (JS.xor crc (JS.u8 b))) data init in
  JS.shr (JS.not crc) 0.

Definition crc32 (data : list byte) : Z := crc32_with data 0xEDB88320 0xFFFFFFFF.

(** *** CRC-8 and CRC-16 *)

Fixpoint crc8_bits (poly : Z) (n : nat) (crc : Z) : Z :=
  match n with
  | O => crc
  | S n' =>
      crc8_bits poly n'
        (if JS.and crc 0x80 =? 0 then JS.and (JS.shl crc 1) 0xFF
         else JS.and (JS.xor (JS.shl crc 1) poly) 0xFF)
  end.

Definition crc8_with (data : list byte) (poly : Z) : Z :=
  fold_left (fun crc b => crc8_bits poly 8 (JS.xor crc (JS.u8 b))) data 0.

Definition crc8 (data : list byte) : Z := crc8_with data 0x07.

Fixpoint crc16_bits (poly : Z) (n : nat) (crc : Z) : Z :=
  match n with
  | O => crc
  | S n' =>
      crc16_bits poly n'
        (if JS.and crc 0x8000 =? 0 then JS.and (JS.shl crc 1) 0xFFFF
         else JS.and (JS.xor (JS.shl crc 1) poly) 0xFFFF)
  end.

Definition crc16_with (data : list byte) (poly init : Z) : Z :=
  fold_left (fun crc b => crc16_bits poly 8 (JS.xor crc (JS.shl (JS.u8 b) 8))) data init.

Definition crc16 (data : list byte) : Z := crc16_with data 0x8005 0.

Definition crc16Mp3 (data : list byte) : Z := crc16_with data 0x8005 0xFFFF.

Definition crc8Flac (data : list byte) : Z := crc8_with data 0x07.

(** [crc16Flac] has a loop of its own, with the polynomial written in. *)
Fixpoint crc16Flac_bits (n : nat) (crc : Z) : Z :=
  match n with
  | O => crc
  | S n' =>
      crc16Flac_bits n'
        (if negb (JS.and crc 0x8000 =? 0) then JS.and (JS.xor (JS.shl crc 1) 0x8005) 0xFFFF
         else JS.and (JS.shl crc 1) 0xFFFF)
  end.

Definition crc16Flac (data : list byte) : Z :=
  fold_left (fun crc b => crc16Flac_bits 8 (JS.xor crc (JS.shl (JS.u8 b) 8))) data 0.

End Crc.

(** ** types.ts: sources and targets

    A buffer source holds its bytes; a stream source is read once and cannot
    be addressed.  File and URL sources read through the platform and are
    outside this development. *)

Inductive Source : Type :=
| BufferSource (data : list byte)
| StreamSource.

Inductive Target : Type :=
| BufferTarget
| FileTarget (path : string)
| StreamTarget.

(** ** reader.ts: FileSlice and Reader *)

Module FileSlice.

Record t : Type := mk {
  bytes : list byte;
  offset : Z;
}.

Definition contains (s : t) (pos length : Z) : bool :=
  (pos >=? offset s) && (pos + length <=? offset s + JS.len (bytes s)).

Definition get (s : t) (pos length : Z) : list byte :=
  let start := pos - offset s in
  JS.subarray (bytes s) start (start + length).

End FileSlice.

(** ** DataView accessors

    [new DataView(bytes.buffer, bytes.byteOffset, n)] followed by one [get],
    and a [set] on a new array: integers in big- or little-endian order. *)

Module DataView.

(** The number whose base-256 digits are the bytes, first byte first. *)
Definition be (l : list byte) : Z := fold_left (fun a b => a * 256 + JS.u8 b) l 0.
Definition le (l : list byte) : Z := be (rev l).

(** The [n] bytes at [off]; a view that does not cover them is a
    RangeError. *)
Definition window (data : list byte) (off n : Z) : outcome (list byte) :=
  if (off <? 0) || (off + n >? JS.len data) then Throw "RangeError"
  else Ok (firstn (Z.to_nat n) (skipn (Z.to_nat off) data)).

Definition getUint (n : Z) (littleEndian : bool) (data : list byte) (off : Z) : outcome Z :=
  match window data off n with
  | Ok l => Ok (if littleEndian then le l else be l)
  | Throw e => Throw e
  end.

(** Two's complement reading of an unsigned [8 * n]-bit number. *)
Definition signed (n v : Z) : Z := if v >=? 2 ^ (8 * n - 1) then v - 2 ^ (8 * n) else v.

Definition getInt (n : Z) (littleEndian : bool) (data : list byte) (off : Z) : outcome Z :=
  match getUint n littleEndian data off with
  | Ok v => Ok (signed n v)
  | Throw e => Throw e
  end.

(** The [n] low bytes of an integer, most significant first; what
    [setUint16], [setUint32], [setBigUint64] and their signed versions
    store. *)
Fixpoint digits (n : nat) (v : Z) : list byte :=
  match n with
  | O => []
  | S n' => JS.to_u8 (v / 256 ^ Z.of_nat n') :: digits n' v
  end.

Definition setUint (n : nat) (littleEndian : bool) (value : Z) : list byte :=
  if littleEndian then rev (digits n value) else digits n value.

End DataView.

Module Reader.

Record t : Type := mk {
  position : Z;
  slice : option FileSlice.t;
  source : Source;
  sourceData : option (list byte);
  fileSize : option Z;
}.

Definition DEFAULT_SLICE_SIZE : Z := 64 * 1024.

(** [new Reader(source)] *)
Definition new (src : Source) : t := mk 0 None src None None.
Definition fromSource (src : Source) : t := new src.
Definition fromBuffer (data : list byte) : t := new (BufferSource data).

Definition set_position (p : Z) (r : t) : t :=
  mk p (slice r) (source r) (sourceData r) (fileSize r).
Definition set_slice (s : option FileSlice.t) (r : t) : t :=
  mk (position r) s (source r) (sourceData r) (fileSize r).

Definition init : M t unit := fun r =>
  match source r with
  | BufferSource data =>
      (Ok tt, mk (position r) (slice r) (source r) (Some data) (Some (JS.len data)))
  | StreamSource => (Ok tt, r)
  end.

Definition getSize : M t (option Z) :=
  r <- this ;;
  (match fileSize r with None => init | Some _ => ret tt end) ;;;
  field fileSize.

Definition loadSlice (offset length : Z) : M t unit :=
  r <- this ;;
  match source r with
  | BufferSource _ =>
      (match sourceData r with None => init | Some _ => ret tt end) ;;;
      r <- this ;;
      match sourceData r with
      | Some sd =>
          let end_ := Z.min (offset + length) (JS.len sd) in
          let bytes := JS.subarray sd offset end_ in
          modify (set_slice (Some (FileSlice.mk bytes offset)))
      | None => throw "TypeError"
      end
  | StreamSource => throw "Stream source does not support random access"
  end.

(** [this.slice?.contains(this._position, length)] and, when it holds,
    [this.slice.get(this._position, length)]. *)
Definition cached (r : t) (length : Z) : option (list byte) :=
  match slice r with
  | Some s =>
      if FileSlice.contains s (position r) length
      then Some (FileSlice.get s (position r) length)
      else None
  | None => None
  end.

Definition advance (length : Z) : M t unit :=
  modify (fun r => set_position (position r + length) r).

Definition readBytes (length : Z) : M t (option (list byte)) :=
  r <- this ;;
  match cached r length with
  | Some result =>
      advance length ;;;
      ret (Some result)
  | None =>
      loadSlice (position r) (Z.max length DEFAULT_SLICE_SIZE) ;;;
      r <- this ;;
      match cached r length with
      | None => ret None
      | Some result =>
          advance length ;;;
          ret (Some result)
      end
  end.

Definition peek (length : Z) : M t (option (list byte)) :=
  r <- this ;;
  let pos := position r in
  result <- readBytes length ;;
  modify (set_position pos) ;;;
  ret result.

(** [bytes[i]] of a successful read. *)
Definition at_ (bytes : list byte) (i : Z) : Z := JS.int (JS.elem bytes i).

Definition readU8 : M t (option Z) :=
  bytes <- readBytes 1 ;;
  ret (option_map (fun b => at_ b 0) bytes).

Definition readU16BE : M t (option Z) :=
  bytes <- readBytes 2 ;;
  ret (option_map (fun b => JS.or (JS.shl (at_ b 0) 8) (at_ b 1)) bytes).

Definition readU16LE : M t (option Z) :=
  bytes <- readBytes 2 ;;
  ret (option_map (fun b => JS.or (at_ b 0) (JS.shl (at_ b 1) 8)) bytes).

Definition readU24BE : M t (option Z) :=
  bytes <- readBytes 3 ;;
  ret (option_map
         (fun b => JS.or (JS.or (JS.shl (at_ b 0) 16) (JS.shl (at_ b 1) 8)) (at_ b 2))
         bytes).

Definition readU32BE : M t (option Z) :=
  bytes <- readBytes 4 ;;
  ret (option_map
         (fun b => JS.shr (JS.or (JS.or (JS.or (JS.shl (at_ b 0) 24) (JS.shl (at_ b 1) 16))
                                        (JS.shl (at_ b 2) 8))
                                 (at_ b 3)) 0)
         bytes).

Definition readU32LE : M t (option Z) :=
  bytes <- readBytes 4 ;;
  ret (option_map
         (fun b => JS.shr (JS.or (JS.or (JS.or (at_ b 0) (JS.shl (at_ b 1) 8))
                                        (JS.shl (at_ b 2) 16))
                                 (JS.shl (at_ b 3) 24)) 0)
         bytes).

(** [String.fromCharCode(bytes[0], bytes[1], bytes[2], bytes[3])] *)
Definition readFourCC : M t (option string) :=
  bytes <- readBytes 4 ;;
  ret (option_map string_of_list_byte bytes).

Definition readSyncsafeInt : M t (option Z) :=
  bytes <- readBytes 4 ;;
  ret (option_map
         (fun b => JS.or (JS.or (JS.or (JS.shl (JS.and (at_ b 0) 0x7F) 21)
                                       (JS.shl (JS.and (at_ b 1) 0x7F) 14))
                                (JS.shl (JS.and (at_ b 2) 0x7F) 7))
                         (JS.and (at_ b 3) 0x7F))
         bytes).

Definition skip (length : Z) : M t unit :=
  modify (fun r => set_position (position r + length) r).

Definition seek (pos : Z) : M t unit :=
  modify (set_position pos).

Definition isEOF : M t bool :=
  size <- getSize ;;
  r <- this ;;
  ret (match size with Some s => position r >=? s | None => false end).

Definition remaining : M t (option Z) :=
  size <- getSize ;;
  r <- this ;;
  ret (option_map (fun s => s - position r) size).

Definition close : M t unit :=
  modify (fun r => mk (position r) None (source r) None (fileSize r)).

(** *** The other integer reads *)

Definition readU24LE : M t (option Z) :=
  bytes <- readBytes 3 ;;
  ret (option_map
         (fun b => JS.or (JS.or (at_ b 0) (JS.shl (at_ b 1) 8)) (JS.shl (at_ b 2) 16))
         bytes).

(** [readBytes(n)], then one [DataView] accessor at offset 0 of the bytes
    read. *)
Definition through_view (n : Z) (get : list byte -> Z -> outcome Z) : M t (option Z) :=
  bytes <- readBytes n ;;
  match bytes with
  | None => ret None
  | Some b =>
      match get b 0 with
      | Ok v => ret (Some v)
      | Throw e => throw e
      end
  end.

Definition readU64BE : M t (option Z) := through_view 8 (DataView.getUint 8 false).
Definition readU64LE : M t (option Z) := through_view 8 (DataView.getUint 8 true).
Definition readI16BE : M t (option Z) := through_view 2 (DataView.getInt 2 false).
Definition readI16LE : M t (option Z) := through_view 2 (DataView.getInt 2 true).
Definition readI32BE : M t (option Z) := through_view 4 (DataView.getInt 4 false).
Definition readI32LE : M t (option Z) := through_view 4 (DataView.getInt 4 true).
Definition readI64BE : M t (option Z) := through_view 8 (DataView.getInt 8 false).
Definition readI64LE : M t (option Z) := through_view 8 (DataView.getInt 8 true).

End Reader.

(** ** writer.ts: Writer

    [init] is the only place that opens a stream writer; without it every
    target collects its fragments in [buffers].  The bytes handed to the
    platform when a file target is closed are recorded in [written]. *)

Module Writer.

Record t : Type := mk {
  buffers : list (list byte);
  target : Target;
  _position : Z;
  streamWriter : option (list (list byte) * bool);
  written : option (list byte);
}.

Definition new (tg : Target) : t := mk [] tg 0 None None.
Definition fromTarget (tg : Target) : t := new tg.
Definition toBuffer : t := new BufferTarget.

Definition position (w : t) : Z := _position w.

Definition init : M t unit := fun w =>
  match target w with
  | StreamTarget =>
      (Ok tt, mk (buffers w) (target w) (_position w) (Some ([], false)) (written w))
  | _ => (Ok tt, w)
  end.

Definition writeBytes (data : list byte) : M t unit := fun w =>
  match target w, streamWriter w with
  | StreamTarget, Some (chunks, closed) =>
      if closed then (Throw "TypeError", w)
      else (Ok tt, mk (buffers w) (target w) (_position w + JS.len data)
                      (Some (chunks ++ [data], closed)) (written w))
  | _, _ =>
      (Ok tt, mk (buffers w ++ [data]) (target w) (_position w + JS.len data)
                 (streamWriter w) (written w))
  end.

Definition writeU8 (value : Z) : M t unit :=
  writeBytes [JS.to_u8 (JS.and value 0xFF)].

Definition getBuffer : M t (list byte) :=
  field (fun w => List.concat (buffers w)).

Definition close : M t (list byte) := fun w =>
  match target w, streamWriter w with
  | FileTarget _, _ =>
      let data := List.concat (buffers w) in
      (Ok data, mk (buffers w) (target w) (_position w) (streamWriter w) (Some data))
  | StreamTarget, Some (chunks, closed) =>
      if closed then (Throw "TypeError", w)
      else (Ok [], mk (buffers w) (target w) (_position w) (Some (chunks, true)) (written w))
  | _, _ => getBuffer w
  end.

(** *** The integer writes *)

Definition writeU16BE (value : Z) : M t unit :=
  writeBytes (map JS.to_u8 [JS.and (JS.sar value 8) 0xFF; JS.and value 0xFF]).

Definition writeU16LE (value : Z) : M t unit :=
  writeBytes (map JS.to_u8 [JS.and value 0xFF; JS.and (JS.sar value 8) 0xFF]).

Definition writeU24BE (value : Z) : M t unit :=
  writeBytes (map JS.to_u8 [JS.and (JS.sar value 16) 0xFF; JS.and (JS.sar value 8) 0xFF;
                            JS.and value 0xFF]).

Definition writeU24LE (value : Z) : M t unit :=
  writeBytes (map JS.to_u8 [JS.and value 0xFF; JS.and (JS.sar value 8) 0xFF;
                            JS.and (JS.sar value 16) 0xFF]).

Definition writeU32BE (value : Z) : M t unit := writeBytes (DataView.setUint 4 false value).
Definition writeU32LE (value : Z) : M t unit := writeBytes (DataView.setUint 4 true value).
Definition writeU64BE (value : Z) : M t unit := writeBytes (DataView.setUint 8 false value).
Definition writeU64LE (value : Z) : M t unit := writeBytes (DataView.setUint 8 true value).
Definition writeI16BE (value : Z) : M t unit := writeBytes (DataView.setUint 2 false value).
Definition writeI16LE (value : Z) : M t unit := writeBytes (DataView.setUint 2 true value).
Definition writeI32BE (value : Z) : M t unit := writeBytes (DataView.setUint 4 false value).
Definition writeI32LE (value : Z) : M t unit := writeBytes (DataView.setUint 4 true value).
Definition writeI64BE (value : Z) : M t unit := writeBytes (DataView.setUint 8 false value).
Definition writeI64LE (value : Z) : M t unit := writeBytes (DataView.setUint 8 true value).

(** [bytes[i] = i < value.length ? value.charCodeAt(i) : 0x20] for the four
    positions: the [Uint8Array] keeps the low eight bits of each code
    unit. *)
Definition fourCC (value : JS.str) : list byte :=
  map (fun i => JS.to_u8 (nth i value 0x20)) [0; 1; 2; 3]%nat.

Definition writeFourCC (value : JS.str) : M t unit := writeBytes (fourCC value).

Definition writeSyncsafeInt (value : Z) : M t unit :=
  writeBytes (map JS.to_u8 [JS.and (JS.sar value 21) 0x7F; JS.and (JS.sar value 14) 0x7F;
                            JS.and (JS.sar value 7) 0x7F; JS.and value 0x7F]).

(** [new Uint8Array(length)] with a negative length is a RangeError. *)
Definition writePadding (length value : Z) : M t unit :=
  if length <? 0 then throw "RangeError"
  else writeBytes (repeat (JS.to_u8 value) (Z.to_nat length)).

End Writer.

(** ** types.ts: tracks and packets *)

Record AudioTrackConfig : Type := {
  cfg_codec : string;
  cfg_sampleRate : Z;
  cfg_channels : Z;
  cfg_bitDepth : option Z;
  cfg_bitrate : option Z;
}.

Record OutputAudioTrack : Type := {
  track_id : Z;
  track_config : AudioTrackConfig;
}.

Record EncodedPacket : Type := {
  pkt_data : list byte;
  pkt_timestamp : float;
  pkt_isKeyframe : bool;
}.

(** ** muxer.ts: AsyncMutex and the Muxer base class *)

Module AsyncMutex.

Record t : Type := mk { locked : bool }.

Definition new : t := mk false.

(** A caller that finds the mutex locked waits in the queue until [release]
    hands the lock over.  Calls are run one after another here, so the mutex
    is free whenever [acquire] is entered and the queue is empty whenever
    [release] is. *)
Definition acquire (m : t) : t := mk true.
Definition release (m : t) : t := mk false.

End AsyncMutex.

Module Muxer.

Section Base.

(** Fields of the subclass. *)
Context {X : Type}.

Record t : Type := mk {
  writer : Writer.t;
  tracks : list OutputAudioTrack;
  metadata : list (string * string);
  mutex : AsyncMutex.t;
  nextTrackId : Z;
  headerWritten : bool;
  finalized : bool;
  ext : X;
}.

Definition set_writer (w : Writer.t) (m : t) : t :=
  mk w (tracks m) (metadata m) (mutex m) (nextTrackId m) (headerWritten m) (finalized m) (ext m).
Definition set_mutex (x : AsyncMutex.t) (m : t) : t :=
  mk (writer m) (tracks m) (metadata m) x (nextTrackId m) (headerWritten m) (finalized m) (ext m).
Definition set_headerWritten (b : bool) (m : t) : t :=
  mk (writer m) (tracks m) (metadata m) (mutex m) (nextTrackId m) b (finalized m) (ext m).
Definition set_finalized (b : bool) (m : t) : t :=
  mk (writer m) (tracks m) (metadata m) (mutex m) (nextTrackId m) (headerWritten m) b (ext m).
Definition set_ext (x : X) (m : t) : t :=
  mk (writer m) (tracks m) (metadata m) (mutex m) (nextTrackId m) (headerWritten m) (finalized m) x.

(** [new SubMuxer(target)] with the subclass fields initialised to [x]. *)
Definition new (target : Target) (x : X) : t :=
  mk (Writer.new target) [] [] AsyncMutex.new 1 false false x.

(** Methods of [this.writer]. *)
Definition on_writer {A} (m : M Writer.t A) : M t A :=
  zoom writer set_writer m.

(** The abstract methods. *)
Class Impl : Type := {
  formatName : string;
  mimeType : string;
  writeHeader : M t unit;
  writeAudioPacket : OutputAudioTrack -> EncodedPacket -> M t unit;
  writeTrailer : M t unit;
  onTrackAdded : OutputAudioTrack -> t -> t;
}.

Context {impl : Impl}.

Definition withLock {A} (fn : M t A) : M t A :=
  modify (fun m => set_mutex (AsyncMutex.acquire (mutex m)) m) ;;;
  finally fn (fun m => set_mutex (AsyncMutex.release (mutex m)) m).

Definition addAudioTrack (config : AudioTrackConfig) : M t OutputAudioTrack := fun m =>
  let track := {| track_id := nextTrackId m; track_config := config |} in
  let m1 := mk (writer m) (tracks m ++ [track]) (metadata m) (mutex m)
               (nextTrackId m + 1) (headerWritten m) (finalized m) (ext m) in
  (Ok track, onTrackAdded track m1).

(** [{ ...this.metadata, ...metadata }]: a later binding of a key wins. *)
Definition setMetadata (md : list (string * string)) : M t unit :=
  modify (fun m => mk (writer m) (tracks m) (metadata m ++ md) (mutex m)
                      (nextTrackId m) (headerWritten m) (finalized m) (ext m)).

(** [if (!this.headerWritten) { await this.writeHeader(); this.headerWritten = true }],
    the opening of both [writePacket] and [finalize]. *)
Definition ensureHeader : M t unit :=
  m <- this ;;
  if negb (headerWritten m) then
    writeHeader ;;;
    modify (set_headerWritten true)
  else ret tt.

(** The message of the error for an unknown track also names the id. *)
Definition writePacket (trackId : Z) (packet : EncodedPacket) : M t unit :=
  withLock (
    ensureHeader ;;;
    m <- this ;;
    match find (fun t => track_id t =? trackId) (tracks m) with
    | None => throw "Track not found"
    | Some track => writeAudioPacket track packet
    end).

Definition finalize : M t (list byte) :=
  withLock (
    m <- this ;;
    if finalized m then throw "Muxer already finalized"
    else
      ensureHeader ;;;
      writeTrailer ;;;
      modify (set_finalized true) ;;;
      on_writer Writer.close).

Definition size (m : t) : Z := Writer.position (writer m).

End Base.

Arguments t X : clear implicits.
Arguments Impl X : clear implicits.

End Muxer.

(** ** AAC package: ADTS headers and the AAC muxer *)

Module Aac.

Definition AAC_SAMPLE_RATES : list (option Z) :=
  [Some 96000; Some 88200; Some 64000; Some 48000; Some 44100; Some 32000;
   Some 24000; Some 22050; Some 16000; Some 12000; Some 11025; Some 8000; Some 7350;
   None; None; None].

Definition createAdtsHeader (profile sampleRateIndex channels frameLength : Z) : list byte :=
  map JS.to_u8
    [ 0xFF;
      0xF1;
      JS.or (JS.or (JS.shl (JS.and profile 0x03) 6) (JS.shl (JS.and sampleRateIndex 0x0F) 2))
            (JS.and (JS.sar channels 2) 0x01);
      JS.or (JS.shl (JS.and channels 0x03) 6) (JS.and (JS.sar frameLength 11) 0x03);
      JS.and (JS.sar frameLength 3) 0xFF;
      JS.or (JS.shl (JS.and frameLength 0x07) 5) 0x1F;
      0xFC ].

(** [AAC_SAMPLE_RATES.indexOf(sampleRate)] *)
Fixpoint indexOf (l : list (option Z)) (x : Z) (i : Z) : Z :=
  match l with
  | [] => -1
  | Some y :: l' => if y =? x then i else indexOf l' x (i + 1)
  | None :: l' => indexOf l' x (i + 1)
  end.

Definition getSampleRateIndex (sampleRate : Z) : Z :=
  let index := indexOf AAC_SAMPLE_RATES sampleRate 0 in
  if index >=? 0 then index else 4.

(** Fields of [AacMuxer]. *)
Record fields : Type := mk {
  packets : list (list byte);
  sampleRate : Z;
  channels : Z;
  profile : Z;
}.

Definition init_fields : fields := mk [] 44100 2 1.

Definition AacMuxer : Type := Muxer.t fields.

(** The test [packet.data[0] === 0xFF && (packet.data[1] & 0xF0) === 0xF0]. *)
Definition hasAdtsHeader (data : list byte) : bool :=
  JS.seq (JS.elem data 0) 0xFF && (JS.and (JS.int (JS.elem data 1)) 0xF0 =? 0xF0).

Definition push (p : list byte) (m : AacMuxer) : AacMuxer :=
  let x := Muxer.ext m in
  Muxer.set_ext (mk (packets x ++ [p]) (sampleRate x) (channels x) (profile x)) m.

Definition aac_writeAudioPacket (_track : OutputAudioTrack) (packet : EncodedPacket)
  : M AacMuxer unit := fun m =>
  let x := Muxer.ext m in
  if hasAdtsHeader (pkt_data packet) then
    (Ok tt, push (pkt_data packet) m)
  else
    let sampleRateIndex := getSampleRateIndex (sampleRate x) in
    let frameLength := 7 + JS.len (pkt_data packet) in
    let header := createAdtsHeader (profile x) sampleRateIndex (channels x) frameLength in
    (* frame.set(header, 0); frame.set(packet.data, 7) *)
    let frame := header ++ pkt_data packet in
    (Ok tt, push frame m).

(** [for (const packet of this.packets) await this.writer.writeBytes(packet)] *)
Fixpoint writeAll (ps : list (list byte)) : M Writer.t unit :=
  match ps with
  | [] => ret tt
  | p :: ps' => Writer.writeBytes p ;;; writeAll ps'
  end.

#[global] Instance AacMuxer_impl : Muxer.Impl fields := {|
  Muxer.formatName := "aac";
  Muxer.mimeType := "audio/aac";
  Muxer.writeHeader := ret tt;
  Muxer.writeAudioPacket := aac_writeAudioPacket;
  Muxer.writeTrailer :=
    (m <- this ;; Muxer.on_writer (writeAll (packets (Muxer.ext m))));
  Muxer.onTrackAdded := fun track m =>
    let x := Muxer.ext m in
    Muxer.set_ext (mk (packets x)
                      (cfg_sampleRate (track_config track))
                      (cfg_channels (track_config track))
                      (profile x)) m;
|}.

(** [new AacMuxer(target)] *)
Definition new (target : Target) : AacMuxer := Muxer.new target init_fields.

(** The payload starts with the twelve set bits of the ADTS sync word. *)
Definition sync12 (data : list byte) : Prop :=
  JS.elem data 0 = Some 0xFF /\ Z.land (JS.int (JS.elem data 1)) 0xF0 = 0xF0.

(** The sync word followed by a zero layer field: mask [0xF6]. *)
Definition sync_layer0 (data : list byte) : Prop :=
  JS.elem data 0 = Some 0xFF /\ Z.land (JS.int (JS.elem data 1)) 0xF6 = 0xF0.

(** The header the muxer builds for a payload. *)
Definition header_for (m : AacMuxer) (data : list byte) : list byte :=
  let x := Muxer.ext m in
  createAdtsHeader (profile x) (getSampleRateIndex (sampleRate x)) (channels x)
                   (7 + JS.len data).

End Aac.

(** ** AAC package: reading an ADTS header *)

Module Adts.

Record AdtsHeader : Type := {
  syncWord : Z;
  id : Z;
  layer : Z;
  protectionAbsent : bool;
  profile : Z;
  samplingFrequencyIndex : Z;
  privateBit : bool;
  channelConfiguration : Z;
  originalCopy : bool;
  home : bool;
  copyrightIdBit : bool;
  copyrightIdStart : bool;
  frameLength : Z;
  bufferFullness : Z;
  numberOfRawDataBlocksInFrame : Z;
  crcCheck : option Z;
}.

Definition parseAdtsHeader (data : list byte) (offset : Z) : option AdtsHeader :=
  if offset + 7 >? JS.len data then None
  else
    let d i := JS.int (JS.elem data (offset + i)) in
    (* sync word (12 bits, all 1s) *)
    if negb (JS.seq (JS.elem data offset) 0xFF) || negb (JS.and (d 1) 0xF0 =? 0xF0) then None
    else
      let b1 := d 1 in
      let b2 := d 2 in
      let b3 := d 3 in
      let b4 := d 4 in
      let b5 := d 5 in
      let b6 := d 6 in
      let id := JS.and (JS.sar b1 3) 0x01 in
      let layer := JS.and (JS.sar b1 1) 0x03 in
      let protectionAbsent := JS.and b1 0x01 =? 1 in
      let profile := JS.and (JS.sar b2 6) 0x03 in
      let samplingFrequencyIndex := JS.and (JS.sar b2 2) 0x0F in
      let privateBit := JS.and (JS.sar b2 1) 0x01 =? 1 in
      let channelConfiguration :=
        JS.or (JS.shl (JS.and b2 0x01) 2) (JS.and (JS.sar b3 6) 0x03) in
      let originalCopy := JS.and (JS.sar b3 5) 0x01 =? 1 in
      let home := JS.and (JS.sar b3 4) 0x01 =? 1 in
      let copyrightIdBit := JS.and (JS.sar b3 3) 0x01 =? 1 in
      let copyrightIdStart := JS.and (JS.sar b3 2) 0x01 =? 1 in
      let frameLength :=
        JS.or (JS.or (JS.shl (JS.and b3 0x03) 11) (JS.shl b4 3)) (JS.and (JS.sar b5 5) 0x07) in
      let bufferFullness :=
        JS.or (JS.shl (JS.and b5 0x1F) 6) (JS.and (JS.sar b6 2) 0x3F) in
      let numberOfRawDataBlocksInFrame := JS.and b6 0x03 in
      (* validate *)
      if negb (layer =? 0) then None
      else if samplingFrequencyIndex >? 12 then None
      else if frameLength <? 7 then None
      else
        Some {| syncWord := 0xFFF;
                id := id;
                layer := layer;
                protectionAbsent := protectionAbsent;
                profile := profile;
                samplingFrequencyIndex := samplingFrequencyIndex;
                privateBit := privateBit;
                channelConfiguration := channelConfiguration;
                originalCopy := originalCopy;
                home := home;
                copyrightIdBit := copyrightIdBit;
                copyrightIdStart := copyrightIdStart;
                frameLength := frameLength;
                bufferFullness := bufferFullness;
                numberOfRawDataBlocksInFrame := numberOfRawDataBlocksInFrame;
                (* the CRC, when there is one and the data reach that far *)
                crcCheck :=
                  if negb protectionAbsent && (offset + 9 <=? JS.len data)
                  then Some (JS.or (JS.shl (d 7) 8) (d 8))
                  else None |}.

End Adts.

(** ** MP3 package: frame headers *)

Module Mp3.

Inductive MpegVersion : Type := MPEG1 | MPEG2 | MPEG2_5.
Inductive Layer : Type := Layer1 | Layer2 | Layer3.
Inductive ChannelMode : Type := Stereo | JointStereo | DualChannel | Mono.

Definition MPEG_VERSIONS (bits : Z) : option MpegVersion :=
  match bits with
  | 0 => Some MPEG2_5
  | 2 => Some MPEG2
  | 3 => Some MPEG1
  | _ => None
  end.

Definition LAYERS (bits : Z) : option Layer :=
  match bits with
  | 1 => Some Layer3
  | 2 => Some Layer2
  | 3 => Some Layer1
  | _ => None
  end.

(** Bitrate tables in kbps; the key of MPEG2.5 is that of MPEG2. *)
Definition BITRATES (v : MpegVersion) (l : Layer) : list (option Z) :=
  match v, l with
  | MPEG1, Layer1 =>
      [None; Some 32; Some 64; Some 96; Some 128; Some 160; Some 192; Some 224;
       Some 256; Some 288; Some 320; Some 352; Some 384; Some 416; Some 448; None]
  | MPEG1, Layer2 =>
      [None; Some 32; Some 48; Some 56; Some 64; Some 80; Some 96; Some 112;
       Some 128; Some 160; Some 192; Some 224; Some 256; Some 320; Some 384; None]
  | MPEG1, Layer3 =>
      [None; Some 32; Some 40; Some 48; Some 56; Some 64; Some 80; Some 96;
       Some 112; Some 128; Some 160; Some 192; Some 224; Some 256; Some 320; None]
  | _, Layer1 =>
      [None; Some 32; Some 48; Some 56; Some 64; Some 80; Some 96; Some 112;
       Some 128; Some 144; Some 160; Some 176; Some 192; Some 224; Some 256; None]
  | _, _ =>
      [None; Some 8; Some 16; Some 24; Some 32; Some 40; Some 48; Some 56;
       Some 64; Some 80; Some 96; Some 112; Some 128; Some 144; Some 160; None]
  end.

Definition SAMPLE_RATES (v : MpegVersion) : list (option Z) :=
  match v with
  | MPEG1 => [Some 44100; Some 48000; Some 32000; None]
  | MPEG2 => [Some 22050; Some 24000; Some 16000; None]
  | MPEG2_5 => [Some 11025; Some 12000; Some 8000; None]
  end.

Definition SAMPLES_PER_FRAME (v : MpegVersion) (l : Layer) : Z :=
  match v, l with
  | _, Layer1 => 384
  | _, Layer2 => 1152
  | MPEG1, Layer3 => 1152
  | _, Layer3 => 576
  end.

Definition CHANNEL_MODES (bits : Z) : ChannelMode :=
  match bits with
  | 0 => Stereo
  | 1 => JointStereo
  | 2 => DualChannel
  | _ => Mono
  end.

Record Mp3FrameHeader : Type := {
  version : MpegVersion;
  layer : Layer;
  hasCrc : bool;
  bitrate : Z;
  sampleRate : Z;
  padding : bool;
  channelMode : ChannelMode;
  channels : Z;
  samplesPerFrame : Z;
  frameSize : float;
}.

(** Table lookup [table[i]]; an entry that is [null], [undefined] or 0 is
    falsy and rejected by the caller. *)
Definition lookup (table : list (option Z)) (i : Z) : option Z :=
  match nth_error table (Z.to_nat i) with
  | Some (Some v) => if v =? 0 then None else Some v
  | _ => None
  end.

Definition is_Layer1 (l : Layer) : bool :=
  match l with Layer1 => true | _ => false end.
Definition is_Layer3 (l : Layer) : bool :=
  match l with Layer3 => true | _ => false end.
Definition is_MPEG1 (v : MpegVersion) : bool :=
  match v with MPEG1 => true | _ => false end.

Definition parseFrameHeader (data : list byte) (offset : Z) : option Mp3FrameHeader :=
  if offset + 4 >? JS.len data then None
  else
    let h0 := JS.elem data offset in
    let h1 := JS.int (JS.elem data (offset + 1)) in
    let h2 := JS.int (JS.elem data (offset + 2)) in
    let h3 := JS.int (JS.elem data (offset + 3)) in
    (* sync bits (11 bits) *)
    if negb (JS.seq h0 0xFF) || negb (JS.and h1 0xE0 =? 0xE0) then None
    else
      let versionBits := JS.and (JS.sar h1 3) 0x03 in
      let layerBits := JS.and (JS.sar h1 1) 0x03 in
      let protectionBit := JS.and h1 0x01 in
      let bitrateBits := JS.and (JS.sar h2 4) 0x0F in
      let sampleRateBits := JS.and (JS.sar h2 2) 0x03 in
      let paddingBit := JS.and (JS.sar h2 1) 0x01 in
      let channelModeBits := JS.and (JS.sar h3 6) 0x03 in
      match MPEG_VERSIONS versionBits, LAYERS layerBits with
      | Some version, Some layer =>
          match lookup (BITRATES version layer) bitrateBits,
                lookup (SAMPLE_RATES version) sampleRateBits with
          | Some bitrate, Some sampleRate =>
              let samplesPerFrame := SAMPLES_PER_FRAME version layer in
              let channelMode := CHANNEL_MODES channelModeBits in
              let channels := match channelMode with Mono => 1 | _ => 2 end in
              let pad := if paddingBit =? 0 then 0%float else 1%float in
              let br := JS.num bitrate in
              let sr := JS.num sampleRate in
              let frameSize :=
                if is_Layer1 layer then
                  JS.floor ((12 * br * 1000 / sr + pad) * 4)%float
                else
                  let slotSize :=
                    if is_Layer3 layer && negb (is_MPEG1 version) then 72%float else 144%float in
                  JS.floor (slotSize * br * 1000 / sr + pad)%float
              in
              Some {| version := version;
                      layer := layer;
                      hasCrc := protectionBit =? 0;
                      bitrate := bitrate * 1000;
                      sampleRate := sampleRate;
                      padding := paddingBit =? 1;
                      channelMode := channelMode;
                      channels := channels;
                      samplesPerFrame := samplesPerFrame;
                      frameSize := frameSize |}
          | _, _ => None
          end
      | _, _ => None
      end.

(** The record [parseFrameHeader] returns, as a function of the decoded
    fields: version, layer, table entries, padding bit, CRC flag and
    channel mode. *)
Definition built (v : MpegVersion) (l : Layer) (br sr pb : Z)
           (crc : bool) (cm : ChannelMode) : Mp3FrameHeader :=
  {| version := v;
     layer := l;
     hasCrc := crc;
     bitrate := br * 1000;
     sampleRate := sr;
     padding := pb =? 1;
     channelMode := cm;
     channels := match cm with Mono => 1 | _ => 2 end;
     samplesPerFrame := SAMPLES_PER_FRAME v l;
     frameSize :=
       let pad := if pb =? 0 then 0%float else 1%float in
       if is_Layer1 l then
         JS.floor ((12 * JS.num br * 1000 / JS.num sr + pad) * 4)%float
       else
         JS.floor ((if is_Layer3 l && negb (is_MPEG1 v) then 72 else 144)
                   * JS.num br * 1000 / JS.num sr + pad)%float |}.

(** *** The frame size in exact arithmetic

    [kbps] is the table entry, [ratio k] the rational [k * kbps * 1000 /
    sampleRate]. *)

Definition kbps (h : Mp3FrameHeader) : Z := bitrate h / 1000.
Definition pad_of (h : Mp3FrameHeader) : Z := if padding h then 1 else 0.
Definition slot_of (h : Mp3FrameHeader) : Z :=
  if is_Layer3 (layer h) && negb (is_MPEG1 (version h)) then 72 else 144.
Definition ratio (k : Z) (h : Mp3FrameHeader) : Q :=
  (inject_Z (k * kbps h * 1000) / inject_Z (sampleRate h))%Q.

(** Layer 1 floors before the multiplication by 4. *)
Definition frame_size_floor_first (h : Mp3FrameHeader) : Z :=
  if is_Layer1 (layer h)
  then Qfloor (ratio 12 h + inject_Z (pad_of h)) * 4
  else Qfloor (ratio (slot_of h) h + inject_Z (pad_of h)).

(** Layer 1 floors after the multiplication by 4. *)
Definition frame_size_floor_last (h : Mp3FrameHeader) : Z :=
  if is_Layer1 (layer h)
  then Qfloor ((ratio 12 h + inject_Z (pad_of h)) * inject_Z 4)
  else Qfloor (ratio (slot_of h) h + inject_Z (pad_of h)).

End Mp3.

(** ** FLAC package: STREAMINFO *)

Module Flac.

Definition FLAC_MAGIC : Z := 0x664C6143.

Record FlacStreamInfo : Type := {
  minBlockSize : Z;
  maxBlockSize : Z;
  minFrameSize : Z;
  maxFrameSize : Z;
  sampleRate : Z;
  channels : Z;
  bitsPerSample : Z;
  totalSamples : Z;
  md5 : list byte;
}.

(** [view.getUint16(off, false)] on a view over the whole array. *)
Definition getUint16BE (data : list byte) (off : Z) : outcome Z :=
  match JS.elem data off, JS.elem data (off + 1) with
  | Some hi, Some lo => Ok (hi * 256 + lo)
  | _, _ => Throw "RangeError"
  end.

(** [data[i]] under a bitwise operator. *)
Definition at_ (data : list byte) (i : Z) : Z := JS.int (JS.elem data i).

Definition parseStreamInfo (data : list byte) : outcome FlacStreamInfo :=
  match getUint16BE data 0 with
  | Throw e => Throw e
  | Ok minBlockSize =>
  match getUint16BE data 2 with
  | Throw e => Throw e
  | Ok maxBlockSize =>
      let d := at_ data in
      let minFrameSize := JS.or (JS.or (JS.shl (d 4) 16) (JS.shl (d 5) 8)) (d 6) in
      let maxFrameSize := JS.or (JS.or (JS.shl (d 7) 16) (JS.shl (d 8) 8)) (d 9) in
      (* sample rate (20 bits), channels (3 bits), bits per sample (5 bits) *)
      let sampleRate := JS.or (JS.or (JS.shl (d 10) 12) (JS.shl (d 11) 4)) (JS.sar (d 12) 4) in
      let channels := JS.and (JS.sar (d 12) 1) 0x07 + 1 in
      (* [+] binds tighter than [|]: x | (y + 1) *)
      let bitsPerSample := JS.or (JS.shl (JS.and (d 12) 0x01) 4) (JS.sar (d 13) 4 + 1) in
      (* total samples (36 bits) *)
      let totalSamplesHigh := JS.and (d 13) 0x0F in
      let totalSamplesLow :=
        JS.or (JS.or (JS.or (JS.shl (d 14) 24) (JS.shl (d 15) 16)) (JS.shl (d 16) 8)) (d 17) in
      let totalSamples := Z.lor (Z.shiftl totalSamplesHigh 32) (JS.shr totalSamplesLow 0) in
      let md5 := JS.subarray data 18 34 in
      Ok {| minBlockSize := minBlockSize;
            maxBlockSize := maxBlockSize;
            minFrameSize := minFrameSize;
            maxFrameSize := maxFrameSize;
            sampleRate := sampleRate;
            channels := channels;
            bitsPerSample := bitsPerSample;
            totalSamples := totalSamples;
            md5 := md5 |}
  end end.

(** The 5-bit field stored across bytes 12 and 13. *)
Definition bps_field (data : list byte) : Z :=
  Z.lor (Z.shiftl (Z.land (at_ data 12) 1) 4) (Z.shiftr (at_ data 13) 4).

End Flac.

(** ** MP3 and FLAC packages: the muxers *)

Module Mp3Muxer.

Record fields : Type := mk {
  packets : list (list byte);
  sampleRate : Z;
  channels : Z;
  bitrate : Z;
}.

Definition init_fields : fields := mk [] 44100 2 128000.

Definition t : Type := Muxer.t fields.

Definition push (p : list byte) (m : t) : t :=
  let x := Muxer.ext m in
  Muxer.set_ext (mk (packets x ++ [p]) (sampleRate x) (channels x) (bitrate x)) m.

#[global] Instance Mp3Muxer_impl : Muxer.Impl fields := {|
  Muxer.formatName := "mp3";
  Muxer.mimeType := "audio/mpeg";
  Muxer.writeHeader := ret tt;
  Muxer.writeAudioPacket := fun _track packet => modify (push (pkt_data packet));
  Muxer.writeTrailer :=
    (m <- this ;; Muxer.on_writer (Aac.writeAll (packets (Muxer.ext m))));
  Muxer.onTrackAdded := fun track m =>
    let x := Muxer.ext m in
    Muxer.set_ext (mk (packets x)
                      (cfg_sampleRate (track_config track))
                      (cfg_channels (track_config track))
                      (match cfg_bitrate (track_config track) with
                       | Some b => b
                       | None => 128000
                       end)) m;
|}.

(** [new Mp3Muxer(target)] *)
Definition new (target : Target) : t := Muxer.new target init_fields.

End Mp3Muxer.

Module FlacMuxer.

Definition BLOCK_STREAMINFO : Z := 0.

Record fields : Type := mk {
  packets : list (list byte);
  sampleRate : Z;
  channels : Z;
  bitsPerSample : Z;
}.

Definition init_fields : fields := mk [] 44100 2 16.

Definition t : Type := Muxer.t fields.

Definition push (p : list byte) (m : t) : t :=
  let x := Muxer.ext m in
  Muxer.set_ext (mk (packets x ++ [p]) (sampleRate x) (channels x) (bitsPerSample x)) m.

(** [totalSamples += 4096n] for every stored packet. *)
Definition totalSamples (x : fields) : Z :=
  fold_left (fun total _ => total + 4096) (packets x) 0.

(** The 34 bytes of the STREAMINFO block as [writeTrailer] fills them. *)
Definition streamInfo (x : fields) : list byte :=
  DataView.setUint 2 false 4096            (* min block size *)
  ++ DataView.setUint 2 false 4096         (* max block size *)
  ++ map JS.to_u8
       [ 0; 0; 0; 0; 0; 0;                 (* frame sizes: unknown *)
         JS.and (JS.sar (sampleRate x) 12) 0xFF;
         JS.and (JS.sar (sampleRate x) 4) 0xFF;
         JS.or (JS.or (JS.shl (JS.and (sampleRate x) 0x0F) 4) (JS.shl (channels x - 1) 1))
               (JS.sar (bitsPerSample x - 1) 4);
         JS.or (JS.shl (JS.and (bitsPerSample x - 1) 0x0F) 4)
               (Z.land (Z.shiftr (totalSamples x) 32) 0x0F) ]
  ++ DataView.setUint 4 false (Z.land (totalSamples x) 0xFFFFFFFF)
  ++ repeat x00 16.                        (* MD5: unknown *)

#[global] Instance FlacMuxer_impl : Muxer.Impl fields := {|
  Muxer.formatName := "flac";
  Muxer.mimeType := "audio/flac";
  Muxer.writeHeader := Muxer.on_writer (Writer.writeFourCC (JS.lit "fLaC"));
  Muxer.writeAudioPacket := fun _track packet => modify (push (pkt_data packet));
  Muxer.writeTrailer :=
    (m <- this ;;
     let x := Muxer.ext m in
     Muxer.on_writer (
       (* metadata block header: last block, STREAMINFO *)
       Writer.writeU8 (JS.or 0x80 BLOCK_STREAMINFO) ;;;
       Writer.writeU24BE 34 ;;;
       Writer.writeBytes (streamInfo x) ;;;
       (* the audio frames *)
       Aac.writeAll (packets x)));
  Muxer.onTrackAdded := fun track m =>
    let x := Muxer.ext m in
    Muxer.set_ext (mk (packets x)
                      (cfg_sampleRate (track_config track))
                      (cfg_channels (track_config track))
                      (match cfg_bitDepth (track_config track) with
                       | Some b => b
                       | None => 16
                       end)) m;
|}.

(** [new FlacMuxer(target)] *)
Definition new (target : Target) : t := Muxer.new target init_fields.

End FlacMuxer.

(** ** WAV package: the RIFF/RF64 demuxer

    Chunk and data sizes are integers; they stay below 2^53 and are exact as
    JavaScript numbers.  Text decoded from INFO tags is kept as the string of
    its bytes. *)

Module Wav.

Definition RIFF_MAGIC : Z := 0x52494646.
Definition RF64_MAGIC : Z := 0x52463634.
Definition WAVE_MAGIC : Z := 0x57415645.
Definition FMT_MAGIC : Z := 0x666D7420.
Definition DATA_MAGIC : Z := 0x64617461.
Definition DS64_MAGIC : Z := 0x64733634.
Definition LIST_MAGIC : Z := 0x4C495354.
Definition INFO_MAGIC : Z := 0x494E464F.

Definition RF64_SIZE_PLACEHOLDER : Z := 0xFFFFFFFF.

Definition WAVE_FORMAT_PCM : Z := 0x0001.
Definition WAVE_FORMAT_IEEE_FLOAT : Z := 0x0003.
Definition WAVE_FORMAT_ALAW : Z := 0x0006.
Definition WAVE_FORMAT_MULAW : Z := 0x0007.
Definition WAVE_FORMAT_EXTENSIBLE : Z := 0xFFFE.

Definition INFO_TAGS : list (string * string) :=
  [("INAM", "title"); ("IART", "artist"); ("IPRD", "album"); ("ICMT", "comment");
   ("ICOP", "copyright"); ("ICRD", "date"); ("IGNR", "genre"); ("ITRK", "trackNumber");
   ("ISFT", "encoder")].

(** A field read from the file is [None] ([null]) when the read fell off
    the end. *)
Record WavFormat : Type := {
  formatCode : option Z;
  channels : option Z;
  sampleRate : option Z;
  byteRate : option Z;
  blockAlign : option Z;
  bitsPerSample : option Z;
  validBitsPerSample : option Z;
  channelMask : option Z;
  subFormat : option (list byte);
}.

Record RiffChunk : Type := {
  chunk_id : Z;
  chunk_size : Z;
  chunk_offset : Z;
}.

Record Ds64Chunk : Type := {
  riffSize : Z;
  dataSize : Z;
  sampleCount : Z;
  tableLength : option Z;
}.

Record AudioTrack : Type := {
  at_id : Z;
  at_index : Z;
  at_codec : string;
  at_sampleRate : option Z;
  at_channels : option Z;
  at_bitDepth : option Z;
  at_sampleFormat : string;
  at_bitrate : Z;
  at_isDefault : bool;
}.

(** [x === c] on a value that may be [null]. *)
Definition eqc (x : option Z) (c : Z) : bool := JS.seq x c.

Definition formatCodeToCodec (code : option Z) : string :=
  if eqc code WAVE_FORMAT_PCM then "pcm"
  else if eqc code WAVE_FORMAT_IEEE_FLOAT then "pcm"
  else if eqc code WAVE_FORMAT_ALAW then "alaw"
  else if eqc code WAVE_FORMAT_MULAW then "ulaw"
  else "pcm".

Definition formatToSampleFormat (format : WavFormat) : string :=
  if eqc (formatCode format) WAVE_FORMAT_IEEE_FLOAT then
    (if eqc (bitsPerSample format) 64 then "f64" else "f32")
  else if eqc (bitsPerSample format) 8 then "u8"
  else if eqc (bitsPerSample format) 16 then "s16"
  else if eqc (bitsPerSample format) 24 then "s24"
  else if eqc (bitsPerSample format) 32 then "s32"
  else "s16".

(** Fields of [Demuxer] followed by those of [WavDemuxer]. *)
Record t : Type := mk {
  reader : Reader.t;
  _tracks : list AudioTrack;
  _duration : float;
  _metadata : list (string * string);
  format : option WavFormat;
  dataChunk : option RiffChunk;
  ds64 : option Ds64Chunk;
  isRf64 : bool;
  currentPosition : Z;
  bytesPerSample : float;
  samplesRead : Z;
  totalSamples : float;
  _initialized : bool;
}.

(** The field initialisers, around a given reader. *)
Definition with_reader (r : Reader.t) : t :=
  mk r [] 0%float [] None None None false 0 0%float 0 0%float false.

(** [new WavDemuxer(source)] *)
Definition new (src : Source) : t := with_reader (Reader.new src).

Definition set_reader (r : Reader.t) (d : t) : t :=
  mk r (_tracks d) (_duration d) (_metadata d) (format d) (dataChunk d) (ds64 d) (isRf64 d)
     (currentPosition d) (bytesPerSample d) (samplesRead d) (totalSamples d) (_initialized d).
Definition set_metadata (md : list (string * string)) (d : t) : t :=
  mk (reader d) (_tracks d) (_duration d) md (format d) (dataChunk d) (ds64 d) (isRf64 d)
     (currentPosition d) (bytesPerSample d) (samplesRead d) (totalSamples d) (_initialized d).
Definition set_format (f : option WavFormat) (d : t) : t :=
  mk (reader d) (_tracks d) (_duration d) (_metadata d) f (dataChunk d) (ds64 d) (isRf64 d)
     (currentPosition d) (bytesPerSample d) (samplesRead d) (totalSamples d) (_initialized d).
Definition set_dataChunk (c : option RiffChunk) (d : t) : t :=
  mk (reader d) (_tracks d) (_duration d) (_metadata d) (format d) c (ds64 d) (isRf64 d)
     (currentPosition d) (bytesPerSample d) (samplesRead d) (totalSamples d) (_initialized d).
Definition set_ds64 (c : option Ds64Chunk) (d : t) : t :=
  mk (reader d) (_tracks d) (_duration d) (_metadata d) (format d) (dataChunk d) c (isRf64 d)
     (currentPosition d) (bytesPerSample d) (samplesRead d) (totalSamples d) (_initialized d).
Definition set_isRf64 (b : bool) (d : t) : t :=
  mk (reader d) (_tracks d) (_duration d) (_metadata d) (format d) (dataChunk d) (ds64 d) b
     (currentPosition d) (bytesPerSample d) (samplesRead d) (totalSamples d) (_initialized d).
Definition set_initialized (b : bool) (d : t) : t :=
  mk (reader d) (_tracks d) (_duration d) (_metadata d) (format d) (dataChunk d) (ds64 d)
     (isRf64 d) (currentPosition d) (bytesPerSample d) (samplesRead d) (totalSamples d) b.

(** Methods of [this.reader]. *)
Definition on_reader {A} (m : M Reader.t A) : M t A :=
  zoom reader set_reader m.

Definition pos : M t Z := field (fun d => Reader.position (reader d)).

Definition parseFmtChunk (size : Z) : M t unit :=
  formatCode <- on_reader Reader.readU16LE ;;
  channels <- on_reader Reader.readU16LE ;;
  sampleRate <- on_reader Reader.readU32LE ;;
  byteRate <- on_reader Reader.readU32LE ;;
  blockAlign <- on_reader Reader.readU16LE ;;
  bitsPerSample <- on_reader Reader.readU16LE ;;
  let fmt0 := {| formatCode := formatCode; channels := channels; sampleRate := sampleRate;
                 byteRate := byteRate; blockAlign := blockAlign;
                 bitsPerSample := bitsPerSample; validBitsPerSample := None;
                 channelMask := None; subFormat := None |} in
  modify (set_format (Some fmt0)) ;;;
  if size >? 16 then
    extSize <- on_reader Reader.readU16LE ;;
    if negb (JS.int extSize =? 0) && (JS.int extSize >=? 22)
       && eqc formatCode WAVE_FORMAT_EXTENSIBLE
    then
      validBits <- on_reader Reader.readU16LE ;;
      modify (set_format (Some
        {| formatCode := formatCode; channels := channels; sampleRate := sampleRate;
           byteRate := byteRate; blockAlign := blockAlign;
           bitsPerSample := bitsPerSample; validBitsPerSample := validBits;
           channelMask := None; subFormat := None |})) ;;;
      mask <- on_reader Reader.readU32LE ;;
      modify (set_format (Some
        {| formatCode := formatCode; channels := channels; sampleRate := sampleRate;
           byteRate := byteRate; blockAlign := blockAlign;
           bitsPerSample := bitsPerSample; validBitsPerSample := validBits;
           channelMask := mask; subFormat := None |})) ;;;
      sub <- on_reader (Reader.readBytes 16) ;;
      modify (set_format (Some
        {| formatCode := formatCode; channels := channels; sampleRate := sampleRate;
           byteRate := byteRate; blockAlign := blockAlign;
           bitsPerSample := bitsPerSample; validBitsPerSample := validBits;
           channelMask := mask; subFormat := sub |}))
    else ret tt
  else ret tt.

(** [BigInt(low!) | (BigInt(high!) << 32n)]; [BigInt(null)] is a TypeError. *)
Definition big64 (low high : option Z) : M t Z :=
  match low, high with
  | Some l, Some h => ret (Z.lor l (Z.shiftl h 32))
  | _, _ => throw "TypeError"
  end.

Definition parseDs64Chunk (size : Z) : M t unit :=
  riffSizeLow <- on_reader Reader.readU32LE ;;
  riffSizeHigh <- on_reader Reader.readU32LE ;;
  dataSizeLow <- on_reader Reader.readU32LE ;;
  dataSizeHigh <- on_reader Reader.readU32LE ;;
  sampleCountLow <- on_reader Reader.readU32LE ;;
  sampleCountHigh <- on_reader Reader.readU32LE ;;
  tableLength <- on_reader Reader.readU32LE ;;
  rs <- big64 riffSizeLow riffSizeHigh ;;
  ds <- big64 dataSizeLow dataSizeHigh ;;
  sc <- big64 sampleCountLow sampleCountHigh ;;
  modify (set_ds64 (Some {| riffSize := rs; dataSize := ds; sampleCount := sc;
                            tableLength := tableLength |})) ;;;
  if (size >? 28) && (JS.int tableLength >? 0)
  then on_reader (Reader.skip (size - 28))
  else ret tt.

(** [info[tagId] = value] on an object used as a map. *)
Fixpoint info_set (k v : string) (info : list (string * string)) : list (string * string) :=
  match info with
  | [] => [(k, v)]
  | (k', v') :: rest =>
      if String.eqb k' k then (k, v) :: rest else (k', v') :: info_set k v rest
  end.

Fixpoint info_get (k : string) (info : list (string * string)) : option string :=
  match info with
  | [] => None
  | (k', v) :: rest => if String.eqb k' k then Some v else info_get k rest
  end.

(** [tagData.subarray(0, nullIndex)] with [nullIndex] the first NUL or the
    length. *)
Fixpoint until_nul (l : list byte) : list byte :=
  match l with
  | [] => []
  | b :: l' => if Byte.eqb b x00 then [] else b :: until_nul l'
  end.

(** The loop of [parseInfoChunk]; every turn that does not leave the loop
    reads the eight bytes of a tag header, so [fuel] turns, one per byte of
    the source and one more, are never used up. *)
Fixpoint info_loop (fuel : nat) (endPos : Z) (info : list (string * string))
  : M t (list (string * string)) :=
  p <- pos ;;
  if p <? endPos - 8 then
    match fuel with
    | O => throw "fuel"
    | S fuel' =>
        tagId <- on_reader Reader.readFourCC ;;
        tagSize <- on_reader Reader.readU32LE ;;
        match tagId, tagSize with
        | Some tagId, Some tagSize =>
            tagData <- on_reader (Reader.readBytes tagSize) ;;
            let info1 :=
              match tagData with
              | Some bytes => info_set tagId (string_of_list_byte (until_nul bytes)) info
              | None => info
              end in
            (if Z.rem tagSize 2 =? 0 then ret tt else on_reader (Reader.skip 1)) ;;;
            info_loop fuel' endPos info1
        | _, _ => ret info
        end
    end
  else ret info.

Definition source_fuel (d : t) : nat :=
  match Reader.source (reader d) with
  | BufferSource data => S (List.length data)
  | StreamSource => 1%nat
  end.

Definition parseInfoChunk (size : Z) : M t (list (string * string)) :=
  p <- pos ;;
  d <- this ;;
  info_loop (source_fuel d) (p + size) [].

(** [this.isRf64 && this.ds64 && chunkSize === RF64_SIZE_PLACEHOLDER] *)
Definition placeholder (d : t) (chunkSize : Z) : option Ds64Chunk :=
  if isRf64 d then
    match ds64 d with
    | Some c => if chunkSize =? RF64_SIZE_PLACEHOLDER then Some c else None
    | None => None
    end
  else None.

(** The chunk loop of [init]; [info] is the local [infoChunk].  Every turn
    that does not leave the loop reads the eight bytes of a chunk header. *)
Fixpoint chunk_loop (fuel : nat) (endPosition : Z) (info : list (string * string))
  : M t (list (string * string)) :=
  p <- pos ;;
  if p <? endPosition then
    match fuel with
    | O => throw "fuel"
    | S fuel' =>
        chunkId <- on_reader Reader.readU32BE ;;
        chunkSize0 <- on_reader Reader.readU32LE ;;
        match chunkId, chunkSize0 with
        | Some chunkId, Some chunkSize0 =>
            d <- this ;;
            let chunkSize :=
              match placeholder d chunkSize0 with
              | Some c => if chunkId =? DATA_MAGIC then dataSize c else chunkSize0
              | None => chunkSize0
              end in
            chunkOffset <- pos ;;
            info1 <-
              (if chunkId =? FMT_MAGIC then
                 parseFmtChunk chunkSize ;;; ret info
               else if chunkId =? DATA_MAGIC then
                 let actualSize :=
                   match placeholder d chunkSize with
                   | Some c => dataSize c
                   | None => chunkSize
                   end in
                 modify (set_dataChunk (Some {| chunk_id := chunkId;
                                                chunk_size := actualSize;
                                                chunk_offset := chunkOffset |})) ;;;
                 ret info
               else if chunkId =? DS64_MAGIC then
                 ret info
               else if chunkId =? LIST_MAGIC then
                 listType <- on_reader Reader.readU32BE ;;
                 if eqc listType INFO_MAGIC then parseInfoChunk (chunkSize - 4)
                 else ret info
               else ret info) ;;
            (* move to the next chunk (align to 16-bit boundary) *)
            let nextPos := chunkOffset + chunkSize + Z.rem chunkSize 2 in
            p1 <- pos ;;
            (if nextPos >? p1 then on_reader (Reader.seek nextPos) else ret tt) ;;;
            chunk_loop fuel' endPosition info1
        | _, _ => ret info
        end
    end
  else ret info.

(** [for (const [tag, key] of Object.entries(INFO_TAGS)) if (infoChunk[tag]) ...];
    the number parsed for [trackNumber] is kept as its text. *)
Fixpoint info_to_metadata (tags : list (string * string)) (info md : list (string * string))
  : list (string * string) :=
  match tags with
  | [] => md
  | (tag, key) :: tags' =>
      match info_get tag info with
      | Some v =>
          if String.eqb v "" then info_to_metadata tags' info md
          else info_to_metadata tags' info (info_set key v md)
      | None => info_to_metadata tags' info md
      end
  end.

Definition init : M t unit :=
  d <- this ;;
  if _initialized d then ret tt
  else
    modify (set_initialized true) ;;;
    on_reader (Reader.seek 0) ;;;
    (* RIFF/RF64 header *)
    riffMagic <- on_reader Reader.readU32BE ;;
    (if eqc riffMagic RF64_MAGIC then modify (set_isRf64 true)
     else if negb (eqc riffMagic RIFF_MAGIC)
          then throw "Invalid WAV file: missing RIFF/RF64 header"
          else ret tt) ;;;
    fileSize0 <- on_reader Reader.readU32LE ;;
    waveMagic <- on_reader Reader.readU32BE ;;
    if negb (eqc waveMagic WAVE_MAGIC) then throw "Invalid WAV file: missing WAVE identifier"
    else
      d <- this ;;
      fileSize <-
        (if isRf64 d then
           (* ds64 must be the first chunk after WAVE *)
           ds64Id <- on_reader Reader.readU32BE ;;
           ds64Size <- on_reader Reader.readU32LE ;;
           match ds64Size with
           | Some sz =>
               if eqc ds64Id DS64_MAGIC then
                 parseDs64Chunk sz ;;;
                 d <- this ;;
                 match ds64 d with
                 | Some c => ret (Some (Z.land (riffSize c) 0xFFFFFFFF))
                 | None => throw "TypeError"
                 end
               else throw "Invalid RF64 file: ds64 chunk must be first"
           | None => throw "Invalid RF64 file: ds64 chunk must be first"
           end
         else ret fileSize0) ;;
      d <- this ;;
      let endPosition :=
        match (if isRf64 d then ds64 d else None) with
        | Some c => riffSize c + 8
        | None => 8 + JS.int fileSize
        end in
      infoChunk <- chunk_loop (source_fuel d) endPosition [] ;;
      modify (set_metadata (info_to_metadata INFO_TAGS infoChunk [])) ;;;
      d <- this ;;
      match format d with
      | None => throw "Invalid WAV file: missing fmt chunk"
      | Some f =>
          match dataChunk d with
          | None => throw "Invalid WAV file: missing data chunk"
          | Some dc =>
              (* sample info *)
              let bytesPerSample := (JS.num (JS.int (bitsPerSample f)) / 8)%float in
              let totalSamples :=
                (JS.num (chunk_size dc) / (bytesPerSample * JS.num (JS.int (channels f))))%float in
              let track :=
                {| at_id := 1;
                   at_index := 0;
                   at_codec := formatCodeToCodec (formatCode f);
                   at_sampleRate := sampleRate f;
                   at_channels := channels f;
                   at_bitDepth := bitsPerSample f;
                   at_sampleFormat := formatToSampleFormat f;
                   at_bitrate := JS.int (byteRate f) * 8;
                   at_isDefault := true |} in
              let duration := (totalSamples / JS.num (JS.int (sampleRate f)))%float in
              (* the audio data starts at the data chunk *)
              modify (fun d =>
                mk (reader d) [track] duration (_metadata d) (format d) (dataChunk d)
                   (ds64 d) (isRf64 d) (chunk_offset dc) bytesPerSample (samplesRead d)
                   totalSamples (_initialized d))
          end
      end.

(** The getter [duration] of the base class. *)
Definition duration (d : t) : float := _duration d.

(** [init()] on a fresh demuxer, then [duration]: what
    [Input.getDuration] returns once the WAV format has been chosen. *)
Definition getDuration (src : Source) : outcome float :=
  let (r, d) := init (new src) in
  match r with
  | Ok _ => Ok (duration d)
  | Throw e => Throw e
  end.

(** *** Canonical PCM files

    The 44-byte header of a PCM file with one [fmt ] chunk of 16 bytes and
    one [data] chunk, followed by the sample bytes. *)

Definition le16 (z : Z) : list byte := map JS.to_u8 [z; z / 2 ^ 8].
Definition le32 (z : Z) : list byte := map JS.to_u8 [z; z / 2 ^ 8; z / 2 ^ 16; z / 2 ^ 24].

Definition canonical_header (rate nchannels bits dataBytes : Z) : list byte :=
  list_byte_of_string "RIFF" ++ le32 (36 + dataBytes) ++ list_byte_of_string "WAVE"
  ++ list_byte_of_string "fmt " ++ le32 16
  ++ le16 WAVE_FORMAT_PCM ++ le16 nchannels ++ le32 rate
  ++ le32 (rate * nchannels * (bits / 8)) ++ le16 (nchannels * (bits / 8)) ++ le16 bits
  ++ list_byte_of_string "data" ++ le32 dataBytes.

Definition canonical_file (rate nchannels bits : Z) (payload : list byte) : list byte :=
  canonical_header rate nchannels bits (JS.len payload) ++ payload.

End Wav.

(** ** WAV package: the muxer

    [bitsPerSample / 8] need not be an integer; the quantities computed from
    it are rationals, and a write drops the fraction.  The products stay
    below 2^53 for every configuration a file can hold and are exact as
    JavaScript numbers. *)

Module WavMuxer.

Record fields : Type := mk {
  audioData : list (list byte);
  sampleRate : Z;
  channels : Z;
  bitsPerSample : Z;
  isFloat : bool;
}.

Definition init_fields : fields := mk [] 44100 2 16 false.

Definition t : Type := Muxer.t fields.

Definition push (p : list byte) (m : t) : t :=
  let x := Muxer.ext m in
  Muxer.set_ext (mk (audioData x ++ [p]) (sampleRate x) (channels x) (bitsPerSample x)
                    (isFloat x)) m.

(** [this.audioData.reduce((sum, data) => sum + data.length, 0)] *)
Definition totalDataSize (x : fields) : Z :=
  fold_left (fun sum data => sum + JS.len data) (audioData x) 0.

Definition bytesPerSample (x : fields) : Q := (inject_Z (bitsPerSample x) / inject_Z 8)%Q.
Definition blockAlign (x : fields) : Q := (inject_Z (channels x) * bytesPerSample x)%Q.
Definition byteRate (x : fields) : Q := (inject_Z (sampleRate x) * blockAlign x)%Q.

Definition trailer (x : fields) : M Writer.t unit :=
  let formatCode := if isFloat x then Wav.WAVE_FORMAT_IEEE_FLOAT else Wav.WAVE_FORMAT_PCM in
  (* RIFF header *)
  Writer.writeFourCC (JS.lit "RIFF") ;;;
  Writer.writeU32LE (36 + totalDataSize x) ;;;
  Writer.writeFourCC (JS.lit "WAVE") ;;;
  (* fmt chunk *)
  Writer.writeFourCC (JS.lit "fmt ") ;;;
  Writer.writeU32LE 16 ;;;
  Writer.writeU16LE formatCode ;;;
  Writer.writeU16LE (channels x) ;;;
  Writer.writeU32LE (sampleRate x) ;;;
  Writer.writeU32LE (JS.trunc (byteRate x)) ;;;
  Writer.writeU16LE (JS.trunc (blockAlign x)) ;;;
  Writer.writeU16LE (bitsPerSample x) ;;;
  (* data chunk *)
  Writer.writeFourCC (JS.lit "data") ;;;
  Writer.writeU32LE (totalDataSize x) ;;;
  (* audio data *)
  Aac.writeAll (audioData x).

(** A track configuration as modelled has no [sampleFormat]: the field
    reads as undefined and [isFloat] is false. *)
#[global] Instance WavMuxer_impl : Muxer.Impl fields := {|
  Muxer.formatName := "wav";
  Muxer.mimeType := "audio/wav";
  Muxer.writeHeader := ret tt;
  Muxer.writeAudioPacket := fun _track packet => modify (push (pkt_data packet));
  Muxer.writeTrailer := (m <- this ;; Muxer.on_writer (trailer (Muxer.ext m)));
  Muxer.onTrackAdded := fun track m =>
    let x := Muxer.ext m in
    Muxer.set_ext (mk (audioData x)
                      (cfg_sampleRate (track_config track))
                      (cfg_channels (track_config track))
                      (match cfg_bitDepth (track_config track) with
                       | Some b => b
                       | None => 16
                       end)
                      false) m;
|}.

(** [new WavMuxer(target)] *)
Definition new (target : Target) : t := Muxer.new target init_fields.

End WavMuxer.

(** ** input.ts and the packages: input formats and format detection *)

Module Input.

Record InputFormat : Type := {
  name : string;
  mimeType : string;
  extensions : list string;
  canRead : Source -> outcome bool;
}.

(** A method body run on [Reader.fromSource(source)]; the reader is local
    to the call. *)
Definition with_reader {A} (src : Source) (m : M Reader.t A) : outcome A :=
  fst (m (Reader.fromSource src)).

Definition Mp3_canRead (src : Source) : outcome bool :=
  with_reader src (
    Reader.seek 0 ;;;
    header <- Reader.readBytes 10 ;;
    match header with
    | None => ret false
    | Some header =>
        (* ID3v2 *)
        if JS.seq (JS.elem header 0) 0x49 && JS.seq (JS.elem header 1) 0x44
           && JS.seq (JS.elem header 2) 0x33
        then ret true
        (* MP3 sync word *)
        else if JS.seq (JS.elem header 0) 0xFF
                && (JS.and (JS.int (JS.elem header 1)) 0xE0 =? 0xE0)
        then ret (match Mp3.parseFrameHeader header 0 with Some _ => true | None => false end)
        else ret false
    end).

Definition Wav_canRead (src : Source) : outcome bool :=
  with_reader src (
    Reader.seek 0 ;;;
    riff <- Reader.readU32BE ;;
    (* both RIFF and RF64 are accepted *)
    if negb (JS.seq riff Wav.RIFF_MAGIC) && negb (JS.seq riff Wav.RF64_MAGIC) then ret false
    else
      Reader.skip 4 ;;;
      wave <- Reader.readU32BE ;;
      ret (JS.seq wave Wav.WAVE_MAGIC)).

Definition Flac_canRead (src : Source) : outcome bool :=
  with_reader src (
    Reader.seek 0 ;;;
    magic <- Reader.readU32BE ;;
    ret (JS.seq magic Flac.FLAC_MAGIC)).

Definition Aac_canRead (src : Source) : outcome bool :=
  with_reader src (
    Reader.seek 0 ;;;
    header <- Reader.readBytes 4 ;;
    match header with
    | None => ret false
    | Some header =>
        (* ADTS sync word *)
        ret (JS.seq (JS.elem header 0) 0xFF
             && (JS.and (JS.int (JS.elem header 1)) 0xF6 =? 0xF0))
    end).

Definition OGG_MAGIC : Z := 0x4F676753.

Definition Ogg_canRead (src : Source) : outcome bool :=
  with_reader src (
    Reader.seek 0 ;;;
    magic <- Reader.readU32BE ;;
    ret (JS.seq magic OGG_MAGIC)).

Definition MP3 : InputFormat :=
  {| name := "mp3"; mimeType := "audio/mpeg"; extensions := ["mp3"];
     canRead := Mp3_canRead |}.
Definition WAV : InputFormat :=
  {| name := "wav"; mimeType := "audio/wav"; extensions := ["wav"; "wave"];
     canRead := Wav_canRead |}.
Definition FLAC : InputFormat :=
  {| name := "flac"; mimeType := "audio/flac"; extensions := ["flac"];
     canRead := Flac_canRead |}.
Definition AAC : InputFormat :=
  {| name := "aac"; mimeType := "audio/aac"; extensions := ["aac"; "adts"];
     canRead := Aac_canRead |}.
Definition OGG : InputFormat :=
  {| name := "ogg"; mimeType := "audio/ogg";
     extensions := ["ogg"; "oga"; "ogx"; "spx"; "opus"];
     canRead := Ogg_canRead |}.

(** [detectFormat] over the registry [inputFormats], in registration
    order. *)
Fixpoint detectFormat (inputFormats : list InputFormat) (src : Source)
  : outcome (option InputFormat) :=
  match inputFormats with
  | [] => Ok None
  | format :: rest =>
      match canRead format src with
      | Throw e => Throw e
      | Ok true => Ok (Some format)
      | Ok false => detectFormat rest src
      end
  end.

(** [registerInputFormat] *)
Definition registerInputFormat (format : InputFormat) (inputFormats : list InputFormat)
  : list InputFormat :=
  inputFormats ++ [format].

(** The registry after the five packages have been registered. *)
Definition registry : list InputFormat :=
  registerInputFormat OGG
    (registerInputFormat AAC
      (registerInputFormat FLAC
        (registerInputFormat WAV
          (registerInputFormat MP3 [])))).

End Input.

(** ** Bit-level view of the bitstream classes *)

Module Bits.

(** The [n] low bits of [v], most significant first. *)
Fixpoint msb_bits (n : nat) (v : Z) : list bool :=
  match n with
  | O => []
  | S n' => Z.testbit v (Z.of_nat n') :: msb_bits n' v
  end.

Definition byte_bits (b : byte) : list bool := msb_bits 8 (JS.u8 b).

Definition of_bytes (l : list byte) : list bool := flat_map byte_bits l.

(** The number a bit string denotes, continuing from [acc]. *)
Definition value (bs : list bool) (acc : Z) : Z :=
  fold_left (fun a b => 2 * a + Z.b2z b) bs acc.

(** What a writer has been given so far: the completed bytes, then the
    bits collected in [currentByte]. *)
Definition written (w : BitWriter.t) : list bool :=
  of_bytes (List.concat (BitWriter.buffers w))
  ++ msb_bits (Z.to_nat (BitWriter.bitPos w)) (BitWriter.currentByte w).

Definition writer_ok (w : BitWriter.t) : Prop :=
  0 <= BitWriter.bitPos w < 8
  /\ 0 <= BitWriter.currentByte w < 2 ^ BitWriter.bitPos w.

(** What a reader has still to deliver. *)
Definition pending (r : BitReader.t) : list bool :=
  match skipn (Z.to_nat (BitReader.bytePos r)) (BitReader.data r) with
  | [] => []
  | b :: tl => skipn (Z.to_nat (BitReader.bitPos r)) (byte_bits b) ++ of_bytes tl
  end.

Definition reader_ok (r : BitReader.t) : Prop :=
  0 <= BitReader.bytePos r /\ 0 <= BitReader.bitPos r < 8.

(** A writer method that succeeds and adds exactly the bits [bs]. *)
Definition appends (m : M BitWriter.t unit) (bs : list bool) : Prop :=
  forall w, writer_ok w ->
    exists w', m w = (Ok tt, w')
               /\ writer_ok w'
               /\ written w' = written w ++ bs
               /\ BitWriter.bitPos w' = (BitWriter.bitPos w + JS.len bs) mod 8.

(** A reader method that consumes exactly the bits [bs] and returns [v]. *)
Definition delivers (m : M BitReader.t Z) (bs : list bool) (v : Z) : Prop :=
  forall r tl, reader_ok r -> pending r = bs ++ tl ->
    exists r', m r = (Ok v, r') /\ reader_ok r' /\ pending r' = tl.

(** A reader method that throws [msg] once it has seen the bits [bs]. *)
Definition fails (m : M BitReader.t Z) (bs : list bool) (msg : string) : Prop :=
  forall r tl, reader_ok r -> pending r = bs ++ tl ->
    exists r', m r = (Throw msg, r').

(** Zig-zag value of a signed integer, as [writeRice] computes it. *)
Definition zigzag (v : Z) : Z := if v >=? 0 then v * 2 else - v * 2 - 1.

(** Write one value with a new [BitWriter], take [getBuffer()], and decode
    it with a new [BitReader] over that buffer. *)
Definition roundtrip (enc : M BitWriter.t unit) (dec : M BitReader.t Z) : outcome Z :=
  match enc BitWriter.new with
  | (Throw e, _) => Throw e
  | (Ok _, w) =>
      match BitWriter.getBuffer w with
      | (Throw e, _) => Throw e
      | (Ok buf, _) => fst (dec (BitReader.new buf))
      end
  end.

Definition ue_roundtrip (u : Z) : outcome Z :=
  roundtrip (BitWriter.writeUExpGolomb u) BitReader.readUExpGolomb.

Definition rice_roundtrip (v k : Z) : outcome Z :=
  roundtrip (BitWriter.writeRice v k) (BitReader.readRice k).

End Bits.

(** ** States of a Reader over a buffer *)

Module ReaderSpec.

(** The [n] bytes of [data] at offset [p]. *)
Definition bytes_at (data : list byte) (p n : Z) : list byte :=
  firstn (Z.to_nat n) (skipn (Z.to_nat p) data).

(** The methods of [Reader]; arguments are arbitrary numbers. *)
Inductive method : forall {A : Type}, M Reader.t A -> Prop :=
| m_init : method Reader.init
| m_getSize : method Reader.getSize
| m_readBytes n : method (Reader.readBytes n)
| m_peek n : method (Reader.peek n)
| m_readU8 : method Reader.readU8
| m_readU16BE : method Reader.readU16BE
| m_readU16LE : method Reader.readU16LE
| m_readU24BE : method Reader.readU24BE
| m_readU32BE : method Reader.readU32BE
| m_readU32LE : method Reader.readU32LE
| m_readFourCC : method Reader.readFourCC
| m_readSyncsafeInt : method Reader.readSyncsafeInt
| m_skip n : method (Reader.skip n)
| m_seek p : method (Reader.seek p)
| m_isEOF : method Reader.isEOF
| m_remaining : method Reader.remaining
| m_close : method Reader.close.

(** The states a reader over the buffer [data] can be in: the new reader,
    and any state a method call leaves behind. *)
Inductive reachable (data : list byte) : Reader.t -> Prop :=
| reach_new : reachable data (Reader.fromBuffer data)
| reach_call {A} (m : M Reader.t A) r :
    reachable data r -> method m -> reachable data (snd (m r)).

(** A cached slice agrees with the buffer on every range it claims to
    contain. *)
Definition slice_fits (data : list byte) (s : FileSlice.t) : Prop :=
  forall p n, 0 <= p -> 0 <= n ->
    FileSlice.contains s p n = true ->
    FileSlice.get s p n = bytes_at data p n
    /\ (0 < n -> p + n <= JS.len data).

Definition reader_inv (data : list byte) (r : Reader.t) : Prop :=
  Reader.source r = BufferSource data
  /\ (Reader.sourceData r = None \/ Reader.sourceData r = Some data)
  /\ (forall s, Reader.slice r = Some s -> slice_fits data s).

(** A reader over the buffer [hdr ++ payload], before its first read and
    after it: the slice loaded at offset 0 stays cached. *)
Definition reader_at (hdr payload : list byte) (loaded : bool) (p : Z) : Reader.t :=
  let data := hdr ++ payload in
  if loaded then
    Reader.mk p
      (Some (FileSlice.mk
               (JS.subarray data 0 (Z.min (0 + Reader.DEFAULT_SLICE_SIZE) (JS.len data))) 0))
      (BufferSource data) (Some data) (Some (JS.len data))
  else Reader.mk p None (BufferSource data) None None.

(** A read of [n] bytes decoded by [val]: with [n] bytes left at the cursor
    it returns the value of those bytes and moves past them; with fewer it
    returns null and leaves the cursor where it was. *)
Definition decodes {A} (m : M Reader.t (option A)) (n : Z) (val : list byte -> A) : Prop :=
  forall data r, reachable data r -> 0 <= Reader.position r ->
    exists res r',
      m r = (Ok res, r')
      /\ reachable data r'
      /\ (Reader.position r + n <= JS.len data ->
          res = Some (val (bytes_at data (Reader.position r) n))
          /\ Reader.position r' = Reader.position r + n)
      /\ (Reader.position r + n > JS.len data ->
          res = None /\ Reader.position r' = Reader.position r).

(** The value of the four bytes of a syncsafe integer: seven bits each. *)
Definition syncsafe (l : list byte) : Z :=
  fold_left (fun a b => a * 128 + JS.u8 b mod 128) l 0.

End ReaderSpec.

(** ** A writer's output read back *)

Module Codec.

(** What a new buffer writer holds after [enc]. *)
Definition written_by (enc : M Writer.t unit) : outcome (list byte) :=
  match enc Writer.toBuffer with
  | (Ok _, w) => fst (Writer.getBuffer w)
  | (Throw e, _) => Throw e
  end.

(** [enc] on a new buffer writer, then [dec] on a new reader over the
    buffer written. *)
Definition roundtrip {A} (enc : M Writer.t unit) (dec : M Reader.t A) : outcome A :=
  match written_by enc with
  | Ok buf => fst (dec (Reader.fromBuffer buf))
  | Throw e => Throw e
  end.

(** A writer method that succeeds on a buffer writer and adds exactly the
    bytes [l]. *)
Definition emits (m : M Writer.t unit) (l : list byte) : Prop :=
  forall w, Writer.target w = BufferTarget ->
    exists w', m w = (Ok tt, w')
               /\ Writer.target w' = BufferTarget
               /\ List.concat (Writer.buffers w') = List.concat (Writer.buffers w) ++ l
               /\ Writer.position w' = Writer.position w + JS.len l.

End Codec.

(** ** Leading bytes of a buffer *)

Module Magic.

(** The four bytes at [off] spell [tag]. *)
Definition tag_at (data : list byte) (off : Z) (tag : string) : Prop :=
  ReaderSpec.bytes_at data off 4 = list_byte_of_string tag.

(** The payload starts with the ADTS sync word and a zero layer field. *)
Definition adts_sync (data : list byte) : Prop :=
  4 <= JS.len data /\ Aac.sync_layer0 data.

End Magic.

(** ** A muxing session

    What a caller of [Output] does: add one track, write the packets to it in
    order, finalize. *)

Module Session.

Section Run.

Context {X : Type} {impl : Muxer.Impl X}.

Fixpoint writePackets (trackId : Z) (ps : list EncodedPacket) : M (Muxer.t X) unit :=
  match ps with
  | [] => ret tt
  | p :: rest => Muxer.writePacket trackId p ;;; writePackets trackId rest
  end.

Definition run (config : AudioTrackConfig) (ps : list EncodedPacket)
  : M (Muxer.t X) (list byte) :=
  track <- Muxer.addAudioTrack config ;;
  writePackets (track_id track) ps ;;;
  Muxer.finalize.

End Run.

(** The frame the AAC muxer stores for a payload on a track of
    configuration [config]: the payload itself when it starts with the sync
    bits, else a header with profile 1 (AAC-LC) and the payload. *)
Definition adts_frame (config : AudioTrackConfig) (data : list byte) : list byte :=
  if Aac.hasAdtsHeader data then data
  else Aac.createAdtsHeader 1 (Aac.getSampleRateIndex (cfg_sampleRate config))
                            (cfg_channels config) (7 + JS.len data)
       ++ data.

(** The fields of the FLAC and WAV muxers at [finalize], for a track of
    configuration [config] and the packets [ps]. *)
Definition flac_fields (config : AudioTrackConfig) (ps : list EncodedPacket)
  : FlacMuxer.fields :=
  FlacMuxer.mk (map pkt_data ps) (cfg_sampleRate config) (cfg_channels config)
               (match cfg_bitDepth config with Some b => b | None => 16 end).

Definition wav_fields (config : AudioTrackConfig) (ps : list EncodedPacket)
  : WavMuxer.fields :=
  WavMuxer.mk (map pkt_data ps) (cfg_sampleRate config) (cfg_channels config)
              (match cfg_bitDepth config with Some b => b | None => 16 end) false.

End Session.

(** ** Layout of a WAV file with one fmt chunk of 16 bytes and one data chunk *)

Module WavLayout.

Import ReaderSpec.

(** The number stored little-endian in the [n] bytes at [off]. *)
Definition le_at (data : list byte) (off n : Z) : Z := DataView.le (bytes_at data off n).

(** The file has the 44-byte header: RIFF, a size field holding
    [riffSize], WAVE, a fmt chunk of 16 bytes, and a data chunk whose size
    field is the number of bytes that follow. *)
Definition canonical (data : list byte) (riffSize : Z) : Prop :=
  44 <= JS.len data
  /\ Magic.tag_at data 0 "RIFF"
  /\ le_at data 4 4 = riffSize
  /\ Magic.tag_at data 8 "WAVE"
  /\ Magic.tag_at data 12 "fmt "
  /\ le_at data 16 4 = 16
  /\ Magic.tag_at data 36 "data"
  /\ le_at data 40 4 = JS.len data - 44.

(** The six fields of the fmt chunk, as stored at offsets 20 to 35. *)
Definition stored_format (data : list byte) : Wav.WavFormat :=
  {| Wav.formatCode := Some (le_at data 20 2);
     Wav.channels := Some (le_at data 22 2);
     Wav.sampleRate := Some (le_at data 24 4);
     Wav.byteRate := Some (le_at data 28 4);
     Wav.blockAlign := Some (le_at data 32 2);
     Wav.bitsPerSample := Some (le_at data 34 2);
     Wav.validBitsPerSample := None;
     Wav.channelMask := None;
     Wav.subFormat := None |}.

End WavLayout.

(** ** Concrete inputs *)

Module Examples.

Definition bytes (l : list Z) : list byte := map JS.to_u8 l.

Definition packet (l : list Z) : EncodedPacket :=
  {| pkt_data := bytes l; pkt_timestamp := 0%float; pkt_isKeyframe := true |}.

Definition aac_config : AudioTrackConfig :=
  {| cfg_codec := "aac"; cfg_sampleRate := 48000; cfg_channels := 2;
     cfg_bitDepth := None; cfg_bitrate := None |}.

(** An AAC muxer with its track added, and the same muxer after
    [finalize()]. *)
Definition aac_with_track : Aac.AacMuxer :=
  snd (Muxer.addAudioTrack aac_config (Aac.new BufferTarget)).
Definition aac_finalized : Aac.AacMuxer :=
  snd (Muxer.finalize aac_with_track).

(** A raw AAC payload, and a payload whose second byte has the twelve sync
    bits set and a non-zero layer field. *)
Definition raw_packet : EncodedPacket := packet [0x01; 0x02; 0x03].

(** MPEG-1 Layer I, 32 kbps, 44100 Hz, no padding; and MPEG-1 Layer III,
    128 kbps, 44100 Hz, no padding. *)
Definition mp3_layer1_32k : list byte := bytes [0xFF; 0xFF; 0x10; 0x00].
Definition mp3_layer3_128k : list byte := bytes [0xFF; 0xFB; 0x90; 0x00].
Definition frame_layer3_128k : Mp3.Mp3FrameHeader :=
  Mp3.built Mp3.MPEG1 Mp3.Layer3 128 44100 0 false Mp3.Stereo.

(** The STREAMINFO payload the FLAC muxer writes for a 44100 Hz, stereo,
    32-bit track with no packets: field value 31 in bytes 12-13. *)
Definition streaminfo_32bit : list byte :=
  bytes [0x10; 0x00; 0x10; 0x00; 0; 0; 0; 0; 0; 0; 0x0A; 0xC4; 0x43; 0xF0; 0; 0; 0; 0]
  ++ repeat x00 16.

(** 16-bit mono 44100 Hz files of silence: 88200 samples (176400 bytes)
    and 44100 samples (88200 bytes). *)
Definition wav_88200_samples : list byte :=
  Wav.canonical_file 44100 1 16 (repeat x00 (Z.to_nat 176400)).
Definition silence_88200_bytes : list byte := repeat x00 (Z.to_nat 88200).

(** A reader over the empty buffer, moved one byte past its end. *)
Definition reader_past_end : Reader.t := snd (Reader.seek 1 (Reader.fromBuffer [])).

Definition three_bytes : list byte := bytes [0x0A; 0x0B; 0x0C].

(** A bit writer that has been given the single bit 1. *)
Definition one_bit_writer : BitWriter.t := BitWriter.mk [] 1 1 1.

(** Tags and a first ADTS byte pair. *)
Definition flac_tag : list byte := list_byte_of_string "fLaC".

(** A PCM track, 48000 Hz stereo 24-bit, and two packets for it. *)
Definition pcm_config : AudioTrackConfig :=
  {| cfg_codec := "pcm"; cfg_sampleRate := 48000; cfg_channels := 2;
     cfg_bitDepth := Some 24; cfg_bitrate := None |}.
Definition two_packets : list EncodedPacket :=
  [packet [1; 2; 3; 4; 5; 6]; packet [7; 8; 9; 10; 11; 12]].

(** A 16-bit mono 8000 Hz file with four bytes of samples. *)
Definition tiny_wav : list byte := Wav.canonical_file 8000 1 16 (bytes [1; 0; 2; 0]).

End Examples.

(** * Proofs *)

(** * Arithmetic of the JavaScript operators on small integers *)

Section JsArith.

Lemma toInt32_small z : - 2 ^ 31 <= z < 2 ^ 31 -> JS.toInt32 z = z.
Proof.
  intros H. unfold JS.toInt32.
  rewrite Z.mod_small; lia.
Qed.

Lemma toUint32_small z : 0 <= z < 2 ^ 32 -> JS.toUint32 z = z.
Proof. intros H. unfold JS.toUint32. apply Z.mod_small; lia. Qed.

Lemma shift_count k : 0 <= k < 32 -> JS.toUint32 k mod 32 = k.
Proof.
  intros H. rewrite toUint32_small by lia. apply Z.mod_small; lia.
Qed.

Lemma lor_shiftl_add a b k :
  0 <= k -> 0 <= b < 2 ^ k -> Z.lor (Z.shiftl a k) b = a * 2 ^ k + b.
Proof.
  intros Hk Hb.
  rewrite <- Z.shiftl_mul_pow2 by lia.
  rewrite <- Z.lxor_lor, <- Z.add_nocarry_lxor; auto.
  all: apply Z.bits_inj'; intros n Hn; rewrite Z.land_spec, Z.bits_0.
  all: destruct (Z.lt_ge_cases n k) as [Hlt | Hge].
  all: try (rewrite Z.shiftl_spec_low by lia; reflexivity).
  all: destruct (Z.eq_dec b 0) as [-> | Hnz];
    [ rewrite Z.bits_0; apply andb_false_r | ].
  all: rewrite (Z.bits_above_log2 b n); [ apply andb_false_r | lia | ].
  all: apply Z.log2_lt_pow2; try lia.
  all: apply Z.lt_le_trans with (2 ^ k); try lia;
    apply Z.pow_le_mono_r; lia.
Qed.

Lemma sar_small v k :
  - 2 ^ 31 <= v < 2 ^ 31 -> 0 <= k < 32 -> JS.sar v k = v / 2 ^ k.
Proof.
  intros Hv Hk. unfold JS.sar.
  rewrite toInt32_small, shift_count by lia.
  apply Z.shiftr_div_pow2; lia.
Qed.

Lemma shl_small v k :
  0 <= k < 32 -> - 2 ^ 31 <= v * 2 ^ k < 2 ^ 31 -> - 2 ^ 31 <= v < 2 ^ 31 ->
  JS.shl v k = v * 2 ^ k.
Proof.
  intros Hk Hr Hv. unfold JS.shl.
  rewrite (toInt32_small v), shift_count by lia.
  rewrite Z.shiftl_mul_pow2 by lia.
  apply toInt32_small; lia.
Qed.

Lemma and_1_b2z v :
  - 2 ^ 31 <= v < 2 ^ 31 -> JS.and v 1 = Z.b2z (Z.odd v).
Proof.
  intros Hv. unfold JS.and.
  rewrite !toInt32_small by lia.
  change 1 with (Z.ones 1). rewrite Z.land_ones by lia.
  change (2 ^ 1) with 2. rewrite Zmod_odd. destruct (Z.odd v); reflexivity.
Qed.

(** Bit [i] of a 32-bit value, as [writeBits] extracts it. *)
Lemma sar_and_1 v i :
  0 <= i < 32 ->
  JS.and (JS.sar v i) 1 = Z.b2z (Z.testbit (JS.toInt32 v) i).
Proof.
  intros Hi.
  assert (Hr : - 2 ^ 31 <= JS.toInt32 v < 2 ^ 31).
  { unfold JS.toInt32. pose proof (Z.mod_pos_bound (v + 2 ^ 31) (2 ^ 32)). lia. }
  assert (Hs : - 2 ^ 31 <= JS.sar v i < 2 ^ 31).
  { unfold JS.sar. rewrite shift_count by lia.
    rewrite Z.shiftr_div_pow2 by lia.
    assert (0 < 2 ^ i) by (apply Z.pow_pos_nonneg; lia).
    split.
    - apply Z.div_le_lower_bound; [ lia | nia ].
    - apply Z.div_lt_upper_bound; [ lia | nia ]. }
  rewrite and_1_b2z by exact Hs.
  unfold JS.sar. rewrite shift_count by lia.
  rewrite <- Z.bit0_odd, Z.shiftr_spec by lia.
  rewrite Z.add_0_l. reflexivity.
Qed.

Lemma or_small a b :
  - 2 ^ 31 <= a < 2 ^ 31 -> - 2 ^ 31 <= b < 2 ^ 31 -> JS.or a b = Z.lor a b.
Proof. intros. unfold JS.or. rewrite !toInt32_small by lia. reflexivity. Qed.

(** [(acc << 1) | bit] *)
Lemma shl1_or_bit acc (b : bool) :
  0 <= acc < 2 ^ 30 -> JS.or (JS.shl acc 1) (Z.b2z b) = 2 * acc + Z.b2z b.
Proof.
  intros Ha.
  rewrite shl_small by (change (2 ^ 1) with 2; lia).
  change (2 ^ 1) with 2.
  rewrite or_small by (destruct b; simpl Z.b2z; lia).
  replace (acc * 2) with (Z.shiftl acc 1) by (rewrite Z.shiftl_mul_pow2; lia).
  rewrite lor_shiftl_add; try lia. destruct b; simpl; lia.
Qed.

Lemma u8_range b : 0 <= JS.u8 b < 256.
Proof.
  unfold JS.u8. pose proof (Byte.to_N_bounded b). lia.
Qed.

Lemma u8_to_u8 z : 0 <= z < 256 -> JS.u8 (JS.to_u8 z) = z.
Proof.
  intros Hz. unfold JS.u8, JS.to_u8.
  rewrite Z.mod_small by lia.
  destruct (Byte.of_N (Z.to_N z)) eqn:E.
  - apply Byte.to_of_N in E. rewrite E. lia.
  - apply Byte.of_N_None_iff in E. lia.
Qed.

End JsArith.

(** * BitWriter: what the methods append *)

Section WriterBits.

Import Bits.

Lemma msb_bits_snoc n v (b : bool) :
  msb_bits (S n) (2 * v + Z.b2z b) = msb_bits n v ++ [b].
Proof.
  induction n as [| n IH].
  - cbn [msb_bits app]. change (Z.of_nat 0) with 0. now rewrite Z.testbit_0_r.
  - change (msb_bits (S (S n)) (2 * v + Z.b2z b))
      with (Z.testbit (2 * v + Z.b2z b) (Z.of_nat (S n)) :: msb_bits (S n) (2 * v + Z.b2z b)).
    rewrite IH, Nat2Z.inj_succ, Z.testbit_succ_r by lia.
    reflexivity.
Qed.

Lemma of_bytes_app a b : of_bytes (a ++ b) = of_bytes a ++ of_bytes b.
Proof. unfold of_bytes. apply flat_map_app. Qed.

Lemma appends_ret : appends (ret tt) [].
Proof.
  intros w Hw. exists w. unfold ret. rewrite app_nil_r.
  repeat split; try apply Hw.
  unfold JS.len. simpl. rewrite Z.add_0_r.
  symmetry. apply Z.mod_small. apply Hw.
Qed.

Lemma appends_bind m1 m2 bs1 bs2 :
  appends m1 bs1 -> appends m2 bs2 -> appends (m1 ;;; m2) (bs1 ++ bs2).
Proof.
  intros H1 H2 w Hw.
  destruct (H1 w Hw) as (w1 & E1 & Hw1 & B1 & P1).
  destruct (H2 w1 Hw1) as (w2 & E2 & Hw2 & B2 & P2).
  exists w2. unfold bind. rewrite E1, E2.
  repeat split; try apply Hw2.
  - now rewrite B2, B1, app_assoc.
  - rewrite P2, P1. unfold JS.len. rewrite length_app, Nat2Z.inj_add.
    rewrite Zplus_mod_idemp_l. f_equal. lia.
Qed.

Lemma appends_writeBit (b : bool) : appends (BitWriter.writeBit (Z.b2z b)) [b].
Proof.
  intros [bufs cb bp tot] (Hbp & Hcb). simpl in Hbp, Hcb.
  assert (Hpow : 2 ^ bp <= 2 ^ 7) by (apply Z.pow_le_mono_r; lia).
  assert (Hb : 0 <= Z.b2z b <= 1) by (destruct b; simpl; lia).
  unfold BitWriter.writeBit. cbn [BitWriter.currentByte BitWriter.bitPos
    BitWriter.buffers BitWriter.totalBits].
  rewrite (and_1_b2z (Z.b2z b)) by lia.
  replace (Z.b2z (Z.odd (Z.b2z b))) with (Z.b2z b) by (now destruct b).
  rewrite shl1_or_bit by lia.
  destruct (bp + 1 =? 8) eqn:E.
  - apply Z.eqb_eq in E. assert (bp = 7) by lia. subst bp.
    eexists. split; [ reflexivity | ].
    unfold writer_ok, written; cbn [BitWriter.currentByte BitWriter.bitPos BitWriter.buffers].
    split; [ lia | split; [ | reflexivity ] ].
    rewrite concat_app, of_bytes_app, <- !app_assoc. f_equal.
    change (Z.to_nat 7) with 7%nat. change (Z.to_nat 0) with 0%nat.
    rewrite <- msb_bits_snoc.
    cbn [List.concat of_bytes flat_map msb_bits app]. rewrite !app_nil_r.
    unfold byte_bits. rewrite u8_to_u8 by lia. reflexivity.
  - apply Z.eqb_neq in E.
    eexists. split; [ reflexivity | ].
    unfold writer_ok, written; cbn [BitWriter.currentByte BitWriter.bitPos BitWriter.buffers].
    repeat split; try lia.
    + rewrite Z.pow_add_r by lia. change (2 ^ 1) with 2. lia.
    + rewrite <- app_assoc. f_equal.
      replace (Z.to_nat (bp + 1)) with (S (Z.to_nat bp)) by lia.
      apply msb_bits_snoc.
    + unfold JS.len. simpl. symmetry. apply Z.mod_small. lia.
Qed.

Lemma appends_repeatBit (b : bool) n :
  appends (BitWriter.repeatBit (Z.b2z b) n) (repeat b n).
Proof.
  induction n as [| n IH]; simpl.
  - apply appends_ret.
  - change (b :: repeat b n) with ([b] ++ repeat b n).
    apply appends_bind; [ apply appends_writeBit | exact IH ].
Qed.

Lemma appends_writeBits_loop value n :
  (n <= 32)%nat ->
  appends (BitWriter.writeBits_loop value n) (msb_bits n (JS.toInt32 value)).
Proof.
  induction n as [| n IH]; intros Hn; simpl.
  - apply appends_ret.
  - rewrite sar_and_1 by lia.
    match goal with |- appends _ (?b :: ?l) => change (b :: l) with ([b] ++ l) end.
    apply appends_bind; [ apply appends_writeBit | apply IH; lia ].
Qed.

Lemma appends_writeBits value count :
  0 <= count <= 32 ->
  appends (BitWriter.writeBits value count)
          (msb_bits (Z.to_nat count) (JS.toInt32 value)).
Proof.
  intros Hc. unfold BitWriter.writeBits.
  destruct (count >? 32) eqn:E; [ apply Z.gtb_lt in E; lia | ].
  apply appends_writeBits_loop. lia.
Qed.

Lemma writer_new_ok : writer_ok BitWriter.new /\ written BitWriter.new = [].
Proof. unfold writer_ok, written. simpl. repeat split; lia. Qed.

(** [getBuffer] returns the written bits followed by zero padding. *)
Lemma getBuffer_bits w :
  writer_ok w ->
  exists buf w' pad,
    BitWriter.getBuffer w = (Ok buf, w')
    /\ of_bytes buf = written w ++ repeat false pad.
Proof.
  intros Hw. unfold BitWriter.getBuffer.
  destruct (BitWriter.bitPos w >? 0) eqn:E.
  - apply Z.gtb_lt in E.
    assert (F : (8 - BitWriter.bitPos w >? 0) = true) by (apply Z.gtb_lt; destruct Hw; lia).
    rewrite F.
    destruct (appends_repeatBit false (Z.to_nat (8 - BitWriter.bitPos w)) w Hw)
      as (w1 & E1 & Hw1 & B1 & P1).
    simpl Z.b2z in E1. rewrite E1.
    eexists _, _, _. split; [ reflexivity | ].
    rewrite <- B1. unfold written.
    unfold JS.len in P1. rewrite repeat_length in P1.
    replace (BitWriter.bitPos w + Z.of_nat (Z.to_nat (8 - BitWriter.bitPos w))) with 8 in P1
      by (destruct Hw; lia).
    change (8 mod 8) with 0 in P1. rewrite P1. simpl. now rewrite app_nil_r.
  - assert (BitWriter.bitPos w = 0) by (destruct Hw; lia).
    change (0 >? 0) with false. cbv iota. unfold ret.
    eexists _, _, 0%nat. split; [ reflexivity | ].
    unfold written. rewrite H. simpl. now rewrite !app_nil_r.
Qed.

End WriterBits.

(** * BitReader: what the methods consume *)

Section ReaderBits.

Import Bits.

Lemma reader_new buf :
  reader_ok (BitReader.new buf) /\ pending (BitReader.new buf) = of_bytes buf.
Proof.
  unfold reader_ok, pending. simpl. split; [ lia | ].
  destruct buf; reflexivity.
Qed.

Lemma skipn_cons_next {A} n (l : list A) x tl :
  skipn n l = x :: tl -> skipn (S n) l = tl.
Proof.
  intros E. change (S n) with (1 + n)%nat.
  rewrite <- skipn_skipn, E. reflexivity.
Qed.

Lemma delivers_ret v : delivers (ret v) [] v.
Proof. intros r tl Hr Hp. exists r. auto. Qed.

Lemma delivers_bind m k bs1 bs2 v1 v2 :
  delivers m bs1 v1 -> delivers (k v1) bs2 v2 ->
  delivers (x <- m ;; k x) (bs1 ++ bs2) v2.
Proof.
  intros H1 H2 r tl Hr Hp. rewrite <- app_assoc in Hp.
  destruct (H1 r _ Hr Hp) as (r1 & E1 & Hr1 & P1).
  destruct (H2 r1 _ Hr1 P1) as (r2 & E2 & Hr2 & P2).
  exists r2. unfold bind. rewrite E1. auto.
Qed.

Lemma delivers_readBit (b : bool) : delivers BitReader.readBit [b] (Z.b2z b).
Proof.
  intros [data byp bip] tl (Hby & Hbi) Hp.
  unfold pending in Hp. simpl in Hby, Hbi, Hp.
  destruct (skipn (Z.to_nat byp) data) as [| x rest] eqn:E; [ discriminate | ].
  assert (Hlen : byp < JS.len data).
  { assert (L := f_equal (@List.length _) E).
    rewrite length_skipn in L. simpl in L. unfold JS.len. lia. }
  assert (Hx : JS.elem data byp = Some (JS.u8 x)).
  { unfold JS.elem. destruct (byp <? 0) eqn:N; [ apply Z.ltb_lt in N; lia | ].
    rewrite <- hd_error_skipn, E. reflexivity. }
  pose proof (u8_range x) as Hu.
  unfold BitReader.readBit.
  cbn [BitReader.data BitReader.bytePos BitReader.bitPos].
  destruct (byp >=? JS.len data) eqn:G; [ apply Z.geb_le in G; lia | ].
  rewrite Hx. cbn [JS.int].
  rewrite sar_and_1 by lia.
  rewrite toInt32_small by lia.
  pose proof (skipn_cons_next _ _ _ _ E) as En.
  unfold byte_bits in Hp. cbn [msb_bits] in Hp.
  assert (C : bip = 0 \/ bip = 1 \/ bip = 2 \/ bip = 3
              \/ bip = 4 \/ bip = 5 \/ bip = 6 \/ bip = 7) by lia.
  destruct C as [C | [C | [C | [C | [C | [C | [C | C]]]]]]]; subst bip;
    cbn in Hp; injection Hp as Hb Htl; subst b tl;
    (eexists; split; [ reflexivity | ]);
    unfold reader_ok, pending;
    cbn [BitReader.data BitReader.bytePos BitReader.bitPos];
    (split; [ lia | ]).
  1-7: rewrite E; reflexivity.
  replace (Z.to_nat (byp + 1)) with (S (Z.to_nat byp)) by lia.
  rewrite En. destruct rest; reflexivity.
Qed.

Lemma value_snoc bs b acc : value (bs ++ [b]) acc = 2 * value bs acc + Z.b2z b.
Proof. unfold value. rewrite fold_left_app. reflexivity. Qed.

Lemma value_bounds bs acc :
  0 <= acc ->
  acc * 2 ^ JS.len bs <= value bs acc < (acc + 1) * 2 ^ JS.len bs.
Proof.
  revert acc. induction bs as [| b bs IH]; intros acc Ha.
  - unfold JS.len. simpl. lia.
  - unfold JS.len in *. cbn [List.length]. rewrite Nat2Z.inj_succ, Z.pow_succ_r by lia.
    change (value (b :: bs) acc) with (value bs (2 * acc + Z.b2z b)).
    assert (0 <= Z.b2z b <= 1) by (destruct b; simpl; lia).
    specialize (IH (2 * acc + Z.b2z b) ltac:(lia)).
    assert (0 < 2 ^ Z.of_nat (List.length bs)) by (apply Z.pow_pos_nonneg; lia).
    nia.
Qed.

Lemma delivers_readBits_loop bs acc :
  0 <= acc -> (acc + 1) * 2 ^ JS.len bs <= 2 ^ 31 ->
  delivers (BitReader.readBits_loop (List.length bs) acc) bs (value bs acc).
Proof.
  revert acc. induction bs as [| b bs IH]; intros acc Ha Hb.
  - apply delivers_ret.
  - cbn [List.length BitReader.readBits_loop].
    change (b :: bs) with ([b] ++ bs).
    eapply delivers_bind; [ apply delivers_readBit | ].
    unfold JS.len in Hb. cbn [List.length] in Hb.
    rewrite Nat2Z.inj_succ, Z.pow_succ_r in Hb by lia.
    assert (0 < 2 ^ Z.of_nat (List.length bs)) by (apply Z.pow_pos_nonneg; lia).
    assert (0 <= Z.b2z b <= 1) by (destruct b; simpl; lia).
    rewrite shl1_or_bit by nia.
    change (value ([b] ++ bs) acc) with (value bs (2 * acc + Z.b2z b)).
    apply IH; unfold JS.len; nia.
Qed.

Lemma msb_bits_length n v : List.length (msb_bits n v) = n.
Proof. induction n; simpl; congruence. Qed.

Lemma value_msb_bits n v acc :
  value (msb_bits n v) acc = acc * 2 ^ Z.of_nat n + v mod 2 ^ Z.of_nat n.
Proof.
  revert acc. induction n as [| n IH]; intros acc.
  - simpl. rewrite Z.mod_1_r. lia.
  - cbn [msb_bits].
    change (value (?b :: ?l) acc) with (value l (2 * acc + Z.b2z b)).
    rewrite IH, Nat2Z.inj_succ, Z.pow_succ_r by lia.
    rewrite Z.testbit_spec' by lia.
    rewrite (Z.mul_comm 2 (2 ^ Z.of_nat n)).
    assert (0 < 2 ^ Z.of_nat n) by (apply Z.pow_pos_nonneg; lia).
    rewrite (Z.rem_mul_r v (2 ^ Z.of_nat n) 2) by lia.
    lia.
Qed.

(** [readBits(count)] over the bits that [writeBits(v, count)] wrote. *)
Lemma delivers_readBits v count :
  0 <= count <= 31 ->
  delivers (BitReader.readBits count) (msb_bits (Z.to_nat count) v) (v mod 2 ^ count).
Proof.
  intros Hc. unfold BitReader.readBits.
  destruct (count >? 32) eqn:E; [ apply Z.gtb_lt in E; lia | ].
  pose proof (delivers_readBits_loop (msb_bits (Z.to_nat count) v) 0) as D.
  rewrite msb_bits_length in D. unfold JS.len in D. rewrite msb_bits_length in D.
  rewrite value_msb_bits, Z2Nat.id in D by lia.
  rewrite Z.mul_0_l, Z.add_0_l, Z.add_0_l, Z.mul_1_l in D.
  apply D; [ lia | apply Z.pow_le_mono_r; lia ].
Qed.

(** The zero-counting loop over [q] zeros and the closing one. *)
Lemma delivers_zeros_loop msg q fuel n :
  0 <= n -> n + Z.of_nat q <= 32 -> (q <= fuel)%nat ->
  delivers (BitReader.zeros_loop msg fuel n) (repeat false q ++ [true]) (n + Z.of_nat q).
Proof.
  revert fuel n. induction q as [| q IH]; intros fuel n Hn Hq Hf.
  - simpl repeat. simpl app. rewrite Z.add_0_r.
    replace [true] with ([true] ++ @nil bool) by reflexivity.
    destruct fuel; cbn [BitReader.zeros_loop];
      (eapply delivers_bind; [ apply delivers_readBit | ]);
      simpl; apply delivers_ret.
  - destruct fuel as [| fuel]; [ lia | ].
    cbn [BitReader.zeros_loop repeat].
    change ((false :: repeat false q) ++ [true]) with ([false] ++ (repeat false q ++ [true])).
    eapply delivers_bind; [ apply delivers_readBit | ].
    cbn [Z.b2z]. change (0 =? 0) with true. cbv iota.
    destruct (n + 1 >? 32) eqn:E; [ apply Z.gtb_lt in E; lia | ].
    replace (n + Z.of_nat (S q)) with (n + 1 + Z.of_nat q) by lia.
    apply IH; lia.
Qed.

Lemma fails_bind m k bs msg :
  fails m bs msg -> fails (x <- m ;; k x) bs msg.
Proof.
  intros H r tl Hr Hp. destruct (H r tl Hr Hp) as (r' & E).
  exists r'. unfold bind. now rewrite E.
Qed.

Lemma fails_after m k bs1 bs2 v msg :
  delivers m bs1 v -> fails (k v) bs2 msg -> fails (x <- m ;; k x) (bs1 ++ bs2) msg.
Proof.
  intros H1 H2 r tl Hr Hp. rewrite <- app_assoc in Hp.
  destruct (H1 r _ Hr Hp) as (r1 & E1 & Hr1 & P1).
  destruct (H2 r1 _ Hr1 P1) as (r2 & E2).
  exists r2. unfold bind. now rewrite E1.
Qed.

(** The zero-counting loop gives up at the 33rd zero. *)
Lemma fails_zeros_loop msg k fuel n :
  n = 32 - Z.of_nat k -> (k <= fuel)%nat ->
  fails (BitReader.zeros_loop msg fuel n) (repeat false (S k)) msg.
Proof.
  revert fuel n. induction k as [| k IH]; intros fuel n Hn Hf.
  - subst n. change (repeat false 1) with ([false] ++ @nil bool).
    destruct fuel; cbn [BitReader.zeros_loop];
      (eapply fails_after; [ apply delivers_readBit | ]);
      cbn; intros r tl _ _; eexists; reflexivity.
  - destruct fuel as [| fuel]; [ lia | ].
    cbn [BitReader.zeros_loop].
    change (repeat false (S (S k))) with ([false] ++ repeat false (S k)).
    eapply fails_after; [ apply delivers_readBit | ].
    cbn [Z.b2z]. change (0 =? 0) with true. cbv iota.
    destruct (n + 1 >? 32) eqn:E; [ apply Z.gtb_lt in E; lia | ].
    apply IH; lia.
Qed.

(** The structural bound of the loop is never what stops it. *)
Lemma zeros_loop_fuel msg fuel n r e r' :
  0 <= n -> 33 <= n + Z.of_nat fuel ->
  BitReader.zeros_loop msg fuel n r = (Throw e, r') ->
  e = msg \/ e = "End of buffer".
Proof.
  revert n r. induction fuel as [| fuel IH]; intros n r Hn Hf;
    cbn [BitReader.zeros_loop]; unfold bind;
    destruct (BitReader.readBit r) as [[bit | e0] r1] eqn:E.
  - destruct (bit =? 0); [ | discriminate ].
    destruct (n + 1 >? 32) eqn:G;
      [ | rewrite Z.gtb_ltb in G; apply Z.ltb_ge in G; lia ].
    intros H. injection H as <- _. now left.
  - intros H. injection H as <- _. right.
    unfold BitReader.readBit in E.
    destruct (_ >=? _); [ congruence | ].
    destruct (_ =? 8); discriminate.
  - destruct (bit =? 0); [ | discriminate ].
    destruct (n + 1 >? 32) eqn:G.
    + intros H. injection H as <- _. now left.
    + rewrite Z.gtb_ltb in G. apply Z.ltb_ge in G. apply IH; lia.
  - intros H. injection H as <- _. right.
    unfold BitReader.readBit in E.
    destruct (_ >=? _); [ congruence | ].
    destruct (_ =? 8); discriminate.
Qed.

End ReaderBits.

Section RoundTrips.

Import Bits.

(** Encoder and decoder agree on the bit string: the round trip returns
    the decoded value. *)
Lemma roundtrip_ok enc dec bs v :
  appends enc bs -> delivers dec bs v -> roundtrip enc dec = Ok v.
Proof.
  intros He Hd. unfold roundtrip.
  destruct writer_new_ok as (Hn & Wn).
  destruct (He _ Hn) as (w & E & Hw & B & _). rewrite E.
  destruct (getBuffer_bits w Hw) as (buf & w' & pad & G & O). rewrite G.
  destruct (reader_new buf) as (Hr & P).
  rewrite O, B, Wn in P. simpl app in P.
  destruct (Hd _ _ Hr P) as (r' & D & _). now rewrite D.
Qed.

Lemma zigzag_range v :
  - 2 ^ 20 <= v <= 2 ^ 20 -> 0 <= zigzag v <= 2 ^ 21.
Proof.
  intros H. unfold zigzag. destruct (v >=? 0) eqn:E.
  - apply Z.geb_le in E. lia.
  - rewrite Z.geb_leb in E. apply Z.leb_gt in E. lia.
Qed.

(** Zig-zag decoding, [(u >> 1) ^ -(u & 1)], undoes [zigzag]. *)
Lemma zigzag_decode v :
  - 2 ^ 20 <= v <= 2 ^ 20 ->
  JS.xor (JS.sar (zigzag v) 1) (- JS.and (zigzag v) 1) = v.
Proof.
  intros H. pose proof (zigzag_range v H) as Hu.
  rewrite sar_small, and_1_b2z by lia. change (2 ^ 1) with 2.
  unfold zigzag in *. destruct (v >=? 0) eqn:E.
  - apply Z.geb_le in E.
    rewrite Z.odd_mul, andb_false_r, Z.div_mul by lia. simpl Z.b2z.
    unfold JS.xor. rewrite !toInt32_small by lia. apply Z.lxor_0_r.
  - rewrite Z.geb_leb in E. apply Z.leb_gt in E.
    assert (O : Z.odd (- v * 2 - 1) = true).
    { replace (- v * 2 - 1) with (1 + 2 * (- v - 1)) by lia.
      now rewrite Z.odd_add_mul_2. }
    assert (D : (- v * 2 - 1) / 2 = - v - 1).
    { replace (- v * 2 - 1) with (1 + (- v - 1) * 2) by lia.
      rewrite Z.div_add by lia. reflexivity. }
    rewrite O, D. simpl Z.b2z.
    unfold JS.xor. rewrite !toInt32_small by lia.
    rewrite Z.lxor_m1_r. unfold Z.lnot. lia.
Qed.

Lemma appends_writeUnary q :
  appends (BitWriter.writeUnary q) (repeat false (Z.to_nat q) ++ [true]).
Proof.
  unfold BitWriter.writeUnary.
  apply appends_bind;
    [ apply (appends_repeatBit false) | apply (appends_writeBit true) ].
Qed.

Lemma delivers_readUnary q :
  0 <= q <= 32 ->
  delivers BitReader.readUnary (repeat false (Z.to_nat q) ++ [true]) q.
Proof.
  intros Hq. unfold BitReader.readUnary.
  pose proof (delivers_zeros_loop "Invalid unary code" (Z.to_nat q) 33 0) as D.
  rewrite Z2Nat.id, Z.add_0_l in D by lia. apply D; lia.
Qed.

Lemma land_mask u k :
  0 <= k < 31 -> 0 <= u < 2 ^ 31 -> JS.and u (JS.shl 1 k - 1) = u mod 2 ^ k.
Proof.
  intros Hk Hu.
  assert (0 < 2 ^ k < 2 ^ 31) by (split; [ apply Z.pow_pos_nonneg | apply Z.pow_lt_mono_r ]; lia).
  rewrite shl_small by lia. rewrite Z.mul_1_l.
  unfold JS.and. rewrite !toInt32_small by lia.
  replace (2 ^ k - 1) with (Z.ones k) by (rewrite Z.ones_equiv; lia).
  apply Z.land_ones. lia.
Qed.

Lemma appends_writeRice v k :
  - 2 ^ 20 <= v <= 2 ^ 20 -> 0 <= k <= 20 ->
  appends (BitWriter.writeRice v k)
          ((repeat false (Z.to_nat (zigzag v / 2 ^ k)) ++ [true])
           ++ msb_bits (Z.to_nat k) (zigzag v mod 2 ^ k)).
Proof.
  intros Hv Hk. pose proof (zigzag_range v Hv) as Hu.
  assert (0 < 2 ^ k) by (apply Z.pow_pos_nonneg; lia).
  pose proof (Z.mod_pos_bound (zigzag v) (2 ^ k) ltac:(lia)) as Hm.
  assert (2 ^ k <= 2 ^ 20) by (apply Z.pow_le_mono_r; lia).
  unfold BitWriter.writeRice. fold (zigzag v).
  rewrite sar_small, land_mask by lia.
  apply appends_bind; [ apply appends_writeUnary | ].
  rewrite <- (toInt32_small (zigzag v mod 2 ^ k)) at 2 by lia.
  apply appends_writeBits. lia.
Qed.

Lemma delivers_readRice v k :
  - 2 ^ 20 <= v <= 2 ^ 20 -> 0 <= k <= 20 -> zigzag v / 2 ^ k <= 32 ->
  delivers (BitReader.readRice k)
           ((repeat false (Z.to_nat (zigzag v / 2 ^ k)) ++ [true])
            ++ msb_bits (Z.to_nat k) (zigzag v mod 2 ^ k))
           v.
Proof.
  intros Hv Hk Hq. pose proof (zigzag_range v Hv) as Hu.
  assert (0 < 2 ^ k) by (apply Z.pow_pos_nonneg; lia).
  pose proof (Z.mod_pos_bound (zigzag v) (2 ^ k) ltac:(lia)) as Hm.
  assert (2 ^ k <= 2 ^ 20) by (apply Z.pow_le_mono_r; lia).
  assert (0 <= zigzag v / 2 ^ k) by (apply Z.div_pos; lia).
  pose proof (Z.div_mod (zigzag v) (2 ^ k) ltac:(lia)) as Hdm.
  unfold BitReader.readRice.
  eapply delivers_bind; [ apply delivers_readUnary; lia | ].
  rewrite <- (app_nil_r (msb_bits _ _)).
  eapply delivers_bind; [ apply delivers_readBits; lia | ].
  rewrite Z.mod_mod by lia.
  assert (V : JS.or (JS.shl (zigzag v / 2 ^ k) k) (zigzag v mod 2 ^ k) = zigzag v).
  { rewrite shl_small by nia.
    rewrite or_small by nia.
    rewrite <- Z.shiftl_mul_pow2 by lia.
    rewrite lor_shiftl_add by lia. lia. }
  rewrite V, zigzag_decode by exact Hv.
  apply delivers_ret.
Qed.

Lemma rice_roundtrip_within v k :
  - 2 ^ 20 <= v <= 2 ^ 20 -> 0 <= k <= 20 -> zigzag v / 2 ^ k <= 32 ->
  rice_roundtrip v k = Ok v.
Proof.
  intros Hv Hk Hq. unfold rice_roundtrip.
  eapply roundtrip_ok; [ apply appends_writeRice | apply delivers_readRice ]; assumption.
Qed.

Lemma roundtrip_fails enc dec bs rest msg :
  appends enc (bs ++ rest) -> fails dec bs msg -> roundtrip enc dec = Throw msg.
Proof.
  intros He Hd. unfold roundtrip.
  destruct writer_new_ok as (Hn & Wn).
  destruct (He _ Hn) as (w & E & Hw & B & _). rewrite E.
  destruct (getBuffer_bits w Hw) as (buf & w' & pad & G & O). rewrite G.
  destruct (reader_new buf) as (Hr & P).
  rewrite O, B, Wn in P. simpl app in P. rewrite <- app_assoc in P.
  destruct (Hd _ _ Hr P) as (r' & D). now rewrite D.
Qed.

(** A quotient above 32 makes the reader give up. *)
Lemma rice_roundtrip_beyond v k :
  - 2 ^ 20 <= v <= 2 ^ 20 -> 0 <= k <= 20 -> 32 < zigzag v / 2 ^ k ->
  rice_roundtrip v k = Throw "Invalid unary code".
Proof.
  intros Hv Hk Hq. unfold rice_roundtrip.
  pose proof (appends_writeRice v k Hv Hk) as A.
  replace (Z.to_nat (zigzag v / 2 ^ k))
    with (33 + (Z.to_nat (zigzag v / 2 ^ k) - 33))%nat in A by lia.
  rewrite repeat_app, <- !app_assoc in A.
  eapply roundtrip_fails; [ exact A | ].
  unfold BitReader.readRice. apply fails_bind.
  unfold BitReader.readUnary.
  apply (fails_zeros_loop "Invalid unary code" 32 33 0); lia.
Qed.

(** ** Exp-Golomb *)

Lemma msb_bits_top l code :
  0 <= l -> 2 ^ l <= code < 2 ^ (l + 1) ->
  msb_bits (Z.to_nat (l + 1)) code = true :: msb_bits (Z.to_nat l) code.
Proof.
  intros Hl Hc.
  replace (Z.to_nat (l + 1)) with (S (Z.to_nat l)) by lia.
  cbn [msb_bits]. f_equal. rewrite Z2Nat.id by lia.
  rewrite Z.testbit_true by lia.
  assert (code / 2 ^ l = 1).
  { assert (0 < 2 ^ l) by (apply Z.pow_pos_nonneg; lia).
    rewrite Z.pow_add_r in Hc by lia. change (2 ^ 1) with 2 in Hc.
    symmetry. apply Z.div_unique with (code - 2 ^ l); lia. }
  rewrite H. reflexivity.
Qed.

Lemma appends_writeUExpGolomb u :
  1 <= u <= 2 ^ 31 - 2 ->
  let l := Z.log2 (u + 1) in
  appends (BitWriter.writeUExpGolomb u)
          ((repeat false (Z.to_nat l) ++ [true]) ++ msb_bits (Z.to_nat l) (u + 1)).
Proof.
  intros Hu l.
  pose proof (Z.log2_spec (u + 1) ltac:(lia)) as Hl. fold l in Hl.
  assert (0 <= l) by apply Z.log2_nonneg.
  assert (l < 31).
  { apply Z.log2_lt_pow2; lia. }
  unfold BitWriter.writeUExpGolomb, BitWriter.floor_log2.
  destruct (u =? 0) eqn:E0; [ apply Z.eqb_eq in E0; lia | ].
  destruct (u + 1 <=? 0) eqn:E1; [ apply Z.leb_le in E1; lia | ].
  fold l. replace (l + 1 - 1) with l by lia.
  rewrite <- app_assoc.
  apply appends_bind; [ apply (appends_repeatBit false) | ].
  change ([true] ++ msb_bits (Z.to_nat l) (u + 1))
    with (true :: msb_bits (Z.to_nat l) (u + 1)).
  rewrite <- msb_bits_top by (rewrite <- ?Z.add_1_r; lia).
  rewrite <- (toInt32_small (u + 1)) at 2 by lia.
  apply appends_writeBits. lia.
Qed.

Lemma delivers_readUExpGolomb u :
  1 <= u <= 2 ^ 31 - 2 ->
  let l := Z.log2 (u + 1) in
  delivers BitReader.readUExpGolomb
           ((repeat false (Z.to_nat l) ++ [true]) ++ msb_bits (Z.to_nat l) (u + 1))
           u.
Proof.
  intros Hu l.
  pose proof (Z.log2_spec (u + 1) ltac:(lia)) as Hl. fold l in Hl.
  assert (0 < l).
  { apply Z.log2_pos. lia. }
  assert (l < 31).
  { apply Z.log2_lt_pow2; lia. }
  unfold BitReader.readUExpGolomb.
  eapply delivers_bind.
  { pose proof (delivers_zeros_loop "Invalid Exp-Golomb code" (Z.to_nat l) 33 0) as D.
    rewrite Z2Nat.id, Z.add_0_l in D by lia. apply D; lia. }
  destruct (l =? 0) eqn:E0; [ apply Z.eqb_eq in E0; lia | ].
  rewrite <- (app_nil_r (msb_bits _ _)).
  eapply delivers_bind; [ apply delivers_readBits; lia | ].
  assert (0 < 2 ^ l < 2 ^ 31)
    by (split; [ apply Z.pow_pos_nonneg | apply Z.pow_lt_mono_r ]; lia).
  rewrite shl_small by lia.
  assert (M : (u + 1) mod 2 ^ l = u + 1 - 2 ^ l).
  { rewrite <- Z.add_1_r, Z.pow_add_r in Hl by lia. change (2 ^ 1) with 2 in Hl.
    symmetry. apply Z.mod_unique with 1; lia. }
  rewrite M.
  replace (1 * 2 ^ l - 1 + (u + 1 - 2 ^ l)) with u by lia.
  apply delivers_ret.
Qed.

Lemma ue_roundtrip_within u :
  0 <= u <= 2 ^ 31 - 2 -> ue_roundtrip u = Ok u.
Proof.
  intros Hu.
  destruct (Z.eq_dec u 0) as [-> | Hnz]; [ reflexivity | ].
  unfold ue_roundtrip.
  eapply roundtrip_ok;
    [ apply appends_writeUExpGolomb | apply delivers_readUExpGolomb ]; lia.
Qed.

End RoundTrips.

(** * Reader: reads are atomic in the cursor *)

Section ReaderAtomic.

Import ReaderSpec.

Variable data : list byte.

Lemma rel_index_range n i : 0 <= n -> 0 <= JS.rel_index n i <= n.
Proof.
  intros Hn. unfold JS.rel_index.
  destruct (i <? 0) eqn:E; [ apply Z.ltb_lt in E | apply Z.ltb_ge in E ]; lia.
Qed.

Lemma rel_index_inside n i : 0 <= i <= n -> JS.rel_index n i = i.
Proof.
  intros H. unfold JS.rel_index.
  destruct (i <? 0) eqn:E; [ apply Z.ltb_lt in E; lia | lia ].
Qed.

Lemma len_nonneg {A} (l : list A) : 0 <= JS.len l.
Proof. unfold JS.len. lia. Qed.

Lemma subarray_len {A} (l : list A) b e :
  JS.len (JS.subarray l b e)
  = Z.max (JS.rel_index (JS.len l) e - JS.rel_index (JS.len l) b) 0.
Proof.
  pose proof (rel_index_range (JS.len l) b (len_nonneg l)).
  pose proof (rel_index_range (JS.len l) e (len_nonneg l)).
  unfold JS.subarray, JS.len in *.
  rewrite length_firstn, length_skipn. lia.
Qed.

Lemma subarray_empty {A} (l : list A) b : JS.subarray l b b = [].
Proof.
  unfold JS.subarray. rewrite Z.sub_diag. reflexivity.
Qed.

Lemma sub_of_sub {A} (l : list A) (a k q n : nat) :
  (q + n <= k)%nat ->
  firstn n (skipn q (firstn k (skipn a l))) = firstn n (skipn (a + q) l).
Proof.
  intros H.
  rewrite skipn_firstn_comm, firstn_firstn, skipn_skipn.
  rewrite Nat.min_l by lia. f_equal. f_equal. lia.
Qed.

(** The slice made by [loadSlice(offset, length)] fits the buffer, whatever
    the two numbers are. *)
Lemma loadSlice_fits off L :
  slice_fits data
    (FileSlice.mk (JS.subarray data off (Z.min (off + L) (JS.len data))) off).
Proof.
  intros p n Hp Hn Hc.
  unfold FileSlice.contains in Hc. cbn [FileSlice.offset FileSlice.bytes] in Hc.
  apply andb_prop in Hc. destruct Hc as [C1 C2].
  rewrite Z.geb_leb in C1. apply Z.leb_le in C1. apply Z.leb_le in C2.
  rewrite subarray_len in C2.
  unfold FileSlice.get. cbn [FileSlice.offset FileSlice.bytes].
  destruct (Z.eq_dec n 0) as [-> | Hnz].
  { rewrite Z.add_0_r, subarray_empty. unfold bytes_at. simpl. split; [ reflexivity | lia ]. }
  set (S := JS.len data) in *.
  set (e := Z.min (off + L) S) in *.
  pose proof (len_nonneg data) as HS. fold S in HS.
  pose proof (rel_index_range S e HS) as Hre.
  assert (Hoff : 0 <= off <= S).
  { unfold JS.rel_index in C2 at 2. destruct (off <? 0) eqn:E.
    - apply Z.ltb_lt in E. lia.
    - apply Z.ltb_ge in E. lia. }
  rewrite (rel_index_inside S off) in C2 by lia.
  split; [ | lia ].
  unfold JS.subarray at 1. rewrite subarray_len. fold S. fold e.
  rewrite (rel_index_inside S off) by lia.
  set (k := Z.max (JS.rel_index S e - off) 0) in *.
  rewrite !rel_index_inside by lia.
  unfold JS.subarray. fold S. fold e. rewrite (rel_index_inside S off) by lia.
  fold k. unfold bytes_at.
  replace (Z.max (p - off + n - (p - off)) 0) with n by lia.
  rewrite sub_of_sub by lia.
  f_equal. f_equal. lia.
Qed.

Lemma loadSlice_run r off L :
  reader_inv data r ->
  exists fs,
    Reader.loadSlice off L r
    = (Ok tt,
       Reader.mk (Reader.position r)
         (Some (FileSlice.mk (JS.subarray data off (Z.min (off + L) (JS.len data))) off))
         (BufferSource data) (Some data) fs).
Proof.
  intros (Hsrc & Hsd & _). destruct r as [pos sl src sd fs]. simpl in *. subst src.
  unfold Reader.loadSlice, bind, this. cbn.
  destruct Hsd as [-> | ->]; cbn; eexists; reflexivity.
Qed.

Lemma inv_set_position r p :
  reader_inv data r -> reader_inv data (Reader.set_position p r).
Proof. intros H. exact H. Qed.

Lemma inv_loaded pos off L fs :
  reader_inv data
    (Reader.mk pos
       (Some (FileSlice.mk (JS.subarray data off (Z.min (off + L) (JS.len data))) off))
       (BufferSource data) (Some data) fs).
Proof.
  split; [ reflexivity | split; [ now right | ] ].
  cbn. intros s E. injection E as <-. apply loadSlice_fits.
Qed.

(** [readBytes] keeps the invariant and, on a cursor and a count that are
    not negative, returns what the buffer holds. *)
Lemma readBytes_spec r n :
  reader_inv data r ->
  exists res r',
    Reader.readBytes n r = (Ok res, r')
    /\ reader_inv data r'
    /\ (0 <= Reader.position r -> 0 <= n ->
        (Reader.position r + n <= JS.len data ->
         res = Some (bytes_at data (Reader.position r) n)
         /\ Reader.position r' = Reader.position r + n)
        /\ (0 < n -> Reader.position r + n > JS.len data ->
            res = None /\ Reader.position r' = Reader.position r)).
Proof.
  intros Hinv.
  unfold Reader.readBytes, bind, this.
  destruct (Reader.cached r n) as [result |] eqn:Hc.
  - (* served from the cached slice *)
    unfold Reader.cached in Hc.
    destruct (Reader.slice r) as [s |] eqn:Hs; [ | discriminate ].
    destruct (FileSlice.contains s (Reader.position r) n) eqn:C; [ | discriminate ].
    injection Hc as <-.
    eexists _, _. split; [ reflexivity | ].
    split; [ apply inv_set_position, Hinv | ].
    intros Hp Hn.
    destruct Hinv as (_ & _ & Hfit).
    destruct (Hfit s Hs _ _ Hp Hn C) as (G & B).
    cbn. split; intros; [ now rewrite G | lia ].
  - (* reload at the cursor *)
    destruct (loadSlice_run r (Reader.position r) (Z.max n Reader.DEFAULT_SLICE_SIZE) Hinv)
      as (fs & E).
    rewrite E. clear Hc. cbv beta iota.
    set (s := FileSlice.mk _ _) in *.
    unfold Reader.cached. cbn [Reader.slice Reader.position].
    pose proof (loadSlice_fits (Reader.position r) (Z.max n Reader.DEFAULT_SLICE_SIZE)) as Hfit.
    fold s in Hfit.
    destruct (FileSlice.contains s (Reader.position r) n) eqn:C.
    + eexists _, _. split; [ reflexivity | ].
      split; [ apply inv_set_position, inv_loaded | ].
      intros Hp Hn. destruct (Hfit _ _ Hp Hn C) as (G & B).
      cbn. split; intros; [ now rewrite G | lia ].
    + eexists _, _. split; [ reflexivity | ].
      split; [ apply inv_loaded | ].
      intros Hp Hn. cbn. split; intros; [ | now split ].
      exfalso.
      unfold FileSlice.contains, s in C. cbn [FileSlice.offset FileSlice.bytes] in C.
      rewrite subarray_len in C.
      pose proof (len_nonneg data).
      unfold Reader.DEFAULT_SLICE_SIZE in C.
      rewrite !rel_index_inside in C by lia.
      apply andb_false_iff in C. destruct C as [C | C].
      * rewrite Z.geb_leb in C. apply Z.leb_gt in C. lia.
      * apply Z.leb_gt in C. lia.
Qed.

(** A read of no bytes returns an empty array and leaves the cursor where
    it is, wherever that is. *)
Lemma readBytes_zero r :
  reader_inv data r ->
  exists r',
    Reader.readBytes 0 r = (Ok (Some []), r')
    /\ Reader.position r' = Reader.position r.
Proof.
  intros Hinv.
  unfold Reader.readBytes, bind, this.
  destruct (Reader.cached r 0) as [result |] eqn:Hc.
  - unfold Reader.cached in Hc.
    destruct (Reader.slice r) as [s |]; [ | discriminate ].
    destruct (FileSlice.contains s (Reader.position r) 0); [ | discriminate ].
    injection Hc as <-.
    unfold FileSlice.get. rewrite Z.add_0_r, subarray_empty.
    eexists. split; [ reflexivity | ]. cbn. lia.
  - destruct (loadSlice_run r (Reader.position r) (Z.max 0 Reader.DEFAULT_SLICE_SIZE) Hinv)
      as (fs & E).
    rewrite E. clear Hc. cbv beta iota.
    set (s := FileSlice.mk _ _).
    unfold Reader.cached. cbn [Reader.slice Reader.position].
    assert (C : FileSlice.contains s (Reader.position r) 0 = true).
    { unfold FileSlice.contains, s. cbn [FileSlice.offset FileSlice.bytes].
      apply andb_true_intro. split.
      - rewrite Z.geb_leb. apply Z.leb_le. lia.
      - apply Z.leb_le. pose proof (len_nonneg (JS.subarray data (Reader.position r)
          (Z.min (Reader.position r + Z.max 0 Reader.DEFAULT_SLICE_SIZE) (JS.len data)))).
        lia. }
    rewrite C.
    unfold FileSlice.get. rewrite Z.add_0_r, subarray_empty.
    eexists. split; [ reflexivity | ]. cbn. lia.
Qed.

Lemma snd_bind_ret {A B} (m : M Reader.t A) (f : A -> B) r :
  snd ((x <- m ;; ret (f x)) r) = snd (m r).
Proof. unfold bind, ret. destruct (m r) as [[a | e] r']; reflexivity. Qed.

Lemma inv_init r : reader_inv data r -> reader_inv data (snd (Reader.init r)).
Proof.
  intros (Hsrc & Hsd & Hsl). destruct r as [pos sl src sd fs]. cbn in *. subst src.
  split; [ reflexivity | split; [ now right | exact Hsl ] ].
Qed.

Lemma inv_getSize r : reader_inv data r -> reader_inv data (snd (Reader.getSize r)).
Proof.
  intros H. unfold Reader.getSize, bind, this, field, ret.
  destruct (Reader.fileSize r); cbn; [ exact H | ].
  pose proof (inv_init r H) as I.
  destruct (Reader.init r) as [[[] | e] r'] eqn:E; exact I.
Qed.

Lemma inv_readBytes r n : reader_inv data r -> reader_inv data (snd (Reader.readBytes n r)).
Proof.
  intros H. destruct (readBytes_spec r n H) as (res & r' & E & I & _).
  now rewrite E.
Qed.

Lemma reachable_inv r : reachable data r -> reader_inv data r.
Proof.
  induction 1 as [| A m r Hr IH Hm].
  - split; [ reflexivity | split; [ now left | ] ]. cbn. discriminate.
  - destruct Hm;
      try (unfold Reader.readU8, Reader.readU16BE, Reader.readU16LE, Reader.readU24BE,
             Reader.readU32BE, Reader.readU32LE, Reader.readFourCC, Reader.readSyncsafeInt;
           rewrite snd_bind_ret; apply inv_readBytes, IH).
    + apply inv_init, IH.
    + apply inv_getSize, IH.
    + apply inv_readBytes, IH.
    + unfold Reader.peek, bind, this, modify, ret.
      pose proof (inv_readBytes r n IH) as I.
      destruct (Reader.readBytes n r) as [[res | e] r']; exact I.
    + exact IH.
    + exact IH.
    + unfold Reader.isEOF, bind, this, ret.
      pose proof (inv_getSize r IH) as I.
      destruct (Reader.getSize r) as [[res | e] r']; exact I.
    + unfold Reader.remaining, bind, this, ret.
      pose proof (inv_getSize r IH) as I.
      destruct (Reader.getSize r) as [[res | e] r']; exact I.
    + destruct IH as (Hsrc & _ & _).
      split; [ exact Hsrc | split; [ now left | ] ]. cbn. discriminate.
Qed.

End ReaderAtomic.

(** * MP3 frame size *)

Section Mp3FrameSize.

Import Mp3.

Lemma and_1_cases x : JS.and x 1 = 0 \/ JS.and x 1 = 1.
Proof.
  unfold JS.and. change (JS.toInt32 1) with (Z.ones 1).
  rewrite Z.land_ones by lia. change (2 ^ 1) with 2.
  pose proof (Z.mod_pos_bound (JS.toInt32 x) 2). lia.
Qed.

Lemma lookup_In table i v : lookup table i = Some v -> In (Some v) table.
Proof.
  unfold lookup. destruct (nth_error table (Z.to_nat i)) as [[w |] |] eqn:E; try discriminate.
  destruct (w =? 0); [ discriminate | ].
  intros H. injection H as <-. eapply nth_error_In, E.
Qed.

Lemma parseFrameHeader_built data offset h :
  parseFrameHeader data offset = Some h ->
  exists v l br sr pb crc cm,
    In (Some br) (BITRATES v l) /\ In (Some sr) (SAMPLE_RATES v)
    /\ (pb = 0 \/ pb = 1)
    /\ h = built v l br sr pb crc cm.
Proof.
  unfold parseFrameHeader.
  destruct (offset + 4 >? JS.len data); [ discriminate | ].
  destruct (negb _ || negb _); [ discriminate | ].
  destruct (MPEG_VERSIONS _) as [v |]; [ | discriminate ].
  destruct (LAYERS _) as [l |]; [ | discriminate ].
  destruct (lookup (BITRATES v l) _) as [br |] eqn:Eb; [ | discriminate ].
  destruct (lookup (SAMPLE_RATES v) _) as [sr |] eqn:Es; [ | discriminate ].
  intros H. injection H as <-.
  eexists v, l, br, sr, _, _, _.
  split; [ eapply lookup_In, Eb | ].
  split; [ eapply lookup_In, Es | ].
  split; [ apply and_1_cases | reflexivity ].
Qed.

Ltac each_entry H :=
  simpl in H;
  repeat (destruct H as [H | H]; [ try discriminate H; injection H as <- | ]);
  try contradiction.

Lemma built_floor_last v l br sr pb crc cm :
  In (Some br) (BITRATES v l) -> In (Some sr) (SAMPLE_RATES v) -> pb = 0 \/ pb = 1 ->
  frameSize (built v l br sr pb crc cm)
  = JS.num (frame_size_floor_last (built v l br sr pb crc cm)).
Proof.
  intros Hb Hs Hp.
  destruct Hp; subst pb; destruct v, l; each_entry Hb; each_entry Hs;
    vm_compute; reflexivity.
Qed.

End Mp3FrameSize.

(** * AAC muxer *)

Section AacMuxer.

Import Aac.


Lemma elem_range data i v : JS.elem data i = Some v -> 0 <= v < 256.
Proof.
  unfold JS.elem. destruct (i <? 0); [ discriminate | ].
  destruct (nth_error data (Z.to_nat i)); [ | discriminate ].
  intros H. injection H as <-. apply u8_range.
Qed.

Lemma int_elem_range data i : 0 <= JS.int (JS.elem data i) < 256.
Proof.
  destruct (JS.elem data i) eqn:E; simpl; [ eapply elem_range, E | lia ].
Qed.

Lemma and_small a b :
  - 2 ^ 31 <= a < 2 ^ 31 -> - 2 ^ 31 <= b < 2 ^ 31 -> JS.and a b = Z.land a b.
Proof. intros. unfold JS.and. rewrite !toInt32_small by lia. reflexivity. Qed.

(** The test of the muxer is the 12-bit sync test. *)
Lemma hasAdtsHeader_sync12 data : hasAdtsHeader data = true <-> sync12 data.
Proof.
  unfold hasAdtsHeader, sync12.
  pose proof (int_elem_range data 1).
  rewrite and_small by lia.
  rewrite andb_true_iff, Z.eqb_eq.
  unfold JS.seq. destruct (JS.elem data 0) as [v |].
  - rewrite Z.eqb_eq. split; intros [A B]; split; congruence.
  - split; intros [A B]; discriminate.
Qed.

Lemma aac_writeAudioPacket_cases track packet (m : AacMuxer) :
  let data := pkt_data packet in
  (sync12 data -> aac_writeAudioPacket track packet m = (Ok tt, push data m))
  /\ (~ sync12 data ->
      aac_writeAudioPacket track packet m = (Ok tt, push (header_for m data ++ data) m)).
Proof.
  cbv zeta. unfold aac_writeAudioPacket.
  destruct (hasAdtsHeader (pkt_data packet)) eqn:E.
  - apply hasAdtsHeader_sync12 in E. split; [ reflexivity | contradiction ].
  - split; [ | reflexivity ].
    intros S. apply hasAdtsHeader_sync12 in S. congruence.
Qed.


(** What [finalize] hands to the writer: the stored frames in order. *)
Lemma writeAll_buffers ps w :
  Writer.target w <> StreamTarget \/ Writer.streamWriter w = None ->
  writeAll ps w
  = (Ok tt, Writer.mk (Writer.buffers w ++ ps) (Writer.target w)
                      (Writer._position w + JS.len (List.concat ps))
                      (Writer.streamWriter w) (Writer.written w)).
Proof.
  revert w. induction ps as [| p ps IH]; intros w Hw.
  - destruct w. cbn. rewrite app_nil_r, Z.add_0_r. reflexivity.
  - cbn [writeAll]. unfold bind.
    assert (E : Writer.writeBytes p w
                = (Ok tt, Writer.mk (Writer.buffers w ++ [p]) (Writer.target w)
                                    (Writer._position w + JS.len p)
                                    (Writer.streamWriter w) (Writer.written w))).
    { unfold Writer.writeBytes.
      destruct (Writer.target w) eqn:T; try reflexivity.
      destruct Hw as [Hw | Hw]; [ congruence | ]. now rewrite Hw. }
    rewrite E, IH by exact Hw.
    cbn [Writer.buffers Writer.target Writer._position Writer.streamWriter Writer.written
         List.concat].
    rewrite <- app_assoc. unfold JS.len. rewrite length_app, Nat2Z.inj_add, Z.add_assoc.
    reflexivity.
Qed.

End AacMuxer.

(** * The Muxer base class *)

Section MuxerState.

Context {X : Type} {impl : Muxer.Impl X}.

(** A second [finalize] throws and leaves the writer as it was. *)
Lemma finalize_twice (m : Muxer.t X) :
  Muxer.finalized m = true ->
  exists m',
    Muxer.finalize m = (Throw "Muxer already finalized", m')
    /\ Muxer.writer m' = Muxer.writer m
    /\ Muxer.ext m' = Muxer.ext m.
Proof.
  intros F. unfold Muxer.finalize, Muxer.withLock, finally, bind, modify, this.
  cbn. rewrite F. cbn. eexists. repeat split.
Qed.

(** [writePacket] does not look at [finalized]: on a finalized muxer it
    still hands the packet to [writeAudioPacket]. *)
Lemma writePacket_ignores_finalized (m : Muxer.t X) trackId track packet :
  Muxer.headerWritten m = true ->
  find (fun t => track_id t =? trackId) (Muxer.tracks m) = Some track ->
  Muxer.writePacket trackId packet m
  = let locked := Muxer.set_mutex (AsyncMutex.acquire (Muxer.mutex m)) m in
    let (r, m') := Muxer.writeAudioPacket track packet locked in
    (r, Muxer.set_mutex (AsyncMutex.release (Muxer.mutex m')) m').
Proof.
  intros H T.
  unfold Muxer.writePacket, Muxer.withLock, Muxer.ensureHeader, finally, bind, modify,
    this, ret.
  cbn. rewrite H. cbn. rewrite T. reflexivity.
Qed.

End MuxerState.

(** * FLAC STREAMINFO *)

Section FlacStreamInfo.

Import Flac.

Lemma elem_in_range (data : list byte) i :
  0 <= i < JS.len data -> exists b, JS.elem data i = Some (JS.u8 b).
Proof.
  intros Hi. unfold JS.elem, JS.len in *.
  destruct (i <? 0) eqn:E; [ apply Z.ltb_lt in E; lia | ].
  destruct (nth_error data (Z.to_nat i)) as [b |] eqn:N.
  - now exists b.
  - apply nth_error_None in N. lia.
Qed.

(** [x | (y + 1)] against [(x | y) + 1] on a one-bit [x << 4] and a
    four-bit [y]: they differ only when all five bits are set. *)
Lemma or_succ_field a lo :
  0 <= a < 2 -> 0 <= lo < 16 ->
  0 <= Z.lor (Z.shiftl a 4) lo <= 31
  /\ JS.or (JS.shl a 4) (lo + 1)
     = (if Z.lor (Z.shiftl a 4) lo =? 31 then 16 else Z.lor (Z.shiftl a 4) lo + 1).
Proof.
  intros Ha Hlo.
  assert (A : a = 0 \/ a = 1) by lia.
  assert (C : In lo (map Z.of_nat (seq 0 16))).
  { replace lo with (Z.of_nat (Z.to_nat lo)) by lia.
    apply in_map, in_seq. lia. }
  clear Ha Hlo.
  destruct A as [-> | ->]; cbn in C;
    repeat (destruct C as [<- | C];
            [ vm_compute; intuition discriminate | ]);
    contradiction.
Qed.

(** On a 34-byte payload the parser succeeds; the decoded depth is the
    stored field plus 1 for every field value but 31, where it is 16. *)
Lemma parseStreamInfo_bits data :
  List.length data = 34%nat ->
  exists info,
    parseStreamInfo data = Ok info
    /\ 0 <= bps_field data <= 31
    /\ bitsPerSample info = if bps_field data =? 31 then 16 else bps_field data + 1.
Proof.
  intros L.
  assert (Hl : JS.len data = 34) by (unfold JS.len; lia).
  unfold parseStreamInfo, getUint16BE.
  destruct (elem_in_range data 0 ltac:(lia)) as (b0 & ->).
  destruct (elem_in_range data (0 + 1) ltac:(lia)) as (b1 & ->).
  destruct (elem_in_range data 2 ltac:(lia)) as (b2 & ->).
  destruct (elem_in_range data (2 + 1) ltac:(lia)) as (b3 & ->).
  eexists. split; [ reflexivity | ].
  cbn [bitsPerSample]. unfold bps_field, at_.
  destruct (elem_in_range data 12 ltac:(lia)) as (b12 & ->).
  destruct (elem_in_range data 13 ltac:(lia)) as (b13 & ->).
  cbn [JS.int].
  pose proof (u8_range b12) as R12. pose proof (u8_range b13) as R13.
  rewrite (and_small (JS.u8 b12) 1) by lia.
  rewrite (sar_small (JS.u8 b13) 4) by lia.
  rewrite Z.shiftr_div_pow2 by lia.
  apply or_succ_field.
  - pose proof (Z.land_ones (JS.u8 b12) 1 ltac:(lia)) as E.
    change (Z.ones 1) with 1 in E. change (2 ^ 1) with 2 in E.
    pose proof (Z.mod_pos_bound (JS.u8 b12) 2). lia.
  - change (2 ^ 4) with 16.
    split; [ apply Z.div_pos | apply Z.div_lt_upper_bound ]; lia.
Qed.

End FlacStreamInfo.

Section Detection.

(** Formats that all decline a source leave [detectFormat] with null, in
    whatever order and however often they were registered. *)
Lemma detectFormat_all_decline fs src :
  Forall (fun f => Input.canRead f src = Ok false) fs ->
  Input.detectFormat fs src = Ok None.
Proof.
  induction 1 as [| f fs Hf _ IH]; cbn [Input.detectFormat].
  - reflexivity.
  - rewrite Hf. exact IH.
Qed.

Lemma registry_declines_empty :
  Forall (fun f => Input.canRead f (BufferSource []) = Ok false) Input.registry.
Proof. repeat constructor. Qed.

Lemma detectFormat_empty_any_order fs :
  incl fs Input.registry -> Input.detectFormat fs (BufferSource []) = Ok None.
Proof.
  intros Hin. apply detectFormat_all_decline, Forall_forall.
  intros f Hf. exact (proj1 (Forall_forall _ _) registry_declines_empty f (Hin f Hf)).
Qed.

End Detection.

(** * WAV demuxer on a canonical file *)

Section CanonicalWav.

(** A list of known length is the table of its elements. *)
Lemma list_as_table {A} (d : A) (l : list A) :
  l = map (fun i => nth i l d) (seq 0 (List.length l)).
Proof.
  induction l as [| x l IH]; [ reflexivity | ].
  cbn [List.length seq map nth]. f_equal.
  rewrite <- seq_shift, map_map. exact IH.
Qed.

(** The demuxer never looks at the samples: with the payload given as a
    table of 88200 unknown bytes, [init] runs to the end. *)
Lemma duration_of_table (f : nat -> byte) :
  Wav.getDuration
    (BufferSource (Wav.canonical_header 44100 1 16 88200 ++ map f (seq 0 (Z.to_nat 88200))))
  = Ok 1%float.
Proof. vm_compute. reflexivity. Qed.

Lemma canonical_88200_bytes payload :
  JS.len payload = 88200 ->
  Wav.getDuration (BufferSource (Wav.canonical_file 44100 1 16 payload)) = Ok 1%float.
Proof.
  intros L. unfold Wav.canonical_file. rewrite L.
  rewrite (list_as_table x00 payload) at 1.
  unfold JS.len in L.
  replace (List.length payload) with (Z.to_nat 88200) by lia.
  apply duration_of_table.
Qed.

End CanonicalWav.

(** * Bitstream: the remaining codes *)

Section MoreBits.

Import Bits.

Lemma toInt32_mod z : JS.toInt32 z mod 2 ^ 32 = z mod 2 ^ 32.
Proof.
  unfold JS.toInt32.
  rewrite <- Zminus_mod_idemp_l, Z.mod_mod by lia.
  rewrite Zminus_mod_idemp_l. f_equal. lia.
Qed.

Lemma toInt32_range z : - 2 ^ 31 <= JS.toInt32 z < 2 ^ 31.
Proof.
  unfold JS.toInt32.
  pose proof (Z.mod_pos_bound (z + 2 ^ 31) (2 ^ 32)). lia.
Qed.

Lemma mod_pow_mod z k n : 0 <= k <= n -> (z mod 2 ^ n) mod 2 ^ k = z mod 2 ^ k.
Proof.
  intros H. apply Z.mod_mod_divide.
  exists (2 ^ (n - k)). rewrite <- Z.pow_add_r by lia. f_equal. lia.
Qed.

Lemma toInt32_mod_pow z k : 0 <= k <= 32 -> JS.toInt32 z mod 2 ^ k = z mod 2 ^ k.
Proof.
  intros Hk.
  rewrite <- (mod_pow_mod (JS.toInt32 z) k 32), toInt32_mod by lia.
  apply mod_pow_mod. lia.
Qed.

Lemma msb_bits_ext n v w :
  v mod 2 ^ Z.of_nat n = w mod 2 ^ Z.of_nat n -> msb_bits n v = msb_bits n w.
Proof.
  induction n as [| n IH]; intros E; [ reflexivity | ].
  cbn [msb_bits]. f_equal.
  - rewrite <- (Z.mod_pow2_bits_low v (Z.of_nat (S n)) (Z.of_nat n)) by lia.
    rewrite <- (Z.mod_pow2_bits_low w (Z.of_nat (S n)) (Z.of_nat n)) by lia.
    now rewrite E.
  - apply IH.
    rewrite <- (mod_pow_mod v (Z.of_nat n) (Z.of_nat (S n))) by lia.
    rewrite <- (mod_pow_mod w (Z.of_nat n) (Z.of_nat (S n))) by lia.
    now rewrite E.
Qed.

Lemma msb_bits_toInt32 n v : (n <= 32)%nat -> msb_bits n (JS.toInt32 v) = msb_bits n v.
Proof. intros Hn. apply msb_bits_ext, toInt32_mod_pow. lia. Qed.

(** The last turn of a 32-bit read leaves the 32-bit window. *)
Lemma shl1_or_bit_wrap acc (b : bool) :
  0 <= acc < 2 ^ 31 -> JS.or (JS.shl acc 1) (Z.b2z b) = JS.toInt32 (2 * acc + Z.b2z b).
Proof.
  intros Ha.
  assert (Hb : 0 <= Z.b2z b < 2) by (destruct b; simpl; lia).
  unfold JS.or, JS.shl.
  rewrite (toInt32_small acc) by lia.
  rewrite shift_count by lia.
  rewrite (toInt32_small (Z.b2z b)) by lia.
  rewrite Z.shiftl_mul_pow2 by lia. change (2 ^ 1) with 2.
  assert (I : JS.toInt32 (JS.toInt32 (acc * 2)) = JS.toInt32 (acc * 2))
    by (apply toInt32_small, toInt32_range).
  rewrite I.
  destruct (Z_lt_le_dec acc (2 ^ 30)) as [L | G].
  - rewrite !toInt32_small by lia.
    replace (acc * 2) with (Z.shiftl acc 1) by (rewrite Z.shiftl_mul_pow2; lia).
    rewrite lor_shiftl_add by (change (2 ^ 1) with 2; lia). lia.
  - assert (E1 : JS.toInt32 (acc * 2) = (acc - 2 ^ 31) * 2).
    { unfold JS.toInt32.
      replace (acc * 2 + 2 ^ 31) with ((acc * 2 - 2 ^ 31) + 1 * 2 ^ 32) by lia.
      rewrite Z.mod_add by lia. rewrite Z.mod_small by lia. lia. }
    assert (E2 : JS.toInt32 (2 * acc + Z.b2z b) = (acc - 2 ^ 31) * 2 + Z.b2z b).
    { unfold JS.toInt32.
      replace (2 * acc + Z.b2z b + 2 ^ 31)
        with ((acc * 2 + Z.b2z b - 2 ^ 31) + 1 * 2 ^ 32) by lia.
      rewrite Z.mod_add by lia. rewrite Z.mod_small by lia. lia. }
    rewrite E1, E2.
    replace ((acc - 2 ^ 31) * 2) with (Z.shiftl (acc - 2 ^ 31) 1)
      by (rewrite Z.shiftl_mul_pow2; lia).
    rewrite lor_shiftl_add by (change (2 ^ 1) with 2; lia).
    rewrite Z.shiftl_mul_pow2 by lia. lia.
Qed.

Lemma delivers_readBits_loop_wrap bs acc :
  0 <= acc < 2 ^ 31 -> (acc + 1) * 2 ^ JS.len bs <= 2 ^ 32 ->
  delivers (BitReader.readBits_loop (List.length bs) acc) bs (JS.toInt32 (value bs acc)).
Proof.
  revert acc. induction bs as [| b bs IH]; intros acc Ha Hb.
  - simpl. unfold value. simpl. rewrite toInt32_small by lia. apply delivers_ret.
  - cbn [List.length BitReader.readBits_loop].
    change (b :: bs) with ([b] ++ bs).
    apply delivers_bind with (v1 := Z.b2z b); [ apply delivers_readBit | ].
    assert (L : JS.len (b :: bs) = JS.len bs + 1)
      by (unfold JS.len; cbn [List.length]; lia).
    rewrite L in Hb.
    assert (P : 0 < 2 ^ JS.len bs) by (apply Z.pow_pos_nonneg; unfold JS.len; lia).
    rewrite Z.pow_add_r in Hb by (unfold JS.len; lia). change (2 ^ 1) with 2 in Hb.
    assert (Hbit : 0 <= Z.b2z b <= 1) by (destruct b; simpl; lia).
    assert (V : value ([b] ++ bs) acc = value bs (2 * acc + Z.b2z b)) by reflexivity.
    rewrite V.
    destruct bs as [| b' bs'].
    + cbn [List.length BitReader.readBits_loop]. unfold value. cbn [fold_left].
      rewrite shl1_or_bit_wrap by lia. apply delivers_ret.
    + assert (L2 : JS.len (b' :: bs') = JS.len bs' + 1)
        by (unfold JS.len; cbn [List.length]; lia).
      assert (P2 : 0 < 2 ^ JS.len bs') by (apply Z.pow_pos_nonneg; unfold JS.len; lia).
      rewrite L2, Z.pow_add_r in Hb by (unfold JS.len; lia). change (2 ^ 1) with 2 in Hb.
      assert (acc < 2 ^ 30) by nia.
      rewrite shl1_or_bit by lia.
      apply IH; [ lia | ].
      rewrite L2, Z.pow_add_r by (unfold JS.len; lia). change (2 ^ 1) with 2. nia.
Qed.

Lemma delivers_readBits32 v :
  delivers (BitReader.readBits 32) (msb_bits 32 v) (JS.toInt32 v).
Proof.
  unfold BitReader.readBits. change (32 >? 32) with false. cbv iota.
  change (Z.to_nat 32) with 32%nat.
  pose proof (delivers_readBits_loop_wrap (msb_bits 32 v) 0) as D.
  rewrite msb_bits_length in D.
  rewrite value_msb_bits in D.
  replace (JS.toInt32 (0 * 2 ^ Z.of_nat 32 + v mod 2 ^ Z.of_nat 32)) with (JS.toInt32 v) in D.
  - apply D; [ lia | ]. unfold JS.len. rewrite msb_bits_length. simpl. lia.
  - unfold JS.toInt32. change (Z.of_nat 32) with 32. f_equal.
    rewrite Z.mul_0_l, Z.add_0_l.
    rewrite <- (Zplus_mod_idemp_l v). reflexivity.
Qed.

(** *** Reads and writes through [bigint] *)

Lemma land_shiftr_1 v i : 0 <= i -> Z.land (Z.shiftr v i) 1 = Z.b2z (Z.testbit v i).
Proof.
  intros Hi. change 1 with (Z.ones 1). rewrite Z.land_ones by lia.
  change (2 ^ 1) with 2. rewrite <- Z.bit0_mod, Z.shiftr_spec by lia.
  now rewrite Z.add_0_l.
Qed.

Lemma appends_writeBitsBigInt_loop value n :
  appends (BitWriter.writeBitsBigInt_loop value n) (msb_bits n value).
Proof.
  induction n as [| n IH]; simpl.
  - apply appends_ret.
  - rewrite land_shiftr_1 by lia.
    match goal with |- appends _ (?b :: ?l) => change (b :: l) with ([b] ++ l) end.
    apply appends_bind; [ apply appends_writeBit | exact IH ].
Qed.

Lemma delivers_readBitsBigInt_loop bs acc :
  delivers (BitReader.readBitsBigInt_loop (List.length bs) acc) bs (value bs acc).
Proof.
  revert acc. induction bs as [| b bs IH]; intros acc.
  - apply delivers_ret.
  - cbn [List.length BitReader.readBitsBigInt_loop].
    change (b :: bs) with ([b] ++ bs).
    apply delivers_bind with (v1 := Z.b2z b); [ apply delivers_readBit | ].
    rewrite lor_shiftl_add
      by (change (2 ^ 1) with 2; destruct b; simpl; lia).
    change (2 ^ 1) with 2.
    replace (acc * 2 + Z.b2z b) with (2 * acc + Z.b2z b) by lia.
    apply IH.
Qed.

Lemma bigint_roundtrip_bits v count :
  0 <= count ->
  roundtrip (BitWriter.writeBitsBigInt v count) (BitReader.readBitsBigInt count)
  = Ok (v mod 2 ^ count).
Proof.
  intros Hc.
  apply roundtrip_ok with (bs := msb_bits (Z.to_nat count) v).
  - apply appends_writeBitsBigInt_loop.
  - unfold BitReader.readBitsBigInt.
    pose proof (delivers_readBitsBigInt_loop (msb_bits (Z.to_nat count) v) 0) as D.
    rewrite msb_bits_length, value_msb_bits in D.
    rewrite Z2Nat.id in D by lia. exact D.
Qed.

(** *** Signed Exp-Golomb *)

Lemma appends_writeUExpGolomb_0 : appends (BitWriter.writeUExpGolomb 0) [true].
Proof. apply (appends_writeBit true). Qed.

Lemma delivers_readUExpGolomb_0 : delivers BitReader.readUExpGolomb [true] 0.
Proof.
  unfold BitReader.readUExpGolomb.
  change [true] with ((repeat false 0 ++ [true]) ++ []).
  apply delivers_bind with (v1 := 0).
  - apply (delivers_zeros_loop _ 0%nat 33%nat 0); simpl; lia.
  - simpl. apply delivers_ret.
Qed.

(** The bits of the unsigned code of [u]. *)
Lemma ue_code u :
  0 <= u <= 2 ^ 31 - 2 ->
  exists bs, appends (BitWriter.writeUExpGolomb u) bs
             /\ delivers BitReader.readUExpGolomb bs u.
Proof.
  intros Hu. destruct (Z.eq_dec u 0) as [-> | N].
  - exists [true]. split; [ apply appends_writeUExpGolomb_0 | apply delivers_readUExpGolomb_0 ].
  - eexists. split.
    + apply appends_writeUExpGolomb. lia.
    + apply delivers_readUExpGolomb. lia.
Qed.

Lemma ceil_half_odd v : BitReader.ceil_half (v * 2 - 1) = v.
Proof.
  unfold BitReader.ceil_half.
  replace (- (v * 2 - 1)) with (1 + (- v) * 2) by lia.
  rewrite Z.div_add by lia. change (1 / 2) with 0. lia.
Qed.

Lemma ceil_half_even v : BitReader.ceil_half (v * 2) = v.
Proof.
  unfold BitReader.ceil_half.
  replace (- (v * 2)) with ((- v) * 2) by lia.
  rewrite Z.div_mul by lia. lia.
Qed.

Lemma se_roundtrip_within v :
  - (2 ^ 30 - 1) <= v <= 2 ^ 30 - 1 ->
  roundtrip (BitWriter.writeSExpGolomb v) BitReader.readSExpGolomb = Ok v.
Proof.
  intros Hv. unfold BitWriter.writeSExpGolomb, BitReader.readSExpGolomb.
  destruct (v =? 0) eqn:E0.
  - apply Z.eqb_eq in E0. subst v.
    apply roundtrip_ok with (bs := [true] ++ []).
    + rewrite app_nil_r. apply appends_writeUExpGolomb_0.
    + apply delivers_bind with (v1 := 0); [ apply delivers_readUExpGolomb_0 | ].
      simpl. apply delivers_ret.
  - apply Z.eqb_neq in E0.
    destruct (v >? 0) eqn:Ep.
    + apply Z.gtb_lt in Ep.
      destruct (ue_code (v * 2 - 1)) as (bs & Ha & Hd); [ lia | ].
      apply roundtrip_ok with (bs := bs ++ []).
      * rewrite app_nil_r. exact Ha.
      * apply delivers_bind with (v1 := v * 2 - 1); [ exact Hd | ].
        destruct (v * 2 - 1 =? 0) eqn:Z0; [ apply Z.eqb_eq in Z0; lia | ].
        rewrite and_1_b2z by lia.
        replace (Z.odd (v * 2 - 1)) with true.
        -- change (Z.b2z true =? 1) with true. cbv iota zeta.
           rewrite ceil_half_odd, Z.mul_1_l. apply delivers_ret.
        -- symmetry. replace (v * 2 - 1) with (2 * (v - 1) + 1) by lia.
           apply Z.odd_odd.
    + assert (Hn : v < 0) by (rewrite Z.gtb_ltb in Ep; apply Z.ltb_ge in Ep; lia).
      destruct (ue_code (- v * 2)) as (bs & Ha & Hd); [ lia | ].
      apply roundtrip_ok with (bs := bs ++ []).
      * rewrite app_nil_r. exact Ha.
      * apply delivers_bind with (v1 := - v * 2); [ exact Hd | ].
        destruct (- v * 2 =? 0) eqn:Z0; [ apply Z.eqb_eq in Z0; lia | ].
        rewrite and_1_b2z by lia.
        replace (Z.odd (- v * 2)) with false.
        -- change (Z.b2z false =? 1) with false. cbv iota zeta.
           rewrite ceil_half_even.
           replace (-1 * - v) with v by lia. apply delivers_ret.
        -- symmetry. replace (- v * 2) with (2 * (- v)) by lia.
           apply Z.odd_even.
Qed.

(** *** Whole bytes *)

Lemma to_u8_u8 b : JS.to_u8 (JS.u8 b) = b.
Proof. destruct b; reflexivity. Qed.

Lemma byte_bits_length b : List.length (byte_bits b) = 8%nat.
Proof. apply msb_bits_length. Qed.

Lemma byte_bits_inj a b : byte_bits a = byte_bits b -> a = b.
Proof.
  intros E. unfold byte_bits in E.
  apply (f_equal (fun bs => value bs 0)) in E.
  rewrite !value_msb_bits in E.
  pose proof (u8_range a). pose proof (u8_range b).
  change (2 ^ Z.of_nat 8) with 256 in E.
  rewrite !Z.mod_small in E by lia.
  rewrite <- (to_u8_u8 a), <- (to_u8_u8 b). f_equal. lia.
Qed.

Lemma of_bytes_cons b l : of_bytes (b :: l) = byte_bits b ++ of_bytes l.
Proof. reflexivity. Qed.

Lemma app_same_length {A} (a b x y : list A) :
  List.length a = List.length b -> a ++ x = b ++ y -> a = b /\ x = y.
Proof.
  intros L E. split.
  - apply (f_equal (firstn (List.length a))) in E.
    rewrite firstn_app, Nat.sub_diag, firstn_all, firstn_O, app_nil_r in E.
    rewrite L, firstn_app, Nat.sub_diag, firstn_all, firstn_O, app_nil_r in E. exact E.
  - apply (f_equal (skipn (List.length a))) in E.
    rewrite skipn_app, Nat.sub_diag, skipn_all, skipn_O in E.
    rewrite L, skipn_app, Nat.sub_diag, skipn_all, skipn_O in E. exact E.
Qed.

Lemma of_bytes_inj l l' : of_bytes l = of_bytes l' -> l = l'.
Proof.
  revert l'. induction l as [| a l IH]; intros [| b l'] E.
  - reflexivity.
  - apply (f_equal (@List.length _)) in E. rewrite of_bytes_cons, length_app in E.
    rewrite byte_bits_length in E. simpl in E. lia.
  - apply (f_equal (@List.length _)) in E. rewrite of_bytes_cons, length_app in E.
    rewrite byte_bits_length in E. simpl in E. lia.
  - rewrite !of_bytes_cons in E.
    apply app_same_length in E; [ | now rewrite !byte_bits_length ].
    destruct E as [E1 E2]. f_equal; [ now apply byte_bits_inj | now apply IH ].
Qed.

Lemma appends_writeByte b : appends (BitWriter.writeByte (JS.u8 b)) (byte_bits b).
Proof.
  unfold BitWriter.writeByte, byte_bits.
  pose proof (u8_range b).
  rewrite <- (toInt32_small (JS.u8 b)) at 2 by lia.
  apply (appends_writeBits (JS.u8 b) 8). lia.
Qed.

Lemma appends_writeBytes data : appends (BitWriter.writeBytes data) (of_bytes data).
Proof.
  induction data as [| b data IH].
  - apply appends_ret.
  - cbn [BitWriter.writeBytes]. rewrite of_bytes_cons.
    apply appends_bind; [ apply appends_writeByte | exact IH ].
Qed.

(** [totalBits] counts the calls of [writeBit]. *)
Lemma writeBit_total bit w :
  exists w', BitWriter.writeBit bit w = (Ok tt, w')
             /\ BitWriter.totalBits w' = BitWriter.totalBits w + 1.
Proof.
  unfold BitWriter.writeBit.
  destruct (BitWriter.bitPos w + 1 =? 8); eexists; split; reflexivity.
Qed.

Lemma writeBits_loop_total value n w :
  exists w', BitWriter.writeBits_loop value n w = (Ok tt, w')
             /\ BitWriter.totalBits w' = BitWriter.totalBits w + Z.of_nat n.
Proof.
  revert w. induction n as [| n IH]; intros w.
  - exists w. split; [ reflexivity | simpl; lia ].
  - cbn [BitWriter.writeBits_loop]. unfold bind.
    destruct (writeBit_total (JS.and (JS.sar value (Z.of_nat n)) 1) w) as (w1 & E1 & T1).
    rewrite E1.
    destruct (IH w1) as (w2 & E2 & T2).
    exists w2. split; [ exact E2 | lia ].
Qed.

Lemma writeBytes_total data w :
  exists w', BitWriter.writeBytes data w = (Ok tt, w')
             /\ BitWriter.totalBits w' = BitWriter.totalBits w + 8 * JS.len data.
Proof.
  revert w. induction data as [| b data IH]; intros w.
  - exists w. split; [ reflexivity | unfold JS.len; simpl; lia ].
  - cbn [BitWriter.writeBytes]. unfold bind, BitWriter.writeByte, BitWriter.writeBits.
    change (8 >? 32) with false. cbv iota.
    destruct (writeBits_loop_total (JS.u8 b) (Z.to_nat 8) w) as (w1 & E1 & T1).
    rewrite E1.
    destruct (IH w1) as (w2 & E2 & T2).
    exists w2. split; [ exact E2 | ].
    unfold JS.len in *. cbn [List.length]. lia.
Qed.

Lemma readBytes_loop_bytes data acc r tl :
  reader_ok r -> pending r = of_bytes data ++ tl ->
  exists r', BitReader.readBytes_loop (List.length data) acc r = (Ok (acc ++ data), r')
             /\ reader_ok r' /\ pending r' = tl.
Proof.
  revert acc r. induction data as [| b data IH]; intros acc r Hr Hp.
  - exists r. rewrite app_nil_r. auto.
  - cbn [List.length BitReader.readBytes_loop]. unfold bind.
    rewrite of_bytes_cons, <- app_assoc in Hp.
    destruct (delivers_readBits (JS.u8 b) 8 ltac:(lia) r _ Hr Hp) as (r1 & E1 & Hr1 & P1).
    unfold BitReader.readByte. rewrite E1.
    pose proof (u8_range b).
    change (2 ^ 8) with 256. rewrite Z.mod_small by lia.
    rewrite to_u8_u8.
    destruct (IH (acc ++ [b]) r1 Hr1 P1) as (r2 & E2 & Hr2 & P2).
    exists r2. rewrite <- app_assoc in E2. auto.
Qed.

(** *** [getBuffer] in the middle of a byte *)

Lemma writeBit_zero bufs cb bp tot :
  0 <= bp < 8 -> 0 <= cb < 2 ^ bp ->
  BitWriter.writeBit 0 (BitWriter.mk bufs cb bp tot)
  = if bp + 1 =? 8
    then (Ok tt, BitWriter.mk (bufs ++ [[JS.to_u8 (2 * cb)]]) 0 0 (tot + 1))
    else (Ok tt, BitWriter.mk bufs (2 * cb) (bp + 1) (tot + 1)).
Proof.
  intros Hbp Hcb.
  assert (Hpow : 2 ^ bp <= 2 ^ 7) by (apply Z.pow_le_mono_r; lia).
  unfold BitWriter.writeBit.
  cbn [BitWriter.currentByte BitWriter.bitPos BitWriter.buffers BitWriter.totalBits].
  change (JS.and 0 1) with (Z.b2z false).
  rewrite shl1_or_bit by lia.
  cbn [Z.b2z]. rewrite Z.add_0_r. reflexivity.
Qed.

(** Zero bits up to the end of the byte. *)
Lemma repeatBit_fill k bufs cb bp tot :
  0 <= bp -> 0 <= cb < 2 ^ bp -> bp + Z.of_nat (S k) = 8 ->
  BitWriter.repeatBit 0 (S k) (BitWriter.mk bufs cb bp tot)
  = (Ok tt, BitWriter.mk (bufs ++ [[JS.to_u8 (cb * 2 ^ Z.of_nat (S k))]]) 0 0
                         (tot + Z.of_nat (S k))).
Proof.
  revert cb bp tot. induction k as [| k IH]; intros cb bp tot Hbp Hcb Hk.
  - cbn [BitWriter.repeatBit]. unfold bind.
    rewrite writeBit_zero by lia.
    replace (bp + 1 =? 8) with true by (symmetry; apply Z.eqb_eq; lia).
    unfold ret. do 3 f_equal.
    + do 3 f_equal. change (2 ^ Z.of_nat 1) with 2. lia.
  - change (BitWriter.repeatBit 0 (S (S k)))
      with (BitWriter.writeBit 0 ;;; BitWriter.repeatBit 0 (S k)).
    unfold bind at 1.
    rewrite writeBit_zero by lia.
    replace (bp + 1 =? 8) with false by (symmetry; apply Z.eqb_neq; lia).
    rewrite IH.
    + do 2 f_equal; [ | lia ].
      do 4 f_equal.
      rewrite (Nat2Z.inj_succ (S k)), Z.pow_succ_r by lia. lia.
    + lia.
    + rewrite Z.pow_add_r by lia. change (2 ^ 1) with 2. lia.
    + lia.
Qed.

Lemma last_elem_snoc l b : BitWriter.last_elem (l ++ [b]) = Some (JS.u8 b).
Proof.
  unfold BitWriter.last_elem, JS.elem, JS.len. rewrite length_app. cbn [List.length].
  replace (Z.of_nat (List.length l + 1) - 1) with (Z.of_nat (List.length l)) by lia.
  destruct (Z.of_nat (List.length l) <? 0) eqn:E; [ apply Z.ltb_lt in E; lia | ].
  rewrite Nat2Z.id, nth_error_app2, Nat.sub_diag by lia. reflexivity.
Qed.

Lemma msb_bits_shift m n cb :
  msb_bits (m + n) (cb * 2 ^ Z.of_nat m) = msb_bits n cb ++ repeat false m.
Proof.
  induction m as [| m IH].
  - change (Z.of_nat 0) with 0. rewrite Z.pow_0_r, Z.mul_1_r, app_nil_r. reflexivity.
  - rewrite Nat2Z.inj_succ, Z.pow_succ_r by lia.
    replace (cb * (2 * 2 ^ Z.of_nat m)) with (2 * (cb * 2 ^ Z.of_nat m) + Z.b2z false)
      by (cbn [Z.b2z]; lia).
    change (S m + n)%nat with (S (m + n)).
    rewrite msb_bits_snoc, IH, <- app_assoc. f_equal.
    cbn [repeat]. now rewrite repeat_cons.
Qed.

Lemma getBuffer_keeps bufs cb bp tot :
  0 <= bp < 8 -> 0 <= cb < 2 ^ bp ->
  let w := BitWriter.mk bufs cb bp tot in
  let pad := (8 - bp) mod 8 in
  exists buf,
    BitWriter.getBuffer w = (Ok buf, BitWriter.mk bufs cb bp (tot + pad))
    /\ of_bytes buf = written w ++ repeat false (Z.to_nat pad).
Proof.
  intros Hbp Hcb w pad. subst w pad.
  unfold BitWriter.getBuffer.
  cbn [BitWriter.currentByte BitWriter.bitPos BitWriter.buffers BitWriter.totalBits].
  destruct (bp >? 0) eqn:E.
  - apply Z.gtb_lt in E.
    replace (8 - bp >? 0) with true by (symmetry; apply Z.gtb_lt; lia).
    rewrite Z.mod_small by lia.
    destruct (Z.to_nat (8 - bp)) as [| k] eqn:K; [ lia | ].
    rewrite repeatBit_fill by lia.
    cbn [BitWriter.buffers BitWriter.totalBits].
    rewrite concat_app. cbn [List.concat]. rewrite app_nil_r.
    rewrite removelast_last, last_elem_snoc. cbn [JS.int].
    assert (P : 2 ^ bp * 2 ^ (8 - bp) = 256)
      by (rewrite <- Z.pow_add_r by lia; replace (bp + (8 - bp)) with 8 by lia; reflexivity).
    assert (Q : 0 < 2 ^ (8 - bp)) by (apply Z.pow_pos_nonneg; lia).
    replace (Z.of_nat (S k)) with (8 - bp) by lia.
    rewrite u8_to_u8 by nia.
    rewrite sar_small by nia.
    rewrite Z.div_mul by lia.
    eexists. split; [ reflexivity | ].
    unfold written.
    cbn [BitWriter.currentByte BitWriter.bitPos BitWriter.buffers].
    rewrite of_bytes_app, <- app_assoc. f_equal.
    cbn [of_bytes flat_map]. rewrite app_nil_r. unfold byte_bits.
    rewrite u8_to_u8 by nia.
    replace 8%nat with (Z.to_nat (8 - bp) + Z.to_nat bp)%nat by lia.
    rewrite <- K.
    pose proof (msb_bits_shift (Z.to_nat (8 - bp)) (Z.to_nat bp) cb) as S.
    rewrite Z2Nat.id in S by lia. exact S.
  - assert (bp = 0) by (rewrite Z.gtb_ltb in E; apply Z.ltb_ge in E; lia). subst bp.
    change (0 >? 0) with false. cbv iota. unfold ret.
    change ((8 - 0) mod 8) with 0. rewrite Z.add_0_r.
    eexists. split; [ reflexivity | ].
    unfold written. simpl. now rewrite !app_nil_r.
Qed.

End MoreBits.

(** * CRC-8 and CRC-16: a message followed by its checksum *)

Section CrcResidue.

Import Crc.

Lemma fold_left_invariant {A B} (f : A -> B -> A) (P : A -> Prop) :
  (forall a b, P (f a b)) -> forall l a, P a -> P (fold_left f l a).
Proof.
  intros Hf l. induction l as [| b l IH]; intros a Ha; [ exact Ha | ].
  apply IH, Hf.
Qed.

Lemma fold_left_snoc {A B} (f : A -> B -> A) l b a :
  fold_left f (l ++ [b]) a = f (fold_left f l a) b.
Proof. rewrite fold_left_app. reflexivity. Qed.

Lemma fold_left_snoc2 {A B} (f : A -> B -> A) l b1 b2 a :
  fold_left f (l ++ [b1; b2]) a = f (f (fold_left f l a) b1) b2.
Proof. rewrite fold_left_app. reflexivity. Qed.

Lemma fold_left_ext_eq {A B} (f g : A -> B -> A) :
  (forall a b, f a b = g a b) -> forall l a, fold_left f l a = fold_left g l a.
Proof.
  intros E l. induction l as [| b l IH]; intros a; [ reflexivity | ].
  cbn [fold_left]. rewrite E. apply IH.
Qed.

Lemma and_ones_range x k : 0 <= k < 32 -> 0 <= JS.and x (Z.ones k) < 2 ^ k.
Proof.
  intros Hk. unfold JS.and.
  assert (P : 0 < 2 ^ k) by (apply Z.pow_pos_nonneg; lia).
  assert (Q : 2 ^ k <= 2 ^ 31) by (apply Z.pow_le_mono_r; lia).
  rewrite (toInt32_small (Z.ones k)) by (rewrite Z.ones_equiv; lia).
  rewrite Z.land_ones by lia.
  apply Z.mod_pos_bound. lia.
Qed.

Lemma xor_range a b k :
  0 <= k < 32 -> 0 <= a < 2 ^ k -> 0 <= b < 2 ^ k -> 0 <= JS.xor a b < 2 ^ k.
Proof.
  intros Hk Ha Hb. unfold JS.xor.
  assert (Q : 2 ^ k <= 2 ^ 31) by (apply Z.pow_le_mono_r; lia).
  rewrite !toInt32_small by lia.
  split; [ apply Z.lxor_nonneg; lia | ].
  destruct (Z.eq_dec (Z.lxor a b) 0) as [-> | N]; [ lia | ].
  apply Z.log2_lt_pow2; [ pose proof (Z.lxor_nonneg a b); lia | ].
  eapply Z.le_lt_trans; [ apply Z.log2_lxor; lia | ].
  destruct (Z.eq_dec a 0) as [-> | Na], (Z.eq_dec b 0) as [-> | Nb].
  - exfalso. apply N. reflexivity.
  - rewrite Z.max_r by (apply Z.log2_nonneg). apply Z.log2_lt_pow2; lia.
  - rewrite Z.max_l by (apply Z.log2_nonneg). apply Z.log2_lt_pow2; lia.
  - apply Z.max_lub_lt; apply Z.log2_lt_pow2; lia.
Qed.

Lemma xor_self a : JS.xor a a = 0.
Proof. unfold JS.xor. apply Z.lxor_nilpotent. Qed.

(** CRC-8 *)

Lemma crc8_bits_range poly n crc : 0 <= crc8_bits poly (S n) crc < 256.
Proof.
  revert crc. induction n as [| n IH]; intros crc.
  - cbn [crc8_bits].
    destruct (JS.and crc 128 =? 0); apply (and_ones_range _ 8); lia.
  - change (crc8_bits poly (S (S n)) crc)
      with (crc8_bits poly (S n)
              (if JS.and crc 128 =? 0 then JS.and (JS.shl crc 1) 255
               else JS.and (JS.xor (JS.shl crc 1) poly) 255)).
    apply IH.
Qed.

Lemma crc8_with_range data poly : 0 <= crc8_with data poly < 256.
Proof.
  unfold crc8_with.
  apply (fold_left_invariant _ (fun c => 0 <= c < 256)); [ | lia ].
  intros a b. apply crc8_bits_range.
Qed.

Lemma crc8_residue data poly :
  crc8_with (data ++ [JS.to_u8 (crc8_with data poly)]) poly = 0.
Proof.
  pose proof (crc8_with_range data poly) as R.
  unfold crc8_with in *. rewrite fold_left_snoc.
  rewrite u8_to_u8 by exact R.
  rewrite xor_self. reflexivity.
Qed.

(** CRC-16 *)

Lemma crc16_bits_range poly n crc : 0 <= crc16_bits poly (S n) crc < 65536.
Proof.
  revert crc. induction n as [| n IH]; intros crc.
  - cbn [crc16_bits].
    destruct (JS.and crc 32768 =? 0); apply (and_ones_range _ 16); lia.
  - change (crc16_bits poly (S (S n)) crc)
      with (crc16_bits poly (S n)
              (if JS.and crc 32768 =? 0 then JS.and (JS.shl crc 1) 65535
               else JS.and (JS.xor (JS.shl crc 1) poly) 65535)).
    apply IH.
Qed.

Lemma crc16_with_range data poly init :
  0 <= init < 65536 -> 0 <= crc16_with data poly init < 65536.
Proof.
  unfold crc16_with.
  apply (fold_left_invariant _ (fun c => 0 <= c < 65536)).
  intros a b. apply crc16_bits_range.
Qed.

Lemma land_top x k : 0 <= x < 2 ^ k -> 0 <= k -> Z.land x (2 ^ k) = 0.
Proof.
  intros Hx Hk. apply Z.bits_inj'. intros n Hn.
  rewrite Z.land_spec, Z.bits_0, Z.pow2_bits_eqb by lia.
  destruct (Z.eqb_spec k n) as [<- | N]; [ | apply andb_false_r ].
  destruct (Z.eq_dec x 0) as [-> | Nx]; [ now rewrite Z.bits_0 | ].
  rewrite Z.bits_above_log2; [ reflexivity | lia | ].
  apply Z.log2_lt_pow2; lia.
Qed.

(** While the register stays below 2^16 no reduction takes place. *)
Lemma crc16_bits_small poly k x :
  0 <= x -> x * 2 ^ Z.of_nat k < 2 ^ 16 -> crc16_bits poly k x = x * 2 ^ Z.of_nat k.
Proof.
  revert x. induction k as [| k IH]; intros x Hx Hk.
  - simpl. lia.
  - rewrite Nat2Z.inj_succ, Z.pow_succ_r in * by lia.
    assert (P : 0 < 2 ^ Z.of_nat k) by (apply Z.pow_pos_nonneg; lia).
    assert (X : x < 2 ^ 15) by nia.
    cbn [crc16_bits].
    assert (E : JS.and x 32768 = 0).
    { rewrite and_small by lia. apply (land_top x 15); lia. }
    rewrite E. change (0 =? 0) with true. cbv iota.
    assert (S1 : JS.and (JS.shl x 1) 65535 = x * 2).
    { rewrite shl_small by lia. change (2 ^ 1) with 2.
      rewrite and_small by lia.
      change 65535 with (Z.ones 16). rewrite Z.land_ones by lia.
      apply Z.mod_small. lia. }
    rewrite S1, IH by lia. lia.
Qed.

Lemma lxor_high c : 0 <= c -> Z.lxor c (c / 256 * 256) = c mod 256.
Proof.
  intros Hc. apply Z.bits_inj'. intros n Hn.
  change 256 with (2 ^ 8).
  rewrite Z.lxor_spec.
  destruct (Z_lt_le_dec n 8) as [L | G].
  - rewrite Z.mul_pow2_bits_low, Z.mod_pow2_bits_low, xorb_false_r by lia. reflexivity.
  - rewrite Z.mul_pow2_bits, Z.div_pow2_bits, Z.mod_pow2_bits_high by lia.
    replace (n - 8 + 8) with n by lia. apply xorb_nilpotent.
Qed.

Lemma crc16_residue data poly init :
  0 <= init < 65536 ->
  let c := crc16_with data poly init in
  crc16_with (data ++ [JS.to_u8 (c / 256); JS.to_u8 c]) poly init = 0.
Proof.
  intros Hi c.
  pose proof (crc16_with_range data poly init Hi) as R. fold c in R.
  unfold crc16_with in *. rewrite fold_left_snoc2. fold c.
  assert (Hhi : 0 <= c / 256 < 256)
    by (split; [ apply Z.div_pos | apply Z.div_lt_upper_bound ]; lia).
  assert (Hlo : 0 <= c mod 256 < 256) by (apply Z.mod_pos_bound; lia).
  rewrite (u8_to_u8 (c / 256)) by lia.
  assert (U : JS.u8 (JS.to_u8 c) = c mod 256).
  { unfold JS.to_u8, JS.u8.
    destruct (Byte.of_N (Z.to_N (c mod 256))) as [b |] eqn:B.
    - apply Byte.to_of_N in B. rewrite B. lia.
    - apply Byte.of_N_None_iff in B. lia. }
  rewrite U.
  rewrite (shl_small (c / 256) 8) by (change (2 ^ 8) with 256; lia).
  change (2 ^ 8) with 256.
  assert (X1 : JS.xor c (c / 256 * 256) = c mod 256).
  { unfold JS.xor. rewrite !toInt32_small by lia. apply lxor_high. lia. }
  rewrite X1.
  rewrite (crc16_bits_small poly 8 (c mod 256))
    by (change (2 ^ Z.of_nat 8) with 256; lia).
  change (2 ^ Z.of_nat 8) with 256.
  rewrite (shl_small (c mod 256) 8) by (change (2 ^ 8) with 256; lia).
  change (2 ^ 8) with 256.
  rewrite xor_self. reflexivity.
Qed.

(** [crc16Flac] is [crc16] with its default polynomial and start value. *)
Lemma crc16Flac_bits_eq n crc : crc16Flac_bits n crc = crc16_bits 0x8005 n crc.
Proof.
  revert crc. induction n as [| n IH]; intros crc; [ reflexivity | ].
  cbn [crc16Flac_bits crc16_bits]. rewrite IH.
  destruct (JS.and crc 32768 =? 0); reflexivity.
Qed.

Lemma crc16Flac_eq data : crc16Flac data = crc16 data.
Proof.
  unfold crc16Flac, crc16, crc16_with.
  apply fold_left_ext_eq. intros a b. apply crc16Flac_bits_eq.
Qed.

End CrcResidue.

(** * Integers in byte order: the arithmetic of the shifts *)

Section ByteOrder.

Lemma u8_to_u8_mod z : JS.u8 (JS.to_u8 z) = z mod 256.
Proof.
  pose proof (Z.mod_pos_bound z 256 ltac:(lia)).
  unfold JS.to_u8, JS.u8.
  destruct (Byte.of_N (Z.to_N (z mod 256))) as [b |] eqn:B.
  - apply Byte.to_of_N in B. rewrite B. lia.
  - apply Byte.of_N_None_iff in B. lia.
Qed.

Lemma lor_add a b k : 0 <= k -> 0 <= b < 2 ^ k -> a mod 2 ^ k = 0 -> Z.lor a b = a + b.
Proof.
  intros Hk Hb Ha.
  assert (P : 0 < 2 ^ k) by (apply Z.pow_pos_nonneg; lia).
  pose proof (Z.div_mod a (2 ^ k) ltac:(lia)) as D. rewrite Ha, Z.add_0_r in D.
  rewrite D at 1. rewrite Z.mul_comm, <- Z.shiftl_mul_pow2 by lia.
  rewrite lor_shiftl_add by lia. lia.
Qed.

Lemma toUint32_or a b : JS.toUint32 (JS.or a b) = Z.lor (JS.toUint32 a) (JS.toUint32 b).
Proof.
  unfold JS.toUint32, JS.or.
  rewrite <- !Z.land_ones by lia.
  rewrite Z.land_lor_distr_l.
  rewrite !Z.land_ones by lia.
  now rewrite !toInt32_mod.
Qed.

Lemma toUint32_shl a k :
  0 <= k < 32 -> JS.toUint32 (JS.shl a k) = (a * 2 ^ k) mod 2 ^ 32.
Proof.
  intros Hk. unfold JS.toUint32, JS.shl.
  rewrite shift_count by lia.
  rewrite toInt32_mod, Z.shiftl_mul_pow2 by lia.
  rewrite <- Zmult_mod_idemp_l, toInt32_mod, Zmult_mod_idemp_l. reflexivity.
Qed.

Lemma shr_0 a : JS.shr a 0 = JS.toUint32 a.
Proof. unfold JS.shr. change (JS.toUint32 0 mod 32) with 0. apply Z.shiftr_0_r. Qed.

Lemma and_ones x k :
  0 <= k < 32 -> JS.and x (Z.ones k) = JS.toInt32 x mod 2 ^ k.
Proof.
  intros Hk. unfold JS.and.
  assert (P : 0 < 2 ^ k) by (apply Z.pow_pos_nonneg; lia).
  assert (Q : 2 ^ k <= 2 ^ 31) by (apply Z.pow_le_mono_r; lia).
  rewrite (toInt32_small (Z.ones k)) by (rewrite Z.ones_equiv; lia).
  apply Z.land_ones. lia.
Qed.

Lemma and_ones_small x k :
  0 <= k < 32 -> JS.and x (Z.ones k) = x mod 2 ^ k.
Proof. intros Hk. rewrite and_ones, toInt32_mod_pow by lia. reflexivity. Qed.

Variables x y z w : Z.
Hypothesis Hx : 0 <= x < 256.
Hypothesis Hy : 0 <= y < 256.
Hypothesis Hz : 0 <= z < 256.
Hypothesis Hw : 0 <= w < 256.

Lemma be2 : JS.or (JS.shl x 8) y = x * 256 + y.
Proof.
  rewrite shl_small by (change (2 ^ 8) with 256; lia). change (2 ^ 8) with 256.
  rewrite or_small by lia.
  apply (lor_add _ _ 8); [ lia | change (2 ^ 8) with 256; lia | ].
  change (2 ^ 8) with 256. apply Z.mod_mul. lia.
Qed.

Lemma le2 : JS.or x (JS.shl y 8) = x + y * 256.
Proof.
  rewrite shl_small by (change (2 ^ 8) with 256; lia). change (2 ^ 8) with 256.
  rewrite or_small by lia. rewrite Z.lor_comm.
  rewrite (lor_add _ _ 8); [ lia | lia | change (2 ^ 8) with 256; lia | ].
  change (2 ^ 8) with 256. apply Z.mod_mul. lia.
Qed.

Lemma be3 : JS.or (JS.or (JS.shl x 16) (JS.shl y 8)) z = x * 65536 + y * 256 + z.
Proof.
  rewrite !shl_small by (try change (2 ^ 8) with 256; try change (2 ^ 16) with 65536; lia).
  change (2 ^ 8) with 256. change (2 ^ 16) with 65536.
  rewrite (or_small (x * 65536)) by lia.
  rewrite (lor_add _ _ 16);
    [ | lia | change (2 ^ 16) with 65536; lia
      | change (2 ^ 16) with 65536; apply Z.mod_mul; lia ].
  rewrite or_small by lia.
  apply (lor_add _ _ 8); [ lia | change (2 ^ 8) with 256; lia | ].
  change (2 ^ 8) with 256.
  replace (x * 65536 + y * 256) with ((x * 256 + y) * 256) by lia.
  apply Z.mod_mul. lia.
Qed.

Lemma le3 : JS.or (JS.or x (JS.shl y 8)) (JS.shl z 16) = x + y * 256 + z * 65536.
Proof.
  rewrite le2.
  rewrite !shl_small by (try change (2 ^ 16) with 65536; lia).
  change (2 ^ 16) with 65536.
  rewrite or_small by lia. rewrite Z.lor_comm.
  rewrite (lor_add _ _ 16);
    [ lia | lia | change (2 ^ 16) with 65536; lia
      | change (2 ^ 16) with 65536; apply Z.mod_mul; lia ].
Qed.

Lemma be4 :
  JS.shr (JS.or (JS.or (JS.or (JS.shl x 24) (JS.shl y 16)) (JS.shl z 8)) w) 0
  = x * 16777216 + y * 65536 + z * 256 + w.
Proof.
  rewrite shr_0, !toUint32_or, !toUint32_shl by lia.
  change (2 ^ 24) with 16777216. change (2 ^ 16) with 65536. change (2 ^ 8) with 256.
  unfold JS.toUint32. rewrite !Z.mod_small by lia.
  rewrite (lor_add (x * 16777216) (y * 65536) 24);
    [ | lia | change (2 ^ 24) with 16777216; lia
      | change (2 ^ 24) with 16777216; apply Z.mod_mul; lia ].
  rewrite (lor_add (x * 16777216 + y * 65536) (z * 256) 16);
    [ | lia | change (2 ^ 16) with 65536; lia | change (2 ^ 16) with 65536 ].
  2: { replace (x * 16777216 + y * 65536) with ((x * 256 + y) * 65536) by lia.
       apply Z.mod_mul. lia. }
  apply (lor_add _ _ 8); [ lia | change (2 ^ 8) with 256; lia | ].
  change (2 ^ 8) with 256.
  replace (x * 16777216 + y * 65536 + z * 256) with ((x * 65536 + y * 256 + z) * 256) by lia.
  apply Z.mod_mul. lia.
Qed.

Lemma le4 :
  JS.shr (JS.or (JS.or (JS.or x (JS.shl y 8)) (JS.shl z 16)) (JS.shl w 24)) 0
  = x + y * 256 + z * 65536 + w * 16777216.
Proof.
  rewrite shr_0, !toUint32_or, !toUint32_shl by lia.
  change (2 ^ 24) with 16777216. change (2 ^ 16) with 65536. change (2 ^ 8) with 256.
  unfold JS.toUint32. rewrite !Z.mod_small by lia.
  rewrite (Z.lor_comm x (y * 256)).
  rewrite (lor_add (y * 256) x 8);
    [ | lia | change (2 ^ 8) with 256; lia | change (2 ^ 8) with 256; apply Z.mod_mul; lia ].
  rewrite (Z.lor_comm (y * 256 + x) (z * 65536)).
  rewrite (lor_add (z * 65536) (y * 256 + x) 16);
    [ | lia | change (2 ^ 16) with 65536; lia
      | change (2 ^ 16) with 65536; apply Z.mod_mul; lia ].
  rewrite Z.lor_comm.
  rewrite (lor_add (w * 16777216) _ 24);
    [ lia | lia | change (2 ^ 24) with 16777216; lia
      | change (2 ^ 24) with 16777216; apply Z.mod_mul; lia ].
Qed.

End ByteOrder.

(** * Reader: what the integer reads return *)

Section ReaderReads.

Import ReaderSpec.

Lemma bytes_at_length data p n :
  0 <= p -> 0 <= n -> p + n <= JS.len data ->
  List.length (bytes_at data p n) = Z.to_nat n.
Proof.
  intros Hp Hn Hf. unfold bytes_at, JS.len in *.
  rewrite length_firstn, length_skipn. lia.
Qed.

Lemma bytes_at_all data : bytes_at data 0 (JS.len data) = data.
Proof.
  unfold bytes_at, JS.len. rewrite Nat2Z.id. cbn [Z.to_nat skipn]. apply firstn_all.
Qed.

Lemma list1 {A} (l : list A) : List.length l = 1%nat -> exists a, l = [a].
Proof. destruct l as [| a [| ? ?]]; try discriminate. now exists a. Qed.
Lemma list2 {A} (l : list A) : List.length l = 2%nat -> exists a b, l = [a; b].
Proof. destruct l as [| a [| b [| ? ?]]]; try discriminate. now exists a, b. Qed.
Lemma list3 {A} (l : list A) : List.length l = 3%nat -> exists a b c, l = [a; b; c].
Proof. destruct l as [| a [| b [| c [| ? ?]]]]; try discriminate. now exists a, b, c. Qed.
Lemma list4 {A} (l : list A) : List.length l = 4%nat -> exists a b c d, l = [a; b; c; d].
Proof.
  destruct l as [| a [| b [| c [| d [| ? ?]]]]]; try discriminate. now exists a, b, c, d.
Qed.

(** A read of a positive number of bytes through [readBytes]. *)
Lemma read_through {A} (k : option (list byte) -> M Reader.t (option A))
      (n : Z) (val : list byte -> A) :
  0 < n ->
  (forall r, k None r = (Ok None, r)) ->
  (forall l r, List.length l = Z.to_nat n -> k (Some l) r = (Ok (Some (val l)), r)) ->
  decodes (bytes <- Reader.readBytes n ;; k bytes) n val.
Proof.
  intros Hn Kn Ks data r Hr Hp.
  pose proof (reachable_inv data r Hr) as Hinv.
  destruct (readBytes_spec data r n Hinv) as (res & r' & E & Hinv' & Hspec).
  destruct (Hspec Hp ltac:(lia)) as (Hfit & Hmiss).
  assert (Hr' : reachable data r').
  { replace r' with (snd (Reader.readBytes n r)) by now rewrite E.
    apply reach_call; [ exact Hr | constructor ]. }
  unfold bind. rewrite E.
  destruct (Z_le_gt_dec (Reader.position r + n) (JS.len data)) as [L | G].
  - destruct (Hfit L) as (-> & P).
    rewrite Ks by (apply bytes_at_length; lia).
    eexists _, r'. split; [ reflexivity | ].
    split; [ exact Hr' | ]. split; [ intros _; auto | intros; lia ].
  - destruct (Hmiss Hn G) as (-> & P).
    rewrite Kn.
    eexists _, r'. split; [ reflexivity | ].
    split; [ exact Hr' | ]. split; [ intros; lia | intros _; auto ].
Qed.

Lemma read_map {A} (f : list byte -> A) (n : Z) (val : list byte -> A) :
  0 < n ->
  (forall l, List.length l = Z.to_nat n -> f l = val l) ->
  decodes (bytes <- Reader.readBytes n ;; ret (option_map f bytes)) n val.
Proof.
  intros Hn Hf. apply read_through; [ exact Hn | reflexivity | ].
  intros l r Hl. unfold ret. cbn [option_map]. now rewrite Hf.
Qed.

Lemma window_all l n :
  List.length l = Z.to_nat n -> 0 <= n -> DataView.window l 0 n = Ok l.
Proof.
  intros Hl Hn. unfold DataView.window, JS.len.
  change (0 <? 0) with false. cbn [orb].
  destruct (0 + n >? Z.of_nat (List.length l)) eqn:E; [ apply Z.gtb_lt in E; lia | ].
  cbn [Z.to_nat skipn]. rewrite <- Hl. now rewrite firstn_all.
Qed.

Lemma read_view (n : Z) (get : list byte -> Z -> outcome Z) (val : list byte -> Z) :
  0 < n ->
  (forall l, List.length l = Z.to_nat n -> get l 0 = Ok (val l)) ->
  decodes (Reader.through_view n get) n val.
Proof.
  intros Hn Hg. apply read_through; [ exact Hn | reflexivity | ].
  intros l r Hl. rewrite Hg by exact Hl. reflexivity.
Qed.

Lemma decodes_readU8 : decodes Reader.readU8 1 DataView.be.
Proof.
  apply read_map; [ lia | ]. intros l Hl.
  destruct (list1 l Hl) as (a & ->). reflexivity.
Qed.

Lemma decodes_readU16BE : decodes Reader.readU16BE 2 DataView.be.
Proof.
  apply read_map; [ lia | ]. intros l Hl.
  destruct (list2 l Hl) as (a & b & ->).
  change (Reader.at_ [a; b] 0) with (JS.u8 a). change (Reader.at_ [a; b] 1) with (JS.u8 b).
  rewrite be2 by apply u8_range. reflexivity.
Qed.

Lemma decodes_readU16LE : decodes Reader.readU16LE 2 DataView.le.
Proof.
  apply read_map; [ lia | ]. intros l Hl.
  destruct (list2 l Hl) as (a & b & ->).
  change (Reader.at_ [a; b] 0) with (JS.u8 a). change (Reader.at_ [a; b] 1) with (JS.u8 b).
  rewrite le2 by apply u8_range.
  unfold DataView.le, DataView.be. cbn [rev app fold_left]. lia.
Qed.

Lemma decodes_readU24BE : decodes Reader.readU24BE 3 DataView.be.
Proof.
  apply read_map; [ lia | ]. intros l Hl.
  destruct (list3 l Hl) as (a & b & c & ->).
  change (Reader.at_ [a; b; c] 0) with (JS.u8 a).
  change (Reader.at_ [a; b; c] 1) with (JS.u8 b).
  change (Reader.at_ [a; b; c] 2) with (JS.u8 c).
  rewrite be3 by apply u8_range.
  unfold DataView.be. cbn [fold_left]. lia.
Qed.

Lemma decodes_readU24LE : decodes Reader.readU24LE 3 DataView.le.
Proof.
  apply read_map; [ lia | ]. intros l Hl.
  destruct (list3 l Hl) as (a & b & c & ->).
  change (Reader.at_ [a; b; c] 0) with (JS.u8 a).
  change (Reader.at_ [a; b; c] 1) with (JS.u8 b).
  change (Reader.at_ [a; b; c] 2) with (JS.u8 c).
  rewrite le3 by apply u8_range.
  unfold DataView.le, DataView.be. cbn [rev app fold_left]. lia.
Qed.

Lemma decodes_readU32BE : decodes Reader.readU32BE 4 DataView.be.
Proof.
  apply read_map; [ lia | ]. intros l Hl.
  destruct (list4 l Hl) as (a & b & c & d & ->).
  change (Reader.at_ [a; b; c; d] 0) with (JS.u8 a).
  change (Reader.at_ [a; b; c; d] 1) with (JS.u8 b).
  change (Reader.at_ [a; b; c; d] 2) with (JS.u8 c).
  change (Reader.at_ [a; b; c; d] 3) with (JS.u8 d).
  rewrite be4 by apply u8_range.
  unfold DataView.be. cbn [fold_left]. lia.
Qed.

Lemma decodes_readU32LE : decodes Reader.readU32LE 4 DataView.le.
Proof.
  apply read_map; [ lia | ]. intros l Hl.
  destruct (list4 l Hl) as (a & b & c & d & ->).
  change (Reader.at_ [a; b; c; d] 0) with (JS.u8 a).
  change (Reader.at_ [a; b; c; d] 1) with (JS.u8 b).
  change (Reader.at_ [a; b; c; d] 2) with (JS.u8 c).
  change (Reader.at_ [a; b; c; d] 3) with (JS.u8 d).
  rewrite le4 by apply u8_range.
  unfold DataView.le, DataView.be. cbn [rev app fold_left]. lia.
Qed.

Lemma decodes_getUint n littleEndian :
  0 < n ->
  decodes (Reader.through_view n (DataView.getUint n littleEndian)) n
          (if littleEndian then DataView.le else DataView.be).
Proof.
  intros Hn. apply read_view; [ exact Hn | ]. intros l Hl.
  unfold DataView.getUint. rewrite window_all by (exact Hl || lia).
  destruct littleEndian; reflexivity.
Qed.

Lemma decodes_getInt n littleEndian :
  0 < n ->
  decodes (Reader.through_view n (DataView.getInt n littleEndian)) n
          (fun l => DataView.signed n ((if littleEndian then DataView.le else DataView.be) l)).
Proof.
  intros Hn. apply read_view; [ exact Hn | ]. intros l Hl.
  unfold DataView.getInt, DataView.getUint. rewrite window_all by (exact Hl || lia).
  destruct littleEndian; reflexivity.
Qed.

Lemma decodes_readSyncsafeInt : decodes Reader.readSyncsafeInt 4 syncsafe.
Proof.
  apply read_map; [ lia | ]. intros l Hl.
  destruct (list4 l Hl) as (a & b & c & d & ->).
  change (Reader.at_ [a; b; c; d] 0) with (JS.u8 a).
  change (Reader.at_ [a; b; c; d] 1) with (JS.u8 b).
  change (Reader.at_ [a; b; c; d] 2) with (JS.u8 c).
  change (Reader.at_ [a; b; c; d] 3) with (JS.u8 d).
  pose proof (u8_range a). pose proof (u8_range b).
  pose proof (u8_range c). pose proof (u8_range d).
  change 127 with (Z.ones 7). rewrite !and_ones_small by lia.
  change (2 ^ 7) with 128.
  pose proof (Z.mod_pos_bound (JS.u8 a) 128 ltac:(lia)).
  pose proof (Z.mod_pos_bound (JS.u8 b) 128 ltac:(lia)).
  pose proof (Z.mod_pos_bound (JS.u8 c) 128 ltac:(lia)).
  pose proof (Z.mod_pos_bound (JS.u8 d) 128 ltac:(lia)).
  set (x := JS.u8 a mod 128) in *. set (y := JS.u8 b mod 128) in *.
  set (z := JS.u8 c mod 128) in *. set (w := JS.u8 d mod 128) in *.
  rewrite !shl_small
    by (try change (2 ^ 21) with 2097152; try change (2 ^ 14) with 16384;
        try change (2 ^ 7) with 128; lia).
  change (2 ^ 21) with 2097152. change (2 ^ 14) with 16384. change (2 ^ 7) with 128.
  rewrite (or_small (x * 2097152)) by lia.
  rewrite (lor_add (x * 2097152) (y * 16384) 21);
    [ | lia | change (2 ^ 21) with 2097152; lia
      | change (2 ^ 21) with 2097152; apply Z.mod_mul; lia ].
  rewrite (or_small (x * 2097152 + y * 16384)) by lia.
  rewrite (lor_add (x * 2097152 + y * 16384) (z * 128) 14);
    [ | lia | change (2 ^ 14) with 16384; lia | change (2 ^ 14) with 16384 ].
  2: { replace (x * 2097152 + y * 16384) with ((x * 128 + y) * 16384) by lia.
       apply Z.mod_mul. lia. }
  rewrite or_small by lia.
  rewrite (lor_add _ w 7);
    [ | lia | change (2 ^ 7) with 128; lia | change (2 ^ 7) with 128 ].
  2: { replace (x * 2097152 + y * 16384 + z * 128) with ((x * 16384 + y * 128 + z) * 128) by lia.
       apply Z.mod_mul. lia. }
  unfold syncsafe. cbn [fold_left]. fold x y z w. lia.
Qed.

(** [peek] returns what [readBytes] returns and puts the cursor back. *)
Lemma peek_spec data r n :
  reachable data r ->
  exists res r1 r2,
    Reader.readBytes n r = (Ok res, r1)
    /\ Reader.peek n r = (Ok res, r2)
    /\ Reader.position r2 = Reader.position r
    /\ reachable data r2.
Proof.
  intros Hr.
  pose proof (reachable_inv data r Hr) as Hinv.
  destruct (readBytes_spec data r n Hinv) as (res & r' & E & _ & _).
  assert (Hr' : reachable data (snd (Reader.peek n r)))
    by (apply reach_call; [ exact Hr | constructor ]).
  unfold Reader.peek, bind, this, modify, ret in *. rewrite E in *.
  eexists _, _, _. split; [ reflexivity | ]. split; [ reflexivity | ].
  split; [ reflexivity | exact Hr' ].
Qed.

End ReaderReads.

(** * Writer and Reader: what is written is read back *)

Section WriteRead.

Import ReaderSpec.

Lemma written_by_writeBytes l : Codec.written_by (Writer.writeBytes l) = Ok l.
Proof.
  unfold Codec.written_by, Writer.writeBytes, Writer.toBuffer, Writer.new,
    Writer.getBuffer, field.
  cbn. now rewrite app_nil_r.
Qed.

Lemma decodes_whole {A} (m : M Reader.t (option A)) n val l :
  decodes m n val -> JS.len l = n -> fst (m (Reader.fromBuffer l)) = Ok (Some (val l)).
Proof.
  intros D L.
  destruct (D l (Reader.fromBuffer l) (reach_new l) ltac:(cbn; lia))
    as (res & r' & E & _ & Hfit & _).
  rewrite E. cbn [fst].
  destruct Hfit as (-> & _); [ cbn; lia | ].
  cbn [Reader.fromBuffer Reader.new Reader.position].
  rewrite <- L, bytes_at_all. reflexivity.
Qed.

Lemma roundtrip_bytes {A} (m : M Reader.t (option A)) n val l :
  decodes m n val -> JS.len l = n ->
  Codec.roundtrip (Writer.writeBytes l) m = Ok (Some (val l)).
Proof.
  intros D L. unfold Codec.roundtrip. rewrite written_by_writeBytes.
  now apply decodes_whole with (n := n).
Qed.

Lemma sar_div v k : 0 <= k < 32 -> JS.sar v k = JS.toInt32 v / 2 ^ k.
Proof.
  intros Hk. unfold JS.sar. rewrite shift_count by lia.
  apply Z.shiftr_div_pow2. lia.
Qed.

Lemma and_255 x : JS.and x 255 = x mod 256.
Proof. change 255 with (Z.ones 8). rewrite and_ones_small by lia. reflexivity. Qed.

Lemma and_127 x : JS.and x 127 = x mod 128.
Proof. change 127 with (Z.ones 7). rewrite and_ones_small by lia. reflexivity. Qed.

Ltac bytes_arith :=
  unfold DataView.le, DataView.be; cbn [map rev app fold_left DataView.digits];
  rewrite ?u8_to_u8_mod, ?and_255, ?and_127, ?sar_div by lia;
  repeat match goal with
         | |- context [2 ^ ?k] => let c := eval cbv in (2 ^ k) in change (2 ^ k) with c
         | |- context [256 ^ ?k] => let c := eval cbv in (256 ^ k) in change (256 ^ k) with c
         end.

Lemma mod_agree v k : 0 <= k <= 32 -> JS.toInt32 v mod 2 ^ k = v mod 2 ^ k.
Proof. apply toInt32_mod_pow. Qed.

Lemma value_U8 v : DataView.be [JS.to_u8 (JS.and v 255)] = v mod 2 ^ 8.
Proof. bytes_arith. Z.div_mod_to_equations. lia. Qed.

Lemma value_U16BE v :
  DataView.be (map JS.to_u8 [JS.and (JS.sar v 8) 255; JS.and v 255]) = v mod 2 ^ 16.
Proof.
  rewrite <- (mod_agree v 16) by lia. bytes_arith.
  replace (v mod 256) with (JS.toInt32 v mod 256) by (apply (mod_agree v 8); lia).
  Z.div_mod_to_equations. lia.
Qed.

Lemma value_U16LE v :
  DataView.le (map JS.to_u8 [JS.and v 255; JS.and (JS.sar v 8) 255]) = v mod 2 ^ 16.
Proof.
  rewrite <- (mod_agree v 16) by lia. bytes_arith.
  replace (v mod 256) with (JS.toInt32 v mod 256) by (apply (mod_agree v 8); lia).
  Z.div_mod_to_equations. lia.
Qed.

Lemma value_U24BE v :
  DataView.be (map JS.to_u8 [JS.and (JS.sar v 16) 255; JS.and (JS.sar v 8) 255; JS.and v 255])
  = v mod 2 ^ 24.
Proof.
  rewrite <- (mod_agree v 24) by lia. bytes_arith.
  replace (v mod 256) with (JS.toInt32 v mod 256) by (apply (mod_agree v 8); lia).
  Z.div_mod_to_equations. lia.
Qed.

Lemma value_U24LE v :
  DataView.le (map JS.to_u8 [JS.and v 255; JS.and (JS.sar v 8) 255; JS.and (JS.sar v 16) 255])
  = v mod 2 ^ 24.
Proof.
  rewrite <- (mod_agree v 24) by lia. bytes_arith.
  replace (v mod 256) with (JS.toInt32 v mod 256) by (apply (mod_agree v 8); lia).
  Z.div_mod_to_equations. lia.
Qed.

Lemma value_digits4 v : DataView.be (DataView.digits 4 v) = v mod 2 ^ 32.
Proof. bytes_arith. Z.div_mod_to_equations. lia. Qed.

Lemma value_digits2 v : DataView.be (DataView.digits 2 v) = v mod 2 ^ 16.
Proof. bytes_arith. Z.div_mod_to_equations. lia. Qed.

Lemma value_digits8 v : DataView.be (DataView.digits 8 v) = v mod 2 ^ 64.
Proof. bytes_arith. Z.div_mod_to_equations. lia. Qed.

Lemma le_rev l : DataView.le (rev l) = DataView.be l.
Proof. unfold DataView.le. now rewrite rev_involutive. Qed.

Lemma digits_length n v : List.length (DataView.digits n v) = n.
Proof. induction n; cbn [DataView.digits List.length]; congruence. Qed.

Lemma setUint_length n (e : bool) v : List.length (DataView.setUint n e v) = n.
Proof.
  unfold DataView.setUint. destruct e; [ rewrite length_rev | ]; apply digits_length.
Qed.

Lemma value_setUint n (e : bool) v :
  (if e then DataView.le else DataView.be) (DataView.setUint n e v)
  = DataView.be (DataView.digits n v).
Proof. unfold DataView.setUint. destruct e; [ apply le_rev | reflexivity ]. Qed.

Lemma value_syncsafe v :
  syncsafe (map JS.to_u8 [JS.and (JS.sar v 21) 127; JS.and (JS.sar v 14) 127;
                          JS.and (JS.sar v 7) 127; JS.and v 127])
  = v mod 2 ^ 28.
Proof.
  rewrite <- (mod_agree v 28) by lia.
  unfold syncsafe. cbn [map fold_left].
  rewrite !u8_to_u8_mod, !and_127, !sar_div by lia.
  change (2 ^ 7) with 128. change (2 ^ 14) with 16384. change (2 ^ 21) with 2097152.
  change (2 ^ 28) with 268435456.
  replace (v mod 128) with (JS.toInt32 v mod 128) by (apply (mod_agree v 7); lia).
  Z.div_mod_to_equations. lia.
Qed.

(** The four bytes of a tag are the low bytes of its first four code
    units, spaces standing in for the missing ones. *)
Lemma fourCC_code_units value :
  map JS.u8 (Writer.fourCC value)
  = map (fun c => c mod 256) (firstn 4 (value ++ repeat 0x20 4)).
Proof.
  unfold Writer.fourCC. cbn [map]. rewrite !u8_to_u8_mod.
  destruct value as [| a [| b [| c [| d ?]]]]; reflexivity.
Qed.

Lemma lit_string_of_list_byte l : JS.lit (string_of_list_byte l) = map JS.u8 l.
Proof. unfold JS.lit. now rewrite list_byte_of_string_of_list_byte. Qed.

Lemma map_mod_small l :
  Forall (fun c => 0 <= c <= 0xFF) l -> map (fun c => c mod 256) l = l.
Proof.
  induction 1 as [| c l Hc _ IH]; [ reflexivity | ].
  cbn [map]. rewrite IH, Z.mod_small by lia. reflexivity.
Qed.

Lemma firstn_4_padded (value : list Z) :
  List.length value = 4%nat -> firstn 4 (value ++ repeat 0x20 4) = value.
Proof.
  destruct value as [| a [| b [| c [| d [| ? ?]]]]]; try discriminate. reflexivity.
Qed.

Lemma decodes_readFourCC : decodes Reader.readFourCC 4 string_of_list_byte.
Proof. apply read_map; [ lia | reflexivity ]. Qed.

End WriteRead.

(** * Format detection: what each [canRead] looks at *)

Section CanRead.

Import ReaderSpec.

Variable data : list byte.

(** A reader over [data] with the cursor at [p]. *)
Lemma reachable_at p : reachable data (Reader.set_position p (Reader.fromBuffer data)).
Proof. apply (reach_call data (Reader.seek p)); constructor. Qed.

Lemma read_at {A} (m : M Reader.t (option A)) n val p :
  decodes m n val -> 0 <= p ->
  forall r, reachable data r -> Reader.position r = p ->
  exists r',
    m r = (Ok (if p + n <=? JS.len data then Some (val (bytes_at data p n)) else None), r')
    /\ reachable data r'
    /\ Reader.position r' = (if p + n <=? JS.len data then p + n else p).
Proof.
  intros D Hp r Hr Pr.
  destruct (D data r Hr ltac:(lia)) as (res & r' & E & Hr' & Hfit & Hmiss).
  rewrite Pr in *.
  exists r'. rewrite E.
  destruct (p + n <=? JS.len data) eqn:F.
  - apply Z.leb_le in F. destruct (Hfit F) as (-> & P). auto.
  - apply Z.leb_gt in F. destruct (Hmiss ltac:(lia)) as (-> & P). auto.
Qed.

Lemma decodes_readBytes n : 0 < n -> decodes (Reader.readBytes n) n (fun l => l).
Proof.
  intros Hn d r Hr Hp.
  destruct (read_map (fun l => l) n (fun l => l) Hn ltac:(reflexivity) d r Hr Hp)
    as (res & r' & E & Hr' & Hfit & Hmiss).
  unfold bind, ret in E.
  destruct (Reader.readBytes n r) as [[o | e] r1] eqn:R; [ | discriminate ].
  injection E as <- <-.
  exists o, r1. split; [ reflexivity | ]. split; [ exact Hr' | ].
  split.
  - intros F. destruct (Hfit F) as (E1 & P). split; [ | exact P ].
    destruct o; [ exact E1 | discriminate ].
  - intros F. destruct (Hmiss F) as (E1 & P). split; [ | exact P ].
    destruct o; [ discriminate | reflexivity ].
Qed.

(** *** Big-endian tags *)

Lemma u8_inj a b : JS.u8 a = JS.u8 b -> a = b.
Proof. intros E. rewrite <- (to_u8_u8 a), <- (to_u8_u8 b). now f_equal. Qed.

Lemma digits4_inj a b c d a' b' c' d' :
  0 <= a < 256 -> 0 <= b < 256 -> 0 <= c < 256 -> 0 <= d < 256 ->
  0 <= a' < 256 -> 0 <= b' < 256 -> 0 <= c' < 256 -> 0 <= d' < 256 ->
  256 * (256 * (256 * a + b) + c) + d = 256 * (256 * (256 * a' + b') + c') + d' ->
  a = a' /\ b = b' /\ c = c' /\ d = d'.
Proof.
  intros Ha Hb Hc Hd Ha' Hb' Hc' Hd' E.
  apply Z.div_mod_unique in E; [ | now left | now left ]. destruct E as [E E4].
  apply Z.div_mod_unique in E; [ | now left | now left ]. destruct E as [E E3].
  apply Z.div_mod_unique in E; [ | now left | now left ]. destruct E as [E E2].
  auto.
Qed.

Lemma be4_inj l l' :
  List.length l = 4%nat -> List.length l' = 4%nat ->
  DataView.be l = DataView.be l' -> l = l'.
Proof.
  intros L L' E.
  destruct (list4 l L) as (a & b & c & d & ->).
  destruct (list4 l' L') as (a' & b' & c' & d' & ->).
  unfold DataView.be in E. cbn [fold_left] in E.
  destruct (digits4_inj (JS.u8 a) (JS.u8 b) (JS.u8 c) (JS.u8 d)
                        (JS.u8 a') (JS.u8 b') (JS.u8 c') (JS.u8 d'))
    as (Ea & Eb & Ec & Ed); try apply u8_range.
  - transitivity ((((0 * 256 + JS.u8 a) * 256 + JS.u8 b) * 256 + JS.u8 c) * 256 + JS.u8 d);
      [ ring | rewrite E; ring ].
  - apply u8_inj in Ea, Eb, Ec, Ed. congruence.
Qed.

Lemma bytes_at_short p n :
  0 <= p -> 0 < n -> JS.len data < p + n ->
  (List.length (bytes_at data p n) < Z.to_nat n)%nat.
Proof.
  intros Hp Hn H. unfold bytes_at, JS.len in *.
  rewrite length_firstn, length_skipn. lia.
Qed.

(** The result of a four-byte big-endian read at [p] is [magic] exactly
    when the four bytes there spell the tag. *)
Lemma seq_tag p tag magic :
  0 <= p -> String.length tag = 4%nat -> DataView.be (list_byte_of_string tag) = magic ->
  JS.seq (if p + 4 <=? JS.len data then Some (DataView.be (bytes_at data p 4)) else None) magic
  = true
  <-> Magic.tag_at data p tag.
Proof.
  intros Hp Ht Hm. unfold Magic.tag_at.
  assert (Lt : List.length (list_byte_of_string tag) = 4%nat).
  { unfold list_byte_of_string. rewrite length_map.
    clear - Ht. revert Ht. generalize 4%nat.
    induction tag as [| c s IH]; intros n; cbn; [ auto | ].
    destruct n; [ discriminate | ]. intros E. f_equal. apply IH. now injection E. }
  destruct (p + 4 <=? JS.len data) eqn:F.
  - apply Z.leb_le in F.
    assert (L : List.length (bytes_at data p 4) = 4%nat)
      by (rewrite bytes_at_length by lia; reflexivity).
    cbn [JS.seq]. rewrite Z.eqb_eq. split.
    + intros E. apply be4_inj; [ exact L | exact Lt | congruence ].
    + intros ->. exact Hm.
  - apply Z.leb_gt in F. cbn [JS.seq]. split; [ discriminate | ].
    intros E. pose proof (bytes_at_short p 4 Hp ltac:(lia) ltac:(lia)) as S.
    rewrite E, Lt in S. simpl in S. lia.
Qed.

Lemma seq_bool x c : JS.seq x c = true \/ JS.seq x c = false.
Proof. destruct (JS.seq x c); auto. Qed.

(** *** FLAC and Ogg: one tag *)

Lemma one_tag_canRead magic tag :
  String.length tag = 4%nat -> DataView.be (list_byte_of_string tag) = magic ->
  exists b,
    Input.with_reader (BufferSource data)
      (Reader.seek 0 ;;; x <- Reader.readU32BE ;; ret (JS.seq x magic)) = Ok b
    /\ (b = true <-> Magic.tag_at data 0 tag).
Proof.
  intros Ht Hm.
  unfold Input.with_reader, bind at 1. unfold Reader.seek at 1, modify.
  destruct (read_at Reader.readU32BE 4 DataView.be 0 decodes_readU32BE ltac:(lia)
              _ (reachable_at 0) eq_refl) as (r' & E & _ & _).
  unfold bind. change (Reader.fromSource (BufferSource data)) with (Reader.fromBuffer data).
  rewrite E. unfold ret. cbn [fst].
  eexists. split; [ reflexivity | ].
  apply (seq_tag 0 tag magic); [ lia | exact Ht | exact Hm ].
Qed.

Lemma Flac_canRead_tag :
  exists b, Input.Flac_canRead (BufferSource data) = Ok b
            /\ (b = true <-> Magic.tag_at data 0 "fLaC").
Proof. apply one_tag_canRead; reflexivity. Qed.

Lemma Ogg_canRead_tag :
  exists b, Input.Ogg_canRead (BufferSource data) = Ok b
            /\ (b = true <-> Magic.tag_at data 0 "OggS").
Proof. apply one_tag_canRead; reflexivity. Qed.

(** *** WAV: RIFF or RF64, then WAVE at offset 8 *)

Lemma Wav_canRead_tags :
  exists b, Input.Wav_canRead (BufferSource data) = Ok b
            /\ (b = true <->
                (Magic.tag_at data 0 "RIFF" \/ Magic.tag_at data 0 "RF64")
                /\ Magic.tag_at data 8 "WAVE").
Proof.
  unfold Input.Wav_canRead, Input.with_reader, bind at 1.
  unfold Reader.seek at 1, modify.
  destruct (read_at Reader.readU32BE 4 DataView.be 0 decodes_readU32BE ltac:(lia)
              _ (reachable_at 0) eq_refl) as (r1 & E1 & Hr1 & P1).
  change (Reader.fromSource (BufferSource data)) with (Reader.fromBuffer data).
  unfold bind at 1. rewrite E1.
  pose proof (seq_tag 0 "RIFF" Wav.RIFF_MAGIC ltac:(lia) eq_refl eq_refl) as T1.
  pose proof (seq_tag 0 "RF64" Wav.RF64_MAGIC ltac:(lia) eq_refl eq_refl) as T2.
  pose proof (seq_tag 8 "WAVE" Wav.WAVE_MAGIC ltac:(lia) eq_refl eq_refl) as T3.
  set (x := if 0 + 4 <=? JS.len data then Some (DataView.be (bytes_at data 0 4)) else None) in *.
  destruct (JS.seq x Wav.RIFF_MAGIC) eqn:S1, (JS.seq x Wav.RF64_MAGIC) eqn:S2; cbn [negb andb].
  4: { unfold ret. cbn [fst]. exists false. split; [ reflexivity | ].
       split; [ discriminate | ].
       intros [[H | H] _]; [ apply T1 in H | apply T2 in H ]; discriminate. }
  all: assert (F : (0 + 4 <=? JS.len data) = true)
         by (subst x; destruct (0 + 4 <=? JS.len data); [ reflexivity | discriminate ]).
  all: rewrite F in P1.
  all: unfold bind at 1; unfold Reader.skip at 1, modify.
  all: destruct (read_at Reader.readU32BE 4 DataView.be 8 decodes_readU32BE ltac:(lia)
                  (Reader.set_position (Reader.position r1 + 4) r1)
                  (reach_call data (Reader.skip 4) r1 Hr1 (m_skip 4))
                  ltac:(cbn; lia)) as (r2 & E2 & _ & _).
  all: unfold bind; rewrite E2; unfold ret; cbn [fst].
  all: eexists; split; [ reflexivity | ].
  all: rewrite T3; split; [ intros H; split; [ | exact H ] | intros [_ H]; exact H ].
  - left. now apply T1.
  - left. now apply T1.
  - right. now apply T2.
Qed.

(** *** AAC: the sync word and a zero layer field *)

Lemma elem_bytes_at n i :
  0 <= i < n -> n <= JS.len data -> JS.elem (bytes_at data 0 n) i = JS.elem data i.
Proof.
  intros Hi Hn. unfold JS.elem, bytes_at.
  destruct (i <? 0) eqn:E; [ apply Z.ltb_lt in E; lia | ].
  cbn [Z.to_nat skipn]. f_equal.
  rewrite nth_error_firstn.
  destruct (Nat.ltb_spec (Z.to_nat i) (Z.to_nat n)); [ reflexivity | lia ].
Qed.

Lemma seq_eq x c : JS.seq x c = true <-> x = Some c.
Proof.
  destruct x as [v |]; cbn [JS.seq]; [ rewrite Z.eqb_eq | ]; split; congruence.
Qed.

Lemma Aac_canRead_sync :
  exists b, Input.Aac_canRead (BufferSource data) = Ok b
            /\ (b = true <-> Magic.adts_sync data).
Proof.
  unfold Input.Aac_canRead, Input.with_reader, bind at 1.
  unfold Reader.seek at 1, modify.
  destruct (read_at (Reader.readBytes 4) 4 (fun l => l) 0 (decodes_readBytes 4 ltac:(lia))
              ltac:(lia) _ (reachable_at 0) eq_refl) as (r1 & E1 & _ & _).
  change (Reader.fromSource (BufferSource data)) with (Reader.fromBuffer data).
  unfold bind. rewrite E1. unfold Magic.adts_sync, Aac.sync_layer0.
  destruct (0 + 4 <=? JS.len data) eqn:F.
  - apply Z.leb_le in F. unfold ret. cbn [fst].
    rewrite !elem_bytes_at by lia.
    eexists. split; [ reflexivity | ].
    rewrite andb_true_iff, seq_eq, Z.eqb_eq.
    rewrite and_small by (pose proof (int_elem_range data 1); lia).
    intuition lia.
  - apply Z.leb_gt in F. unfold ret. cbn [fst].
    exists false. split; [ reflexivity | ]. split; [ discriminate | lia ].
Qed.

(** *** MP3: an ID3v2 tag, or a frame header with a non-zero layer field *)

Lemma parseFrameHeader_layer hdr h :
  Mp3.parseFrameHeader hdr 0 = Some h ->
  Z.land (JS.int (JS.elem hdr 1)) 6 <> 0.
Proof.
  unfold Mp3.parseFrameHeader.
  destruct (0 + 4 >? JS.len hdr); [ discriminate | ].
  destruct (negb (JS.seq (JS.elem hdr 0) 255)
            || negb (JS.and (JS.int (JS.elem hdr (0 + 1))) 224 =? 224)); [ discriminate | ].
  change (0 + 1) with 1.
  pose proof (int_elem_range hdr 1) as R.
  set (h1 := JS.int (JS.elem hdr 1)) in *.
  destruct (Mp3.MPEG_VERSIONS _); [ | discriminate ].
  destruct (Mp3.LAYERS (JS.and (JS.sar h1 1) 3)) eqn:L; [ | discriminate ].
  intros _ Z6.
  assert (C : In h1 (map Z.of_nat (seq 0 256))).
  { replace h1 with (Z.of_nat (Z.to_nat h1)) by lia. apply in_map, in_seq. lia. }
  clear R. clearbody h1.
  cbn in C.
  repeat (destruct C as [<- | C]; [ vm_compute in L, Z6; discriminate | ]).
  contradiction.
Qed.

Lemma Mp3_canRead_first :
  exists b, Input.Mp3_canRead (BufferSource data) = Ok b
            /\ (b = true ->
                JS.elem data 0 = Some 0x49
                \/ (JS.elem data 0 = Some 0xFF /\ Z.land (JS.int (JS.elem data 1)) 6 <> 0)).
Proof.
  unfold Input.Mp3_canRead, Input.with_reader, bind at 1.
  unfold Reader.seek at 1, modify.
  destruct (read_at (Reader.readBytes 10) 10 (fun l => l) 0 (decodes_readBytes 10 ltac:(lia))
              ltac:(lia) _ (reachable_at 0) eq_refl) as (r1 & E1 & _ & _).
  change (Reader.fromSource (BufferSource data)) with (Reader.fromBuffer data).
  unfold bind. rewrite E1.
  destruct (0 + 10 <=? JS.len data) eqn:F.
  2: { unfold ret. cbn [fst]. exists false. split; [ reflexivity | discriminate ]. }
  apply Z.leb_le in F.
  set (hdr := bytes_at data 0 10).
  assert (H0 : JS.elem hdr 0 = JS.elem data 0) by (apply elem_bytes_at; lia).
  assert (H1 : JS.elem hdr 1 = JS.elem data 1) by (apply elem_bytes_at; lia).
  destruct (JS.seq (JS.elem hdr 0) 73 && JS.seq (JS.elem hdr 1) 68 && JS.seq (JS.elem hdr 2) 51)
    eqn:I.
  - unfold ret. cbn [fst]. exists true. split; [ reflexivity | ]. intros _. left.
    apply andb_true_iff in I. destruct I as [I _].
    apply andb_true_iff in I. destruct I as [I _].
    apply seq_eq in I. congruence.
  - destruct (JS.seq (JS.elem hdr 0) 255 && (JS.and (JS.int (JS.elem hdr 1)) 224 =? 224)) eqn:S.
    + unfold ret. cbn [fst].
      destruct (Mp3.parseFrameHeader hdr 0) as [h |] eqn:P.
      * exists true. split; [ reflexivity | ]. intros _. right.
        apply andb_true_iff in S. destruct S as [S _]. apply seq_eq in S.
        split; [ congruence | ].
        rewrite <- H1. eapply parseFrameHeader_layer. exact P.
      * exists false. split; [ reflexivity | discriminate ].
    + unfold ret. cbn [fst]. exists false. split; [ reflexivity | discriminate ].
Qed.

(** *** No buffer is accepted by two formats *)

Lemma tag_first tag c rest :
  list_byte_of_string tag = c :: rest ->
  Magic.tag_at data 0 tag -> JS.elem data 0 = Some (JS.u8 c).
Proof.
  intros Et T. unfold Magic.tag_at, bytes_at in T. rewrite Et in T.
  cbn [Z.to_nat skipn] in T.
  destruct data as [| x tl]; [ destruct (Z.to_nat 4); discriminate | ].
  change (Z.to_nat 4) with 4%nat in T. cbn [firstn] in T.
  injection T as -> _. reflexivity.
Qed.

Lemma land_6_of_sync b1 : Z.land b1 0xF6 = 0xF0 -> Z.land b1 6 = 0.
Proof.
  intros E. change 6 with (Z.land 0xF6 6). rewrite Z.land_assoc, E. reflexivity.
Qed.

Lemma in_registry f :
  In f Input.registry ->
  f = Input.MP3 \/ f = Input.WAV \/ f = Input.FLAC \/ f = Input.AAC \/ f = Input.OGG.
Proof. cbn. intuition. Qed.

Lemma registry_never_throws f :
  In f Input.registry -> exists b, Input.canRead f (BufferSource data) = Ok b.
Proof.
  intros Hf. apply in_registry in Hf.
  destruct Hf as [-> | [-> | [-> | [-> | ->]]]].
  - destruct Mp3_canRead_first as (b & E & _). eauto.
  - destruct Wav_canRead_tags as (b & E & _). eauto.
  - destruct Flac_canRead_tag as (b & E & _). eauto.
  - destruct Aac_canRead_sync as (b & E & _). eauto.
  - destruct Ogg_canRead_tag as (b & E & _). eauto.
Qed.

Lemma mp3_first :
  Input.canRead Input.MP3 (BufferSource data) = Ok true ->
  JS.elem data 0 = Some 0x49
  \/ (JS.elem data 0 = Some 0xFF /\ Z.land (JS.int (JS.elem data 1)) 6 <> 0).
Proof.
  intros A. destruct Mp3_canRead_first as (b & E & H).
  change (Input.canRead Input.MP3 (BufferSource data))
    with (Input.Mp3_canRead (BufferSource data)) in A.
  rewrite E in A. injection A as ->. exact (H eq_refl).
Qed.

Lemma wav_first :
  Input.canRead Input.WAV (BufferSource data) = Ok true -> JS.elem data 0 = Some 0x52.
Proof.
  intros A. destruct Wav_canRead_tags as (b & E & H).
  change (Input.canRead Input.WAV (BufferSource data))
    with (Input.Wav_canRead (BufferSource data)) in A.
  rewrite E in A. injection A as ->.
  destruct (proj1 H eq_refl) as [[T | T] _].
  - apply (tag_first "RIFF" _ _ eq_refl T).
  - apply (tag_first "RF64" _ _ eq_refl T).
Qed.

Lemma flac_first :
  Input.canRead Input.FLAC (BufferSource data) = Ok true -> JS.elem data 0 = Some 0x66.
Proof.
  intros A. destruct Flac_canRead_tag as (b & E & H).
  change (Input.canRead Input.FLAC (BufferSource data))
    with (Input.Flac_canRead (BufferSource data)) in A.
  rewrite E in A. injection A as ->.
  apply (tag_first "fLaC" _ _ eq_refl (proj1 H eq_refl)).
Qed.

Lemma ogg_first :
  Input.canRead Input.OGG (BufferSource data) = Ok true -> JS.elem data 0 = Some 0x4F.
Proof.
  intros A. destruct Ogg_canRead_tag as (b & E & H).
  change (Input.canRead Input.OGG (BufferSource data))
    with (Input.Ogg_canRead (BufferSource data)) in A.
  rewrite E in A. injection A as ->.
  apply (tag_first "OggS" _ _ eq_refl (proj1 H eq_refl)).
Qed.

Lemma aac_first :
  Input.canRead Input.AAC (BufferSource data) = Ok true ->
  JS.elem data 0 = Some 0xFF /\ Z.land (JS.int (JS.elem data 1)) 6 = 0.
Proof.
  intros A. destruct Aac_canRead_sync as (b & E & H).
  change (Input.canRead Input.AAC (BufferSource data))
    with (Input.Aac_canRead (BufferSource data)) in A.
  rewrite E in A. injection A as ->.
  destruct (proj1 H eq_refl) as (_ & H0 & H1).
  split; [ exact H0 | now apply land_6_of_sync ].
Qed.

Lemma formats_exclusive f g :
  In f Input.registry -> In g Input.registry ->
  Input.canRead f (BufferSource data) = Ok true ->
  Input.canRead g (BufferSource data) = Ok true ->
  f = g.
Proof.
  intros Hf Hg Af Ag.
  apply in_registry in Hf, Hg.
  destruct Hf as [-> | [-> | [-> | [-> | ->]]]];
    destruct Hg as [-> | [-> | [-> | [-> | ->]]]];
    try reflexivity; exfalso;
    repeat match goal with
           | H : Input.canRead Input.MP3 _ = Ok true |- _ => apply mp3_first in H
           | H : Input.canRead Input.WAV _ = Ok true |- _ => apply wav_first in H
           | H : Input.canRead Input.FLAC _ = Ok true |- _ => apply flac_first in H
           | H : Input.canRead Input.AAC _ = Ok true |- _ => apply aac_first in H
           | H : Input.canRead Input.OGG _ = Ok true |- _ => apply ogg_first in H
           end;
    intuition congruence.
Qed.

(** A list of registered formats detects the one format that accepts the
    buffer, wherever it stands in the list. *)
Lemma detect_the_accepting fs f :
  incl fs Input.registry -> In f fs ->
  Input.canRead f (BufferSource data) = Ok true ->
  Input.detectFormat fs (BufferSource data) = Ok (Some f).
Proof.
  intros Hin Hf Af.
  assert (Hfr : In f Input.registry) by (apply Hin, Hf).
  induction fs as [| g fs IH]; [ contradiction | ].
  cbn [Input.detectFormat].
  assert (Hg : In g Input.registry) by (apply Hin; now left).
  destruct (registry_never_throws g Hg) as ([|] & E); rewrite E.
  - f_equal. f_equal. apply formats_exclusive; assumption.
  - apply IH.
    + intros x Hx. apply Hin. now right.
    + destruct Hf as [-> | Hf]; [ congruence | exact Hf ].
Qed.

Lemma detect_order fs fs' :
  incl fs Input.registry -> incl fs' Input.registry ->
  incl fs fs' -> incl fs' fs ->
  Input.detectFormat fs (BufferSource data) = Input.detectFormat fs' (BufferSource data).
Proof.
  intros R R' I I'.
  destruct (Exists_dec (fun f => Input.canRead f (BufferSource data) = Ok true) fs) as [Ex | Nx].
  - intros f. destruct (Input.canRead f (BufferSource data)) as [[|] | e];
      [ now left | right; discriminate | right; discriminate ].
  - apply Exists_exists in Ex. destruct Ex as (f & Hf & Af).
    rewrite (detect_the_accepting fs f R Hf Af).
    rewrite (detect_the_accepting fs' f R' (I f Hf) Af). reflexivity.
  - assert (D : forall l, incl l fs ->
                Forall (fun f => Input.canRead f (BufferSource data) = Ok false) l).
    { intros l Hl. apply Forall_forall. intros f Hf.
      destruct (registry_never_throws f (R f (Hl f Hf))) as ([|] & E); [ | exact E ].
      exfalso. apply Nx, Exists_exists. exists f. split; [ apply Hl, Hf | exact E ]. }
    rewrite (detectFormat_all_decline fs _ (D fs (incl_refl _))).
    rewrite (detectFormat_all_decline fs' _ (D fs' I')). reflexivity.
Qed.

End CanRead.

Section StreamSources.

Lemma stream_canRead_throws f :
  In f Input.registry ->
  Input.canRead f StreamSource = Throw "Stream source does not support random access".
Proof.
  intros Hf. cbn in Hf.
  destruct Hf as [<- | [<- | [<- | [<- | [<- | []]]]]]; reflexivity.
Qed.

Lemma stream_detect_throws fs :
  fs <> [] -> incl fs Input.registry ->
  Input.detectFormat fs StreamSource = Throw "Stream source does not support random access".
Proof.
  intros N Hin. destruct fs as [| f fs]; [ contradiction | ].
  cbn [Input.detectFormat]. rewrite stream_canRead_throws by (apply Hin; now left).
  reflexivity.
Qed.

End StreamSources.

(** * A session with a muxer: header, packets, trailer *)

Section Sessions.

Context {X : Type} {impl : Muxer.Impl X}.

(** The shape of the four muxers: the header and the trailer only write,
    a packet and a new track only change the fields of the subclass. *)
Variable hdr : M Writer.t unit.
Variable store : EncodedPacket -> X -> X.
Variable trl : X -> M Writer.t unit.
Variable added : OutputAudioTrack -> X -> X.

Hypothesis Hhdr : forall m, Muxer.writeHeader m = Muxer.on_writer hdr m.
Hypothesis Hpkt : forall track p m,
    Muxer.writeAudioPacket track p m = (Ok tt, Muxer.set_ext (store p (Muxer.ext m)) m).
Hypothesis Htrl : forall m,
    Muxer.writeTrailer m = Muxer.on_writer (trl (Muxer.ext m)) m.
Hypothesis Hadd : forall track m,
    Muxer.onTrackAdded track m = Muxer.set_ext (added track (Muxer.ext m)) m.

Variable cfg : AudioTrackConfig.

Local Abbreviation track1 := ({| track_id := 1; track_config := cfg |}).

(** The muxer between two calls. *)
Local Abbreviation state hw w x :=
  (Muxer.mk w [track1] [] (AsyncMutex.mk false) 2 hw false x).

Lemma session_addAudioTrack x0 :
  Muxer.addAudioTrack cfg (Muxer.new BufferTarget x0)
  = (Ok track1, state false (Writer.new BufferTarget) (added track1 x0)).
Proof.
  unfold Muxer.addAudioTrack, Muxer.new. cbn.
  rewrite Hadd. reflexivity.
Qed.

Lemma session_first_packet p w w1 x :
  hdr w = (Ok tt, w1) ->
  Muxer.writePacket 1 p (state false w x) = (Ok tt, state true w1 (store p x)).
Proof.
  intros E.
  unfold Muxer.writePacket, Muxer.withLock, Muxer.ensureHeader, finally, bind, modify,
    this, ret.
  cbn. rewrite Hhdr. unfold Muxer.on_writer, zoom. cbn. rewrite E. cbn.
  rewrite Hpkt. reflexivity.
Qed.

Lemma session_next_packet p w x :
  Muxer.writePacket 1 p (state true w x) = (Ok tt, state true w (store p x)).
Proof.
  unfold Muxer.writePacket, Muxer.withLock, Muxer.ensureHeader, finally, bind, modify,
    this, ret.
  cbn. rewrite Hpkt. reflexivity.
Qed.

Lemma session_next_packets ps w x :
  Session.writePackets 1 ps (state true w x)
  = (Ok tt, state true w (fold_left (fun x p => store p x) ps x)).
Proof.
  revert x. induction ps as [| p ps IH]; intros x; [ reflexivity | ].
  cbn [Session.writePackets fold_left]. unfold bind.
  rewrite session_next_packet. apply IH.
Qed.

Lemma session_finalize (hw : bool) w w1 w2 x :
  (if hw then w1 = w else hdr w = (Ok tt, w1)) ->
  trl x w1 = (Ok tt, w2) -> Writer.target w2 = BufferTarget ->
  fst (Muxer.finalize (state hw w x)) = Ok (List.concat (Writer.buffers w2)).
Proof.
  intros E1 E2 T.
  destruct hw;
    unfold Muxer.finalize, Muxer.withLock, Muxer.ensureHeader, finally, bind, modify,
      this, ret; cbn.
  - subst w1. rewrite Htrl.
    unfold Muxer.on_writer, zoom. cbn. rewrite E2. cbn.
    unfold Writer.close. rewrite T.
    destruct (Writer.streamWriter w2); reflexivity.
  - rewrite Hhdr. unfold Muxer.on_writer at 1, zoom. cbn. rewrite E1. cbn.
    rewrite Htrl. unfold Muxer.on_writer at 1, zoom. cbn. rewrite E2. cbn.
    unfold Muxer.on_writer, zoom. cbn.
    unfold Writer.close. rewrite T.
    destruct (Writer.streamWriter w2); reflexivity.
Qed.

Lemma session_output ps x0 w1 w2 :
  hdr (Writer.new BufferTarget) = (Ok tt, w1) ->
  trl (fold_left (fun x p => store p x) ps (added track1 x0)) w1 = (Ok tt, w2) ->
  Writer.target w2 = BufferTarget ->
  fst (Session.run cfg ps (Muxer.new BufferTarget x0))
  = Ok (List.concat (Writer.buffers w2)).
Proof.
  intros E1 E2 T. unfold Session.run, bind at 1.
  rewrite session_addAudioTrack. cbn [track_id].
  destruct ps as [| p ps].
  - cbn [Session.writePackets]. unfold bind, ret.
    apply (session_finalize false _ w1 w2); assumption.
  - cbn [Session.writePackets]. unfold bind.
    rewrite (session_first_packet p _ w1) by exact E1.
    rewrite session_next_packets.
    apply (session_finalize true _ w1 w2); [ reflexivity | exact E2 | exact T ].
Qed.

End Sessions.

(** * The four muxers: what a session writes *)

Section Emits.

Import Codec.

Lemma emits_ret : emits (ret tt) [].
Proof.
  intros w T. exists w. unfold ret, JS.len. cbn. rewrite app_nil_r, Z.add_0_r. auto.
Qed.

Lemma emits_bind m1 m2 l1 l2 :
  emits m1 l1 -> emits m2 l2 -> emits (m1 ;;; m2) (l1 ++ l2).
Proof.
  intros H1 H2 w T.
  destruct (H1 w T) as (w1 & E1 & T1 & B1 & P1).
  destruct (H2 w1 T1) as (w2 & E2 & T2 & B2 & P2).
  exists w2. unfold bind. rewrite E1, E2.
  repeat split; try assumption.
  - now rewrite B2, B1, app_assoc.
  - rewrite P2, P1. unfold JS.len. rewrite length_app. lia.
Qed.

Lemma emits_writeBytes l : emits (Writer.writeBytes l) l.
Proof.
  intros w T. unfold Writer.writeBytes. rewrite T.
  eexists. split; [ reflexivity | ]. cbn.
  rewrite concat_app. cbn. rewrite app_nil_r. auto.
Qed.

Lemma emits_writeAll ps : emits (Aac.writeAll ps) (List.concat ps).
Proof.
  induction ps as [| p ps IH]; cbn [Aac.writeAll List.concat].
  - apply emits_ret.
  - apply emits_bind; [ apply emits_writeBytes | exact IH ].
Qed.

Lemma new_buffer_writer :
  Writer.target (Writer.new BufferTarget) = BufferTarget
  /\ List.concat (Writer.buffers (Writer.new BufferTarget)) = [].
Proof. split; reflexivity. Qed.

End Emits.

Section MuxerSessions.

Import Codec.

Context {X : Type} {impl : Muxer.Impl X}.

Variable hdr : M Writer.t unit.
Variable store : EncodedPacket -> X -> X.
Variable trl : X -> M Writer.t unit.
Variable added : OutputAudioTrack -> X -> X.

Hypothesis Hhdr : forall m, Muxer.writeHeader m = Muxer.on_writer hdr m.
Hypothesis Hpkt : forall track p m,
    Muxer.writeAudioPacket track p m = (Ok tt, Muxer.set_ext (store p (Muxer.ext m)) m).
Hypothesis Htrl : forall m,
    Muxer.writeTrailer m = Muxer.on_writer (trl (Muxer.ext m)) m.
Hypothesis Hadd : forall track m,
    Muxer.onTrackAdded track m = Muxer.set_ext (added track (Muxer.ext m)) m.

Lemma session_emits cfg ps x0 lh lt :
  emits hdr lh ->
  emits (trl (fold_left (fun x p => store p x) ps
                        (added {| track_id := 1; track_config := cfg |} x0))) lt ->
  fst (Session.run cfg ps (Muxer.new BufferTarget x0)) = Ok (lh ++ lt).
Proof.
  intros Eh Et.
  destruct (Eh (Writer.new BufferTarget) eq_refl) as (w1 & E1 & T1 & B1 & _).
  destruct (Et w1 T1) as (w2 & E2 & T2 & B2 & _).
  rewrite (session_output hdr store trl added Hhdr Hpkt Htrl Hadd cfg ps x0 w1 w2 E1 E2 T2).
  rewrite B2, B1. reflexivity.
Qed.

End MuxerSessions.

Section FourMuxers.

Import Codec.

Variable cfg : AudioTrackConfig.

(** MP3: the packets as they came. *)

Lemma mp3_fields ps x :
  fold_left (fun x p => Mp3Muxer.mk (Mp3Muxer.packets x ++ [pkt_data p])
                                    (Mp3Muxer.sampleRate x) (Mp3Muxer.channels x)
                                    (Mp3Muxer.bitrate x)) ps x
  = Mp3Muxer.mk (Mp3Muxer.packets x ++ map pkt_data ps)
                (Mp3Muxer.sampleRate x) (Mp3Muxer.channels x) (Mp3Muxer.bitrate x).
Proof.
  revert x. induction ps as [| p ps IH]; intros x.
  - destruct x. cbn. now rewrite app_nil_r.
  - cbn [fold_left map]. rewrite IH. cbn. now rewrite <- app_assoc.
Qed.

Lemma mp3_session ps :
  fst (Session.run cfg ps (Mp3Muxer.new BufferTarget)) = Ok (List.concat (map pkt_data ps)).
Proof.
  unfold Mp3Muxer.new.
  rewrite (@session_emits Mp3Muxer.fields Mp3Muxer.Mp3Muxer_impl (ret tt)
             (fun p x => Mp3Muxer.mk (Mp3Muxer.packets x ++ [pkt_data p])
                                     (Mp3Muxer.sampleRate x) (Mp3Muxer.channels x)
                                     (Mp3Muxer.bitrate x))
             (fun x => Aac.writeAll (Mp3Muxer.packets x))
             (fun track x => Mp3Muxer.mk (Mp3Muxer.packets x)
                               (cfg_sampleRate (track_config track))
                               (cfg_channels (track_config track))
                               (match cfg_bitrate (track_config track) with
                                | Some b => b
                                | None => 128000
                                end))
             ltac:(intros [? ? ? ? ? ? ? ?]; reflexivity)
             ltac:(reflexivity)
             ltac:(reflexivity)
             ltac:(reflexivity)
             cfg ps Mp3Muxer.init_fields [] (List.concat (map pkt_data ps))).
  - reflexivity.
  - apply emits_ret.
  - rewrite mp3_fields. cbn [Mp3Muxer.packets Mp3Muxer.init_fields app].
    apply emits_writeAll.
Qed.

(** AAC: every payload framed. *)

Lemma aac_store track p (m : Aac.AacMuxer) :
  Aac.aac_writeAudioPacket track p m
  = (Ok tt,
     Muxer.set_ext
       (let x := Muxer.ext m in
        Aac.mk (Aac.packets x
                ++ [if Aac.hasAdtsHeader (pkt_data p) then pkt_data p
                    else Aac.createAdtsHeader (Aac.profile x)
                           (Aac.getSampleRateIndex (Aac.sampleRate x)) (Aac.channels x)
                           (7 + JS.len (pkt_data p)) ++ pkt_data p])
               (Aac.sampleRate x) (Aac.channels x) (Aac.profile x)) m).
Proof.
  unfold Aac.aac_writeAudioPacket, Aac.push.
  destruct (Aac.hasAdtsHeader (pkt_data p)); reflexivity.
Qed.

Lemma aac_fields ps sr ch pr packets :
  fold_left
    (fun x p =>
       Aac.mk (Aac.packets x
               ++ [if Aac.hasAdtsHeader (pkt_data p) then pkt_data p
                   else Aac.createAdtsHeader (Aac.profile x)
                          (Aac.getSampleRateIndex (Aac.sampleRate x)) (Aac.channels x)
                          (7 + JS.len (pkt_data p)) ++ pkt_data p])
              (Aac.sampleRate x) (Aac.channels x) (Aac.profile x))
    ps (Aac.mk packets sr ch pr)
  = Aac.mk (packets
            ++ map (fun p => if Aac.hasAdtsHeader (pkt_data p) then pkt_data p
                             else Aac.createAdtsHeader pr (Aac.getSampleRateIndex sr) ch
                                    (7 + JS.len (pkt_data p)) ++ pkt_data p) ps)
           sr ch pr.
Proof.
  revert packets. induction ps as [| p ps IH]; intros packets.
  - cbn. now rewrite app_nil_r.
  - cbn [fold_left map]. cbn [Aac.packets Aac.sampleRate Aac.channels Aac.profile].
    rewrite IH. now rewrite <- app_assoc.
Qed.

Lemma aac_session ps :
  fst (Session.run cfg ps (Aac.new BufferTarget))
  = Ok (List.concat (map (fun p => Session.adts_frame cfg (pkt_data p)) ps)).
Proof.
  unfold Aac.new.
  rewrite (@session_emits Aac.fields Aac.AacMuxer_impl (ret tt)
             (fun p x =>
                Aac.mk (Aac.packets x
                        ++ [if Aac.hasAdtsHeader (pkt_data p) then pkt_data p
                            else Aac.createAdtsHeader (Aac.profile x)
                                   (Aac.getSampleRateIndex (Aac.sampleRate x))
                                   (Aac.channels x)
                                   (7 + JS.len (pkt_data p)) ++ pkt_data p])
                       (Aac.sampleRate x) (Aac.channels x) (Aac.profile x))
             (fun x => Aac.writeAll (Aac.packets x))
             (fun track x => Aac.mk (Aac.packets x)
                               (cfg_sampleRate (track_config track))
                               (cfg_channels (track_config track))
                               (Aac.profile x))
             ltac:(intros [? ? ? ? ? ? ? ?]; reflexivity)
             aac_store
             ltac:(reflexivity)
             ltac:(reflexivity)
             cfg ps Aac.init_fields []
             (List.concat (map (fun p => Session.adts_frame cfg (pkt_data p)) ps))).
  - reflexivity.
  - apply emits_ret.
  - cbn [track_config Aac.init_fields Aac.packets Aac.profile].
    rewrite aac_fields. cbn [Aac.packets app].
    apply emits_writeAll.
Qed.

(** FLAC: the tag, one STREAMINFO block, the packets. *)

Lemma flac_fields_fold ps x :
  fold_left (fun x p => FlacMuxer.mk (FlacMuxer.packets x ++ [pkt_data p])
                                     (FlacMuxer.sampleRate x) (FlacMuxer.channels x)
                                     (FlacMuxer.bitsPerSample x)) ps x
  = FlacMuxer.mk (FlacMuxer.packets x ++ map pkt_data ps)
                 (FlacMuxer.sampleRate x) (FlacMuxer.channels x)
                 (FlacMuxer.bitsPerSample x).
Proof.
  revert x. induction ps as [| p ps IH]; intros x.
  - destruct x. cbn. now rewrite app_nil_r.
  - cbn [fold_left map]. rewrite IH. cbn. now rewrite <- app_assoc.
Qed.

Lemma flac_session ps :
  fst (Session.run cfg ps (FlacMuxer.new BufferTarget))
  = Ok (list_byte_of_string "fLaC"
        ++ map JS.to_u8 [0x80; 0; 0; 34]
        ++ FlacMuxer.streamInfo (Session.flac_fields cfg ps)
        ++ List.concat (map pkt_data ps)).
Proof.
  unfold FlacMuxer.new.
  rewrite (@session_emits FlacMuxer.fields FlacMuxer.FlacMuxer_impl
             (Writer.writeFourCC (JS.lit "fLaC"))
             (fun p x => FlacMuxer.mk (FlacMuxer.packets x ++ [pkt_data p])
                                      (FlacMuxer.sampleRate x) (FlacMuxer.channels x)
                                      (FlacMuxer.bitsPerSample x))
             (fun x =>
                Writer.writeU8 (JS.or 0x80 FlacMuxer.BLOCK_STREAMINFO) ;;;
                Writer.writeU24BE 34 ;;;
                Writer.writeBytes (FlacMuxer.streamInfo x) ;;;
                Aac.writeAll (FlacMuxer.packets x))
             (fun track x => FlacMuxer.mk (FlacMuxer.packets x)
                               (cfg_sampleRate (track_config track))
                               (cfg_channels (track_config track))
                               (match cfg_bitDepth (track_config track) with
                                | Some b => b
                                | None => 16
                                end))
             ltac:(reflexivity)
             ltac:(reflexivity)
             ltac:(reflexivity)
             ltac:(reflexivity)
             cfg ps FlacMuxer.init_fields
             (list_byte_of_string "fLaC")
             (map JS.to_u8 [0x80; 0; 0; 34]
              ++ FlacMuxer.streamInfo (Session.flac_fields cfg ps)
              ++ List.concat (map pkt_data ps))).
  - reflexivity.
  - apply emits_writeBytes.
  - rewrite flac_fields_fold.
    cbn [track_config FlacMuxer.init_fields FlacMuxer.packets FlacMuxer.sampleRate
         FlacMuxer.channels FlacMuxer.bitsPerSample app].
    change (map JS.to_u8 [128; 0; 0; 34]
            ++ FlacMuxer.streamInfo (Session.flac_fields cfg ps)
            ++ List.concat (map pkt_data ps))
      with ([JS.to_u8 128] ++ map JS.to_u8 [0; 0; 34]
            ++ FlacMuxer.streamInfo (Session.flac_fields cfg ps)
            ++ List.concat (map pkt_data ps)).
    apply emits_bind; [ apply emits_writeBytes | ].
    apply emits_bind; [ apply emits_writeBytes | ].
    apply emits_bind; [ apply emits_writeBytes | ].
    apply emits_writeAll.
Qed.

(** WAV: the 44-byte header, then the packets. *)

Lemma wav_fields_fold ps x :
  fold_left (fun x p => WavMuxer.mk (WavMuxer.audioData x ++ [pkt_data p])
                                    (WavMuxer.sampleRate x) (WavMuxer.channels x)
                                    (WavMuxer.bitsPerSample x) (WavMuxer.isFloat x)) ps x
  = WavMuxer.mk (WavMuxer.audioData x ++ map pkt_data ps)
                (WavMuxer.sampleRate x) (WavMuxer.channels x)
                (WavMuxer.bitsPerSample x) (WavMuxer.isFloat x).
Proof.
  revert x. induction ps as [| p ps IH]; intros x.
  - destruct x. cbn. now rewrite app_nil_r.
  - cbn [fold_left map]. rewrite IH. cbn. now rewrite <- app_assoc.
Qed.

Lemma wav_session ps :
  let x := Session.wav_fields cfg ps in
  fst (Session.run cfg ps (WavMuxer.new BufferTarget))
  = Ok (Writer.fourCC (JS.lit "RIFF")
        ++ DataView.setUint 4 true (36 + WavMuxer.totalDataSize x)
        ++ Writer.fourCC (JS.lit "WAVE")
        ++ Writer.fourCC (JS.lit "fmt ")
        ++ DataView.setUint 4 true 16
        ++ map JS.to_u8 [JS.and Wav.WAVE_FORMAT_PCM 0xFF;
                         JS.and (JS.sar Wav.WAVE_FORMAT_PCM 8) 0xFF]
        ++ map JS.to_u8 [JS.and (WavMuxer.channels x) 0xFF;
                         JS.and (JS.sar (WavMuxer.channels x) 8) 0xFF]
        ++ DataView.setUint 4 true (WavMuxer.sampleRate x)
        ++ DataView.setUint 4 true (JS.trunc (WavMuxer.byteRate x))
        ++ map JS.to_u8 [JS.and (JS.trunc (WavMuxer.blockAlign x)) 0xFF;
                         JS.and (JS.sar (JS.trunc (WavMuxer.blockAlign x)) 8) 0xFF]
        ++ map JS.to_u8 [JS.and (WavMuxer.bitsPerSample x) 0xFF;
                         JS.and (JS.sar (WavMuxer.bitsPerSample x) 8) 0xFF]
        ++ Writer.fourCC (JS.lit "data")
        ++ DataView.setUint 4 true (WavMuxer.totalDataSize x)
        ++ List.concat (map pkt_data ps)).
Proof.
  intros x. unfold WavMuxer.new.
  match goal with |- _ = Ok ?l =>
  rewrite (@session_emits WavMuxer.fields WavMuxer.WavMuxer_impl (ret tt)
             (fun p x => WavMuxer.mk (WavMuxer.audioData x ++ [pkt_data p])
                                     (WavMuxer.sampleRate x) (WavMuxer.channels x)
                                     (WavMuxer.bitsPerSample x) (WavMuxer.isFloat x))
             WavMuxer.trailer
             (fun track x => WavMuxer.mk (WavMuxer.audioData x)
                               (cfg_sampleRate (track_config track))
                               (cfg_channels (track_config track))
                               (match cfg_bitDepth (track_config track) with
                                | Some b => b
                                | None => 16
                                end)
                               false)
             ltac:(intros [? ? ? ? ? ? ? ?]; reflexivity)
             ltac:(reflexivity)
             ltac:(reflexivity)
             ltac:(reflexivity)
             cfg ps WavMuxer.init_fields [] l)
  end.
  - reflexivity.
  - apply emits_ret.
  - rewrite wav_fields_fold.
    cbn [track_config WavMuxer.init_fields WavMuxer.audioData WavMuxer.sampleRate
         WavMuxer.channels WavMuxer.bitsPerSample WavMuxer.isFloat app].
    fold (Session.wav_fields cfg ps). fold x.
    unfold WavMuxer.trailer.
    replace (WavMuxer.isFloat x) with false by reflexivity. cbv iota.
    repeat (apply emits_bind; [ apply emits_writeBytes | ]).
    apply emits_writeAll.
Qed.

End FourMuxers.

(** * ADTS headers: what the muxer builds, the parser reads *)

Section Masks.

Lemma and_1 x : JS.and x 1 = x mod 2.
Proof. change 1 with (Z.ones 1) at 1. rewrite and_ones_small by lia. reflexivity. Qed.

Lemma and_3 x : JS.and x 3 = x mod 4.
Proof. change 3 with (Z.ones 2). rewrite and_ones_small by lia. reflexivity. Qed.

Lemma and_7 x : JS.and x 7 = x mod 8.
Proof. change 7 with (Z.ones 3). rewrite and_ones_small by lia. reflexivity. Qed.

Lemma and_15 x : JS.and x 15 = x mod 16.
Proof. change 15 with (Z.ones 4). rewrite and_ones_small by lia. reflexivity. Qed.

Lemma and_31 x : JS.and x 31 = x mod 32.
Proof. change 31 with (Z.ones 5). rewrite and_ones_small by lia. reflexivity. Qed.

Lemma and_63 x : JS.and x 63 = x mod 64.
Proof. change 63 with (Z.ones 6). rewrite and_ones_small by lia. reflexivity. Qed.

(** [a | b] of a multiple of [2^k] and a number below [2^k]. *)
Lemma or_add a b k :
  0 <= k -> 0 <= a < 2 ^ 31 -> 0 <= b < 2 ^ k -> b < 2 ^ 31 -> a mod 2 ^ k = 0 ->
  JS.or a b = a + b.
Proof.
  intros Hk Ha Hb Hb' Hm. rewrite or_small by lia. apply (lor_add a b k); assumption.
Qed.

(** [v << k] of a number that stays below [2^31]. *)
Lemma shl_mul v k m :
  0 <= k < 32 -> m = 2 ^ k -> 0 <= v -> v * m < 2 ^ 31 -> JS.shl v k = v * m.
Proof.
  intros Hk -> Hv Hr.
  assert (P : 1 <= 2 ^ k) by (change 1 with (2 ^ 0); apply Z.pow_le_mono_r; lia).
  rewrite shl_small; [ reflexivity | lia | nia | nia ].
Qed.

Lemma sar_quot v k m :
  0 <= k < 32 -> m = 2 ^ k -> 0 <= v < 2 ^ 31 -> JS.sar v k = v / m.
Proof. intros Hk -> Hv. apply sar_small; lia. Qed.

End Masks.

Ltac arith := Z.div_mod_to_equations; lia.

Section AdtsRoundTrip.

Import Aac Adts.

Variables p s c fl : Z.
Hypothesis Hp : 0 <= p < 4.
Hypothesis Hs : 0 <= s < 16.
Hypothesis Hc : 0 <= c < 8.
Hypothesis Hfl : 0 <= fl < 2 ^ 31.

(** The four bytes of the header that depend on the arguments. *)

Lemma header_byte2 :
  JS.u8 (JS.to_u8 (JS.or (JS.or (JS.shl (JS.and p 3) 6) (JS.shl (JS.and s 15) 2))
                         (JS.and (JS.sar c 2) 1)))
  = p * 64 + s * 4 + c / 4.
Proof.
  rewrite and_3, and_15, (sar_quot c 2 4), and_1 by lia.
  rewrite (shl_mul (p mod 4) 6 64), (shl_mul (s mod 16) 2 4) by (try reflexivity; arith).
  rewrite (or_add (p mod 4 * 64) (s mod 16 * 4) 6) by arith.
  rewrite (or_add _ (c / 4 mod 2) 2) by arith.
  rewrite u8_to_u8 by arith. arith.
Qed.

Lemma header_byte3 :
  JS.u8 (JS.to_u8 (JS.or (JS.shl (JS.and c 3) 6) (JS.and (JS.sar fl 11) 3)))
  = c mod 4 * 64 + fl / 2048 mod 4.
Proof.
  rewrite and_3, (sar_quot fl 11 2048), and_3 by lia.
  rewrite (shl_mul (c mod 4) 6 64) by (try reflexivity; arith).
  rewrite (or_add (c mod 4 * 64) _ 6) by arith.
  rewrite u8_to_u8 by arith. reflexivity.
Qed.

Lemma header_byte4 :
  JS.u8 (JS.to_u8 (JS.and (JS.sar fl 3) 255)) = fl / 8 mod 256.
Proof.
  rewrite (sar_quot fl 3 8), and_255 by lia.
  rewrite u8_to_u8 by arith. reflexivity.
Qed.

Lemma header_byte5 :
  JS.u8 (JS.to_u8 (JS.or (JS.shl (JS.and fl 7) 5) 31)) = fl mod 8 * 32 + 31.
Proof.
  rewrite and_7.
  rewrite (shl_mul (fl mod 8) 5 32) by (try reflexivity; arith).
  rewrite (or_add (fl mod 8 * 32) 31 5) by arith.
  rewrite u8_to_u8 by arith. reflexivity.
Qed.

(** The fields the parser takes out of these bytes. *)

Local Abbreviation b2 := (p * 64 + s * 4 + c / 4).
Local Abbreviation b3 := (c mod 4 * 64 + fl / 2048 mod 4).
Local Abbreviation b4 := (fl / 8 mod 256).
Local Abbreviation b5 := (fl mod 8 * 32 + 31).

Lemma field_profile : JS.and (JS.sar b2 6) 3 = p.
Proof. rewrite (sar_quot _ 6 64), and_3 by arith. arith. Qed.

Lemma field_index : JS.and (JS.sar b2 2) 15 = s.
Proof. rewrite (sar_quot _ 2 4), and_15 by arith. arith. Qed.

Lemma field_private : JS.and (JS.sar b2 1) 1 = 0.
Proof. rewrite (sar_quot _ 1 2), and_1 by arith. arith. Qed.

Lemma field_channels : JS.or (JS.shl (JS.and b2 1) 2) (JS.and (JS.sar b3 6) 3) = c.
Proof.
  rewrite and_1, (sar_quot _ 6 64), and_3 by arith.
  rewrite (shl_mul _ 2 4) by (try reflexivity; arith).
  rewrite (or_add _ _ 2) by arith. arith.
Qed.

Lemma field_flag k m :
  (k = 5 /\ m = 32) \/ (k = 4 /\ m = 16) \/ (k = 3 /\ m = 8) \/ (k = 2 /\ m = 4) ->
  JS.and (JS.sar b3 k) 1 = 0.
Proof.
  intros H.
  rewrite (sar_quot _ k m), and_1;
    [ | lia | intuition (subst; reflexivity) | arith ].
  destruct H as [[-> ->]|[[-> ->]|[[-> ->]|[-> ->]]]]; arith.
Qed.

Lemma field_length :
  JS.or (JS.or (JS.shl (JS.and b3 3) 11) (JS.shl b4 3)) (JS.and (JS.sar b5 5) 7)
  = fl mod 8192.
Proof.
  rewrite and_3, (sar_quot _ 5 32), and_7 by arith.
  rewrite (shl_mul _ 11 2048), (shl_mul _ 3 8) by (try reflexivity; arith).
  rewrite (or_add _ (fl / 8 mod 256 * 8) 11) by arith.
  rewrite (or_add _ _ 3) by arith. arith.
Qed.

Lemma field_fullness : JS.or (JS.shl (JS.and b5 31) 6) (JS.and (JS.sar 252 2) 63) = 2047.
Proof.
  rewrite and_31.
  replace ((fl mod 8 * 32 + 31) mod 32) with 31 by arith. reflexivity.
Qed.

(** The header built for a frame, read back: every field is the one that
    was given, the length modulo 2^13, and a length field below 7 is
    rejected. *)
Lemma parse_created rest :
  s <= 12 ->
  parseAdtsHeader (createAdtsHeader p s c fl ++ rest) 0
  = if fl mod 8192 <? 7 then None
    else Some {| syncWord := 0xFFF; id := 0; layer := 0; protectionAbsent := true;
                 profile := p; samplingFrequencyIndex := s; privateBit := false;
                 channelConfiguration := c; originalCopy := false; home := false;
                 copyrightIdBit := false; copyrightIdStart := false;
                 frameLength := fl mod 8192; bufferFullness := 0x7FF;
                 numberOfRawDataBlocksInFrame := 0; crcCheck := None |}.
Proof.
  intros Hs'. unfold parseAdtsHeader, createAdtsHeader.
  cbn [map app].
  set (h2 := JS.to_u8 (JS.or (JS.or _ _) _)).
  set (h3 := JS.to_u8 (JS.or (JS.shl (JS.and c 3) 6) _)).
  set (h4 := JS.to_u8 (JS.and _ 255)).
  set (h5 := JS.to_u8 (JS.or _ 31)).
  set (d := JS.to_u8 255 :: JS.to_u8 241 :: h2 :: h3 :: h4 :: h5 :: JS.to_u8 252 :: rest).
  assert (L : (0 + 7 >? JS.len d) = false).
  { rewrite Z.gtb_ltb. apply Z.ltb_ge. unfold JS.len, d. cbn [Datatypes.length]. lia. }
  rewrite L. clear L.
  change (JS.elem d 0) with (Some 255).
  change (JS.int (JS.elem d (0 + 1))) with 241.
  change (JS.int (JS.elem d (0 + 2))) with (JS.u8 h2).
  change (JS.int (JS.elem d (0 + 3))) with (JS.u8 h3).
  change (JS.int (JS.elem d (0 + 4))) with (JS.u8 h4).
  change (JS.int (JS.elem d (0 + 5))) with (JS.u8 h5).
  change (JS.int (JS.elem d (0 + 6))) with 252.
  subst h2 h3 h4 h5.
  rewrite header_byte2, header_byte3, header_byte4, header_byte5.
  rewrite field_profile, field_index, field_private, field_channels, field_length,
    field_fullness.
  rewrite (field_flag 5 32), (field_flag 4 16), (field_flag 3 8), (field_flag 2 4) by tauto.
  change (negb (JS.seq (Some 255) 255) || negb (JS.and 241 240 =? 240)) with false.
  change (negb (JS.and (JS.sar 241 1) 3 =? 0)) with false.
  cbv iota.
  replace (s >? 12) with false by (symmetry; rewrite Z.gtb_ltb; apply Z.ltb_ge; lia).
  change (JS.and 241 1 =? 1) with true. change (0 =? 1) with false.
  cbn [negb andb].
  destruct (fl mod 8192 <? 7); reflexivity.
Qed.

End AdtsRoundTrip.

(** * FLAC: the STREAMINFO block the muxer writes, read by the parser *)

Section StreamInfoRoundTrip.

Import Flac.

Lemma totalSamples_count x :
  FlacMuxer.totalSamples x = 4096 * Z.of_nat (List.length (FlacMuxer.packets x)).
Proof.
  unfold FlacMuxer.totalSamples.
  enough (G : forall (l : list (list byte)) a,
             fold_left (fun total _ => total + 4096) l a
             = a + 4096 * Z.of_nat (List.length l)) by (rewrite G; lia).
  induction l as [|p l IH]; intros a; cbn [fold_left List.length].
  - lia.
  - rewrite IH. lia.
Qed.

Variables sr ch bits ts : Z.
Hypothesis Hsr : 0 <= sr < 2 ^ 20.
Hypothesis Hch : 1 <= ch <= 8.
Hypothesis Hbits : 1 <= bits <= 32.
Hypothesis Hts : 0 <= ts < 2 ^ 36.

(** The bytes 10 to 13 of the block. *)

Lemma info_byte10 : JS.u8 (JS.to_u8 (JS.and (JS.sar sr 12) 255)) = sr / 4096.
Proof.
  rewrite (sar_quot sr 12 4096), and_255 by lia. rewrite u8_to_u8 by arith. arith.
Qed.

Lemma info_byte11 : JS.u8 (JS.to_u8 (JS.and (JS.sar sr 4) 255)) = sr / 16 mod 256.
Proof.
  rewrite (sar_quot sr 4 16), and_255 by lia. rewrite u8_to_u8 by arith. reflexivity.
Qed.

Lemma info_byte12 :
  JS.u8 (JS.to_u8 (JS.or (JS.or (JS.shl (JS.and sr 15) 4) (JS.shl (ch - 1) 1))
                         (JS.sar (bits - 1) 4)))
  = sr mod 16 * 16 + (ch - 1) * 2 + (bits - 1) / 16.
Proof.
  rewrite and_15, (sar_quot (bits - 1) 4 16) by lia.
  rewrite (shl_mul (sr mod 16) 4 16), (shl_mul (ch - 1) 1 2) by (try reflexivity; arith).
  rewrite (or_add (sr mod 16 * 16) ((ch - 1) * 2) 4) by arith.
  rewrite (or_add _ ((bits - 1) / 16) 1) by arith.
  rewrite u8_to_u8 by arith. reflexivity.
Qed.

Lemma info_byte13 :
  JS.u8 (JS.to_u8 (JS.or (JS.shl (JS.and (bits - 1) 15) 4)
                         (Z.land (Z.shiftr ts 32) 15)))
  = (bits - 1) mod 16 * 16 + ts / 2 ^ 32.
Proof.
  rewrite and_15. change 15 with (Z.ones 4).
  rewrite Z.land_ones, Z.shiftr_div_pow2 by lia.
  rewrite (shl_mul ((bits - 1) mod 16) 4 16) by (try reflexivity; arith).
  rewrite (or_add _ _ 4) by arith.
  rewrite u8_to_u8 by arith. arith.
Qed.

Local Abbreviation b10 := (sr / 4096).
Local Abbreviation b11 := (sr / 16 mod 256).
Local Abbreviation b12 := (sr mod 16 * 16 + (ch - 1) * 2 + (bits - 1) / 16).
Local Abbreviation b13 := ((bits - 1) mod 16 * 16 + ts / 2 ^ 32).

(** What the parser makes of them. *)

Lemma info_sampleRate : JS.or (JS.or (JS.shl b10 12) (JS.shl b11 4)) (JS.sar b12 4) = sr.
Proof.
  rewrite (sar_quot _ 4 16) by arith.
  rewrite (shl_mul _ 12 4096), (shl_mul _ 4 16) by (try reflexivity; arith).
  rewrite (or_add _ (sr / 16 mod 256 * 16) 12) by arith.
  rewrite (or_add _ _ 4) by arith. arith.
Qed.

Lemma info_channels : JS.and (JS.sar b12 1) 7 + 1 = ch.
Proof. rewrite (sar_quot _ 1 2), and_7 by arith. arith. Qed.

Lemma info_bits :
  JS.or (JS.shl (JS.and b12 1) 4) (JS.sar b13 4 + 1) = if bits =? 32 then 16 else bits.
Proof.
  rewrite and_1, (sar_quot _ 4 16) by arith.
  rewrite (shl_mul _ 4 16) by (try reflexivity; arith).
  replace ((sr mod 16 * 16 + (ch - 1) * 2 + (bits - 1) / 16) mod 2)
    with ((bits - 1) / 16) by arith.
  replace (((bits - 1) mod 16 * 16 + ts / 2 ^ 32) / 16) with ((bits - 1) mod 16) by arith.
  destruct (Z.eqb_spec bits 32) as [->|N]; [ reflexivity | ].
  destruct (Z.eq_dec bits 16) as [->|N']; [ reflexivity | ].
  rewrite (or_add _ _ 4) by arith. arith.
Qed.

Lemma info_high : JS.and b13 15 = ts / 2 ^ 32.
Proof. rewrite and_15. arith. Qed.

Lemma info_low :
  forall l, l = Z.land ts 4294967295 ->
  JS.shr (JS.or (JS.or (JS.or (JS.shl (JS.u8 (JS.to_u8 (l / 256 ^ 3))) 24)
                              (JS.shl (JS.u8 (JS.to_u8 (l / 256 ^ 2))) 16))
                       (JS.shl (JS.u8 (JS.to_u8 (l / 256 ^ 1))) 8))
                (JS.u8 (JS.to_u8 (l / 256 ^ 0)))) 0
  = ts mod 2 ^ 32.
Proof.
  intros l El. rewrite !u8_to_u8_mod.
  rewrite be4 by (apply Z.mod_pos_bound; lia).
  subst l. change 4294967295 with (Z.ones 32). rewrite Z.land_ones by lia.
  change (256 ^ 3) with 16777216. change (256 ^ 2) with 65536.
  change (256 ^ 1) with 256. change (256 ^ 0) with 1.
  arith.
Qed.

Lemma info_total : Z.lor (Z.shiftl (ts / 2 ^ 32) 32) (ts mod 2 ^ 32) = ts.
Proof.
  rewrite Z.shiftl_mul_pow2 by lia.
  rewrite (lor_add _ _ 32); [ arith | lia | apply Z.mod_pos_bound; lia | ].
  apply Z.mod_mul. lia.
Qed.

(** The block written for these fields parses to them; a depth of 32 bits
    comes back as 16. *)
Lemma parse_streamInfo ps :
  FlacMuxer.totalSamples (FlacMuxer.mk ps sr ch bits) = ts ->
  parseStreamInfo (FlacMuxer.streamInfo (FlacMuxer.mk ps sr ch bits))
  = Ok {| minBlockSize := 4096; maxBlockSize := 4096;
          minFrameSize := 0; maxFrameSize := 0;
          sampleRate := sr; channels := ch;
          bitsPerSample := if bits =? 32 then 16 else bits;
          totalSamples := ts;
          md5 := repeat x00 16 |}.
Proof.
  intros E. unfold FlacMuxer.streamInfo. rewrite E.
  cbn [FlacMuxer.sampleRate FlacMuxer.channels FlacMuxer.bitsPerSample].
  unfold DataView.setUint. cbn [DataView.digits map app repeat Z.of_nat].
  set (h10 := JS.to_u8 (JS.and (JS.sar sr 12) 255)).
  set (h11 := JS.to_u8 (JS.and (JS.sar sr 4) 255)).
  set (h12 := JS.to_u8 (JS.or (JS.or _ _) _)).
  set (h13 := JS.to_u8 (JS.or (JS.shl _ 4) _)).
  set (l := Z.land ts 4294967295).
  set (h14 := JS.to_u8 (l / _)). set (h15 := JS.to_u8 (l / _)).
  set (h16 := JS.to_u8 (l / _)). set (h17 := JS.to_u8 (l / _)).
  set (d := _ :: _).
  unfold parseStreamInfo.
  change (getUint16BE d 0) with (Ok (A := Z) 4096).
  change (getUint16BE d 2) with (Ok (A := Z) 4096).
  cbv iota beta zeta.
  change (at_ d 4) with 0. change (at_ d 5) with 0. change (at_ d 6) with 0.
  change (at_ d 7) with 0. change (at_ d 8) with 0. change (at_ d 9) with 0.
  change (at_ d 10) with (JS.u8 h10). change (at_ d 11) with (JS.u8 h11).
  change (at_ d 12) with (JS.u8 h12). change (at_ d 13) with (JS.u8 h13).
  change (at_ d 14) with (JS.u8 h14). change (at_ d 15) with (JS.u8 h15).
  change (at_ d 16) with (JS.u8 h16). change (at_ d 17) with (JS.u8 h17).
  change (JS.subarray d 18 34) with (repeat x00 16).
  subst h10 h11 h12 h13 h14 h15 h16 h17.
  rewrite info_byte10, info_byte11, info_byte12, info_byte13.
  rewrite info_sampleRate, info_channels, info_bits, info_high.
  subst l.
  change (Z.pos (Pos.of_succ_nat 2)) with 3. change (Z.pos (Pos.of_succ_nat 1)) with 2.
  change (Z.pos (Pos.of_succ_nat 0)) with 1.
  rewrite (info_low _ eq_refl), info_total.
  reflexivity.
Qed.

End StreamInfoRoundTrip.

(** * WAV: [init] on a file with a 16-byte fmt chunk and a data chunk *)

Section Steps.

Lemma bind_ok {S A B} (c : M S A) (k : A -> M S B) s a s' :
  c s = (Ok a, s') -> bind c k s = k a s'.
Proof. intros E. unfold bind. rewrite E. reflexivity. Qed.

Lemma bind_throw {S A B} (c : M S A) (k : A -> M S B) s e s' :
  c s = (Throw e, s') -> bind c k s = (Throw e, s').
Proof. intros E. unfold bind. rewrite E. reflexivity. Qed.

End Steps.

Section WavInit.

Import Wav ReaderSpec.

Variable data : list byte.

(** A read through [this.reader] with the bytes there. *)
Lemma wav_read {A} (m : M Reader.t (option A)) n val p d :
  decodes m n val -> 0 <= p ->
  reachable data (reader d) -> Reader.position (reader d) = p ->
  p + n <= JS.len data ->
  exists r',
    on_reader m d = (Ok (Some (val (bytes_at data p n))), set_reader r' d)
    /\ reachable data r' /\ Reader.position r' = p + n.
Proof.
  intros D Hp Hr P F.
  destruct (read_at data m n val p D Hp (reader d) Hr P) as (r' & E & Hr' & P').
  replace (p + n <=? JS.len data) with true in * by (symmetry; apply Z.leb_le; lia).
  exists r'. unfold on_reader, zoom. rewrite E. auto.
Qed.

(** A read through [this.reader] past the end. *)
Lemma wav_read_end {A} (m : M Reader.t (option A)) n val p d :
  decodes m n val -> 0 <= p ->
  reachable data (reader d) -> Reader.position (reader d) = p ->
  p + n > JS.len data ->
  exists r',
    on_reader m d = (Ok None, set_reader r' d)
    /\ reachable data r' /\ Reader.position r' = p.
Proof.
  intros D Hp Hr P F.
  destruct (read_at data m n val p D Hp (reader d) Hr P) as (r' & E & Hr' & P').
  replace (p + n <=? JS.len data) with false in * by (symmetry; apply Z.leb_gt; lia).
  exists r'. unfold on_reader, zoom. rewrite E. auto.
Qed.

(** A read through [this.reader], wherever the cursor is. *)
Lemma wav_read_any {A} (m : M Reader.t (option A)) n val p d :
  decodes m n val -> 0 <= p ->
  reachable data (reader d) -> Reader.position (reader d) = p ->
  exists r',
    on_reader m d
    = (Ok (if p + n <=? JS.len data then Some (val (bytes_at data p n)) else None),
       set_reader r' d)
    /\ reachable data r'
    /\ Reader.position r' = (if p + n <=? JS.len data then p + n else p).
Proof.
  intros D Hp Hr P.
  destruct (read_at data m n val p D Hp (reader d) Hr P) as (r' & E & Hr' & P').
  exists r'. unfold on_reader, zoom. rewrite E. auto.
Qed.

Lemma wav_seek p d :
  reachable data (reader d) ->
  on_reader (Reader.seek p) d = (Ok tt, set_reader (Reader.set_position p (reader d)) d)
  /\ reachable data (Reader.set_position p (reader d)).
Proof.
  intros Hr. split; [ reflexivity | ].
  apply (reach_call data (Reader.seek p) (reader d) Hr). constructor.
Qed.

Lemma this_eq {S} (s : S) : this s = (Ok s, s).
Proof. reflexivity. Qed.

Lemma ret_eq {S A} (a : A) (s : S) : ret a s = (Ok a, s).
Proof. reflexivity. Qed.

Lemma pos_at d p : Reader.position (reader d) = p -> pos d = (Ok p, d).
Proof. intros <-. reflexivity. Qed.

Lemma tag_value off tag :
  Magic.tag_at data off tag ->
  DataView.be (bytes_at data off 4) = DataView.be (list_byte_of_string tag).
Proof. intros ->. reflexivity. Qed.

(** Without the RIFF or RF64 tag [init] stops at the first check. *)
Lemma init_no_riff :
  ~ Magic.tag_at data 0 "RIFF" -> ~ Magic.tag_at data 0 "RF64" ->
  fst (init (new (BufferSource data))) = Throw "Invalid WAV file: missing RIFF/RF64 header".
Proof.
  intros N1 N2.
  unfold init, new.
  set (d0 := with_reader (Reader.new (BufferSource data))).
  rewrite (bind_ok _ _ _ _ _ (this_eq d0)).
  change (_initialized d0) with false. cbv iota.
  rewrite (bind_ok _ _ _ _ _ (eq_refl : modify (set_initialized true) d0 = (Ok tt, _))).
  set (d1 := set_initialized true d0).
  assert (Hr0 : reachable data (reader d1)) by apply reach_new.
  destruct (wav_seek 0 d1 Hr0) as (E & Hr1).
  rewrite (bind_ok _ _ _ _ _ E). clear E.
  set (d2 := set_reader _ d1).
  destruct (wav_read_any _ 4 _ 0 d2 decodes_readU32BE ltac:(lia) Hr1 eq_refl)
    as (r2 & E & Hr2 & P2).
  rewrite (bind_ok _ _ _ _ _ E). clear E.
  unfold eqc.
  destruct (JS.seq _ RF64_MAGIC) eqn:F1.
  { exfalso. apply N2. apply (seq_tag data 0 "RF64" RF64_MAGIC); auto. lia. }
  destruct (JS.seq _ RIFF_MAGIC) eqn:F2.
  { exfalso. apply N1. apply (seq_tag data 0 "RIFF" RIFF_MAGIC); auto. lia. }
  reflexivity.
Qed.

(** With the RIFF tag but without WAVE at offset 8 it stops at the second. *)
Lemma init_no_wave :
  Magic.tag_at data 0 "RIFF" -> ~ Magic.tag_at data 8 "WAVE" ->
  fst (init (new (BufferSource data))) = Throw "Invalid WAV file: missing WAVE identifier".
Proof.
  intros T0 N.
  assert (L4 : 4 <= JS.len data).
  { destruct (Z_le_gt_dec 4 (JS.len data)) as [H|H]; [ exact H | exfalso ].
    pose proof (bytes_at_short data 0 4 ltac:(lia) ltac:(lia) ltac:(lia)) as S.
    unfold Magic.tag_at in T0. rewrite T0 in S. simpl in S. lia. }
  unfold init, new.
  set (d0 := with_reader (Reader.new (BufferSource data))).
  rewrite (bind_ok _ _ _ _ _ (this_eq d0)).
  change (_initialized d0) with false. cbv iota.
  rewrite (bind_ok _ _ _ _ _ (eq_refl : modify (set_initialized true) d0 = (Ok tt, _))).
  set (d1 := set_initialized true d0).
  assert (Hr0 : reachable data (reader d1)) by apply reach_new.
  destruct (wav_seek 0 d1 Hr0) as (E & Hr1).
  rewrite (bind_ok _ _ _ _ _ E). clear E.
  set (d2 := set_reader _ d1).
  destruct (wav_read _ 4 _ 0 d2 decodes_readU32BE ltac:(lia) Hr1 eq_refl ltac:(lia))
    as (r2 & E & Hr2 & P2).
  rewrite (bind_ok _ _ _ _ _ E). clear E.
  rewrite (tag_value 0 _ T0).
  change (eqc (Some (DataView.be (list_byte_of_string "RIFF"))) RF64_MAGIC) with false.
  change (eqc (Some (DataView.be (list_byte_of_string "RIFF"))) RIFF_MAGIC) with true.
  cbv iota. cbn [negb].
  rewrite (bind_ok _ _ _ _ _ (ret_eq tt _)).
  destruct (wav_read_any _ 4 _ (0 + 4) (set_reader r2 d2) decodes_readU32LE
              ltac:(lia) Hr2 P2) as (r3 & E & Hr3 & P3).
  rewrite (bind_ok _ _ _ _ _ E). clear E.
  destruct (0 + 4 + 4 <=? JS.len data) eqn:F8.
  - destruct (wav_read_any _ 4 _ 8 (set_reader r3 (set_reader r2 d2)) decodes_readU32BE
                ltac:(lia) Hr3 P3) as (r4 & E & Hr4 & P4).
    rewrite (bind_ok _ _ _ _ _ E). clear E.
    unfold eqc.
    destruct (JS.seq _ WAVE_MAGIC) eqn:F.
    { exfalso. apply N. apply (seq_tag data 8 "WAVE" WAVE_MAGIC); auto. lia. }
    reflexivity.
  - apply Z.leb_gt in F8.
    destruct (wav_read_end _ 4 _ 4 (set_reader r3 (set_reader r2 d2)) decodes_readU32BE
                ltac:(lia) Hr3 P3 ltac:(lia)) as (r4 & E & Hr4 & P4).
    rewrite (bind_ok _ _ _ _ _ E). clear E.
    reflexivity.
Qed.

Lemma fuel_of d : reachable data (reader d) -> source_fuel d = S (List.length data).
Proof.
  intros Hr. destruct (reachable_inv data _ Hr) as (E & _).
  unfold source_fuel. rewrite E. reflexivity.
Qed.

Hypothesis Hlen : 44 <= JS.len data.

(** The fmt chunk of 16 bytes at offset 20. *)
Lemma parseFmtChunk_16 d :
  reachable data (reader d) -> Reader.position (reader d) = 20 ->
  exists r',
    parseFmtChunk 16 d
    = (Ok tt, set_format (Some (WavLayout.stored_format data)) (set_reader r' d))
    /\ reachable data r' /\ Reader.position r' = 36.
Proof.
  intros Hr P. unfold parseFmtChunk.
  destruct (wav_read _ 2 _ 20 d decodes_readU16LE ltac:(lia) Hr P ltac:(lia))
    as (r1 & E1 & Hr1 & P1).
  rewrite (bind_ok _ _ _ _ _ E1). clear E1.
  destruct (wav_read _ 2 _ (20 + 2) (set_reader r1 d) decodes_readU16LE
              ltac:(lia) Hr1 P1 ltac:(lia)) as (r2 & E2 & Hr2 & P2).
  rewrite (bind_ok _ _ _ _ _ E2). clear E2.
  destruct (wav_read _ 4 _ (20 + 2 + 2) (set_reader r2 (set_reader r1 d)) decodes_readU32LE
              ltac:(lia) Hr2 P2 ltac:(lia)) as (r3 & E3 & Hr3 & P3).
  rewrite (bind_ok _ _ _ _ _ E3). clear E3.
  destruct (wav_read _ 4 _ (20 + 2 + 2 + 4) (set_reader r3 (set_reader r2 (set_reader r1 d)))
              decodes_readU32LE ltac:(lia) Hr3 P3 ltac:(lia)) as (r4 & E4 & Hr4 & P4).
  rewrite (bind_ok _ _ _ _ _ E4). clear E4.
  destruct (wav_read _ 2 _ (20 + 2 + 2 + 4 + 4)
              (set_reader r4 (set_reader r3 (set_reader r2 (set_reader r1 d))))
              decodes_readU16LE ltac:(lia) Hr4 P4 ltac:(lia)) as (r5 & E5 & Hr5 & P5).
  rewrite (bind_ok _ _ _ _ _ E5). clear E5.
  destruct (wav_read _ 2 _ (20 + 2 + 2 + 4 + 4 + 2)
              (set_reader r5 (set_reader r4 (set_reader r3 (set_reader r2 (set_reader r1 d)))))
              decodes_readU16LE ltac:(lia) Hr5 P5 ltac:(lia)) as (r6 & E6 & Hr6 & P6).
  rewrite (bind_ok _ _ _ _ _ E6). clear E6.
  exists r6. split; [ reflexivity | ]. split; [ exact Hr6 | lia ].
Qed.

Lemma placeholder_riff d c : isRf64 d = false -> placeholder d c = None.
Proof. intros E. unfold placeholder. rewrite E. reflexivity. Qed.

Variable riffSize : Z.
Hypothesis Hcan : WavLayout.canonical data riffSize.
Hypothesis Hsize : 28 < riffSize.

(** First turn of the chunk loop: the fmt chunk. *)
Lemma chunk_loop_fmt fuel info d :
  reachable data (reader d) -> Reader.position (reader d) = 12 -> isRf64 d = false ->
  exists r',
    chunk_loop (S fuel) (8 + riffSize) info d
    = chunk_loop fuel (8 + riffSize) info
        (set_format (Some (WavLayout.stored_format data)) (set_reader r' d))
    /\ reachable data r' /\ Reader.position r' = 36.
Proof.
  intros Hr P Rf.
  destruct Hcan as (_ & _ & _ & _ & T12 & S16 & _ & _).
  cbn [chunk_loop].
  rewrite (bind_ok _ _ _ _ _ (pos_at d 12 P)).
  replace (12 <? 8 + riffSize) with true by (symmetry; apply Z.ltb_lt; lia).
  destruct (wav_read _ 4 _ 12 d decodes_readU32BE ltac:(lia) Hr P ltac:(lia))
    as (r1 & E1 & Hr1 & P1).
  rewrite (bind_ok _ _ _ _ _ E1). clear E1.
  destruct (wav_read _ 4 _ (12 + 4) (set_reader r1 d) decodes_readU32LE
              ltac:(lia) Hr1 P1 ltac:(lia)) as (r2 & E2 & Hr2 & P2).
  rewrite (bind_ok _ _ _ _ _ E2). clear E2.
  rewrite (tag_value 12 _ T12).
  change (bytes_at data (12 + 4) 4) with (bytes_at data 16 4).
  unfold WavLayout.le_at in S16. rewrite S16.
  cbv iota.
  rewrite (bind_ok _ _ _ _ _ (this_eq _)).
  assert (Rf' : isRf64 (set_reader r2 (set_reader r1 d)) = false) by exact Rf.
  rewrite !(placeholder_riff _ _ Rf').
  assert (P2' : Reader.position (reader (set_reader r2 (set_reader r1 d))) = 20)
    by (cbn [reader set_reader]; lia).
  rewrite (bind_ok _ _ _ _ _ (pos_at _ 20 P2')).
  change (DataView.be (list_byte_of_string "fmt ") =? FMT_MAGIC) with true.
  cbv iota.
  destruct (parseFmtChunk_16 (set_reader r2 (set_reader r1 d)) Hr2 P2')
    as (r3 & E3 & Hr3 & P3).
  rewrite (bind_ok (parseFmtChunk 16 ;;; ret info) _ _ info _
             ltac:(rewrite (bind_ok _ _ _ _ _ E3); reflexivity)).
  clear E3.
  rewrite (bind_ok _ _ _ _ _
             (pos_at (set_format (Some (WavLayout.stored_format data))
                        (set_reader r3 (set_reader r2 (set_reader r1 d)))) 36 P3)).
  change (20 + 16 + Z.rem 16 2 >? 36) with false. cbv iota.
  rewrite (bind_ok _ _ _ _ _ (ret_eq tt _)).
  exists r3. split; [ reflexivity | ]. split; [ exact Hr3 | exact P3 ].
Qed.

(** Second turn: the data chunk; the cursor is moved to its end. *)
Lemma chunk_loop_data fuel info d :
  reachable data (reader d) -> Reader.position (reader d) = 36 -> isRf64 d = false ->
  exists r',
    chunk_loop (S fuel) (8 + riffSize) info d
    = chunk_loop fuel (8 + riffSize) info
        (set_dataChunk (Some {| chunk_id := DATA_MAGIC;
                                chunk_size := JS.len data - 44;
                                chunk_offset := 44 |}) (set_reader r' d))
    /\ reachable data r' /\ JS.len data <= Reader.position r'.
Proof.
  intros Hr P Rf.
  destruct Hcan as (_ & _ & _ & _ & _ & _ & T36 & S40).
  cbn [chunk_loop].
  rewrite (bind_ok _ _ _ _ _ (pos_at d 36 P)).
  replace (36 <? 8 + riffSize) with true by (symmetry; apply Z.ltb_lt; lia).
  destruct (wav_read _ 4 _ 36 d decodes_readU32BE ltac:(lia) Hr P ltac:(lia))
    as (r1 & E1 & Hr1 & P1).
  rewrite (bind_ok _ _ _ _ _ E1). clear E1.
  destruct (wav_read _ 4 _ (36 + 4) (set_reader r1 d) decodes_readU32LE
              ltac:(lia) Hr1 P1 ltac:(lia)) as (r2 & E2 & Hr2 & P2).
  rewrite (bind_ok _ _ _ _ _ E2). clear E2.
  rewrite (tag_value 36 _ T36).
  change (bytes_at data (36 + 4) 4) with (bytes_at data 40 4).
  unfold WavLayout.le_at in S40. rewrite S40.
  cbv iota.
  rewrite (bind_ok _ _ _ _ _ (this_eq _)).
  assert (Rf' : isRf64 (set_reader r2 (set_reader r1 d)) = false) by exact Rf.
  rewrite !(placeholder_riff _ _ Rf').
  assert (P2' : Reader.position (reader (set_reader r2 (set_reader r1 d))) = 44)
    by (cbn [reader set_reader]; lia).
  rewrite (bind_ok _ _ _ _ _ (pos_at _ 44 P2')).
  change (DataView.be (list_byte_of_string "data") =? FMT_MAGIC) with false.
  change (DataView.be (list_byte_of_string "data") =? DATA_MAGIC) with true.
  change (DataView.be (list_byte_of_string "data")) with DATA_MAGIC.
  cbv iota.
  set (dc := {| chunk_id := DATA_MAGIC; chunk_size := JS.len data - 44; chunk_offset := 44 |}).
  rewrite (bind_ok (modify (set_dataChunk (Some dc)) ;;; ret info) _ _ info
             (set_dataChunk (Some dc) (set_reader r2 (set_reader r1 d))) eq_refl).
  rewrite (bind_ok _ _ _ _ _
             (pos_at (set_dataChunk (Some dc) (set_reader r2 (set_reader r1 d))) 44 P2')).
  set (nextPos := 44 + (JS.len data - 44) + Z.rem (JS.len data - 44) 2).
  assert (R : 0 <= Z.rem (JS.len data - 44) 2) by (apply Z.rem_nonneg; lia).
  destruct (nextPos >? 44) eqn:G.
  - destruct (wav_seek nextPos (set_dataChunk (Some dc) (set_reader r2 (set_reader r1 d))) Hr2)
      as (E3 & Hr3).
    rewrite (bind_ok _ _ _ _ _ E3). clear E3.
    exists (Reader.set_position nextPos r2).
    split; [ reflexivity | ]. split; [ exact Hr3 | ].
    cbn [Reader.position Reader.set_position]. subst nextPos. lia.
  - rewrite (bind_ok _ _ _ _ _ (ret_eq tt _)).
    exists r2. split; [ reflexivity | ]. split; [ exact Hr2 | ].
    rewrite Z.gtb_ltb in G. apply Z.ltb_ge in G. subst nextPos. lia.
Qed.

(** A turn with the cursor at or past the end of the file leaves the
    loop. *)
Lemma chunk_loop_end fuel e info d :
  reachable data (reader d) -> JS.len data <= Reader.position (reader d) ->
  exists r',
    chunk_loop (S fuel) e info d = (Ok info, set_reader r' d) /\ reachable data r'.
Proof.
  intros Hr P. cbn [chunk_loop].
  rewrite (bind_ok _ _ _ _ _ (pos_at d _ eq_refl)).
  remember (Reader.position (reader d)) as p eqn:Ep. symmetry in Ep.
  assert (Hp : 0 <= p) by lia.
  assert (Hp4 : p + 4 > JS.len data) by lia.
  destruct (p <? e).
  - destruct (wav_read_end _ 4 _ p d decodes_readU32BE Hp Hr Ep Hp4)
      as (r1 & E1 & Hr1 & P1).
    rewrite (bind_ok _ _ _ _ _ E1). clear E1.
    destruct (wav_read_end _ 4 _ p (set_reader r1 d) decodes_readU32LE
                Hp Hr1 P1 Hp4) as (r2 & E2 & Hr2 & P2).
    rewrite (bind_ok _ _ _ _ _ E2). clear E2.
    exists r2. split; [ reflexivity | exact Hr2 ].
  - exists (reader d). split; [ destruct d; reflexivity | exact Hr ].
Qed.

(** [init] on the file: the format and the data chunk it finds, and the
    track and the times it derives from them. *)
Lemma init_canonical :
  let f := WavLayout.stored_format data in
  let dc := {| chunk_id := DATA_MAGIC; chunk_size := JS.len data - 44; chunk_offset := 44 |} in
  let bps := (JS.num (JS.int (bitsPerSample f)) / 8)%float in
  let total := (JS.num (chunk_size dc) / (bps * JS.num (JS.int (channels f))))%float in
  let track := {| at_id := 1; at_index := 0;
                  at_codec := formatCodeToCodec (formatCode f);
                  at_sampleRate := sampleRate f;
                  at_channels := channels f;
                  at_bitDepth := bitsPerSample f;
                  at_sampleFormat := formatToSampleFormat f;
                  at_bitrate := JS.int (byteRate f) * 8;
                  at_isDefault := true |} in
  exists r',
    init (new (BufferSource data))
    = (Ok tt, mk r' [track] (total / JS.num (JS.int (sampleRate f)))%float [] (Some f)
                 (Some dc) None false 44 bps 0 total true).
Proof.
  intros f dc bps total track.
  destruct Hcan as (_ & T0 & S4 & T8 & _).
  unfold init, new.
  set (d0 := with_reader (Reader.new (BufferSource data))).
  rewrite (bind_ok _ _ _ _ _ (this_eq d0)).
  change (_initialized d0) with false. cbv iota.
  rewrite (bind_ok _ _ _ _ _ (eq_refl : modify (set_initialized true) d0 = (Ok tt, _))).
  set (d1 := set_initialized true d0).
  assert (Hr0 : reachable data (reader d1)) by apply reach_new.
  destruct (wav_seek 0 d1 Hr0) as (E & Hr1).
  rewrite (bind_ok _ _ _ _ _ E). clear E.
  set (d2 := set_reader _ d1).
  destruct (wav_read _ 4 _ 0 d2 decodes_readU32BE ltac:(lia) Hr1 eq_refl ltac:(lia))
    as (r2 & E & Hr2 & P2).
  rewrite (bind_ok _ _ _ _ _ E). clear E.
  rewrite (tag_value 0 _ T0).
  change (eqc (Some (DataView.be (list_byte_of_string "RIFF"))) RF64_MAGIC) with false.
  change (eqc (Some (DataView.be (list_byte_of_string "RIFF"))) RIFF_MAGIC) with true.
  cbv iota. cbn [negb].
  rewrite (bind_ok _ _ _ _ _ (ret_eq tt _)).
  destruct (wav_read _ 4 _ (0 + 4) (set_reader r2 d2) decodes_readU32LE
              ltac:(lia) Hr2 P2 ltac:(lia)) as (r3 & E & Hr3 & P3).
  rewrite (bind_ok _ _ _ _ _ E). clear E.
  destruct (wav_read _ 4 _ (0 + 4 + 4) (set_reader r3 (set_reader r2 d2)) decodes_readU32BE
              ltac:(lia) Hr3 P3 ltac:(lia)) as (r4 & E & Hr4 & P4).
  rewrite (bind_ok _ _ _ _ _ E). clear E.
  change (bytes_at data (0 + 4 + 4) 4) with (bytes_at data 8 4).
  rewrite (tag_value 8 _ T8).
  change (eqc (Some (DataView.be (list_byte_of_string "WAVE"))) WAVE_MAGIC) with true.
  cbn [negb]. cbv iota.
  change (bytes_at data (0 + 4) 4) with (bytes_at data 4 4).
  unfold WavLayout.le_at in S4. rewrite S4.
  set (d3 := set_reader r4 (set_reader r3 (set_reader r2 d2))).
  rewrite (bind_ok _ _ _ _ _ (this_eq d3)).
  change (isRf64 d3) with false. cbv iota.
  rewrite (bind_ok _ _ _ _ _ (ret_eq _ _)).
  rewrite (bind_ok _ _ _ _ _ (this_eq d3)).
  change (isRf64 d3) with false. cbv iota.
  change (JS.int (Some riffSize)) with riffSize.
  rewrite (fuel_of d3 Hr4).
  assert (L : exists k, List.length data = S (S k)).
  { unfold JS.len in Hlen. exists (List.length data - 2)%nat. lia. }
  destruct L as (k & ->).
  assert (LOOP : exists r',
             chunk_loop (S (S (S k))) (8 + riffSize) [] d3
             = (Ok [], set_dataChunk (Some dc) (set_format (Some f) (set_reader r' d3)))
             /\ reachable data r').
  { subst f dc.
    destruct (chunk_loop_fmt (S (S k)) [] d3 Hr4 P4 eq_refl) as (r5 & E & Hr5 & P5).
    rewrite E. clear E.
    destruct (chunk_loop_data (S k) []
                (set_format (Some (WavLayout.stored_format data)) (set_reader r5 d3))
                Hr5 P5 eq_refl) as (r6 & E & Hr6 & P6).
    rewrite E. clear E.
    destruct (chunk_loop_end k (8 + riffSize) []
                (set_dataChunk
                   (Some {| chunk_id := DATA_MAGIC; chunk_size := JS.len data - 44;
                            chunk_offset := 44 |})
                   (set_reader r6
                      (set_format (Some (WavLayout.stored_format data)) (set_reader r5 d3))))
                Hr6 P6) as (r7 & E & Hr7).
    rewrite E. clear E.
    exists r7. split; [ reflexivity | exact Hr7 ]. }
  destruct LOOP as (r5 & E & Hr5).
  rewrite (bind_ok _ _ _ _ _ E). clear E.
  exists r5. reflexivity.
Qed.

End WavInit.

(** * What the muxers write, read back *)

Section Segments.

Import ReaderSpec.

(** The bytes at an offset past a first segment are those of the rest. *)
Lemma bytes_at_skip (seg rest : list byte) p n k q :
  JS.len seg = k -> p = k + q -> 0 <= q ->
  bytes_at (seg ++ rest) p n = bytes_at rest q n.
Proof.
  intros L -> Hq. unfold bytes_at, JS.len in *.
  replace (Z.to_nat (k + q)) with (List.length seg + Z.to_nat q)%nat by lia.
  rewrite skipn_app, skipn_all2 by lia.
  replace (List.length seg + Z.to_nat q - List.length seg)%nat with (Z.to_nat q) by lia.
  reflexivity.
Qed.

(** The first segment. *)
Lemma bytes_at_here (seg rest : list byte) n :
  JS.len seg = n -> bytes_at (seg ++ rest) 0 n = seg.
Proof.
  intros L. unfold bytes_at, JS.len in *. cbn [Z.to_nat skipn].
  rewrite <- L, Nat2Z.id, firstn_app, Nat.sub_diag, firstn_all. cbn [firstn].
  apply app_nil_r.
Qed.

Lemma len_setUint n (e : bool) v : JS.len (DataView.setUint n e v) = Z.of_nat n.
Proof. unfold JS.len. now rewrite setUint_length. Qed.

Lemma len_app (a b : list byte) : JS.len (a ++ b) = JS.len a + JS.len b.
Proof. unfold JS.len. rewrite length_app. lia. Qed.

Lemma len_concat (l : list (list byte)) :
  fold_left (fun sum data => sum + JS.len data) l 0 = JS.len (List.concat l).
Proof.
  enough (G : forall a, fold_left (fun sum data => sum + JS.len data) l a
                        = a + JS.len (List.concat l)) by (rewrite G; lia).
  induction l as [| x l IH]; intros a; cbn [fold_left List.concat].
  - unfold JS.len. cbn. lia.
  - rewrite IH, len_app. lia.
Qed.

End Segments.

Ltac seg_len :=
  first [ apply len_setUint | reflexivity ].

Ltac peel k :=
  match goal with
  | |- context [ReaderSpec.bytes_at (?seg ++ ?rest) ?p ?n] =>
      let q := eval compute in (p - k) in
      rewrite (bytes_at_skip seg rest p n k q) by (first [ seg_len | lia ])
  end.

Section WavFile.

Import ReaderSpec WavLayout.

Variables (sz ds : Z) (f1 f2 f3 f4 f5 f6 payload : list byte).
Hypothesis L1 : JS.len f1 = 2.
Hypothesis L2 : JS.len f2 = 2.
Hypothesis L3 : JS.len f3 = 4.
Hypothesis L4 : JS.len f4 = 4.
Hypothesis L5 : JS.len f5 = 2.
Hypothesis L6 : JS.len f6 = 2.

Local Abbreviation file :=
  (Writer.fourCC (JS.lit "RIFF") ++ DataView.setUint 4 true sz ++ Writer.fourCC (JS.lit "WAVE")
   ++ Writer.fourCC (JS.lit "fmt ") ++ DataView.setUint 4 true 16
   ++ f1 ++ f2 ++ f3 ++ f4 ++ f5 ++ f6
   ++ Writer.fourCC (JS.lit "data") ++ DataView.setUint 4 true ds ++ payload).

Lemma file_len : JS.len file = 44 + JS.len payload.
Proof.
  rewrite !len_app, !len_setUint, L1, L2, L3, L4, L5, L6.
  change (JS.len (Writer.fourCC (JS.lit "RIFF"))) with 4.
  change (JS.len (Writer.fourCC (JS.lit "WAVE"))) with 4.
  change (JS.len (Writer.fourCC (JS.lit "fmt "))) with 4.
  change (JS.len (Writer.fourCC (JS.lit "data"))) with 4.
  lia.
Qed.

Lemma file_riff : Magic.tag_at file 0 "RIFF".
Proof. unfold Magic.tag_at. rewrite bytes_at_here; reflexivity. Qed.

Lemma file_wave : Magic.tag_at file 8 "WAVE".
Proof.
  unfold Magic.tag_at. peel 4. peel 4. rewrite bytes_at_here; reflexivity.
Qed.

Lemma file_canonical :
  ds mod 2 ^ 32 = JS.len payload ->
  canonical file (sz mod 2 ^ 32).
Proof.
  intros Hds. unfold canonical, le_at.
  split; [ rewrite file_len; unfold JS.len; lia | ].
  split; [ exact file_riff | ].
  split.
  { peel 4. rewrite bytes_at_here by seg_len.
    rewrite (value_setUint 4 true). apply value_digits4. }
  split; [ exact file_wave | ].
  split.
  { unfold Magic.tag_at. do 3 peel 4. rewrite bytes_at_here; reflexivity. }
  split.
  { do 4 peel 4. rewrite bytes_at_here by seg_len. reflexivity. }
  split.
  { unfold Magic.tag_at. do 5 peel 4. peel 2. peel 2. peel 4. peel 4. peel 2. peel 2.
    rewrite bytes_at_here; reflexivity. }
  rewrite file_len.
  do 5 peel 4. peel 2. peel 2. peel 4. peel 4. peel 2. peel 2. peel 4.
  rewrite bytes_at_here by seg_len.
  rewrite (value_setUint 4 true), value_digits4. lia.
Qed.

Lemma file_format :
  stored_format file
  = {| Wav.formatCode := Some (DataView.le f1);
       Wav.channels := Some (DataView.le f2);
       Wav.sampleRate := Some (DataView.le f3);
       Wav.byteRate := Some (DataView.le f4);
       Wav.blockAlign := Some (DataView.le f5);
       Wav.bitsPerSample := Some (DataView.le f6);
       Wav.validBitsPerSample := None;
       Wav.channelMask := None;
       Wav.subFormat := None |}.
Proof.
  unfold stored_format, le_at.
  repeat f_equal.
  - do 5 peel 4. rewrite bytes_at_here by assumption. reflexivity.
  - do 5 peel 4. peel 2. rewrite bytes_at_here by assumption. reflexivity.
  - do 5 peel 4. peel 2. peel 2. rewrite bytes_at_here by assumption. reflexivity.
  - do 5 peel 4. peel 2. peel 2. peel 4. rewrite bytes_at_here by assumption. reflexivity.
  - do 5 peel 4. peel 2. peel 2. peel 4. peel 4.
    rewrite bytes_at_here by assumption. reflexivity.
  - do 5 peel 4. peel 2. peel 2. peel 4. peel 4. peel 2.
    rewrite bytes_at_here by assumption. reflexivity.
Qed.

Lemma file_payload : bytes_at file 44 (JS.len payload) = payload.
Proof.
  do 5 peel 4. peel 2. peel 2. peel 4. peel 4. peel 2. peel 2. peel 4. peel 4.
  apply bytes_at_all.
Qed.

End WavFile.

Section WavRoundTrip.

Import ReaderSpec WavLayout.

Variable cfg : AudioTrackConfig.
Variable ps : list EncodedPacket.

Local Abbreviation x := (Session.wav_fields cfg ps).
Local Abbreviation payload := (List.concat (map pkt_data ps)).

Lemma wav_total : WavMuxer.totalDataSize x = JS.len payload.
Proof. unfold WavMuxer.totalDataSize. apply len_concat. Qed.

Lemma len_pair a b : JS.len (map JS.to_u8 [a; b]) = 2.
Proof. reflexivity. Qed.

(** The file a WAV session writes is found to be a WAV file, whatever the
    track and the packets. *)
Lemma wav_session_detected fs :
  incl fs Input.registry -> In Input.WAV fs ->
  exists out,
    fst (Session.run cfg ps (WavMuxer.new BufferTarget)) = Ok out
    /\ Input.detectFormat fs (BufferSource out) = Ok (Some Input.WAV).
Proof.
  intros Hfs Hin.
  eexists. split; [ apply wav_session | ].
  apply detect_the_accepting; [ exact Hfs | exact Hin | ].
  match goal with
  | |- Input.canRead _ (BufferSource ?d) = _ =>
      destruct (Wav_canRead_tags d) as (b & E & [_ H])
  end.
  change (Input.canRead Input.WAV ?s) with (Input.Wav_canRead s).
  rewrite E. f_equal. apply H. split.
  - left. apply file_riff.
  - apply file_wave.
Qed.

(** Demuxing what the muxer wrote: the format fields are those of the
    track, modulo the width of their fields, and the data chunk is the
    packets' bytes. *)
Lemma wav_mux_demux :
  36 + JS.len payload < 2 ^ 32 ->
  exists out r',
    fst (Session.run cfg ps (WavMuxer.new BufferTarget)) = Ok out
    /\ bytes_at out 44 (JS.len payload) = payload
    /\ let f := {| Wav.formatCode := Some 1;
                   Wav.channels := Some (WavMuxer.channels x mod 2 ^ 16);
                   Wav.sampleRate := Some (WavMuxer.sampleRate x mod 2 ^ 32);
                   Wav.byteRate := Some (JS.trunc (WavMuxer.byteRate x) mod 2 ^ 32);
                   Wav.blockAlign := Some (JS.trunc (WavMuxer.blockAlign x) mod 2 ^ 16);
                   Wav.bitsPerSample := Some (WavMuxer.bitsPerSample x mod 2 ^ 16);
                   Wav.validBitsPerSample := None;
                   Wav.channelMask := None;
                   Wav.subFormat := None |} in
       let dc := {| Wav.chunk_id := Wav.DATA_MAGIC; Wav.chunk_size := JS.len payload;
                    Wav.chunk_offset := 44 |} in
       let bps := (JS.num (JS.int (Wav.bitsPerSample f)) / 8)%float in
       let total := (JS.num (Wav.chunk_size dc)
                     / (bps * JS.num (JS.int (Wav.channels f))))%float in
       let track := {| Wav.at_id := 1; Wav.at_index := 0;
                       Wav.at_codec := "pcm";
                       Wav.at_sampleRate := Wav.sampleRate f;
                       Wav.at_channels := Wav.channels f;
                       Wav.at_bitDepth := Wav.bitsPerSample f;
                       Wav.at_sampleFormat := Wav.formatToSampleFormat f;
                       Wav.at_bitrate := JS.int (Wav.byteRate f) * 8;
                       Wav.at_isDefault := true |} in
       Wav.init (Wav.new (BufferSource out))
       = (Ok tt, Wav.mk r' [track] (total / JS.num (JS.int (Wav.sampleRate f)))%float []
                        (Some f) (Some dc) None false 44 bps 0 total true).
Proof.
  intros Hsize.
  assert (Hp : 0 <= JS.len payload) by (unfold JS.len; lia).
  pose proof (wav_session cfg ps) as Hs. cbv zeta in Hs.
  rewrite wav_total in Hs.
  match type of Hs with
  | _ = Ok (_ ++ _ ++ _ ++ _ ++ _ ++ ?f1 ++ ?f2 ++ ?f3 ++ ?f4 ++ ?f5 ++ ?f6 ++ _) =>
      pose proof (file_canonical (36 + JS.len payload) (JS.len payload)
                    f1 f2 f3 f4 f5 f6 payload
                    (len_pair _ _) (len_pair _ _) (len_setUint _ _ _) (len_setUint _ _ _)
                    (len_pair _ _) (len_pair _ _)
                    ltac:(apply Z.mod_small; lia)) as Hcan;
      pose proof (file_format (36 + JS.len payload) (JS.len payload)
                    f1 f2 f3 f4 f5 f6 payload
                    (len_pair _ _) (len_pair _ _) (len_setUint _ _ _) (len_setUint _ _ _)
                    (len_pair _ _) (len_pair _ _)) as Hfmt;
      pose proof (file_payload (36 + JS.len payload) (JS.len payload)
                    f1 f2 f3 f4 f5 f6 payload
                    (len_pair _ _) (len_pair _ _) (len_setUint _ _ _) (len_setUint _ _ _)
                    (len_pair _ _) (len_pair _ _)) as Hpay;
      pose proof (file_len (36 + JS.len payload) (JS.len payload)
                    f1 f2 f3 f4 f5 f6 payload
                    (len_pair _ _) (len_pair _ _) (len_setUint _ _ _) (len_setUint _ _ _)
                    (len_pair _ _) (len_pair _ _)) as Hlen
  end.
  rewrite !value_U16LE, !(value_setUint 4 true), !value_digits4 in Hfmt.
  match type of Hs with _ = Ok ?o => set (out := o) in * end.
  destruct (init_canonical out ltac:(lia) ((36 + JS.len payload) mod 2 ^ 32) Hcan
              ltac:(rewrite Z.mod_small by lia; lia)) as (r' & E).
  exists out, r'. split; [ exact Hs | ]. split; [ exact Hpay | ].
  cbv zeta. rewrite E, Hfmt, Hlen.
  replace (44 + JS.len payload - 44) with (JS.len payload) by lia.
  reflexivity.
Qed.

End WavRoundTrip.

Section FlacRoundTrip.

Import ReaderSpec.

Variable cfg : AudioTrackConfig.
Variable ps : list EncodedPacket.

Local Abbreviation x := (Session.flac_fields cfg ps).

Lemma streamInfo_len : JS.len (FlacMuxer.streamInfo x) = 34.
Proof. reflexivity. Qed.

(** The file a FLAC session writes is found to be a FLAC file. *)
Lemma flac_session_detected fs :
  incl fs Input.registry -> In Input.FLAC fs ->
  exists out,
    fst (Session.run cfg ps (FlacMuxer.new BufferTarget)) = Ok out
    /\ Input.detectFormat fs (BufferSource out) = Ok (Some Input.FLAC).
Proof.
  intros Hfs Hin.
  eexists. split; [ apply flac_session | ].
  apply detect_the_accepting; [ exact Hfs | exact Hin | ].
  match goal with
  | |- Input.canRead _ (BufferSource ?d) = _ =>
      destruct (Flac_canRead_tag d) as (b & E & [_ H])
  end.
  change (Input.canRead Input.FLAC ?s) with (Input.Flac_canRead s).
  rewrite E. f_equal. apply H.
  unfold Magic.tag_at. rewrite bytes_at_here; reflexivity.
Qed.

(** The STREAMINFO block of that file, after the tag and the block header,
    parses to the fields of the track. *)
Lemma flac_mux_parse :
  0 <= FlacMuxer.sampleRate x < 2 ^ 20 ->
  1 <= FlacMuxer.channels x <= 8 ->
  1 <= FlacMuxer.bitsPerSample x <= 32 ->
  Z.of_nat (List.length ps) < 2 ^ 24 ->
  exists out,
    fst (Session.run cfg ps (FlacMuxer.new BufferTarget)) = Ok out
    /\ bytes_at out 4 4 = map JS.to_u8 [0x80; 0; 0; 34]
    /\ Flac.parseStreamInfo (bytes_at out 8 34)
       = Ok {| Flac.minBlockSize := 4096; Flac.maxBlockSize := 4096;
               Flac.minFrameSize := 0; Flac.maxFrameSize := 0;
               Flac.sampleRate := FlacMuxer.sampleRate x;
               Flac.channels := FlacMuxer.channels x;
               Flac.bitsPerSample := if FlacMuxer.bitsPerSample x =? 32 then 16
                                     else FlacMuxer.bitsPerSample x;
               Flac.totalSamples := 4096 * Z.of_nat (List.length ps);
               Flac.md5 := repeat x00 16 |}
    /\ bytes_at out 42 (JS.len (List.concat (map pkt_data ps)))
       = List.concat (map pkt_data ps).
Proof.
  intros Hsr Hch Hbits Hn.
  eexists. split; [ apply flac_session | ]. split; [ | split ].
  - peel 4. rewrite bytes_at_here; reflexivity.
  - peel 4. peel 4. rewrite bytes_at_here by apply streamInfo_len.
    apply parse_streamInfo; try assumption.
    + lia.
    + rewrite totalSamples_count. cbn [FlacMuxer.packets Session.flac_fields].
      rewrite length_map. reflexivity.
  - peel 4. peel 4.
    rewrite (bytes_at_skip _ _ 34 _ 34 0) by (first [ apply streamInfo_len | lia ]).
    apply bytes_at_all.
Qed.

End FlacRoundTrip.

Section AacRoundTrip.

Import ReaderSpec.

Variable cfg : AudioTrackConfig.



(** A session whose first packet has no sync bits writes a file that is
    found to be AAC. *)
Lemma aac_session_detected fs p ps :
  incl fs Input.registry -> In Input.AAC fs ->
  Aac.hasAdtsHeader (pkt_data p) = false ->
  exists out,
    fst (Session.run cfg (p :: ps) (Aac.new BufferTarget)) = Ok out
    /\ Input.detectFormat fs (BufferSource out) = Ok (Some Input.AAC).
Proof.
  intros Hfs Hin Hraw.
  eexists. split; [ apply aac_session | ].
  apply detect_the_accepting; [ exact Hfs | exact Hin | ].
  match goal with
  | |- Input.canRead _ (BufferSource ?d) = _ =>
      destruct (Aac_canRead_sync d) as (b & E & [_ H])
  end.
  change (Input.canRead Input.AAC ?s) with (Input.Aac_canRead s).
  rewrite E. f_equal. apply H.
  cbn [map List.concat]. unfold Session.adts_frame. rewrite Hraw.
  unfold Aac.createAdtsHeader. cbn [map app].
  split.
  - unfold JS.len. cbn [List.length]. lia.
  - split; reflexivity.
Qed.

End AacRoundTrip.

(** * Signed integers and tags through the writer and the reader *)

Ltac rt D :=
  match goal with
  | |- Codec.roundtrip (Writer.writeBytes ?l) _ = _ =>
      rewrite (roundtrip_bytes _ _ _ l D eq_refl)
  end.

Section SignedRoundTrip.

Import ReaderSpec.

(** A number in the signed range is the signed reading of its residue. *)
Lemma signed_mod n v :
  0 < n -> - 2 ^ (8 * n - 1) <= v < 2 ^ (8 * n - 1) ->
  DataView.signed n (v mod 2 ^ (8 * n)) = v.
Proof.
  intros Hn Hv. unfold DataView.signed.
  assert (P : 2 ^ (8 * n) = 2 * 2 ^ (8 * n - 1)).
  { rewrite <- Z.pow_succ_r by lia. f_equal. lia. }
  assert (Q : 0 < 2 ^ (8 * n - 1)) by (apply Z.pow_pos_nonneg; lia).
  destruct (Z_lt_ge_dec v 0) as [Neg | Pos].
  - replace (v mod 2 ^ (8 * n)) with (v + 2 ^ (8 * n)).
    + replace (v + 2 ^ (8 * n) >=? 2 ^ (8 * n - 1)) with true
        by (symmetry; apply Z.geb_le; lia).
      lia.
    + apply Z.mod_unique with (q := -1); lia.
  - rewrite Z.mod_small by lia.
    replace (v >=? 2 ^ (8 * n - 1)) with false; [ reflexivity | ].
    symmetry. rewrite Z.geb_leb. apply Z.leb_gt. lia.
Qed.

Lemma signed_roundtrip (n : nat) (e : bool) v :
  (0 < n)%nat ->
  - 2 ^ (8 * Z.of_nat n - 1) <= v < 2 ^ (8 * Z.of_nat n - 1) ->
  DataView.be (DataView.digits n v) = v mod 2 ^ (8 * Z.of_nat n) ->
  Codec.roundtrip (Writer.writeBytes (DataView.setUint n e v))
                  (Reader.through_view (Z.of_nat n) (DataView.getInt (Z.of_nat n) e))
  = Ok (Some v).
Proof.
  intros Hn Hv Hd.
  rewrite (roundtrip_bytes _ _ _ (DataView.setUint n e v)
             (decodes_getInt (Z.of_nat n) e ltac:(lia))
             ltac:(unfold JS.len; now rewrite setUint_length)).
  rewrite value_setUint, Hd, signed_mod by lia. reflexivity.
Qed.

End SignedRoundTrip.

(** * BitReader.peek *)

Section Peek.

Import Bits.

Lemma readBit_data r : BitReader.data (snd (BitReader.readBit r)) = BitReader.data r.
Proof.
  unfold BitReader.readBit.
  destruct (BitReader.bytePos r >=? JS.len (BitReader.data r)); [ reflexivity | ].
  destruct (BitReader.bitPos r + 1 =? 8); reflexivity.
Qed.

Lemma readBits_loop_data n : forall acc r,
  BitReader.data (snd (BitReader.readBits_loop n acc r)) = BitReader.data r.
Proof.
  induction n as [| n IH]; intros acc r; cbn [BitReader.readBits_loop].
  - reflexivity.
  - unfold bind. pose proof (readBit_data r) as D.
    destruct (BitReader.readBit r) as [[b | e] r1]; cbn [snd] in D.
    + rewrite IH. exact D.
    + exact D.
Qed.

(** With nothing left to deliver, [readBit] throws and changes nothing. *)
Lemma readBit_end r :
  reader_ok r -> pending r = [] ->
  BitReader.readBit r = (Throw "End of buffer", r).
Proof.
  intros (Hby & Hbi) Hp. unfold pending in Hp. unfold BitReader.readBit.
  destruct (skipn (Z.to_nat (BitReader.bytePos r)) (BitReader.data r)) as [| b tl] eqn:E.
  - assert (L := f_equal (@List.length _) E). rewrite length_skipn in L. cbn in L.
    replace (BitReader.bytePos r >=? JS.len (BitReader.data r)) with true;
      [ reflexivity | ].
    symmetry. apply Z.geb_le. unfold JS.len. lia.
  - exfalso. assert (L := f_equal (@List.length _) Hp).
    rewrite length_app, length_skipn, byte_bits_length in L. cbn [List.length] in L. lia.
Qed.

(** A read of more bits than are left throws, with nothing left. *)
Lemma readBits_loop_short n : forall acc r,
  reader_ok r -> (List.length (pending r) < n)%nat ->
  exists r', BitReader.readBits_loop n acc r = (Throw "End of buffer", r')
             /\ reader_ok r' /\ pending r' = [].
Proof.
  induction n as [| n IH]; intros acc r Hr Hl; [ lia | ].
  cbn [BitReader.readBits_loop]. unfold bind.
  destruct (pending r) as [| b tl] eqn:Hp.
  - rewrite (readBit_end r Hr Hp). exists r. auto.
  - destruct (delivers_readBit b r tl Hr Hp) as (r1 & E & Hr1 & P1).
    rewrite E. apply IH; [ exact Hr1 | ]. rewrite P1. cbn in Hl. lia.
Qed.

Lemma peek_short count r :
  reader_ok r -> 0 <= count <= 32 -> JS.len (pending r) < count ->
  exists r', BitReader.peek count r = (Throw "End of buffer", r')
             /\ pending r' = [].
Proof.
  intros Hr Hc Hl. unfold BitReader.peek, BitReader.readBits.
  replace (count >? 32) with false by (symmetry; rewrite Z.gtb_ltb; apply Z.ltb_ge; lia).
  destruct (readBits_loop_short (Z.to_nat count) 0 r Hr ltac:(unfold JS.len in Hl; lia))
    as (r' & E & _ & P).
  exists r'. unfold bind, this. rewrite E. auto.
Qed.

Lemma peek_enough count r :
  reader_ok r -> 0 <= count <= 32 -> count <= JS.len (pending r) ->
  let v := JS.toInt32 (value (firstn (Z.to_nat count) (pending r)) 0) in
  fst (BitReader.readBits count r) = Ok v
  /\ BitReader.peek count r = (Ok v, r).
Proof.
  intros Hr Hc Hl v. unfold BitReader.peek, BitReader.readBits.
  replace (count >? 32) with false by (symmetry; rewrite Z.gtb_ltb; apply Z.ltb_ge; lia).
  set (bs := firstn (Z.to_nat count) (pending r)) in *.
  assert (Lb : List.length bs = Z.to_nat count).
  { unfold bs. rewrite length_firstn. unfold JS.len in Hl. lia. }
  assert (Hp : pending r = bs ++ skipn (Z.to_nat count) (pending r))
    by (unfold bs; now rewrite firstn_skipn).
  assert (P32 : 2 ^ JS.len bs <= 2 ^ 32)
    by (apply Z.pow_le_mono_r; unfold JS.len; lia).
  destruct (delivers_readBits_loop_wrap bs 0 ltac:(lia) ltac:(lia) r _ Hr Hp)
    as (r1 & E & _ & _).
  rewrite Lb in E.
  pose proof (readBits_loop_data (Z.to_nat count) 0 r) as D. rewrite E in D. cbn [snd] in D.
  split; [ rewrite E; reflexivity | ].
  unfold bind, this, modify, ret. rewrite E. rewrite D.
  destruct r; reflexivity.
Qed.

End Peek.

(** * Muxer: unknown tracks *)

Section Tracks.

Lemma find_none_ids (ts : list OutputAudioTrack) id :
  ~ In id (map track_id ts) -> find (fun t => track_id t =? id) ts = None.
Proof.
  induction ts as [| t ts IH]; intros N; [ reflexivity | ].
  cbn [find]. destruct (Z.eqb_spec (track_id t) id) as [E | _].
  - exfalso. apply N. left. exact E.
  - apply IH. intros I. apply N. right. exact I.
Qed.

End Tracks.

(** * The specification, claim by claim *)

(** Two numbers that compare unequal are different values. *)
Lemma float_neq (x y : float) : PrimFloat.eqb x y = false -> PrimFloat.eqb y y = true -> x <> y.
Proof. intros N R E. rewrite E in N. congruence. Qed.

(** C1: after [finalize()] a muxer should reject every further
    [writePacket] and a second [finalize()].  On the finalized AAC muxer the
    second [finalize()] does throw and the writer is not touched, but
    [writePacket] on the existing track returns normally and stores the
    packet: [writePacket] never reads the [finalized] flag. *)
Theorem muxer_write_after_finalize_accepted :
  Muxer.finalized Examples.aac_finalized = true
  /\ Muxer.writePacket 1 Examples.raw_packet Examples.aac_finalized
     = (Ok tt,
        Aac.push (Aac.header_for Examples.aac_finalized (pkt_data Examples.raw_packet)
                  ++ pkt_data Examples.raw_packet)
                 Examples.aac_finalized)
  /\ fst (Muxer.finalize Examples.aac_finalized) = Throw "Muxer already finalized"
  /\ Muxer.writer (snd (Muxer.finalize Examples.aac_finalized))
     = Muxer.writer Examples.aac_finalized.
Proof. repeat split; vm_compute; reflexivity. Qed.

(** C2: the unsigned Exp-Golomb round trip should be the identity up to
    2^31 - 1.  At 2^31 - 1 the writer emits 31 zeros, a one and 31 zeros, and
    the reader computes [(1 << 31) - 1 + 0], which is negative in 32-bit
    arithmetic. *)
Theorem ue_roundtrip_at_int32_max :
  Bits.ue_roundtrip (2 ^ 31 - 1) = Ok (- 2147483649).
Proof. vm_compute. reflexivity. Qed.

(** Below that point the round trip is the identity. *)
Lemma ue_roundtrip_below_int32_max u :
  0 <= u <= 2 ^ 31 - 2 -> Bits.ue_roundtrip u = Ok u.
Proof. apply ue_roundtrip_within. Qed.

(** C3, as stated, fails: 17 with Rice parameter 0 has zig-zag value 34, the
    writer emits 34 zeros, and [readUnary] gives up after 32. *)
Lemma rice_roundtrip_long_quotient :
  - 2 ^ 20 <= 17 <= 2 ^ 20 /\ 0 <= 0 <= 20
  /\ Bits.rice_roundtrip 17 0 = Throw "Invalid unary code".
Proof. repeat split; try lia; vm_compute; congruence. Qed.

(** C3, amended: for v in [-2^20, 2^20] and k in [0, 20] whose unary
    quotient [zigzag(v) >> k] is at most 32, [writeRice(v, k)] followed by
    [readRice(k)] over the written buffer returns v, without an error. *)
Theorem rice_roundtrip_short_quotient v k :
  - 2 ^ 20 <= v <= 2 ^ 20 -> 0 <= k <= 20 ->
  Z.shiftr (Bits.zigzag v) k <= 32 ->
  Bits.rice_roundtrip v k = Ok v.
Proof.
  intros Hv Hk Hq. apply rice_roundtrip_within; try assumption.
  rewrite <- Z.shiftr_div_pow2 by lia. exact Hq.
Qed.

Lemma rice_roundtrip_short_quotient_witness :
  (- 2 ^ 20 <= -5 <= 2 ^ 20) /\ (0 <= 2 <= 20) /\ Z.shiftr (Bits.zigzag (-5)) 2 <= 32
  /\ Bits.rice_roundtrip (-5) 2 = Ok (-5).
Proof.
  split; [ lia | split; [ lia | split; [ vm_compute; discriminate | ] ] ].
  apply (rice_roundtrip_short_quotient (-5) 2); [ lia | lia | vm_compute; discriminate ].
Defined.

(** C4: every stored 5-bit field value should decode to that value plus 1.
    For the payload the FLAC muxer writes for a 32-bit track (34 bytes,
    field value 31) [parseStreamInfo] returns 16 bits per sample, not 32:
    the [+ 1] is applied to the low nibble before the [|]. *)
Theorem flac_bits_per_sample_field_31 :
  List.length Examples.streaminfo_32bit = 34%nat
  /\ Flac.bps_field Examples.streaminfo_32bit + 1 = 32
  /\ match Flac.parseStreamInfo Examples.streaminfo_32bit with
     | Ok info => Flac.bitsPerSample info = 16
     | Throw _ => False
     end.
Proof. repeat split; vm_compute; reflexivity. Qed.

(** C5: the size of a Layer 1 frame should be a whole number of 4-byte
    slots, floor(12*kbps*1000/sample_rate + padding) * 4.  For the MPEG-1
    Layer I header at 32 kbps and 44100 Hz without padding that is 32 bytes;
    the code computes 34, because it floors after the multiplication by 4
    where the branch of the other layers floors the slot count. *)
Theorem mp3_layer1_floor_first_fails :
  match Mp3.parseFrameHeader Examples.mp3_layer1_32k 0 with
  | Some h =>
      Mp3.layer h = Mp3.Layer1
      /\ Mp3.frameSize h = 34%float
      /\ Mp3.frame_size_floor_first h = 32
      /\ Mp3.frameSize h <> JS.num (Mp3.frame_size_floor_first h)
  | None => False
  end.
Proof.
  vm_compute. repeat split.
  apply float_neq; vm_compute; reflexivity.
Qed.

(** What the code computes for every header that [parseFrameHeader]
    accepts: floor((12*kbps*1000/sample_rate + padding) * 4) for Layer 1,
    and floor(slot*kbps*1000/sample_rate + padding) otherwise, with slot = 72
    for Layer 3 outside MPEG-1 and 144 otherwise. *)
Lemma mp3_frame_size_floor_last data offset h :
  Mp3.parseFrameHeader data offset = Some h ->
  Mp3.frameSize h = JS.num (Mp3.frame_size_floor_last h).
Proof.
  intros H.
  destruct (parseFrameHeader_built _ _ _ H) as (v & l & br & sr & pb & crc & cm & Hb & Hs & Hp & ->).
  now apply built_floor_last.
Qed.



(** C7, as stated, fails: a data chunk of 88200 16-bit mono samples is
    176400 bytes, and the duration is 2.0. *)
Lemma wav_88200_samples_last_two_seconds :
  Wav.getDuration (BufferSource Examples.wav_88200_samples) = Ok 2%float
  /\ Wav.getDuration (BufferSource Examples.wav_88200_samples) <> Ok 1%float.
Proof.
  assert (E : Wav.getDuration (BufferSource Examples.wav_88200_samples) = Ok 2%float)
    by (vm_compute; reflexivity).
  split; [ exact E | ].
  rewrite E. intros H.
  apply (f_equal (fun o => match o with Ok x => x | Throw _ => 0%float end)) in H.
  revert H. apply float_neq; vm_compute; reflexivity.
Qed.

(** C7, amended: for a 16-bit, 44100 Hz, 1-channel WAV file whose data chunk
    holds 88200 bytes (44100 samples), whatever the samples are,
    [getDuration()] returns exactly 1.0. *)
Theorem wav_88200_bytes_last_one_second payload :
  JS.len payload = 88200 ->
  Wav.getDuration (BufferSource (Wav.canonical_file 44100 1 16 payload)) = Ok 1%float.
Proof. apply canonical_88200_bytes. Qed.

Lemma wav_88200_bytes_last_one_second_witness :
  JS.len Examples.silence_88200_bytes = 88200
  /\ Wav.getDuration
       (BufferSource (Wav.canonical_file 44100 1 16 Examples.silence_88200_bytes))
     = Ok 1%float.
Proof.
  split; [ vm_compute; reflexivity | ].
  apply (wav_88200_bytes_last_one_second Examples.silence_88200_bytes).
  vm_compute. reflexivity.
Defined.

(** C8: [crc32] with its default parameters returns 0 for the empty byte
    sequence and 0xCBF43926 for the ASCII bytes of "123456789". *)
Theorem crc32_reference_values :
  Crc.crc32 [] = 0
  /\ Crc.crc32 (list_byte_of_string "123456789") = 0xCBF43926.
Proof. split; vm_compute; reflexivity. Qed.

(** C9, as stated, fails: a source can be a stream, and on a stream source,
    whatever it holds, an empty stream included, the first read of every
    format's [canRead] throws and [detectFormat] throws with it. *)
Lemma detectFormat_empty_stream_throws :
  Forall (fun f => Input.canRead f StreamSource
                   = Throw "Stream source does not support random access")
         Input.registry
  /\ Input.detectFormat Input.registry StreamSource
     = Throw "Stream source does not support random access".
Proof.
  split.
  - apply Forall_forall. intros f Hf. now apply stream_canRead_throws.
  - apply stream_detect_throws; [ discriminate | apply incl_refl ].
Qed.

(** C9, amended: on an empty buffer source every registered format's
    [canRead] returns false without throwing, and [detectFormat] returns
    null. *)
Theorem detectFormat_empty_source :
  map Input.name Input.registry = ["mp3"; "wav"; "flac"; "aac"; "ogg"]
  /\ Forall (fun f => Input.canRead f (BufferSource []) = Ok false) Input.registry
  /\ Input.detectFormat Input.registry (BufferSource []) = Ok None.
Proof.
  split; [ reflexivity | ].
  split; [ repeat constructor | reflexivity ].
Qed.

(** C10, as stated, fails in two places.  With the cursor past the end of
    the buffer a read of zero bytes returns an empty array, not null.  With
    the cursor at -1, where [seek] and [skip] can put it, on a buffer of
    three bytes, [readBytes(2)] returns null although p + n <= S, and
    [readBytes(1)] returns the last byte of the buffer. *)
Lemma readBytes_outside_the_buffer :
  (Reader.position Examples.reader_past_end + 0 > JS.len (@nil byte)
   /\ fst (Reader.readBytes 0 Examples.reader_past_end) = Ok (Some []))
  /\ (let r := snd (Reader.seek (-1) (Reader.fromBuffer Examples.three_bytes)) in
      Reader.position r + 2 <= JS.len Examples.three_bytes
      /\ fst (Reader.readBytes 2 r) = Ok None
      /\ fst (Reader.readBytes 1 r) = Ok (Some [x0c])).
Proof.
  split; [ split; [ vm_compute; reflexivity | reflexivity ] | ].
  cbv zeta. split; [ vm_compute; discriminate | ].
  split; vm_compute; reflexivity.
Qed.

(** C10, amended: for a reader over a buffer of size S with the cursor at
    p >= 0 and a length n >= 0, [readBytes(n)] returns the n bytes at offset
    p and moves the cursor to p + n when p + n <= S; when p + n > S and
    n > 0 it returns null and leaves the cursor at p, and a later
    [readBytes] of a length that fits succeeds.  A read of zero bytes
    returns an empty array and leaves the cursor where it is, at any
    position, negative or past the end. *)
Theorem readBytes_atomic data r p n :
  ReaderSpec.reachable data r -> Reader.position r = p -> 0 <= n ->
  exists res r',
    Reader.readBytes n r = (Ok res, r')
    /\ ReaderSpec.reachable data r'
    /\ (n = 0 -> res = Some [] /\ Reader.position r' = p)
    /\ (0 <= p -> p + n <= JS.len data ->
        res = Some (ReaderSpec.bytes_at data p n)
        /\ JS.len (ReaderSpec.bytes_at data p n) = n
        /\ Reader.position r' = p + n)
    /\ (0 <= p -> p + n > JS.len data -> 0 < n ->
        res = None
        /\ Reader.position r' = p
        /\ forall m, 0 <= m -> p + m <= JS.len data ->
             exists r'',
               Reader.readBytes m r' = (Ok (Some (ReaderSpec.bytes_at data p m)), r'')
               /\ Reader.position r'' = p + m).
Proof.
  intros Hr Hpos Hn. subst p.
  pose proof (reachable_inv data r Hr) as Hinv.
  destruct (readBytes_spec data r n Hinv) as (res & r' & E & Hinv' & Hspec).
  exists res, r'. split; [ exact E | ].
  assert (Hr' : ReaderSpec.reachable data r').
  { replace r' with (snd (Reader.readBytes n r)) by now rewrite E.
    apply ReaderSpec.reach_call; [ exact Hr | constructor ]. }
  split; [ exact Hr' | ]. split; [ | split ].
  - intros ->.
    destruct (readBytes_zero data r Hinv) as (r0 & E0 & P0).
    rewrite E0 in E. injection E as <- <-. split; [ reflexivity | exact P0 ].
  - intros Hp Hle. destruct (Hspec Hp Hn) as (Hfit & _).
    destruct (Hfit Hle) as (-> & P). repeat split; try exact P.
    unfold ReaderSpec.bytes_at, JS.len in *.
    rewrite length_firstn, length_skipn. lia.
  - intros Hp Hgt Hn0. destruct (Hspec Hp Hn) as (_ & Hmiss).
    destruct (Hmiss Hn0 Hgt) as (-> & P).
    repeat split; try exact P.
    intros m Hm Hle.
    destruct (readBytes_spec data r' m Hinv') as (res2 & r2 & E2 & _ & Hspec2).
    rewrite P in Hspec2.
    destruct (Hspec2 Hp Hm) as (Hfit2 & _).
    destruct (Hfit2 Hle) as (-> & P2).
    exists r2. split; [ exact E2 | exact P2 ].
Qed.

Lemma readBytes_atomic_witness :
  ReaderSpec.reachable Examples.three_bytes (Reader.fromBuffer Examples.three_bytes)
  /\ exists res r',
       Reader.readBytes 2 (Reader.fromBuffer Examples.three_bytes) = (Ok res, r')
       /\ (0 + 2 <= JS.len Examples.three_bytes ->
           res = Some (ReaderSpec.bytes_at Examples.three_bytes 0 2)).
Proof.
  split; [ constructor | ].
  destruct (readBytes_atomic Examples.three_bytes (Reader.fromBuffer Examples.three_bytes) 0 2)
    as (res & r' & E & _ & _ & F & _).
  - constructor.
  - reflexivity.
  - lia.
  - exists res, r'. split; [ exact E | ]. intros H. apply (F ltac:(lia) H).
Defined.

(** * Further properties of the code *)

(** ** bitstream.ts *)

(** X1: a signed integer of absolute value at most 2^30 - 1 written with
    [writeSExpGolomb] into a new writer is read back unchanged by
    [readSExpGolomb] from the buffer [getBuffer] returns. *)
Theorem signed_exp_golomb_roundtrip v :
  - (2 ^ 30 - 1) <= v <= 2 ^ 30 - 1 ->
  Bits.roundtrip (BitWriter.writeSExpGolomb v) BitReader.readSExpGolomb = Ok v.
Proof. apply se_roundtrip_within. Qed.

Lemma signed_exp_golomb_roundtrip_witness :
  (- (2 ^ 30 - 1) <= -3 <= 2 ^ 30 - 1)
  /\ Bits.roundtrip (BitWriter.writeSExpGolomb (-3)) BitReader.readSExpGolomb = Ok (-3).
Proof.
  split; [ lia | ].
  apply (signed_exp_golomb_roundtrip (-3)). lia.
Defined.

(** X2: [writeBits(v, n)] followed by [readBits(n)] returns the [n] low bits
    of [v] as an unsigned number for [n] up to 31; for [n = 32] it returns
    the signed 32-bit reading of [v], so a value with bit 31 set comes back
    negative. *)
Theorem bits_roundtrip v n :
  0 <= n <= 32 ->
  Bits.roundtrip (BitWriter.writeBits v n) (BitReader.readBits n)
  = Ok (if n =? 32 then JS.toInt32 v else v mod 2 ^ n).
Proof.
  intros Hn.
  apply roundtrip_ok with (bs := Bits.msb_bits (Z.to_nat n) (JS.toInt32 v)).
  - apply appends_writeBits. exact Hn.
  - destruct (Z.eqb_spec n 32) as [-> | N].
    + rewrite msb_bits_toInt32 by (simpl; lia). apply delivers_readBits32.
    + rewrite msb_bits_toInt32 by lia. apply delivers_readBits. lia.
Qed.

Lemma bits_roundtrip_witness :
  (0 <= 32 <= 32)
  /\ Bits.roundtrip (BitWriter.writeBits 0xFFFFFFFF 32) (BitReader.readBits 32) = Ok (-1).
Proof.
  split; [ lia | ].
  apply (bits_roundtrip 0xFFFFFFFF 32). lia.
Defined.

(** X3: [writeU32BE(v)] followed by [readU32BE()] returns [v] modulo 2^32,
    an unsigned number, for every integer [v]. *)
Theorem u32be_bits_roundtrip v :
  Bits.roundtrip (BitWriter.writeU32BE v) BitReader.readU32BE = Ok (v mod 2 ^ 32).
Proof.
  unfold BitWriter.writeU32BE, BitReader.readU32BE.
  apply roundtrip_ok with (bs := Bits.msb_bits 32 (JS.toInt32 (JS.shr v 0)) ++ []).
  - rewrite app_nil_r. apply (appends_writeBits (JS.shr v 0) 32). lia.
  - apply delivers_bind with (v1 := JS.toInt32 (JS.shr v 0)).
    + rewrite msb_bits_toInt32 by lia. apply delivers_readBits32.
    + replace (v mod 2 ^ 32) with (JS.shr (JS.toInt32 (JS.shr v 0)) 0).
      * apply delivers_ret.
      * rewrite !shr_0. unfold JS.toUint32.
        rewrite (mod_agree _ 32) by lia. apply Z.mod_mod. lia.
Qed.

(** X4: [writeBitsBigInt(v, count)] followed by [readBitsBigInt(count)]
    returns [v] modulo 2^count, for every integer [v], negative ones
    included, and every count. *)
Theorem bigint_bits_roundtrip v count :
  0 <= count ->
  Bits.roundtrip (BitWriter.writeBitsBigInt v count) (BitReader.readBitsBigInt count)
  = Ok (v mod 2 ^ count).
Proof. apply bigint_roundtrip_bits. Qed.

Lemma bigint_bits_roundtrip_witness :
  (0 <= 40)
  /\ Bits.roundtrip (BitWriter.writeBitsBigInt (-1) 40) (BitReader.readBitsBigInt 40)
     = Ok (2 ^ 40 - 1).
Proof.
  split; [ lia | ].
  apply (bigint_bits_roundtrip (-1) 40). lia.
Defined.

(** X5: bytes pass through the bit writer and the bit reader unchanged:
    after [writeBytes(l)] on a new writer [getBuffer()] returns [l] and
    [length] is the number of bytes, and [readBytes(l.length)] on a reader
    over [l] returns [l]. *)
Theorem bit_writer_bytes_roundtrip (l : list byte) :
  exists w,
    BitWriter.writeBytes l BitWriter.new = (Ok tt, w)
    /\ fst (BitWriter.getBuffer w) = Ok l
    /\ BitWriter.length w = JS.len l
    /\ fst (BitReader.readBytes (JS.len l) (BitReader.new l)) = Ok l.
Proof.
  destruct writer_new_ok as (Hok & Hw).
  destruct (appends_writeBytes l BitWriter.new Hok) as (w & E & Hok' & Hwr & Hbp).
  destruct (writeBytes_total l BitWriter.new) as (w2 & E2 & Htot).
  rewrite E in E2. injection E2 as <-.
  exists w. split; [ exact E | ].
  assert (Hbp0 : BitWriter.bitPos w = 0).
  { rewrite Hbp. cbn [BitWriter.bitPos BitWriter.new]. unfold JS.len, Bits.of_bytes.
    clear. induction l as [| b l IH]; [ reflexivity | ].
    cbn [flat_map]. rewrite length_app, byte_bits_length.
    rewrite Nat2Z.inj_add. change (Z.of_nat 8) with 8.
    replace (0 + (8 + Z.of_nat (Datatypes.length (flat_map Bits.byte_bits l))))
      with (0 + Z.of_nat (Datatypes.length (flat_map Bits.byte_bits l)) + 1 * 8) by lia.
    rewrite Z.mod_add by lia. exact IH. }
  split; [ | split ].
  - destruct w as [bufs cb bp tot]. cbn [BitWriter.bitPos] in Hbp0. subst bp.
    destruct Hok' as (_ & Hcb). cbn [BitWriter.bitPos BitWriter.currentByte] in Hcb.
    destruct (getBuffer_keeps bufs cb 0 tot ltac:(lia) Hcb) as (buf & G & B).
    rewrite G. cbn [fst]. f_equal. apply of_bytes_inj.
    rewrite B, Hwr, Hw. change (Z.to_nat ((8 - 0) mod 8)) with 0%nat.
    cbn [repeat]. rewrite app_nil_r. reflexivity.
  - unfold BitWriter.length. rewrite Htot. cbn [BitWriter.totalBits BitWriter.new].
    replace (- (0 + 8 * JS.len l)) with (- JS.len l * 8) by lia.
    rewrite Z.div_mul by lia. lia.
  - unfold BitReader.readBytes.
    replace (JS.len l <? 0) with false by (symmetry; apply Z.ltb_ge; unfold JS.len; lia).
    unfold JS.len. rewrite Nat2Z.id.
    destruct (reader_new l) as (Rok & Rp).
    destruct (readBytes_loop_bytes l [] (BitReader.new l) [] Rok
                ltac:(rewrite app_nil_r; exact Rp)) as (r' & R & _).
    rewrite R. reflexivity.
Qed.

(** X6: on a writer holding a partial byte, [getBuffer()] returns the bits
    written so far followed by zero bits up to the next byte boundary, and
    puts [buffers], [currentByte] and [bitPos] back; [totalBits] is not put
    back and has grown by the number of padding bits. *)
Theorem getBuffer_keeps_writer_but_counts_padding w :
  Bits.writer_ok w ->
  let pad := (8 - BitWriter.bitPos w) mod 8 in
  exists buf,
    BitWriter.getBuffer w
    = (Ok buf, BitWriter.mk (BitWriter.buffers w) (BitWriter.currentByte w)
                            (BitWriter.bitPos w) (BitWriter.totalBits w + pad))
    /\ Bits.of_bytes buf = Bits.written w ++ repeat false (Z.to_nat pad).
Proof.
  intros (Hbp & Hcb). destruct w as [bufs cb bp tot].
  apply (getBuffer_keeps bufs cb bp tot Hbp Hcb).
Qed.

Lemma getBuffer_keeps_writer_but_counts_padding_witness :
  Bits.writer_ok Examples.one_bit_writer
  /\ exists buf,
       BitWriter.getBuffer Examples.one_bit_writer
       = (Ok buf, BitWriter.mk [] 1 1 8)
       /\ Bits.of_bytes buf
          = Bits.written Examples.one_bit_writer ++ repeat false 7.
Proof.
  assert (H : Bits.writer_ok Examples.one_bit_writer).
  { unfold Bits.writer_ok. simpl. lia. }
  split; [ exact H | ].
  exact (getBuffer_keeps_writer_but_counts_padding Examples.one_bit_writer H).
Defined.

(** X7: the CRC-8 of a message followed by its own CRC-8 is 0, for every
    message and every polynomial. *)
Theorem crc8_of_message_and_crc_is_zero data poly :
  Crc.crc8_with (data ++ [JS.to_u8 (Crc.crc8_with data poly)]) poly = 0.
Proof. apply crc8_residue. Qed.

(** X8: the CRC-16 of a message followed by the two bytes of its own
    CRC-16, high byte first, is 0, for every message, polynomial and start
    value of 16 bits. *)
Theorem crc16_of_message_and_crc_is_zero data poly init :
  0 <= init < 65536 ->
  let c := Crc.crc16_with data poly init in
  Crc.crc16_with (data ++ [JS.to_u8 (c / 256); JS.to_u8 c]) poly init = 0.
Proof. apply crc16_residue. Qed.

Lemma crc16_of_message_and_crc_is_zero_witness :
  (0 <= 0xFFFF < 65536)
  /\ Crc.crc16_with (Examples.three_bytes
                     ++ [JS.to_u8 (Crc.crc16Mp3 Examples.three_bytes / 256);
                         JS.to_u8 (Crc.crc16Mp3 Examples.three_bytes)]) 0x8005 0xFFFF = 0.
Proof.
  split; [ lia | ].
  apply (crc16_of_message_and_crc_is_zero Examples.three_bytes 0x8005 0xFFFF). lia.
Defined.

(** X9: [crc16Flac], which has a loop of its own, computes the same number
    as [crc16] with its default polynomial and start value. *)
Theorem crc16Flac_is_crc16 data : Crc.crc16Flac data = Crc.crc16 data.
Proof. apply crc16Flac_eq. Qed.

(** ** reader.ts and the writer *)

(** X10: each fixed-width unsigned read of [Reader] on a buffer source never
    throws; when the bytes it needs remain, it returns their big-endian or
    little-endian value and moves the cursor past them, and when fewer
    remain it returns null and leaves the cursor where it was. *)
Theorem reader_unsigned_reads :
  ReaderSpec.decodes Reader.readU8 1 DataView.be
  /\ ReaderSpec.decodes Reader.readU16BE 2 DataView.be
  /\ ReaderSpec.decodes Reader.readU16LE 2 DataView.le
  /\ ReaderSpec.decodes Reader.readU24BE 3 DataView.be
  /\ ReaderSpec.decodes Reader.readU24LE 3 DataView.le
  /\ ReaderSpec.decodes Reader.readU32BE 4 DataView.be
  /\ ReaderSpec.decodes Reader.readU32LE 4 DataView.le
  /\ ReaderSpec.decodes Reader.readU64BE 8 DataView.be
  /\ ReaderSpec.decodes Reader.readU64LE 8 DataView.le.
Proof.
  repeat split.
  - apply decodes_readU8.
  - apply decodes_readU16BE.
  - apply decodes_readU16LE.
  - apply decodes_readU24BE.
  - apply decodes_readU24LE.
  - apply decodes_readU32BE.
  - apply decodes_readU32LE.
  - apply (decodes_getUint 8 false). lia.
  - apply (decodes_getUint 8 true). lia.
Qed.

(** X11: on a buffer source, at any cursor that is not negative, each
    signed read of [Reader] returns without throwing: when the bytes it
    needs remain, it returns their two's complement reading in the given
    byte order and moves the cursor past them, and when fewer remain it
    returns null and leaves the cursor where it was. *)
Theorem reader_signed_reads :
  ReaderSpec.decodes Reader.readI16BE 2 (fun l => DataView.signed 2 (DataView.be l))
  /\ ReaderSpec.decodes Reader.readI16LE 2 (fun l => DataView.signed 2 (DataView.le l))
  /\ ReaderSpec.decodes Reader.readI32BE 4 (fun l => DataView.signed 4 (DataView.be l))
  /\ ReaderSpec.decodes Reader.readI32LE 4 (fun l => DataView.signed 4 (DataView.le l))
  /\ ReaderSpec.decodes Reader.readI64BE 8 (fun l => DataView.signed 8 (DataView.be l))
  /\ ReaderSpec.decodes Reader.readI64LE 8 (fun l => DataView.signed 8 (DataView.le l)).
Proof.
  repeat split.
  - apply (decodes_getInt 2 false). lia.
  - apply (decodes_getInt 2 true). lia.
  - apply (decodes_getInt 4 false). lia.
  - apply (decodes_getInt 4 true). lia.
  - apply (decodes_getInt 8 false). lia.
  - apply (decodes_getInt 8 true). lia.
Qed.

(** X12: an integer written by a [Writer] method into a new buffer writer
    and read by the [Reader] method of the same name from that buffer comes
    back reduced modulo 2^8, 2^16, 2^24, 2^32 or 2^64 (2^28 for the
    syncsafe integer): unchanged when it fits, wrapped when it does not. *)
Theorem writer_reader_unsigned_roundtrip v :
  Codec.roundtrip (Writer.writeU8 v) Reader.readU8 = Ok (Some (v mod 2 ^ 8))
  /\ Codec.roundtrip (Writer.writeU16BE v) Reader.readU16BE = Ok (Some (v mod 2 ^ 16))
  /\ Codec.roundtrip (Writer.writeU16LE v) Reader.readU16LE = Ok (Some (v mod 2 ^ 16))
  /\ Codec.roundtrip (Writer.writeU24BE v) Reader.readU24BE = Ok (Some (v mod 2 ^ 24))
  /\ Codec.roundtrip (Writer.writeU24LE v) Reader.readU24LE = Ok (Some (v mod 2 ^ 24))
  /\ Codec.roundtrip (Writer.writeU32BE v) Reader.readU32BE = Ok (Some (v mod 2 ^ 32))
  /\ Codec.roundtrip (Writer.writeU32LE v) Reader.readU32LE = Ok (Some (v mod 2 ^ 32))
  /\ Codec.roundtrip (Writer.writeU64BE v) Reader.readU64BE = Ok (Some (v mod 2 ^ 64))
  /\ Codec.roundtrip (Writer.writeU64LE v) Reader.readU64LE = Ok (Some (v mod 2 ^ 64))
  /\ Codec.roundtrip (Writer.writeSyncsafeInt v) Reader.readSyncsafeInt
     = Ok (Some (v mod 2 ^ 28)).
Proof.
  repeat split.
  - unfold Writer.writeU8. rt decodes_readU8.
    now rewrite value_U8.
  - unfold Writer.writeU16BE. rt decodes_readU16BE.
    now rewrite value_U16BE.
  - unfold Writer.writeU16LE. rt decodes_readU16LE.
    now rewrite value_U16LE.
  - unfold Writer.writeU24BE. rt decodes_readU24BE.
    now rewrite value_U24BE.
  - unfold Writer.writeU24LE. rt decodes_readU24LE.
    now rewrite value_U24LE.
  - unfold Writer.writeU32BE. rt decodes_readU32BE.
    now rewrite (value_setUint 4 false), value_digits4.
  - unfold Writer.writeU32LE. rt decodes_readU32LE.
    now rewrite (value_setUint 4 true), value_digits4.
  - unfold Writer.writeU64BE, Reader.readU64BE.
    rt (decodes_getUint 8 false ltac:(lia)).
    now rewrite (value_setUint 8 false), value_digits8.
  - unfold Writer.writeU64LE, Reader.readU64LE.
    rt (decodes_getUint 8 true ltac:(lia)).
    now rewrite (value_setUint 8 true), value_digits8.
  - unfold Writer.writeSyncsafeInt.
    rt decodes_readSyncsafeInt.
    now rewrite value_syncsafe.
Qed.

(** X13: a signed integer that fits the width written by [writeI16],
    [writeI32] or [writeI64] (either byte order) into a new buffer writer is
    read back unchanged by the read method of the same name. *)
Theorem writer_reader_signed_roundtrip v :
  (- 2 ^ 15 <= v < 2 ^ 15 ->
   Codec.roundtrip (Writer.writeI16BE v) Reader.readI16BE = Ok (Some v)
   /\ Codec.roundtrip (Writer.writeI16LE v) Reader.readI16LE = Ok (Some v))
  /\ (- 2 ^ 31 <= v < 2 ^ 31 ->
      Codec.roundtrip (Writer.writeI32BE v) Reader.readI32BE = Ok (Some v)
      /\ Codec.roundtrip (Writer.writeI32LE v) Reader.readI32LE = Ok (Some v))
  /\ (- 2 ^ 63 <= v < 2 ^ 63 ->
      Codec.roundtrip (Writer.writeI64BE v) Reader.readI64BE = Ok (Some v)
      /\ Codec.roundtrip (Writer.writeI64LE v) Reader.readI64LE = Ok (Some v)).
Proof.
  split; [ | split ]; intros Hv; split.
  - apply (signed_roundtrip 2 false v); [ lia | exact Hv | apply value_digits2 ].
  - apply (signed_roundtrip 2 true v); [ lia | exact Hv | apply value_digits2 ].
  - apply (signed_roundtrip 4 false v); [ lia | exact Hv | apply value_digits4 ].
  - apply (signed_roundtrip 4 true v); [ lia | exact Hv | apply value_digits4 ].
  - apply (signed_roundtrip 8 false v); [ lia | exact Hv | apply value_digits8 ].
  - apply (signed_roundtrip 8 true v); [ lia | exact Hv | apply value_digits8 ].
Qed.

Lemma writer_reader_signed_roundtrip_witness :
  (- 2 ^ 15 <= -2 < 2 ^ 15)
  /\ Codec.roundtrip (Writer.writeI16BE (-2)) Reader.readI16BE = Ok (Some (-2))
  /\ Codec.roundtrip (Writer.writeI64LE (-2)) Reader.readI64LE = Ok (Some (-2)).
Proof.
  split; [ lia | ].
  destruct (writer_reader_signed_roundtrip (-2)) as (H16 & _ & H64).
  split; [ apply H16; lia | apply H64; lia ].
Defined.

(** X14: a tag written by [writeFourCC] is read back by [readFourCC] as
    the string of the low bytes of its first four code units, spaces
    standing in for the ones a shorter tag lacks.  A tag of exactly four
    characters up to U+00FF comes back as it was; a character above U+00FF
    comes back as the character of its low byte. *)
Theorem fourCC_roundtrip (value : JS.str) :
  exists s,
    Codec.roundtrip (Writer.writeFourCC value) Reader.readFourCC = Ok (Some s)
    /\ JS.lit s = map (fun c => c mod 256) (firstn 4 (value ++ repeat 0x20 4))
    /\ (List.length value = 4%nat -> Forall (fun c => 0 <= c <= 0xFF) value ->
        JS.lit s = value).
Proof.
  exists (string_of_list_byte (Writer.fourCC value)).
  assert (E : JS.lit (string_of_list_byte (Writer.fourCC value))
              = map (fun c => c mod 256) (firstn 4 (value ++ repeat 0x20 4)))
    by (rewrite lit_string_of_list_byte; apply fourCC_code_units).
  split; [ | split; [ exact E | ] ].
  - unfold Writer.writeFourCC. rt decodes_readFourCC. reflexivity.
  - intros L F. rewrite E, firstn_4_padded by exact L. now apply map_mod_small.
Qed.

Lemma fourCC_roundtrip_witness :
  exists s,
    Codec.roundtrip (Writer.writeFourCC [0x20AC; 0x66; 0x6D]) Reader.readFourCC = Ok (Some s)
    /\ JS.lit s = [0xAC; 0x66; 0x6D; 0x20].
Proof.
  destruct (fourCC_roundtrip [0x20AC; 0x66; 0x6D]) as (s & E & L & _).
  exists s. split; [ exact E | exact L ].
Defined.

(** X15: [peek(n)] returns what [readBytes(n)] returns at the same cursor,
    null at the end of the data included, and leaves the cursor where it
    was. *)
Theorem peek_reads_without_moving data r n :
  ReaderSpec.reachable data r ->
  exists res r1 r2,
    Reader.readBytes n r = (Ok res, r1)
    /\ Reader.peek n r = (Ok res, r2)
    /\ Reader.position r2 = Reader.position r
    /\ ReaderSpec.reachable data r2.
Proof. apply peek_spec. Qed.

Lemma peek_reads_without_moving_witness :
  ReaderSpec.reachable Examples.three_bytes (Reader.fromBuffer Examples.three_bytes)
  /\ exists res r1 r2,
       Reader.readBytes 2 (Reader.fromBuffer Examples.three_bytes) = (Ok res, r1)
       /\ Reader.peek 2 (Reader.fromBuffer Examples.three_bytes) = (Ok res, r2)
       /\ Reader.position r2 = 0.
Proof.
  assert (H : ReaderSpec.reachable Examples.three_bytes
                (Reader.fromBuffer Examples.three_bytes)) by constructor.
  split; [ exact H | ].
  destruct (peek_reads_without_moving Examples.three_bytes
              (Reader.fromBuffer Examples.three_bytes) 2 H) as (res & r1 & r2 & A & B & C & _).
  exists res, r1, r2. split; [ exact A | split; [ exact B | exact C ] ].
Defined.

(** ** Format detection *)

(** X16: on a buffer source the [canRead] of FLAC, OGG, WAV and AAC never
    throws and answers by the first bytes alone: true exactly when the buffer
    starts with the tag fLaC; with OggS; with RIFF or RF64 and has WAVE at
    offset 8; has at least four bytes starting with the ADTS sync word and a
    zero layer field. *)
Theorem canRead_by_magic data :
  (exists b, Input.Flac_canRead (BufferSource data) = Ok b
             /\ (b = true <-> Magic.tag_at data 0 "fLaC"))
  /\ (exists b, Input.Ogg_canRead (BufferSource data) = Ok b
                /\ (b = true <-> Magic.tag_at data 0 "OggS"))
  /\ (exists b, Input.Wav_canRead (BufferSource data) = Ok b
                /\ (b = true <->
                    (Magic.tag_at data 0 "RIFF" \/ Magic.tag_at data 0 "RF64")
                    /\ Magic.tag_at data 8 "WAVE"))
  /\ (exists b, Input.Aac_canRead (BufferSource data) = Ok b
                /\ (b = true <-> Magic.adts_sync data)).
Proof.
  split; [ apply Flac_canRead_tag | ].
  split; [ apply Ogg_canRead_tag | ].
  split; [ apply Wav_canRead_tags | apply Aac_canRead_sync ].
Qed.

(** X17: no buffer is accepted by two of the five registered formats. *)
Theorem registered_formats_exclusive data f g :
  In f Input.registry -> In g Input.registry ->
  Input.canRead f (BufferSource data) = Ok true ->
  Input.canRead g (BufferSource data) = Ok true ->
  f = g.
Proof. apply formats_exclusive. Qed.

Lemma registered_formats_exclusive_witness :
  In Input.FLAC Input.registry
  /\ Input.canRead Input.FLAC (BufferSource Examples.flac_tag) = Ok true
  /\ Input.FLAC = Input.FLAC.
Proof.
  assert (I : In Input.FLAC Input.registry) by (simpl; tauto).
  assert (C : Input.canRead Input.FLAC (BufferSource Examples.flac_tag) = Ok true)
    by (vm_compute; reflexivity).
  split; [ exact I | split; [ exact C | ] ].
  exact (registered_formats_exclusive Examples.flac_tag Input.FLAC Input.FLAC I I C C).
Defined.

(** X18: on a buffer source the result of [detectFormat] does not depend on
    the order in which the formats were registered. *)
Theorem detectFormat_order_independent data fs fs' :
  incl fs Input.registry -> incl fs' Input.registry ->
  incl fs fs' -> incl fs' fs ->
  Input.detectFormat fs (BufferSource data) = Input.detectFormat fs' (BufferSource data).
Proof. apply detect_order. Qed.

Lemma detectFormat_order_independent_witness :
  incl (rev Input.registry) Input.registry
  /\ incl Input.registry (rev Input.registry)
  /\ Input.detectFormat (rev Input.registry) (BufferSource Examples.flac_tag)
     = Input.detectFormat Input.registry (BufferSource Examples.flac_tag).
Proof.
  assert (A : incl (rev Input.registry) Input.registry)
    by (intros x Hx; apply in_rev; exact Hx).
  assert (B : incl Input.registry (rev Input.registry))
    by (intros x Hx; apply in_rev; rewrite rev_involutive; exact Hx).
  split; [ exact A | split; [ exact B | ] ].
  exact (detectFormat_order_independent Examples.flac_tag (rev Input.registry) Input.registry
           A (incl_refl _) A B).
Defined.

(** X19: on a stream source [detectFormat] does not return: the first
    registered format's [canRead] throws "Stream source does not support
    random access", whatever formats are registered. *)
Theorem detectFormat_stream_source_throws fs :
  fs <> [] -> incl fs Input.registry ->
  Input.detectFormat fs StreamSource = Throw "Stream source does not support random access".
Proof. apply stream_detect_throws. Qed.

Lemma detectFormat_stream_source_throws_witness :
  Input.registry <> [] /\ incl Input.registry Input.registry
  /\ Input.detectFormat Input.registry StreamSource
     = Throw "Stream source does not support random access".
Proof.
  assert (N : Input.registry <> []) by (cbn; discriminate).
  split; [ exact N | split; [ apply incl_refl | ] ].
  exact (detectFormat_stream_source_throws Input.registry N (incl_refl _)).
Defined.

(** ** The muxers *)

(** X20: an MP3 session (one track added, the packets written, [finalize])
    on a buffer target returns the packets' bytes in order, nothing added,
    whatever the track's configuration. *)
Theorem mp3_session_output cfg ps :
  fst (Session.run cfg ps (Mp3Muxer.new BufferTarget)) = Ok (List.concat (map pkt_data ps)).
Proof. apply mp3_session. Qed.


(** X22: the header [createAdtsHeader] builds is read back by
    [parseAdtsHeader] with the profile, the sampling index and the channel
    configuration it was given; the frame length comes back modulo 2^13,
    and a header whose 13-bit length field is below 7 is rejected. *)
Theorem adts_header_roundtrip p s c fl rest :
  0 <= p < 4 -> 0 <= s <= 12 -> 0 <= c < 8 -> 0 <= fl < 2 ^ 31 ->
  Adts.parseAdtsHeader (Aac.createAdtsHeader p s c fl ++ rest) 0
  = if fl mod 8192 <? 7 then None
    else Some {| Adts.syncWord := 0xFFF; Adts.id := 0; Adts.layer := 0;
                 Adts.protectionAbsent := true;
                 Adts.profile := p; Adts.samplingFrequencyIndex := s;
                 Adts.privateBit := false;
                 Adts.channelConfiguration := c;
                 Adts.originalCopy := false; Adts.home := false;
                 Adts.copyrightIdBit := false; Adts.copyrightIdStart := false;
                 Adts.frameLength := fl mod 8192; Adts.bufferFullness := 0x7FF;
                 Adts.numberOfRawDataBlocksInFrame := 0; Adts.crcCheck := None |}.
Proof. intros Hp Hs Hc Hfl. apply parse_created; lia. Qed.

Lemma adts_header_roundtrip_witness :
  (0 <= 1 < 4) /\ (0 <= 3 <= 12) /\ (0 <= 2 < 8) /\ (0 <= 8199 < 2 ^ 31)
  /\ option_map Adts.frameLength
       (Adts.parseAdtsHeader (Aac.createAdtsHeader 1 3 2 8199 ++ []) 0) = Some 7.
Proof.
  split; [ lia | split; [ lia | split; [ lia | split; [ lia | ] ] ] ].
  rewrite (adts_header_roundtrip 1 3 2 8199 []) by lia.
  reflexivity.
Defined.

(** X23: a FLAC session on a buffer target writes the tag fLaC, the header
    of a last STREAMINFO block of 34 bytes, the block and the packets; for a
    sample rate below 2^20, 1 to 8 channels, 1 to 32 bits and fewer than
    2^24 packets, the block parses to block sizes 4096, the track's sample
    rate and channels, 4096 samples per packet, and the track's bit depth,
    except that a depth of 32 is read as 16. *)
Theorem flac_session_streaminfo cfg ps :
  let x := Session.flac_fields cfg ps in
  0 <= FlacMuxer.sampleRate x < 2 ^ 20 ->
  1 <= FlacMuxer.channels x <= 8 ->
  1 <= FlacMuxer.bitsPerSample x <= 32 ->
  Z.of_nat (List.length ps) < 2 ^ 24 ->
  exists out,
    fst (Session.run cfg ps (FlacMuxer.new BufferTarget)) = Ok out
    /\ ReaderSpec.bytes_at out 4 4 = map JS.to_u8 [0x80; 0; 0; 34]
    /\ Flac.parseStreamInfo (ReaderSpec.bytes_at out 8 34)
       = Ok {| Flac.minBlockSize := 4096; Flac.maxBlockSize := 4096;
               Flac.minFrameSize := 0; Flac.maxFrameSize := 0;
               Flac.sampleRate := FlacMuxer.sampleRate x;
               Flac.channels := FlacMuxer.channels x;
               Flac.bitsPerSample := if FlacMuxer.bitsPerSample x =? 32 then 16
                                     else FlacMuxer.bitsPerSample x;
               Flac.totalSamples := 4096 * Z.of_nat (List.length ps);
               Flac.md5 := repeat x00 16 |}
    /\ ReaderSpec.bytes_at out 42 (JS.len (List.concat (map pkt_data ps)))
       = List.concat (map pkt_data ps).
Proof.
  intros x Hsr Hch Hbits Hn.
  exact (flac_mux_parse cfg ps Hsr Hch Hbits Hn).
Qed.

Lemma flac_session_streaminfo_witness :
  exists out,
    fst (Session.run Examples.pcm_config Examples.two_packets (FlacMuxer.new BufferTarget))
    = Ok out
    /\ option_map Flac.sampleRate
         (match Flac.parseStreamInfo (ReaderSpec.bytes_at out 8 34) with
          | Ok i => Some i
          | Throw _ => None
          end) = Some 48000.
Proof.
  destruct (flac_session_streaminfo Examples.pcm_config Examples.two_packets)
    as (out & E & _ & P & _).
  - simpl. lia.
  - simpl. lia.
  - simpl. lia.
  - simpl. lia.
  - exists out. split; [ exact E | ]. rewrite P. reflexivity.
Defined.

(** X24: what a WAV session and a FLAC session write on a buffer target is
    detected by [detectFormat] as WAV and as FLAC, whatever the track's
    configuration and the packets, and whichever of the five formats are
    registered besides, in whatever order. *)
Theorem wav_and_flac_output_detected cfg ps fs :
  incl fs Input.registry ->
  (In Input.WAV fs ->
   exists out,
     fst (Session.run cfg ps (WavMuxer.new BufferTarget)) = Ok out
     /\ Input.detectFormat fs (BufferSource out) = Ok (Some Input.WAV))
  /\ (In Input.FLAC fs ->
      exists out,
        fst (Session.run cfg ps (FlacMuxer.new BufferTarget)) = Ok out
        /\ Input.detectFormat fs (BufferSource out) = Ok (Some Input.FLAC)).
Proof.
  intros Hfs. split; intros Hin.
  - apply wav_session_detected; assumption.
  - apply flac_session_detected; assumption.
Qed.

Lemma wav_and_flac_output_detected_witness :
  incl Input.registry Input.registry /\ In Input.WAV Input.registry
  /\ exists out,
       fst (Session.run Examples.pcm_config Examples.two_packets (WavMuxer.new BufferTarget))
       = Ok out
       /\ Input.detectFormat Input.registry (BufferSource out) = Ok (Some Input.WAV).
Proof.
  assert (I : In Input.WAV Input.registry) by (simpl; tauto).
  split; [ apply incl_refl | split; [ exact I | ] ].
  exact (proj1 (wav_and_flac_output_detected Examples.pcm_config Examples.two_packets
                  Input.registry (incl_refl _)) I).
Defined.

(** X25: an AAC session whose first packet does not start with the sync
    bits writes a file that [detectFormat] finds to be AAC, whichever of the
    five formats are registered besides. *)
Theorem aac_output_detected cfg p ps fs :
  incl fs Input.registry -> In Input.AAC fs ->
  Aac.hasAdtsHeader (pkt_data p) = false ->
  exists out,
    fst (Session.run cfg (p :: ps) (Aac.new BufferTarget)) = Ok out
    /\ Input.detectFormat fs (BufferSource out) = Ok (Some Input.AAC).
Proof. intros Hfs Hin Hraw. apply aac_session_detected; assumption. Qed.

Lemma aac_output_detected_witness :
  incl Input.registry Input.registry /\ In Input.AAC Input.registry
  /\ Aac.hasAdtsHeader (pkt_data Examples.raw_packet) = false
  /\ exists out,
       fst (Session.run Examples.aac_config [Examples.raw_packet] (Aac.new BufferTarget))
       = Ok out
       /\ Input.detectFormat Input.registry (BufferSource out) = Ok (Some Input.AAC).
Proof.
  assert (I : In Input.AAC Input.registry) by (simpl; tauto).
  assert (H : Aac.hasAdtsHeader (pkt_data Examples.raw_packet) = false)
    by (vm_compute; reflexivity).
  split; [ apply incl_refl | split; [ exact I | split; [ exact H | ] ] ].
  exact (aac_output_detected Examples.aac_config Examples.raw_packet [] Input.registry
           (incl_refl _) I H).
Defined.

(** X26: the file a WAV session writes, demuxed: when the RIFF size fits 32
    bits, [init] of a WAV demuxer over it succeeds; the data chunk it finds
    is the packets' bytes at offset 44, the format is PCM, and channels,
    sample rate and bit depth are those of the track modulo the width of
    their header fields. *)
Theorem wav_session_demuxed cfg ps :
  let x := Session.wav_fields cfg ps in
  let payload := List.concat (map pkt_data ps) in
  36 + JS.len payload < 2 ^ 32 ->
  exists out d,
    fst (Session.run cfg ps (WavMuxer.new BufferTarget)) = Ok out
    /\ ReaderSpec.bytes_at out 44 (JS.len payload) = payload
    /\ Wav.init (Wav.new (BufferSource out)) = (Ok tt, d)
    /\ Wav.dataChunk d = Some {| Wav.chunk_id := Wav.DATA_MAGIC;
                                 Wav.chunk_size := JS.len payload;
                                 Wav.chunk_offset := 44 |}
    /\ Wav.currentPosition d = 44
    /\ exists track,
         Wav._tracks d = [track]
         /\ Wav.at_codec track = "pcm"%string
         /\ Wav.at_channels track = Some (WavMuxer.channels x mod 2 ^ 16)
         /\ Wav.at_sampleRate track = Some (WavMuxer.sampleRate x mod 2 ^ 32)
         /\ Wav.at_bitDepth track = Some (WavMuxer.bitsPerSample x mod 2 ^ 16).
Proof.
  intros x payload Hsize.
  destruct (wav_mux_demux cfg ps Hsize) as (out & r' & E & B & I).
  cbv zeta in I.
  exists out. eexists. split; [ exact E | ]. split; [ exact B | ].
  split; [ exact I | ]. split; [ reflexivity | ]. split; [ reflexivity | ].
  eexists. split; [ reflexivity | ]. repeat split.
Qed.

Lemma wav_session_demuxed_witness :
  36 + JS.len (List.concat (map pkt_data Examples.two_packets)) < 2 ^ 32
  /\ exists out d,
       fst (Session.run Examples.pcm_config Examples.two_packets (WavMuxer.new BufferTarget))
       = Ok out
       /\ Wav.init (Wav.new (BufferSource out)) = (Ok tt, d)
       /\ option_map Wav.chunk_size (Wav.dataChunk d) = Some 12.
Proof.
  assert (H : 36 + JS.len (List.concat (map pkt_data Examples.two_packets)) < 2 ^ 32)
    by (vm_compute; reflexivity).
  split; [ exact H | ].
  destruct (wav_session_demuxed Examples.pcm_config Examples.two_packets H)
    as (out & d & E & _ & I & C & _).
  exists out, d. split; [ exact E | ]. split; [ exact I | ].
  rewrite C. reflexivity.
Defined.

(** X27: [init] of the WAV demuxer on any buffer with the 44-byte layout
    (RIFF, a size field above 28, WAVE, a fmt chunk of 16 bytes, a data
    chunk that runs to the end of the buffer) succeeds; the format it keeps
    is the six little-endian fields stored at offsets 20 to 35, the data
    chunk starts at offset 44 and has the rest of the buffer as its size,
    and no metadata is found. *)
Theorem wav_init_on_plain_layout data riffSize :
  WavLayout.canonical data riffSize -> 28 < riffSize ->
  exists d,
    Wav.init (Wav.new (BufferSource data)) = (Ok tt, d)
    /\ Wav.format d = Some (WavLayout.stored_format data)
    /\ Wav.dataChunk d = Some {| Wav.chunk_id := Wav.DATA_MAGIC;
                                 Wav.chunk_size := JS.len data - 44;
                                 Wav.chunk_offset := 44 |}
    /\ Wav.currentPosition d = 44
    /\ Wav._metadata d = []
    /\ Wav.isRf64 d = false.
Proof.
  intros Hcan Hsize.
  destruct (init_canonical data (proj1 Hcan) riffSize Hcan Hsize) as (r' & E).
  cbv zeta in E.
  eexists. split; [ exact E | ]. repeat split.
Qed.

Lemma wav_init_on_plain_layout_witness :
  WavLayout.canonical Examples.tiny_wav 40 /\ 28 < 40
  /\ exists d,
       Wav.init (Wav.new (BufferSource Examples.tiny_wav)) = (Ok tt, d)
       /\ option_map Wav.chunk_size (Wav.dataChunk d) = Some 4.
Proof.
  assert (H : WavLayout.canonical Examples.tiny_wav 40).
  { unfold WavLayout.canonical, Magic.tag_at.
    repeat split; try (vm_compute; reflexivity). vm_compute. discriminate. }
  split; [ exact H | split; [ lia | ] ].
  destruct (wav_init_on_plain_layout Examples.tiny_wav 40 H ltac:(lia))
    as (d & E & _ & C & _).
  exists d. split; [ exact E | ]. rewrite C. reflexivity.
Defined.

(** X28: [init] of the WAV demuxer on a buffer that starts with neither
    RIFF nor RF64 throws "Invalid WAV file: missing RIFF/RF64 header"; on a
    buffer that starts with RIFF but has no WAVE at offset 8 it throws
    "Invalid WAV file: missing WAVE identifier".  Buffers too short to hold
    the tags are among them. *)
Theorem wav_init_rejects_missing_tags data :
  (~ Magic.tag_at data 0 "RIFF" -> ~ Magic.tag_at data 0 "RF64" ->
   fst (Wav.init (Wav.new (BufferSource data)))
   = Throw "Invalid WAV file: missing RIFF/RF64 header")
  /\ (Magic.tag_at data 0 "RIFF" -> ~ Magic.tag_at data 8 "WAVE" ->
      fst (Wav.init (Wav.new (BufferSource data)))
      = Throw "Invalid WAV file: missing WAVE identifier").
Proof. split; [ apply init_no_riff | apply init_no_wave ]. Qed.

Lemma wav_init_rejects_missing_tags_witness :
  ~ Magic.tag_at Examples.flac_tag 0 "RIFF" /\ ~ Magic.tag_at Examples.flac_tag 0 "RF64"
  /\ fst (Wav.init (Wav.new (BufferSource Examples.flac_tag)))
     = Throw "Invalid WAV file: missing RIFF/RF64 header".
Proof.
  assert (A : ~ Magic.tag_at Examples.flac_tag 0 "RIFF") by (vm_compute; discriminate).
  assert (B : ~ Magic.tag_at Examples.flac_tag 0 "RF64") by (vm_compute; discriminate).
  split; [ exact A | split; [ exact B | ] ].
  exact (proj1 (wav_init_rejects_missing_tags Examples.flac_tag) A B).
Defined.

(** X29: [BitReader.peek(count)] with at least [count] bits left returns
    what [readBits(count)] returns and leaves the reader exactly as it was;
    with fewer bits left it throws "End of buffer" and the position is not
    put back: the reader is left with nothing to deliver. *)
Theorem bit_reader_peek count r :
  Bits.reader_ok r -> 0 <= count <= 32 ->
  (count <= JS.len (Bits.pending r) ->
   let v := JS.toInt32 (Bits.value (firstn (Z.to_nat count) (Bits.pending r)) 0) in
   fst (BitReader.readBits count r) = Ok v
   /\ BitReader.peek count r = (Ok v, r))
  /\ (JS.len (Bits.pending r) < count ->
      exists r', BitReader.peek count r = (Throw "End of buffer", r')
                 /\ Bits.pending r' = []).
Proof.
  intros Hr Hc. split; intros Hl.
  - apply peek_enough; assumption.
  - apply peek_short; assumption.
Qed.

Lemma bit_reader_peek_witness :
  Bits.reader_ok (BitReader.new Examples.three_bytes)
  /\ BitReader.peek 8 (BitReader.new Examples.three_bytes)
     = (Ok 10, BitReader.new Examples.three_bytes)
  /\ exists r', BitReader.peek 32 (BitReader.new Examples.three_bytes)
                = (Throw "End of buffer", r')
                /\ Bits.pending r' = [].
Proof.
  assert (H : Bits.reader_ok (BitReader.new Examples.three_bytes))
    by (unfold Bits.reader_ok; simpl; lia).
  split; [ exact H | split ].
  - refine (proj2 (proj1 (bit_reader_peek 8 (BitReader.new Examples.three_bytes) H _) _)).
    + lia.
    + vm_compute. discriminate.
  - refine (proj2 (bit_reader_peek 32 (BitReader.new Examples.three_bytes) H _) _).
    + lia.
    + vm_compute. reflexivity.
Defined.

(** ** The base muxer *)

(** X30: for every muxer, once the header has been written, [writePacket]
    for an id that none of its tracks has throws and leaves the writer, the
    tracks, the finalized flag and the fields of the subclass as they
    were. *)
Theorem writePacket_unknown_track_throws {X : Type} {impl : Muxer.Impl X}
        (m : Muxer.t X) id p :
  ~ In id (map track_id (Muxer.tracks m)) ->
  Muxer.headerWritten m = true ->
  exists m',
    Muxer.writePacket id p m = (Throw "Track not found", m')
    /\ Muxer.writer m' = Muxer.writer m
    /\ Muxer.ext m' = Muxer.ext m
    /\ Muxer.tracks m' = Muxer.tracks m
    /\ Muxer.finalized m' = Muxer.finalized m.
Proof.
  intros N H.
  apply find_none_ids in N.
  unfold Muxer.writePacket, Muxer.withLock, Muxer.ensureHeader, finally, bind, modify,
    this, ret, throw.
  cbn [Muxer.headerWritten Muxer.set_mutex]. rewrite H. cbn [negb].
  cbn [Muxer.tracks Muxer.set_mutex]. rewrite N.
  eexists. split; [ reflexivity | ]. repeat split.
Qed.

Lemma writePacket_unknown_track_throws_witness :
  ~ In 2 (map track_id (Muxer.tracks Examples.aac_finalized))
  /\ Muxer.headerWritten Examples.aac_finalized = true
  /\ exists m',
       Muxer.writePacket 2 Examples.raw_packet Examples.aac_finalized
       = (Throw "Track not found", m')
       /\ Muxer.writer m' = Muxer.writer Examples.aac_finalized.
Proof.
  assert (N : ~ In 2 (map track_id (Muxer.tracks Examples.aac_finalized)))
    by (simpl; intros [E | []]; discriminate E).
  assert (H : Muxer.headerWritten Examples.aac_finalized = true) by reflexivity.
  split; [ exact N | split; [ exact H | ] ].
  destruct (writePacket_unknown_track_throws Examples.aac_finalized 2 Examples.raw_packet N H)
    as (m' & E & W & _).
  exists m'. split; [ exact E | exact W ].
Defined.
